(** * The provider-abstraction and resilient-response layer of ai-video-gen

    A shallow embedding of [services/geminiService.ts]: the error
    classifier [isAuthError], the response extractor [safeJSONParse], the
    structured-generation operations [analyzeStory] and [polishStory], and
    the video operation [generateVeoVideo], followed by the properties the
    specification states about them.

    Conventions of the embedding.
    - A JavaScript string is the sequence of its UTF-16 code units: [text]
      is [list N].  String literals of the source are written as Rocq
      string literals and read through the coercion [units].
    - Indices are in [Z], so that the source's [-1] for "not found" is kept.
    - An [async] function is a function from the state of the outside world
      to an outcome and a new world.  The world holds the replies the remote
      services will give, in order, and records every call that was made. *)

From Stdlib Require Import String Ascii List NArith ZArith Lia Bool.
Import ListNotations.

Local Open Scope string_scope.
Local Open Scope N_scope.
Local Open Scope list_scope.

(** ** JavaScript strings *)

Definition text := list N.

Fixpoint units (s : string) : list N :=
  match s with
  | EmptyString => []
  | String a s' => N_of_ascii a :: units s'
  end.

Coercion units : string >-> list.

Definition ch (a : ascii) : N := N_of_ascii a.
Arguments ch a%_char.

(** The double quote, U+0022. *)
Definition quote : N := 34.

(** A string is falsy exactly when it is empty. *)
Definition truthy (s : text) : bool :=
  match s with [] => false | _ :: _ => true end.

(** [s || d] on an optional string: [undefined] and the empty string give
    the default. *)
Definition or_else (s : option text) (d : text) : text :=
  match s with
  | Some (c :: r) => c :: r
  | _ => d
  end.

(** ECMAScript [WhiteSpace] and [LineTerminator]: what [trim] strips and what
    [\s] matches. *)
Definition is_space (c : N) : bool :=
  ((9 <=? c) && (c <=? 13)) || (c =? 32) || (c =? 160) || (c =? 5760)
  || ((8192 <=? c) && (c <=? 8202)) || (c =? 8232) || (c =? 8233)
  || (c =? 8239) || (c =? 8287) || (c =? 12288) || (c =? 65279).

Fixpoint trimStart (l : text) : text :=
  match l with
  | c :: r => if is_space c then trimStart r else l
  | [] => []
  end.

Fixpoint trimEnd (l : text) : text :=
  match l with
  | [] => []
  | c :: r =>
      match trimEnd r with
      | [] => if is_space c then [] else [c]
      | t => c :: t
      end
  end.

Definition trim (l : text) : text := trimEnd (trimStart l).

Fixpoint startsWith (p l : text) : bool :=
  match p, l with
  | [], _ => true
  | a :: p', b :: l' => (a =? b) && startsWith p' l'
  | _ :: _, [] => false
  end.

Fixpoint strip_prefix (p l : text) : option text :=
  match p, l with
  | [], _ => Some l
  | a :: p', b :: l' => if a =? b then strip_prefix p' l' else None
  | _ :: _, [] => None
  end.

(** [l.indexOf(needle)]: the first position, or [-1]. *)
Fixpoint indexOf (needle l : text) : Z :=
  if startsWith needle l then 0%Z
  else match l with
       | [] => (-1)%Z
       | _ :: r =>
           let i := indexOf needle r in
           if (i =? -1)%Z then (-1)%Z else (i + 1)%Z
       end.

(** [l.lastIndexOf(needle)]: the last position, or [-1]. *)
Fixpoint lastIndexOf (needle l : text) : Z :=
  match l with
  | [] => if startsWith needle [] then 0%Z else (-1)%Z
  | _ :: r =>
      let i := lastIndexOf needle r in
      if (i =? -1)%Z then (if startsWith needle l then 0%Z else (-1)%Z)
      else (i + 1)%Z
  end.

Definition includes (needle l : text) : bool :=
  negb (indexOf needle l =? -1)%Z.

(** [l.substring(a, b)]: arguments clamped to [0, length] and swapped when
    out of order. *)
Definition substring (a b : Z) (l : text) : text :=
  let n := Z.of_nat (length l) in
  let a' := Z.min (Z.max a 0) n in
  let b' := Z.min (Z.max b 0) n in
  let lo := Z.min a' b' in
  let hi := Z.max a' b' in
  firstn (Z.to_nat (hi - lo)) (skipn (Z.to_nat lo) l).

(** [toLowerCase] on one code unit: the Basic Latin and Latin-1 capitals.
    Above U+00FF only U+0130 and U+212A lower-case to something that holds a
    Basic Latin letter ("i" followed by U+0307, and "k"); no needle of
    [isAuthError] has a "k" or an "i" before U+0307, so leaving the other
    code units alone does not change what [includes] answers there. *)
Definition lower_unit (c : N) : N :=
  if ((65 <=? c) && (c <=? 90))
     || ((192 <=? c) && (c <=? 222) && negb (c =? 215))
  then c + 32 else c.

Definition toLowerCase (l : text) : text := map lower_unit l.

(** Decimal digits of a natural number, as [String(n)] prints an integer. *)
Fixpoint digits_fuel (fuel : nat) (n : N) (acc : text) : text :=
  match fuel with
  | O => acc
  | S f =>
      let acc' := (48 + n mod 10) :: acc in
      if n / 10 =? 0 then acc' else digits_fuel f (n / 10) acc'
  end.

Definition string_of_N (n : N) : text :=
  digits_fuel (S (N.to_nat (N.log2 n))) n [].

(** ** The two regular expressions of [safeJSONParse] *)

Definition fence : text := "```".

(** [\s*```] anchored at the head of [l]. *)
Fixpoint closes_fence (l : text) : bool :=
  startsWith fence l
  || match l with
     | c :: r => is_space c && closes_fence r
     | [] => false
     end.

(** [([\s\S]*?)\s*```] anchored at the head of [l]: the lazy group grows one
    code unit at a time until the rest of the pattern matches. *)
Fixpoint lazy_group (l : text) : option text :=
  if closes_fence l then Some []
  else match l with
       | c :: r => option_map (cons c) (lazy_group r)
       | [] => None
       end.

(** [\s*([\s\S]*?)\s*```]: the greedy [\s*] takes all it can and gives back
    one code unit at a time when what follows fails. *)
Fixpoint after_spaces (l : text) : option text :=
  match l with
  | c :: r =>
      if is_space c then
        match after_spaces r with
        | Some g => Some g
        | None => lazy_group l
        end
      else lazy_group l
  | [] => lazy_group []
  end.

(** [(?:json)?\s*([\s\S]*?)\s*```]: the optional tag is tried first. *)
Definition after_open (l : text) : option text :=
  match strip_prefix "json" l with
  | Some r =>
      match after_spaces r with
      | Some g => Some g
      | None => after_spaces l
      end
  | None => after_spaces l
  end.

(** [cleaned.match(/```(?:json)?\s*([\s\S]*?)\s*```/)]: the leftmost match;
    the result is capture group 1. *)
Fixpoint match_fence (l : text) : option text :=
  let here :=
    match strip_prefix fence l with
    | Some r => after_open r
    | None => None
    end in
  match here with
  | Some g => Some g
  | None =>
      match l with
      | _ :: r => match_fence r
      | [] => None
      end
  end.

(** [\s*[}\]]] anchored at the head of [l]. *)
Fixpoint closer_ahead (l : text) : bool :=
  match l with
  | c :: r =>
      if (c =? ch "}") || (c =? ch "]") then true
      else is_space c && closer_ahead r
  | [] => false
  end.

(** [cleaned.replace(/,(\s*[}\]])/g, '$1')]: every comma that white space and
    a closer follow is dropped.  A match holds no comma after its first code
    unit, so scanning on from behind the comma finds the same matches as
    scanning on from behind the whole match. *)
Fixpoint drop_trailing_commas (l : text) : text :=
  match l with
  | c :: r =>
      if (c =? ch ",") && closer_ahead r then drop_trailing_commas r
      else c :: drop_trailing_commas r
  | [] => []
  end.

(** ** JSON values, [JSON.parse] and [JSON.stringify] *)

(** A JSON number is kept as the exact decimal [mantissa * 10 ^ exponent],
    with no trailing zero in the mantissa; it is not rounded to binary64.
    Neither target shape holds a number. *)
#[local] Unset Elimination Schemes.
Inductive json : Type :=
| JNull
| JBool (b : bool)
| JNumber (mantissa exponent : Z)
| JString (s : text)
| JArray (items : list json)
| JObject (fields : list (text * json)).
#[local] Set Elimination Schemes.

(** JSON white space: space, tab, line feed, carriage return. *)
Definition is_json_ws (c : N) : bool :=
  (c =? 32) || (c =? 9) || (c =? 10) || (c =? 13).

Fixpoint skip_ws (l : text) : text :=
  match l with
  | c :: r => if is_json_ws c then skip_ws r else l
  | [] => []
  end.

Definition is_digit (c : N) : bool := (48 <=? c) && (c <=? 57).

Definition hex_value (c : N) : option N :=
  if is_digit c then Some (c - 48)
  else if (97 <=? c) && (c <=? 102) then Some (c - 87)
  else if (65 <=? c) && (c <=? 70) then Some (c - 55)
  else None.

Definition hex4 (a b c d : N) : option N :=
  match hex_value a, hex_value b, hex_value c, hex_value d with
  | Some x, Some y, Some z, Some w => Some (((x * 16 + y) * 16 + z) * 16 + w)
  | _, _, _, _ => None
  end.

(** The code unit a one-letter escape stands for. *)
Definition simple_escape (c : N) : option N :=
  if c =? quote then Some (quote)
  else if c =? ch "\" then Some (ch "\")
  else if c =? ch "/" then Some (ch "/")
  else if c =? ch "b" then Some 8
  else if c =? ch "f" then Some 12
  else if c =? ch "n" then Some 10
  else if c =? ch "r" then Some 13
  else if c =? ch "t" then Some 9
  else None.

(** The rest of a string literal, behind its opening quote: the code units
    it denotes and what follows the closing quote. *)
Fixpoint parse_string (l : text) : option (text * text) :=
  match l with
  | [] => None
  | c :: r =>
      if c =? quote then Some ([], r)
      else if c =? ch "\" then
        match r with
        | [] => None
        | e :: r1 =>
            if e =? ch "u" then
              match r1 with
              | h1 :: h2 :: h3 :: h4 :: r2 =>
                  match hex4 h1 h2 h3 h4, parse_string r2 with
                  | Some u, Some (s, rest) => Some (u :: s, rest)
                  | _, _ => None
                  end
              | _ => None
              end
            else
              match simple_escape e, parse_string r1 with
              | Some u, Some (s, rest) => Some (u :: s, rest)
              | _, _ => None
              end
        end
      else if c <? 32 then None
      else
        match parse_string r with
        | Some (s, rest) => Some (c :: s, rest)
        | None => None
        end
  end.

Fixpoint span_digits (l : text) : text * text :=
  match l with
  | c :: r =>
      if is_digit c then let (ds, rest) := span_digits r in (c :: ds, rest)
      else ([], l)
  | [] => ([], [])
  end.

Fixpoint digits_value (acc : Z) (ds : text) : Z :=
  match ds with
  | d :: r => digits_value (acc * 10 + Z.of_N (d - 48)) r
  | [] => acc
  end.

Fixpoint strip_zeros (rev_ds : text) (e : Z) : text * Z :=
  match rev_ds with
  | d :: r => if d =? 48 then strip_zeros r (e + 1) else (rev_ds, e)
  | [] => ([], 0%Z)
  end.

(** The decimal [sign ds * 10 ^ e], trailing zeros moved to the exponent. *)
Definition decimal (negative : bool) (ds : text) (e : Z) : json :=
  let (rs, e') := strip_zeros (rev ds) e in
  let m := digits_value 0 (rev rs) in
  if (m =? 0)%Z then JNumber 0 0
  else JNumber (if negative then - m else m) e'.

(** A number literal: an optional minus; a zero, or a non-zero digit and
    more digits; optionally a point and digits; optionally an exponent. *)
Definition parse_number (l : text) : option (json * text) :=
  let (negative, l0) :=
    match l with
    | c :: r => if c =? ch "-" then (true, r) else (false, l)
    | [] => (false, l)
    end in
  let (int, l1) :=
    match l0 with
    | c :: r => if c =? 48 then ([c], r) else span_digits l0
    | [] => ([], [])
    end in
  match int with
  | [] => None
  | _ :: _ =>
      let frac :=
        match l1 with
        | c :: r =>
            if c =? ch "." then
              match span_digits r with
              | ([], _) => None
              | (fs, l2) => Some (fs, l2)
              end
            else Some ([], l1)
        | [] => Some ([], l1)
        end in
      match frac with
      | None => None
      | Some (fs, l2) =>
          let shift := (- Z.of_nat (length fs))%Z in
          match l2 with
          | c :: r =>
              if (c =? ch "e") || (c =? ch "E") then
                let (eneg, l3) :=
                  match r with
                  | s :: r' =>
                      if s =? ch "-" then (true, r')
                      else if s =? ch "+" then (false, r')
                      else (false, r)
                  | [] => (false, r)
                  end in
                match span_digits l3 with
                | ([], _) => None
                | (es, l4) =>
                    let e := digits_value 0 es in
                    Some (decimal negative (int ++ fs)
                            ((if eneg then - e else e) + shift), l4)
                end
              else Some (decimal negative (int ++ fs) shift, l2)
          | [] => Some (decimal negative (int ++ fs) shift, l2)
          end
      end
  end.

(** Assigning a property: a key that is there keeps its place and takes the
    new value. *)
Fixpoint set_field (k : text) (v : json) (fs : list (text * json))
  : list (text * json) :=
  match fs with
  | [] => [(k, v)]
  | (k', v') :: r =>
      if list_eq_dec N.eq_dec k k' then (k, v) :: r
      else (k', v') :: set_field k v r
  end.

(** Recursive descent.  Of any two nested calls one is made after a code
    unit was read, so [fuel] above twice the length of the input is never
    used up (see [parse_value_fuel]). *)
Fixpoint parse_value (fuel : nat) (l : text) {struct fuel}
  : option (json * text) :=
  match fuel with
  | O => None
  | S f =>
      match skip_ws l with
      | [] => None
      | c :: r =>
          if c =? ch "{" then
            match skip_ws r with
            | c' :: r' =>
                if c' =? ch "}" then Some (JObject [], r')
                else parse_members f [] (c' :: r')
            | [] => None
            end
          else if c =? ch "[" then
            match skip_ws r with
            | c' :: r' =>
                if c' =? ch "]" then Some (JArray [], r')
                else parse_elements f [] (c' :: r')
            | [] => None
            end
          else if c =? quote then
            match parse_string r with
            | Some (s, rest) => Some (JString s, rest)
            | None => None
            end
          else
            match strip_prefix "true" (c :: r),
                  strip_prefix "false" (c :: r),
                  strip_prefix "null" (c :: r) with
            | Some rest, _, _ => Some (JBool true, rest)
            | _, Some rest, _ => Some (JBool false, rest)
            | _, _, Some rest => Some (JNull, rest)
            | None, None, None => parse_number (c :: r)
            end
      end
  end

with parse_elements (fuel : nat) (acc : list json) (l : text) {struct fuel}
  : option (json * text) :=
  match fuel with
  | O => None
  | S f =>
      match parse_value f l with
      | None => None
      | Some (v, r) =>
          match skip_ws r with
          | c :: r' =>
              if c =? ch "," then parse_elements f (v :: acc) r'
              else if c =? ch "]" then Some (JArray (rev (v :: acc)), r')
              else None
          | [] => None
          end
      end
  end

with parse_members (fuel : nat) (acc : list (text * json)) (l : text)
       {struct fuel} : option (json * text) :=
  match fuel with
  | O => None
  | S f =>
      match skip_ws l with
      | q :: r0 =>
          if q =? quote then
            match parse_string r0 with
            | None => None
            | Some (k, r1) =>
                match skip_ws r1 with
                | c :: r2 =>
                    if c =? ch ":" then
                      match parse_value f r2 with
                      | None => None
                      | Some (v, r3) =>
                          match skip_ws r3 with
                          | d :: r4 =>
                              if d =? ch "," then
                                parse_members f (set_field k v acc) r4
                              else if d =? ch "}" then
                                Some (JObject (set_field k v acc), r4)
                              else None
                          | [] => None
                          end
                      end
                    else None
                | [] => None
                end
            end
          else None
      | [] => None
      end
  end.

(** [JSON.parse(l)]: one value, white space around it, nothing else.  [None]
    stands for the [SyntaxError] it throws. *)
Definition JSON_parse (l : text) : option json :=
  match parse_value (S (2 * length l)) l with
  | Some (v, rest) =>
      match skip_ws rest with
      | [] => Some v
      | _ :: _ => None
      end
  | None => None
  end.

Fixpoint join (sep : text) (parts : list text) : text :=
  match parts with
  | [] => []
  | [p] => p
  | p :: rest => p ++ sep ++ join sep rest
  end.

Definition hex_digit (n : N) : N := if n <? 10 then 48 + n else 87 + n.

(** [\uXXXX] with lower-case digits. *)
Definition unicode_escape (c : N) : text :=
  "\u" ++ [hex_digit (c / 4096 mod 16); hex_digit (c / 256 mod 16);
           hex_digit (c / 16 mod 16); hex_digit (c mod 16)].

Definition is_high_surrogate (c : N) : bool := (55296 <=? c) && (c <=? 56319).
Definition is_low_surrogate (c : N) : bool := (56320 <=? c) && (c <=? 57343).

(** The body of a quoted string: the quote, the backslash and the control
    characters are escaped, and so is a surrogate that has no partner. *)
Fixpoint quote_body (s : text) : text :=
  match s with
  | [] => []
  | c :: r =>
      if c =? quote then "\" ++ [quote] ++ quote_body r
      else if c =? ch "\" then "\\" ++ quote_body r
      else if c =? 8 then "\b" ++ quote_body r
      else if c =? 12 then "\f" ++ quote_body r
      else if c =? 10 then "\n" ++ quote_body r
      else if c =? 13 then "\r" ++ quote_body r
      else if c =? 9 then "\t" ++ quote_body r
      else if c <? 32 then unicode_escape c ++ quote_body r
      else if is_high_surrogate c then
        match r with
        | d :: r' =>
            if is_low_surrogate d then c :: d :: quote_body r'
            else unicode_escape c ++ quote_body r
        | [] => unicode_escape c
        end
      else if is_low_surrogate c then unicode_escape c ++ quote_body r
      else c :: quote_body r
  end.

Definition quote_text (s : text) : text := [quote] ++ quote_body s ++ [quote].

(** [Number::toString] of the decimal [m * 10 ^ e]: plain digits while the
    point lies within 21 places, up to six zeros behind [0.], and the
    exponent form otherwise. *)
Definition number_text (m e : Z) : text :=
  let sign : text := if (m <? 0)%Z then "-" else "" in
  let (rs, e) := strip_zeros (rev (string_of_N (Z.abs_N m))) e in
  let ds := rev rs in
  let k := Z.of_nat (length ds) in
  let n := (k + e)%Z in
  match ds with
  | [] => "0"
  | d :: more =>
      if ((k <=? n) && (n <=? 21))%Z then
        sign ++ ds ++ repeat 48 (Z.to_nat (n - k))
      else if ((0 <? n) && (n <=? 21))%Z then
        sign ++ firstn (Z.to_nat n) ds ++ "." ++ skipn (Z.to_nat n) ds
      else if ((-6 <? n) && (n <=? 0))%Z then
        sign ++ "0." ++ repeat 48 (Z.to_nat (- n)) ++ ds
      else
        sign ++ [d] ++ (if truthy more then "." ++ more else [])
             ++ "e" ++ (if (0 <=? n - 1)%Z then "+" else "-")
             ++ string_of_N (Z.abs_N (n - 1))
  end.

(** [JSON.stringify(v, null, gap)] at the current indentation.  An empty
    [gap] gives the compact form. *)
Fixpoint stringify_at (gap indent : text) (v : json) : text :=
  let inner := indent ++ gap in
  let sep : text := if truthy gap then "," ++ [10] ++ inner else "," in
  let opening : text := if truthy gap then [10] ++ inner else [] in
  let closing : text := if truthy gap then [10] ++ indent else [] in
  let colon : text := if truthy gap then ": " else ":" in
  match v with
  | JNull => "null"
  | JBool true => "true"
  | JBool false => "false"
  | JNumber m e => number_text m e
  | JString s => quote_text s
  | JArray [] => "[]"
  | JArray items =>
      "[" ++ opening ++ join sep (map (stringify_at gap inner) items)
          ++ closing ++ "]"
  | JObject [] => "{}"
  | JObject fields =>
      "{" ++ opening
          ++ join sep (map (fun kv => quote_text (fst kv) ++ colon
                                        ++ stringify_at gap inner (snd kv))
                           fields)
          ++ closing ++ "}"
  end.

Definition JSON_stringify (v : json) : text := stringify_at [] [] v.

Definition JSON_stringify_indent (n : nat) (v : json) : text :=
  stringify_at (repeat 32 n) [] v.

(** ** Thrown values *)

(** The value of a property read off a thrown value, as far as [isAuthError]
    can tell values apart. *)
Inductive JsValue : Type :=
| JsUndefined
| JsNum (n : Z)
| JsStr (s : text)
| JsOther.

(** A thrown value: its [message] property when that is a string, what its
    [toString()] returns, and its [status] and [code] properties. *)
Record JsError : Type := mkJsError {
  message : option text;
  toString : text;
  status : JsValue;
  code : JsValue
}.

(** [new Error(msg)] *)
Definition Error (msg : text) : JsError :=
  {| message := Some msg;
     toString := if truthy msg then "Error: " ++ msg else "Error";
     status := JsUndefined;
     code := JsUndefined |}.

Inductive Completion (A : Type) : Type :=
| Returns (a : A)
| Throws (e : JsError).
Arguments Returns {A} a.
Arguments Throws {A} e.

Definition text_eqb (a b : text) : bool :=
  if list_eq_dec N.eq_dec a b then true else false.

(** [v === "NOT_FOUND"] and [v === 404] *)
Definition is_string (v : JsValue) (s : text) : bool :=
  match v with JsStr s' => text_eqb s' s | _ => false end.

Definition is_number (v : JsValue) (n : Z) : bool :=
  match v with JsNum n' => (n' =? n)%Z | _ => false end.

(** ** Google specific helpers *)

Definition isAuthError (e : JsError) : bool :=
  let msg := toLowerCase (or_else (message e) (toString e)) in
  includes "requested entity was not found" msg
  || includes "404" msg
  || is_string (status e) "NOT_FOUND"
  || is_number (code e) 404.

(** ** Utilities *)

(** One call of [console.error]: its arguments. *)
Definition ConsoleLine : Type := list text.

Definition malformed_message : text :=
  "Failed to parse model response as JSON. The response might be incomplete or malformed.".

(** Safely parses JSON from LLM output.  The result comes with what the call
    wrote through [console.error]. *)
Definition safeJSONParse (raw : text) : list ConsoleLine * Completion json :=
  let cleaned := trim raw in
  (* 1. markdown code blocks *)
  let markdownMatch := match_fence cleaned in
  let cleaned :=
    match markdownMatch with
    | Some group1 => trim group1
    | None => cleaned
    end in
  (* 2. the JSON object/array boundaries *)
  let firstBrace := indexOf "{" cleaned in
  let firstBracket := indexOf "[" cleaned in
  let lastBrace := lastIndexOf "}" cleaned in
  let lastBracket := lastIndexOf "]" cleaned in
  let bounds :=
    if negb (firstBrace =? -1)%Z
       && ((firstBracket =? -1)%Z || (firstBrace <? firstBracket)%Z)
    then (firstBrace, lastBrace)
    else if negb (firstBracket =? -1)%Z then (firstBracket, lastBracket)
    else ((-1)%Z, (-1)%Z) in
  let start := fst bounds in
  let end_ := snd bounds in
  let cleaned :=
    if negb (start =? -1)%Z && negb (end_ =? -1)%Z && (end_ >? start)%Z
    then substring start (end_ + 1) cleaned
    else cleaned in
  match JSON_parse cleaned with
  | Some v => ([], Returns v)
  | None =>
      (* 3. trailing commas *)
      let fixed := drop_trailing_commas cleaned in
      match JSON_parse fixed with
      | Some v => ([], Returns v)
      | None =>
          ([[units "Failed to parse JSON:"; raw]], Throws (Error malformed_message))
      end
  end.

(** ** Types of the application ([types.ts]) *)

(** A JavaScript number that is handed on unchanged: the decimal
    [mantissa * 10 ^ exponent]. *)
Definition number : Type := (Z * Z)%type.

Inductive Language : Type := en | zh.

Inductive ProviderType : Type :=
| google | openai | ollama | volcengine | qwen | custom.

Definition ProviderType_eqb (a b : ProviderType) : bool :=
  match a, b with
  | google, google | openai, openai | ollama, ollama
  | volcengine, volcengine | qwen, qwen | custom, custom => true
  | _, _ => false
  end.

Record InferenceConfig : Type := {
  temperature : number;
  topP : number;
  maxTokens : number
}.

Record ModelConfig : Type := {
  provider : ProviderType;
  apiKey : text;
  baseUrl : text;
  textModel : text;
  imageModel : option text;
  videoModel : option text;
  inferenceConfig : option InferenceConfig
}.

(** ** The outside world *)

(** The SDK's [Schema] objects, by their [type]. *)
#[local] Unset Elimination Schemes.
Inductive Schema : Type :=
| TypeSTRING (description : option text)
| TypeARRAY (items : Schema)
| TypeOBJECT (properties : list (text * Schema)) (required : list text).
#[local] Set Elimination Schemes.

Inductive HarmCategory : Type :=
| HARM_CATEGORY_HATE_SPEECH
| HARM_CATEGORY_SEXUALLY_EXPLICIT
| HARM_CATEGORY_HARASSMENT
| HARM_CATEGORY_DANGEROUS_CONTENT.

Inductive HarmBlockThreshold : Type := BLOCK_NONE.

Definition SafetySetting : Type := (HarmCategory * HarmBlockThreshold)%type.

Definition SAFETY_SETTINGS : list SafetySetting :=
  [ (HARM_CATEGORY_HATE_SPEECH, BLOCK_NONE);
    (HARM_CATEGORY_SEXUALLY_EXPLICIT, BLOCK_NONE);
    (HARM_CATEGORY_HARASSMENT, BLOCK_NONE);
    (HARM_CATEGORY_DANGEROUS_CONTENT, BLOCK_NONE) ].

(** The argument of [ai.models.generateContent]. *)
Record GenerateContentConfig : Type := {
  responseMimeType : text;
  responseSchema : option Schema;
  gc_temperature : option number;
  gc_topP : option number;
  maxOutputTokens : option number;
  safetySettings : list SafetySetting
}.

Record GenerateContentParameters : Type := {
  gc_model : text;
  contents : text;
  gc_config : GenerateContentConfig
}.

(** What the program reads off the response: [response.text]. *)
Record GenerateContentResponse : Type := {
  response_text : option text
}.

(** The argument of [ai.models.generateVideos]. *)
Record GenerateVideosParameters : Type := {
  gv_model : text;
  gv_prompt : text;
  gv_image : option (text * text);          (* imageBytes, mimeType *)
  numberOfVideos : N;
  resolution : text;
  gv_aspectRatio : text
}.

(** A long-running operation: [done], and
    [response?.generatedVideos?.[0]?.video?.uri]. *)
Record Operation : Type := {
  done : bool;
  video_uri : option text
}.

(** The argument of [fetch]. *)
Record FetchRequest : Type := {
  url : text;
  method : text;
  headers : list (text * text);
  body : option text
}.

(** An HTTP response: its status and its body. *)
Record Response : Type := {
  res_status : N;
  res_body : text
}.

(** [response.ok] *)
Definition ok (r : Response) : bool :=
  (200 <=? res_status r) && (res_status r <=? 299).

(** [window.aistudio], when it is there; [hasSelectedApiKey] tells whether
    that member is there. *)
Record AIStudio : Type := {
  hasSelectedApiKey : bool
}.

(** Every call the program makes to the outside, with the key of the client
    it was made through. *)
Inductive Call : Type :=
| CallGenerateContent (key : text) (p : GenerateContentParameters)
| CallGenerateVideos (key : text) (p : GenerateVideosParameters)
| CallGetVideosOperation (key : text) (op : Operation)
| CallFetch (r : FetchRequest)
| CallOpenSelectKey
| CallSetTimeout (ms : N)
| CallCreateObjectURL (blob : text).

(** The world: what the environment holds, the replies that the services
    will give to the successive calls of each kind, and what was called and
    written so far.  A call whose queue of replies is empty never settles. *)
Record World : Type := mkWorld {
  env_API_KEY : nat -> option text;  (* process.env.API_KEY after n selections *)
  aistudio : option AIStudio;
  generateContent_replies : list (Completion GenerateContentResponse);
  generateVideos_replies : list (Completion Operation);
  getVideosOperation_replies : list (Completion Operation);
  fetch_replies : list (Completion Response);
  openSelectKey_replies : list (Completion unit);
  createObjectURL_replies : list text;
  selections : nat;
  trace : list Call;
  console_error : list ConsoleLine
}.

Inductive Outcome (A : Type) : Type :=
| Resolved (a : A)
| Rejected (e : JsError)
| Pending.
Arguments Resolved {A} a.
Arguments Rejected {A} e.
Arguments Pending {A}.

(** An [async] computation. *)
Definition Async (A : Type) : Type := World -> Outcome A * World.

Definition ret {A} (a : A) : Async A := fun w => (Resolved a, w).

Definition throw {A} (e : JsError) : Async A := fun w => (Rejected e, w).

Definition bind {A B} (m : Async A) (k : A -> Async B) : Async B :=
  fun w =>
    match m w with
    | (Resolved a, w') => k a w'
    | (Rejected e, w') => (Rejected e, w')
    | (Pending, w') => (Pending, w')
    end.

(** [try { m } catch (e) { handler e }] *)
Definition try_catch {A} (m : Async A) (handler : JsError -> Async A)
  : Async A :=
  fun w =>
    match m w with
    | (Rejected e, w') => handler e w'
    | r => r
    end.

Declare Scope async_scope.
Delimit Scope async_scope with async.
Bind Scope async_scope with Async.
Notation "x <- m ;; k" := (bind m (fun x => k))
  (at level 61, m at next level, right associativity) : async_scope.
Notation "m ;; k" := (bind m (fun _ => k))
  (at level 61, right associativity) : async_scope.
Local Open Scope async_scope.

Definition settle {A} (c : Completion A) : Outcome A :=
  match c with
  | Returns a => Resolved a
  | Throws e => Rejected e
  end.

Definition of_completion {A} (c : Completion A) : Async A :=
  fun w => (settle c, w).

Definition record (c : Call) (w : World) : World :=
  mkWorld (env_API_KEY w) (aistudio w) (generateContent_replies w)
    (generateVideos_replies w) (getVideosOperation_replies w)
    (fetch_replies w) (openSelectKey_replies w) (createObjectURL_replies w)
    (selections w) (trace w ++ [c]) (console_error w).

Definition console_error_write (lines : list ConsoleLine) : Async unit :=
  fun w =>
    (Resolved tt,
     mkWorld (env_API_KEY w) (aistudio w) (generateContent_replies w)
       (generateVideos_replies w) (getVideosOperation_replies w)
       (fetch_replies w) (openSelectKey_replies w)
       (createObjectURL_replies w) (selections w) (trace w)
       (console_error w ++ lines)).

(** [process.env.API_KEY] *)
Definition process_env_API_KEY : Async (option text) :=
  fun w => (Resolved (env_API_KEY w (selections w)), w).

(** [window.aistudio] *)
Definition window_aistudio : Async (option AIStudio) :=
  fun w => (Resolved (aistudio w), w).

(** [ai.models.generateContent(p)] through a client made with [key]. *)
Definition generateContent (key : text) (p : GenerateContentParameters)
  : Async GenerateContentResponse :=
  fun w =>
    let w := record (CallGenerateContent key p) w in
    match generateContent_replies w with
    | [] => (Pending, w)
    | r :: rest =>
        (settle r,
         mkWorld (env_API_KEY w) (aistudio w) rest
           (generateVideos_replies w) (getVideosOperation_replies w)
           (fetch_replies w) (openSelectKey_replies w)
           (createObjectURL_replies w) (selections w) (trace w)
           (console_error w))
    end.

(** [ai.models.generateVideos(p)] *)
Definition generateVideos (key : text) (p : GenerateVideosParameters)
  : Async Operation :=
  fun w =>
    let w := record (CallGenerateVideos key p) w in
    match generateVideos_replies w with
    | [] => (Pending, w)
    | r :: rest =>
        (settle r,
         mkWorld (env_API_KEY w) (aistudio w) (generateContent_replies w)
           rest (getVideosOperation_replies w)
           (fetch_replies w) (openSelectKey_replies w)
           (createObjectURL_replies w) (selections w) (trace w)
           (console_error w))
    end.

(** [ai.operations.getVideosOperation({ operation: op })] *)
Definition getVideosOperation (key : text) (op : Operation)
  : Async Operation :=
  fun w =>
    let w := record (CallGetVideosOperation key op) w in
    match getVideosOperation_replies w with
    | [] => (Pending, w)
    | r :: rest =>
        (settle r,
         mkWorld (env_API_KEY w) (aistudio w) (generateContent_replies w)
           (generateVideos_replies w) rest
           (fetch_replies w) (openSelectKey_replies w)
           (createObjectURL_replies w) (selections w) (trace w)
           (console_error w))
    end.

(** [fetch(url, init)] *)
Definition fetch (r : FetchRequest) : Async Response :=
  fun w =>
    let w := record (CallFetch r) w in
    match fetch_replies w with
    | [] => (Pending, w)
    | r :: rest =>
        (settle r,
         mkWorld (env_API_KEY w) (aistudio w) (generateContent_replies w)
           (generateVideos_replies w) (getVideosOperation_replies w)
           rest (openSelectKey_replies w)
           (createObjectURL_replies w) (selections w) (trace w)
           (console_error w))
    end.

(** [window.aistudio.openSelectKey()]: when it resolves, one more selection
    has been made. *)
Definition openSelectKey : Async unit :=
  fun w =>
    let w := record CallOpenSelectKey w in
    match openSelectKey_replies w with
    | [] => (Pending, w)
    | r :: rest =>
        (settle r,
         mkWorld (env_API_KEY w) (aistudio w) (generateContent_replies w)
           (generateVideos_replies w) (getVideosOperation_replies w)
           (fetch_replies w) rest
           (createObjectURL_replies w)
           (match r with Returns _ => S (selections w) | Throws _ => selections w end)
           (trace w) (console_error w))
    end.

(** [new Promise(resolve => setTimeout(resolve, ms))] *)
Definition setTimeout (ms : N) : Async unit :=
  fun w => (Resolved tt, record (CallSetTimeout ms) w).

(** [URL.createObjectURL(blob)] *)
Definition createObjectURL (blob : text) : Async text :=
  fun w =>
    let w := record (CallCreateObjectURL blob) w in
    match createObjectURL_replies w with
    | [] => (Pending, w)
    | r :: rest =>
        (Resolved r,
         mkWorld (env_API_KEY w) (aistudio w) (generateContent_replies w)
           (generateVideos_replies w) (getVideosOperation_replies w)
           (fetch_replies w) (openSelectKey_replies w)
           rest (selections w) (trace w) (console_error w))
    end.

(** A call of [safeJSONParse] from an [async] function. *)
Definition safeJSONParse_async (raw : text) : Async json :=
  let (lines, c) := safeJSONParse raw in
  console_error_write lines ;; of_completion c.

(** [getGoogleClient(apiKey)]: the key the client is made with. *)
Definition getGoogleClient (apiKey : text) : Async text :=
  env <- process_env_API_KEY ;;
  let key := if truthy apiKey then Some apiKey else env in
  match key with
  | Some (c :: r) => ret (c :: r)
  | _ => throw (Error "Google API Key is missing")
  end.

Definition never {A} : Async A := fun w => (Pending, w).

Definition or_default (s d : text) : text := if truthy s then s else d.

Definition is_some {A} (o : option A) : bool :=
  match o with Some _ => true | None => false end.

(** An optional string that is neither [undefined] nor empty. *)
Definition present (o : option text) : bool :=
  match o with Some (_ :: _) => true | _ => false end.

(** A text given line by line. *)
Definition lines (ls : list string) : text := join [10] (map units ls).

Definition field (k : string) (v : json) : text * json := (units k, v).
Definition str (s : string) : json := JString (units s).

(** ** Analysis logic *)

Definition ANALYSIS_JSON_SCHEMA_OBJECT : json :=
  let named (d : json) : json :=
    JObject
      [ field "type" (str "array");
        field "items"
          (JObject
             [ field "type" (str "object");
               field "properties"
                 (JObject
                    [ field "name" (JObject [field "type" (str "string")]);
                      field "description" d ]);
               field "required" (JArray [str "name"; str "description"]) ])
      ] in
  let plain := JObject [field "type" (str "string")] in
  let described (d : string) :=
    JObject [field "type" (str "string"); field "description" (str d)] in
  JObject
    [ field "type" (str "object");
      field "properties"
        (JObject
           [ field "title"
               (described "A creative, catchy title for the story based on its theme");
             field "characters"
               (named (described "Visual appearance description for image generation"));
             field "scenes"
               (JObject
                  [ field "type" (str "array");
                    field "items"
                      (JObject
                         [ field "type" (str "object");
                           field "properties"
                             (JObject
                                [ field "description"
                                    (described "Detailed visual description of the location/setting") ]);
                           field "required" (JArray [str "description"]) ]) ]);
             field "props" (named (described "Visual description of the object"));
             field "animals_plants" (named plain);
             field "others" (named plain);
             field "plot_points"
               (JObject
                  [ field "type" (str "array");
                    field "items"
                      (JObject
                         [ field "type" (str "object");
                           field "properties"
                             (JObject
                                [ field "description"
                                    (described "What happens in this part of the story");
                                  field "suggested_visual"
                                    (described "Detailed video generation prompt including subject, setting, lighting, camera movement, and style") ]);
                           field "required"
                             (JArray [str "description"; str "suggested_visual"]) ]) ])
           ]);
      field "required"
        (JArray [ str "title"; str "characters"; str "scenes"; str "props";
                  str "animals_plants"; str "others"; str "plot_points" ]) ].

Module AnalyzeStoryGoogle.
Section Call.
Variables (storyText : text) (config : ModelConfig) (lang : Language).

Definition schema : Schema :=
  let named (d : option text) : Schema :=
    TypeARRAY
      (TypeOBJECT
         [ (units "name", TypeSTRING None);
           (units "description", TypeSTRING d) ]
         [ units "name"; units "description" ]) in
  TypeOBJECT
    [ (units "title",
       TypeSTRING (Some (units "A creative, catchy title for the story based on its theme")));
      (units "characters",
       named (Some (units "Visual appearance description for image generation")));
      (units "scenes",
       TypeARRAY
         (TypeOBJECT
            [ (units "description",
               TypeSTRING (Some (units "Detailed visual description of the location/setting"))) ]
            [ units "description" ]));
      (units "props", named (Some (units "Visual description of the object")));
      (units "animals_plants", named None);
      (units "others", named None);
      (units "plot_points",
       TypeARRAY
         (TypeOBJECT
            [ (units "description",
               TypeSTRING (Some (units "What happens in this part of the story")));
              (units "suggested_visual",
               TypeSTRING (Some (units "Detailed video generation prompt including subject, setting, lighting, camera movement, and style"))) ]
            [ units "description"; units "suggested_visual" ])) ]
    [ units "title"; units "characters"; units "scenes"; units "props";
      units "animals_plants"; units "others"; units "plot_points" ].

Definition langInstruction : text :=
  match lang with
  | zh => "IMPORTANT: All 'title', 'description' (for assets and plot_points), and 'name' fields MUST be in Chinese (Simplified). HOWEVER, the 'suggested_visual' field MUST remain in English to ensure better compatibility with video generation models."
  | en => "Respond in English."
  end.

Definition prompt : text :=
  lines
    [ "Analyze the following folktale. ";
      "    1. Generate a creative, catchy title for the story.";
      "    2. Extract characters, scenes, props, animals/plants, and key plot points. ";
      "    For descriptions, ensure they are highly visual and suitable for an image generation prompt (e.g., 'Cinematic lighting, detailed texture').";
      "    ";
      "    For the 'suggested_visual' field in plot_points, create a highly detailed prompt for video generation. It MUST include:";
      "    - Detailed description of the visible action.";
      "    - Visual appearance of characters and setting (referencing extracted assets where possible).";
      "    - Lighting (e.g., 'golden hour', 'cinematic', 'dramatic').";
      "    - Camera movement (e.g., 'slow pan', 'zoom', 'static shot').";
      "    - Style (e.g., 'photorealistic', '8k', 'highly detailed', 'folklore style').";
      "";
      "    " ]
  ++ langInstruction
  ++ lines [""; ""; "    Story: "]
  ++ storyText.

(** Attempt 1: Strict JSON Schema Mode *)
Definition strict_request : GenerateContentParameters :=
  {| gc_model := or_default (textModel config) "gemini-2.5-flash";
     contents := prompt;
     gc_config :=
       {| responseMimeType := "application/json";
          responseSchema := Some schema;
          gc_temperature := option_map temperature (inferenceConfig config);
          gc_topP := option_map topP (inferenceConfig config);
          maxOutputTokens := option_map maxTokens (inferenceConfig config);
          safetySettings := SAFETY_SETTINGS |} |}.

(** Attempt 2: Fallback to Prompt-based JSON (No Strict Schema) *)
Definition fallback_request : GenerateContentParameters :=
  {| gc_model := or_default (textModel config) "gemini-2.5-flash";
     contents :=
       prompt
       ++ lines [""; "";
                 "IMPORTANT: Return the result as a valid JSON object matching this structure:";
                 ""]
       ++ JSON_stringify_indent 2 ANALYSIS_JSON_SCHEMA_OBJECT;
     gc_config :=
       {| responseMimeType := "application/json";
          responseSchema := None;
          gc_temperature := option_map temperature (inferenceConfig config);
          gc_topP := option_map topP (inferenceConfig config);
          maxOutputTokens := option_map maxTokens (inferenceConfig config);
          safetySettings := SAFETY_SETTINGS |} |}.

(** The body of the inner [try]. *)
Definition strict (ai : text) : Async json :=
  response <- generateContent ai strict_request ;;
  match response_text response with
  | Some (c :: r) => safeJSONParse_async (c :: r)
  | _ => throw (Error "No analysis generated from Google. Content might be blocked.")
  end.

(** The inner [catch], behind its test for auth errors. *)
Definition fallback (ai : text) : Async json :=
  response <- generateContent ai fallback_request ;;
  match response_text response with
  | Some (c :: r) => safeJSONParse_async (c :: r)
  | _ => throw (Error "No analysis generated from Google (Fallback).")
  end.

(** The body of the outer [try]. *)
Definition protocol (ai : text) : Async json :=
  try_catch (strict ai)
    (fun e => if isAuthError e then throw e (* Bubble up auth errors *)
              else fallback ai).

(** [attempt(isRetry)].  The function calls itself with [isRetry] set, and
    only when [isRetry] is not set: two levels are all there are
    (see [analyze_attempt_fuel]). *)
Fixpoint attempt (fuel : nat) (isRetry : bool) : Async json :=
  match fuel with
  | O => never
  | S f =>
      ai <- getGoogleClient (apiKey config) ;;
      try_catch (protocol ai)
        (fun error =>
           studio <- window_aistudio ;;
           if negb isRetry && isAuthError error && is_some studio then
             openSelectKey ;;
             attempt f true
           else
             console_error_write
               [[units "[Analyze] Google Error:"; toString error]] ;;
             throw error)
  end.

Definition run : Async json := attempt 2 false.
End Call.
End AnalyzeStoryGoogle.

Definition analyzeStoryGoogle (storyText : text) (config : ModelConfig)
  (lang : Language) : Async json :=
  AnalyzeStoryGoogle.run storyText config lang.

(** *** OpenAI-compatible providers *)

(** [s.replace(/\/+$/, '')]: the slashes at the end are dropped. *)
Fixpoint strip_trailing_slashes (l : text) : text :=
  match l with
  | [] => []
  | c :: r =>
      match strip_trailing_slashes r with
      | [] => if c =? ch "/" then [] else [c]
      | t => c :: t
      end
  end.

Fixpoint lookup (k : text) (fs : list (text * json)) : option json :=
  match fs with
  | [] => None
  | (k', v) :: r => if text_eqb k k' then Some v else lookup k r
  end.

(** [v.k] for a property name [k] that no array or string has of its own;
    [None] is [undefined]. *)
Definition prop (k : string) (v : json) : option json :=
  match v with
  | JObject fs => lookup k fs
  | _ => None
  end.

(** [v[0]] *)
Definition index0 (v : json) : option json :=
  match v with
  | JArray (x :: _) => Some x
  | JString (c :: _) => Some (JString [c])
  | JObject fs => lookup "0" fs
  | _ => None
  end.

(** [o?.f]: [undefined] when [o] is [undefined] or [null]. *)
Definition chain (o : option json) (f : json -> option json) : option json :=
  match o with
  | None | Some JNull => None
  | Some v => f v
  end.

Definition TypeError (msg : text) : JsError :=
  {| message := Some msg;
     toString := "TypeError: " ++ msg;
     status := JsUndefined;
     code := JsUndefined |}.

(** The [SyntaxError] of [JSON.parse]; the engine's wording is not kept. *)
Definition SyntaxError : JsError :=
  {| message := Some (units "Unexpected token in JSON");
     toString := "SyntaxError: Unexpected token in JSON";
     status := JsUndefined;
     code := JsUndefined |}.

(** [await response.json()] *)
Definition response_json (r : Response) : Async json :=
  match JSON_parse (res_body r) with
  | Some v => ret v
  | None => throw SyntaxError
  end.

(** [data.choices?.[0]?.message?.content], and what the logging line that
    follows makes of it: [content?.substring(0, 100)] is a call, and throws
    when [content] is neither a string nor [undefined] nor [null]. *)
Definition choice_content (data : json) : Async (option text) :=
  match data with
  | JNull => throw (TypeError "Cannot read properties of null (reading 'choices')")
  | _ =>
      match chain (chain (chain (prop "choices" data) index0) (prop "message"))
                  (prop "content") with
      | None | Some JNull => ret None
      | Some (JString s) => ret (Some s)
      | Some _ => throw (TypeError "content?.substring is not a function")
      end
  end.

(** The properties of a request body that are not [undefined]. *)
Fixpoint defined (fs : list (text * option json)) : list (text * json) :=
  match fs with
  | [] => []
  | (k, Some v) :: r => (k, v) :: defined r
  | (_, None) :: r => defined r
  end.

Definition num (n : number) : json := JNumber (fst n) (snd n).

Definition message_json (role : string) (content : text) : json :=
  JObject [field "role" (str role); field "content" (JString content)].

(** The flags a provider gets on top of the common body. *)
Definition provider_flags (p : ProviderType) : list (text * json) :=
  (match p with
   | openai => [field "response_format" (JObject [field "type" (str "json_object")])]
   | _ => []
   end)
  ++ (match p with
      | ollama => [field "format" (str "json"); field "stream" (JBool false)]
      | _ => []
      end).

Definition chat_body (config : ModelConfig) (messages : list json) : json :=
  JObject
    (defined
       [ (units "model", Some (JString (textModel config)));
         (units "messages", Some (JArray messages));
         (units "temperature",
          option_map num (option_map temperature (inferenceConfig config)));
         (units "top_p",
          option_map num (option_map topP (inferenceConfig config)));
         (units "max_tokens",
          option_map num (option_map maxTokens (inferenceConfig config))) ]
     ++ provider_flags (provider config)).

Definition chat_request (config : ModelConfig) (messages : list json)
  : FetchRequest :=
  {| url := strip_trailing_slashes (baseUrl config) ++ "/chat/completions";
     method := "POST";
     headers :=
       (units "Content-Type", units "application/json")
       :: (if truthy (apiKey config)
           then [(units "Authorization", "Bearer " ++ apiKey config)]
           else []);
     body := Some (JSON_stringify (chat_body config messages)) |}.

Definition analyzeStoryOpenAICompatible (storyText : text)
  (config : ModelConfig) (lang : Language) : Async json :=
  let langInstruction : text :=
    match lang with
    | zh => "All descriptions, titles, and names MUST be in Chinese (Simplified). The 'suggested_visual' field MUST be in English."
    | en => ""
    end in
  let messages :=
    [ message_json "system"
        (lines
           [ "You are a story analysis assistant. Analyze the folktale provided. ";
             "            1. Generate a creative, catchy title for the story.";
             "            2. Extract characters, scenes, props, animals/plants, and key plot points.";
             "            For descriptions, ensure they are highly visual and suitable for image generation.";
             "            ";
             "            For the 'suggested_visual' field in plot_points, create a highly detailed prompt for video generation. It MUST include:";
             "            - Detailed description of the visible action.";
             "            - Visual appearance of characters and setting (referencing extracted assets where possible).";
             "            - Lighting (e.g., 'cinematic', 'dramatic').";
             "            - Camera movement (e.g., 'slow pan', 'zoom').";
             "            - Style (e.g., 'photorealistic', '8k', 'folklore style').";
             "            ";
             "            " ]
         ++ langInstruction
         ++ lines
              [ ""; "";
                "            You MUST respond with valid JSON strictly matching this schema:";
                "            " ]
         ++ JSON_stringify ANALYSIS_JSON_SCHEMA_OBJECT
         ++ lines [""; "            "]);
      message_json "user" storyText ] in
  response <- fetch (chat_request config messages) ;;
  if negb (ok response) then
    let err := res_body response in
    throw (Error ("Model request failed: " ++ string_of_N (res_status response)
                  ++ " " ++ err))
  else
    data <- response_json response ;;
    content <- choice_content data ;;
    match content with
    | Some (c :: r) => safeJSONParse_async (c :: r)
    | _ => throw (Error "Empty response from model")
    end.

Definition analyzeStory (storyText : text) (config : ModelConfig)
  (lang : Language) : Async json :=
  if ProviderType_eqb (provider config) google
  then analyzeStoryGoogle storyText config lang
  else analyzeStoryOpenAICompatible storyText config lang.

(** ** Story polish logic *)

Definition POLISH_JSON_SCHEMA_OBJECT : json :=
  JObject
    [ field "type" (str "object");
      field "properties"
        (JObject
           [ field "critique"
               (JObject
                  [ field "type" (str "string");
                    field "description"
                      (str "Critique of the original story pointing out conflicts, plot holes, or areas for improvement.") ]);
             field "rewritten_story"
               (JObject
                  [ field "type" (str "string");
                    field "description" (str "The rewritten version of the story.") ]);
             field "changes_made"
               (JObject
                  [ field "type" (str "array");
                    field "items" (JObject [field "type" (str "string")]);
                    field "description"
                      (str "List of key changes made to fix the issues.") ]) ]);
      field "required"
        (JArray [str "critique"; str "rewritten_story"; str "changes_made"]) ].

Module PolishStory.
Section Call.
Variables (storyText : text) (config : ModelConfig) (lang : Language).

Definition langInstruction : text :=
  match lang with
  | zh => "OUTPUT INSTRUCTION: Return the 'critique', 'rewritten_story', and 'changes_made' in Chinese (Simplified)."
  | en => "Respond in English."
  end.

Definition prompt : text :=
  lines
    [ "";
      "    Act as a professional story editor and script doctor.";
      "    Analyze the following story draft. Identify:";
      "    1. Logical inconsistencies or plot holes.";
      "    2. Narrative flow issues.";
      "    3. Character motivation conflicts.";
      "    ";
      "    Then, rewrite the story to fix these issues while maintaining the original tone. ";
      "    Make it more engaging and suitable for visual storytelling.";
      "";
      "    " ]
  ++ langInstruction
  ++ lines [""; ""; "    Original Story:"; "    "]
  ++ storyText
  ++ lines [""; "    "].

Definition schema : Schema :=
  TypeOBJECT
    [ (units "critique", TypeSTRING None);
      (units "rewritten_story", TypeSTRING None);
      (units "changes_made", TypeARRAY (TypeSTRING None)) ]
    [ units "critique"; units "rewritten_story"; units "changes_made" ].

(** Attempt 1: Strict *)
Definition strict_request : GenerateContentParameters :=
  {| gc_model := or_default (textModel config) "gemini-2.5-flash";
     contents := prompt;
     gc_config :=
       {| responseMimeType := "application/json";
          responseSchema := Some schema;
          gc_temperature := option_map temperature (inferenceConfig config);
          gc_topP := option_map topP (inferenceConfig config);
          maxOutputTokens := option_map maxTokens (inferenceConfig config);
          safetySettings := SAFETY_SETTINGS |} |}.

(** Attempt 2: Fallback *)
Definition fallback_request : GenerateContentParameters :=
  {| gc_model := or_default (textModel config) "gemini-2.5-flash";
     contents :=
       prompt
       ++ lines [""; "";
                 "IMPORTANT: Return valid JSON matching this structure:";
                 ""]
       ++ JSON_stringify POLISH_JSON_SCHEMA_OBJECT;
     gc_config :=
       {| responseMimeType := "application/json";
          responseSchema := None;
          gc_temperature := option_map temperature (inferenceConfig config);
          gc_topP := option_map topP (inferenceConfig config);
          maxOutputTokens := option_map maxTokens (inferenceConfig config);
          safetySettings := SAFETY_SETTINGS |} |}.

(** The body of the inner [try]. *)
Definition strict (ai : text) : Async json :=
  response <- generateContent ai strict_request ;;
  match response_text response with
  | Some (c :: r) => safeJSONParse_async (c :: r)
  | _ => throw (Error "No polish generated from Google.")
  end.

(** The inner [catch], behind its test for auth errors. *)
Definition fallback (ai : text) : Async json :=
  response <- generateContent ai fallback_request ;;
  match response_text response with
  | Some (c :: r) => safeJSONParse_async (c :: r)
  | _ => throw (Error "No polish generated from Google (Fallback).")
  end.

(** The body of the outer [try]. *)
Definition protocol (ai : text) : Async json :=
  try_catch (strict ai)
    (fun e => if isAuthError e then throw e (* Bubble up auth errors *)
              else fallback ai).

(** [attempt(isRetry)] of the Google branch (see [polish_attempt_fuel]). *)
Fixpoint attempt (fuel : nat) (isRetry : bool) : Async json :=
  match fuel with
  | O => never
  | S f =>
      ai <- getGoogleClient (apiKey config) ;;
      try_catch (protocol ai)
        (fun e =>
           studio <- window_aistudio ;;
           if negb isRetry && isAuthError e && is_some studio then
             openSelectKey ;;
             attempt f true
           else throw e)
  end.

(** The branch of the compatible providers. *)
Definition compatible : Async json :=
  let messages :=
    [ message_json "system"
        (lines
           [ "You are a professional story editor. ";
             "                Analyze the user's story for conflicts and logical errors. Rewrite it to be better.";
             "                " ]
         ++ langInstruction
         ++ lines
              [ "";
                "                Return strictly valid JSON matching this schema:";
                "                " ]
         ++ JSON_stringify POLISH_JSON_SCHEMA_OBJECT);
      message_json "user" storyText ] in
  response <- fetch (chat_request config messages) ;;
  if negb (ok response) then
    throw (Error ("Polish request failed: "
                  ++ string_of_N (res_status response)))
  else
    data <- response_json response ;;
    content <- choice_content data ;;
    match content with
    | Some (c :: r) => safeJSONParse_async (c :: r)
    | _ => throw (Error "Empty response")
    end.

Definition run : Async json :=
  if ProviderType_eqb (provider config) google
  then attempt 2 false
  else compatible.
End Call.
End PolishStory.

Definition polishStory (storyText : text) (config : ModelConfig)
  (lang : Language) : Async json :=
  PolishStory.run storyText config lang.

(** ** Video generation logic (Google Veo only) *)

(** ['16:9' | '9:16'] *)
Inductive AspectRatio : Type := Landscape | Portrait.

Definition aspect_text (a : AspectRatio) : text :=
  match a with
  | Landscape => "16:9"
  | Portrait => "9:16"
  end.

Definition is_word_unit (c : N) : bool :=
  is_digit c || ((97 <=? c) && (c <=? 122)) || ((65 <=? c) && (c <=? 90))
  || (c =? ch "_").

(** [\w+;base64,] anchored at the head of [l], given whether a word
    character was already read: what follows the match. *)
Fixpoint after_subtype (seen : bool) (l : text) : option text :=
  match l with
  | c :: r =>
      if is_word_unit c then after_subtype true r
      else if seen then strip_prefix ";base64," l else None
  | [] => None
  end.

(** [s.replace(/^data:image\/\w+;base64,/, "")] *)
Definition strip_data_uri (s : text) : text :=
  match strip_prefix "data:image/" s with
  | Some r =>
      match after_subtype false r with
      | Some rest => rest
      | None => s
      end
  | None => s
  end.

(** The [while (!operation.done)] loop.  Every turn takes one reply of
    [getVideosOperation], so a [fuel] above the number of replies left is
    never used up (see [poll_fuel]). *)
Fixpoint poll (fuel : nat) (ai : text) (operation : Operation)
  : Async Operation :=
  if done operation then ret operation
  else
    match fuel with
    | O => never
    | S f =>
        setTimeout 5000 ;;
        operation <- getVideosOperation ai operation ;;
        poll f ai operation
    end.

Definition poll_all (ai : text) (operation : Operation) : Async Operation :=
  fun w => poll (S (length (getVideosOperation_replies w))) ai operation w.

Module GenerateVeoVideo.
Section Call.
Variables (prompt : text) (referenceImageBase64 : option text)
          (aspectRatio : AspectRatio) (config : option ModelConfig).

(** The key that [attempt] settles on before it makes its client: [None]
    when there is none. *)
Definition resolve_key : Async (option text) :=
  env <- process_env_API_KEY ;;
  let apiKey :=
    match config with
    | Some c =>
        if ProviderType_eqb (provider c) google && truthy (apiKey c)
        then Some (apiKey c) else env
    | None => env
    end in
  studio <- window_aistudio ;;
  if negb (present apiKey)
     && match studio with
        | Some s => hasSelectedApiKey s
        | None => false
        end
  then
    openSelectKey ;;
    process_env_API_KEY
  else ret apiKey.

Definition modelName : text :=
  or_else (match config with Some c => videoModel c | None => None end)
          "veo-3.1-fast-generate-preview".

Definition submission : GenerateVideosParameters :=
  {| gv_model := modelName;
     gv_prompt := prompt;
     gv_image :=
       match referenceImageBase64 with
       | Some (c :: r) => Some (strip_data_uri (c :: r), units "image/png")
       | _ => None
       end;
     numberOfVideos := 1;
     resolution := "720p";
     gv_aspectRatio := aspect_text aspectRatio |}.

(** The body of the [try]: submission, polling, download. *)
Definition generation (apiKey : text) : Async text :=
  operation <- generateVideos apiKey submission ;;
  operation <- poll_all apiKey operation ;;
  match video_uri operation with
  | Some (c :: r) =>
      let videoUri := c :: r in
      let downloadUrl := videoUri ++ "&key=" ++ apiKey in
      res <- fetch {| url := downloadUrl; method := "GET";
                      headers := []; body := None |} ;;
      let blob := res_body res in
      createObjectURL blob
  | _ => throw (Error "Video generation failed or no URI returned.")
  end.

Fixpoint attempt (fuel : nat) (isRetry : bool) : Async text :=
  match fuel with
  | O => never
  | S f =>
      apiKey <- resolve_key ;;
      match apiKey with
      | Some (c :: r) =>
          let apiKey := c :: r in
          try_catch (generation apiKey)
            (fun e =>
               studio <- window_aistudio ;;
               if negb isRetry && isAuthError e && is_some studio then
                 openSelectKey ;;
                 attempt f true
               else throw e)
      | _ => throw (Error "Google API Key required for Veo video generation.")
      end
  end.

Definition run : Async text := attempt 2 false.
End Call.
End GenerateVeoVideo.

Definition generateVeoVideo (prompt : text)
  (referenceImageBase64 : option text) (aspectRatio : AspectRatio)
  (config : option ModelConfig) : Async text :=
  GenerateVeoVideo.run prompt referenceImageBase64 aspectRatio config.

(** * Vocabulary of the properties *)

(** The text [isAuthError] looks at: [e.message || e.toString()]. *)
Definition error_text (e : JsError) : text :=
  or_else (message e) (toString e).

(** [needle] occurs in [l]. *)
Definition occurs (needle l : text) : Prop :=
  exists pre post, l = pre ++ needle ++ post.

(** [needle], given in lower case, occurs in [l] when case is ignored. *)
Definition occurs_ignoring_case (needle l : text) : Prop :=
  exists pre mid post, l = pre ++ mid ++ post /\ toLowerCase mid = needle.

(** Step 2 of [safeJSONParse]: the cut at the boundaries of the object or
    array. *)
Definition cut (cleaned : text) : text :=
  let firstBrace := indexOf "{" cleaned in
  let firstBracket := indexOf "[" cleaned in
  let lastBrace := lastIndexOf "}" cleaned in
  let lastBracket := lastIndexOf "]" cleaned in
  let bounds :=
    if negb (firstBrace =? -1)%Z
       && ((firstBracket =? -1)%Z || (firstBrace <? firstBracket)%Z)
    then (firstBrace, lastBrace)
    else if negb (firstBracket =? -1)%Z then (firstBracket, lastBracket)
    else ((-1)%Z, (-1)%Z) in
  if negb (fst bounds =? -1)%Z && negb (snd bounds =? -1)%Z
     && (snd bounds >? fst bounds)%Z
  then substring (fst bounds) (snd bounds + 1) cleaned
  else cleaned.

(** What [safeJSONParse] hands to [JSON.parse]: [cleaned] after steps 1
    and 2. *)
Definition candidate (raw : text) : text :=
  let cleaned := trim raw in
  cut match match_fence cleaned with
      | Some group1 => trim group1
      | None => cleaned
      end.

(** The one error [safeJSONParse] throws, and the line it writes. *)
Definition MalformedResponse : JsError := Error malformed_message.

Definition malformed (raw : text) : list ConsoleLine * Completion json :=
  ([[units "Failed to parse JSON:"; raw]], Throws MalformedResponse).

(** A JSON value that is neither an array nor an object. *)
Definition scalar (v : json) : Prop :=
  match v with
  | JArray _ | JObject _ => False
  | _ => True
  end.

(** A reply of a model that declines to answer. *)
Definition refusal : text := "Sorry, I cannot help with that.".

(** What a computation leaves alone when it only talks to the model: the
    environment, the selections made and the replies still to come from the
    key selection. *)
Definition frame (w w' : World) : Prop :=
  aistudio w' = aistudio w
  /\ env_API_KEY w' = env_API_KEY w
  /\ selections w' = selections w
  /\ openSelectKey_replies w' = openSelectKey_replies w.

(** The calls made between two states of the world. *)
Definition since (w w' : World) : list Call :=
  skipn (length (trace w)) (trace w').

Definition is_request (c : Call) : bool :=
  match c with CallGenerateContent _ _ => true | _ => false end.

Definition is_reselection (c : Call) : bool :=
  match c with CallOpenSelectKey => true | _ => false end.

(** How many times the model was asked, and how many times the user was
    asked for a key. *)
Definition requests (t : list Call) : nat := length (filter is_request t).
Definition reselections (t : list Call) : nat :=
  length (filter is_reselection t).

(** The two structured documents, and the parts of their Google protocol. *)
Inductive Document : Type := Analysis | Polish.

Section Parts.
Variables (d : Document) (storyText : text) (config : ModelConfig)
          (lang : Language).

Definition strict_request_of : GenerateContentParameters :=
  match d with
  | Analysis => AnalyzeStoryGoogle.strict_request storyText config lang
  | Polish => PolishStory.strict_request storyText config lang
  end.

Definition fallback_request_of : GenerateContentParameters :=
  match d with
  | Analysis => AnalyzeStoryGoogle.fallback_request storyText config lang
  | Polish => PolishStory.fallback_request storyText config lang
  end.

Definition strict_of : text -> Async json :=
  match d with
  | Analysis => AnalyzeStoryGoogle.strict storyText config lang
  | Polish => PolishStory.strict storyText config lang
  end.

Definition protocol_of : text -> Async json :=
  match d with
  | Analysis => AnalyzeStoryGoogle.protocol storyText config lang
  | Polish => PolishStory.protocol storyText config lang
  end.

(** [attempt(true)], the second attempt. *)
Definition retry_of : Async json :=
  match d with
  | Analysis => AnalyzeStoryGoogle.attempt storyText config lang 1 true
  | Polish => PolishStory.attempt storyText config lang 1 true
  end.

(** The exported operation. *)
Definition operation_of : Async json :=
  match d with
  | Analysis => analyzeStory storyText config lang
  | Polish => polishStory storyText config lang
  end.

End Parts.


(** A configuration of the primary provider, and a world in which the
    strict request is refused for a reason that has nothing to do with the
    key, while the fallback is answered. *)
Definition google_config : ModelConfig :=
  {| provider := google; apiKey := "AIza-test"; baseUrl := "";
     textModel := "gemini-2.5-flash"; imageModel := None; videoModel := None;
     inferenceConfig :=
       Some {| temperature := (7, -1)%Z; topP := (9, -1)%Z;
               maxTokens := (8192, 0)%Z |} |}.

Definition idle : World :=
  mkWorld (fun _ => None) None [] [] [] [] [] [] 0 [] [].

Definition with_generateContent
  (rs : list (Completion GenerateContentResponse)) (w : World) : World :=
  mkWorld (env_API_KEY w) (aistudio w) rs (generateVideos_replies w)
    (getVideosOperation_replies w) (fetch_replies w)
    (openSelectKey_replies w) (createObjectURL_replies w) (selections w)
    (trace w) (console_error w).

Definition with_aistudio (replies : list (Completion unit)) (w : World)
  : World :=
  mkWorld (env_API_KEY w) (Some {| hasSelectedApiKey := true |})
    (generateContent_replies w) (generateVideos_replies w)
    (getVideosOperation_replies w) (fetch_replies w) replies
    (createObjectURL_replies w) (selections w) (trace w) (console_error w).

Definition answer (s : string) : Completion GenerateContentResponse :=
  Returns {| response_text := Some (units s) |}.


(** The same with a key that the provider does not know. *)
Definition key_unknown : World :=
  with_generateContent
    [ Throws (Error "Requested entity was not found."); answer "{}" ] idle.

(** The requests one attempt may make: the strict one, or the strict one
    and the fallback. *)
Definition attempt_requests (d : Document) (storyText : text)
  (config : ModelConfig) (lang : Language) (ai : text) (calls : list Call)
  : Prop :=
  calls = [CallGenerateContent ai (strict_request_of d storyText config lang)]
  \/ calls = [ CallGenerateContent ai (strict_request_of d storyText config lang);
               CallGenerateContent ai (fallback_request_of d storyText config lang) ].

(** A world in which the strict request is refused for its schema, the
    fallback is refused for its key, and the strict request of the second
    attempt is answered; the user can select a key. *)
Definition schema_then_key : World :=
  with_aistudio [Returns tt]
    (with_generateContent
       [ Throws (Error "500 Internal error: schema too complex");
         Throws (Error "Requested entity was not found.");
         answer "{}" ] idle).

(** A world in which the key is refused once and the user can select
    another. *)
Definition key_rotated : World :=
  with_aistudio [Returns tt] key_unknown.

(** The world after the line that [analyzeStory] writes when it gives up;
    [polishStory] writes none. *)
Definition given_up (d : Document) (e : JsError) (w : World) : World :=
  match d with
  | Analysis =>
      snd (console_error_write
             [[units "[Analyze] Google Error:"; toString e]] w)
  | Polish => w
  end.

(** A configuration of an OpenAI-compatible provider, and a world whose
    endpoint answers with a server error. *)
Definition openai_config : ModelConfig :=
  {| provider := openai; apiKey := "sk-test";
     baseUrl := "https://api.openai.com/v1"; textModel := "gpt-4o";
     imageModel := None; videoModel := None; inferenceConfig := None |}.

Definition with_fetch (rs : list (Completion Response)) (w : World) : World :=
  mkWorld (env_API_KEY w) (aistudio w) (generateContent_replies w)
    (generateVideos_replies w) (getVideosOperation_replies w) rs
    (openSelectKey_replies w) (createObjectURL_replies w) (selections w)
    (trace w) (console_error w).

Definition server_error : World :=
  with_fetch
    [Returns {| res_status := 500; res_body := "upstream exploded" |}] idle.

(** A computation that only adds to the record of calls. *)
Definition grows {A} (m : Async A) : Prop :=
  forall w out w', m w = (out, w') -> exists calls, trace w' = trace w ++ calls.

(** ** Vocabulary of the video operation *)

Section VeoParts.
Variables (prompt : text) (referenceImageBase64 : option text)
          (aspectRatio : AspectRatio) (config : option ModelConfig).

Local Abbreviation submission :=
  (GenerateVeoVideo.submission prompt referenceImageBase64 aspectRatio config).

(** The configuration brings a key of its own: it is there, its provider
    is the primary one and its key is not empty. *)
Definition own_key (k : text) : Prop :=
  exists c, config = Some c /\ provider c = google /\ apiKey c = k
            /\ truthy k = true.

Definition no_own_key : Prop := forall k, ~ own_key k.

(** The first attempt fails while the job is submitted, while it is
    polled, or while its result is downloaded. *)
Definition fails_in_submission (key : text) (w : World) (e : JsError)
  (w1 : World) : Prop :=
  generateVideos key submission w = (Rejected e, w1).

Definition fails_in_polling (key : text) (w : World) (e : JsError)
  (w1 : World) : Prop :=
  exists operation wa,
    generateVideos key submission w = (Resolved operation, wa)
    /\ poll_all key operation wa = (Rejected e, w1).

Definition fails_in_download (key : text) (w : World) (e : JsError)
  (w1 : World) : Prop :=
  exists operation wa finished wb c r,
    generateVideos key submission w = (Resolved operation, wa)
    /\ poll_all key operation wa = (Resolved finished, wb)
    /\ video_uri finished = Some (c :: r)
    /\ fetch {| url := (c :: r) ++ "&key=" ++ key; method := "GET";
                headers := []; body := None |} wb = (Rejected e, w1).
End VeoParts.

(** Whether the key selection can be asked for a missing key. *)
Definition reselectable (w : World) : bool :=
  match aistudio w with
  | Some s => hasSelectedApiKey s
  | None => false
  end.

Definition missing_key : JsError :=
  Error "Google API Key required for Veo video generation.".

(** A world with an ambient key in which the job is accepted, the first
    look at it is refused with a 404, the user can select a key, and the
    job submitted again is done at once. *)
Definition poll_refused : World :=
  mkWorld (fun _ => Some (units "AIza-env"))
    (Some {| hasSelectedApiKey := true |})
    []
    [ Returns {| done := false; video_uri := None |};
      Returns {| done := true;
                 video_uri := Some (units "https://video.example/1?alt=media") |} ]
    [ Throws (Error "404 operation not known") ]
    [ Returns {| res_status := 200; res_body := "bytes" |} ]
    [ Returns tt ]
    [ units "blob:1" ]
    0 [] [].

Definition is_submission (c : Call) : bool :=
  match c with CallGenerateVideos _ _ => true | _ => false end.

(** How many times a video job was submitted. *)
Definition submissions (t : list Call) : nat :=
  length (filter is_submission t).

(** Worlds for the key of the video operation: an ambient key and none in
    the configuration; and no key at all until the user has selected one. *)
Definition ambient_key : World :=
  mkWorld (fun _ => Some (units "AIza-env")) None [] [] [] [] [] [] 0 [] [].

Definition key_after_selection : World :=
  mkWorld (fun n => match n with O => None | S _ => Some (units "AIza-new") end)
    (Some {| hasSelectedApiKey := true |}) [] [] [] [] [Returns tt] [] 0 [] [].

Definition openai_with_key : option ModelConfig := Some openai_config.

(** ** Vocabulary of the extraction round trip *)

Definition backtick : N := 96.

(** The text of a JSON object: it opens with a brace and ends with one. *)
Definition object_text (doc : text) : Prop :=
  exists inside, doc = ch "{" :: inside ++ [ch "}"].

Definition spaces (t : text) : Prop := Forall (fun c => is_space c = true) t.

(** [t] holds the opener [o] and, somewhere behind it, the closer [c]. *)
Definition spans (o c : N) (t : text) : Prop :=
  exists a b r, t = a ++ o :: b ++ c :: r.

(** A text in which no brace opens before a brace closes, and no bracket
    opens before a bracket closes: it holds no span that braces or brackets
    delimit. *)
Definition no_span (t : text) : Prop :=
  ~ spans (ch "{") (ch "}") t /\ ~ spans (ch "[") (ch "]") t.

(** [cleaned] after step 1 of [safeJSONParse]: the text trimmed, or what its
    first fenced block holds, trimmed. *)
Definition unfenced (raw : text) : text :=
  match match_fence (trim raw) with
  | Some group1 => trim group1
  | None => trim raw
  end.

(** The code units of a number literal. *)
Definition number_unit (c : N) : bool :=
  is_digit c || (c =? ch "-") || (c =? ch "+") || (c =? ch ".")
  || (c =? ch "e") || (c =? ch "E").

(** Where a reader of JSON text stands: outside the string literals, inside
    one, or inside one behind a backslash. *)
Inductive Lex : Type := Outside | Inside | Escaped.

Definition lex_step (s : Lex) (c : N) : Lex :=
  match s with
  | Outside => if c =? quote then Inside else Outside
  | Inside =>
      if c =? quote then Outside
      else if c =? ch "\" then Escaped else Inside
  | Escaped => Inside
  end.

(** Where the reader stands behind [l], having started in [s]. *)
Definition lex (s : Lex) (l : text) : Lex := fold_left lex_step l s.

(** [l], read from [s] on, holds a comma outside the string literals that
    only white space separates from a closer. *)
Fixpoint dangling (s : Lex) (l : text) : bool :=
  match l with
  | [] => false
  | c :: r =>
      match s with
      | Outside => (c =? ch ",") && closer_ahead r
      | _ => false
      end
      || dangling (lex_step s c) r
  end.

(** What was read leaves the reader outside the string literals and holds
    no dangling comma, whatever follows. *)
Definition transparent (read : text) : Prop :=
  lex Outside read = Outside
  /\ forall k, dangling Outside (read ++ k) = dangling Outside k.

(** What was read does not begin with a closer, whatever follows. *)
Definition begins (read : text) : Prop :=
  forall k, closer_ahead (read ++ k) = false.

(** [t] holds a fenced block: two fences, one behind the other. *)
Definition holds_block (t : text) : Prop :=
  exists a b c, t = a ++ fence ++ b ++ fence ++ c.

(** [doc] is [s] with one comma put in before one of its closers: a brace
    or a bracket that stands outside the string literals of [s], alone or
    behind white space. *)
Definition trailing_comma (s doc : text) : Prop :=
  exists front gap c rest,
    spaces gap
    /\ (c = ch "}" \/ c = ch "]")
    /\ lex Outside front = Outside
    /\ s = front ++ gap ++ c :: rest
    /\ doc = front ++ ch "," :: gap ++ c :: rest.

(** The ways a document reaches the extractor.  Bare: in a reply that holds
    no fenced block, behind a text that holds no opener and before a text
    that holds no closing brace.  Fenced: between the first fence of the
    reply and the fence that comes next, behind a label that holds no opener
    and before a text that holds no closing brace; what stands before the
    block and behind it is free. *)
Definition wrapped (doc raw : text) : Prop :=
  (exists before after,
     raw = before ++ doc ++ after
     /\ ~ In (ch "{") before /\ ~ In (ch "[") before
     /\ ~ In (ch "}") after
     /\ ~ holds_block raw)
  \/ (exists before label trailer after,
        raw = before ++ fence ++ (label ++ doc ++ trailer) ++ fence ++ after
        /\ indexOf fence raw = Z.of_nat (length before)
        /\ indexOf fence ((label ++ doc ++ trailer) ++ fence ++ after)
           = Z.of_nat (length (label ++ doc ++ trailer))
        /\ ~ In (ch "{") label /\ ~ In (ch "[") label
        /\ ~ In (ch "}") trailer).

(** A document of the shape [StoryPolishResponse], as [JSON.stringify]
    writes it, and a reply that cites a source before it. *)
Definition polish_document : json :=
  JObject
    [ field "critique" (str "The crow gives in too soon.");
      field "rewritten_story" (str "A fox flatters a crow, twice.");
      field "changes_made" (JArray [str "Added a second attempt"]) ].

Definition polish_text : text := JSON_stringify polish_document.

Definition reply_with_citation : text :=
  "As noted in [1], the result is: " ++ polish_text.


(** The last code unit of a text that is not white space. *)
Fixpoint last_solid (l : text) : option N :=
  match l with
  | [] => None
  | c :: r =>
      match last_solid r with
      | Some x => Some x
      | None => if is_space c then None else Some c
      end
  end.

(** What [parse_value] read off [l] to leave [r] ends with a code unit that
    is neither white space nor a comma; when that is a closing brace, no
    comma stands before it. *)
Definition ends_well (l r : text) : Prop :=
  exists read x,
    l = read ++ x :: r
    /\ is_space x = false /\ x <> ch ","
    /\ (x = ch "}" -> exists y, last_solid read = Some y /\ y <> ch ",").

Definition closes_object (l r : text) : Prop :=
  exists read y,
    l = read ++ ch "}" :: r /\ last_solid read = Some y /\ y <> ch ",".

Definition closes_array (l r : text) : Prop :=
  exists read, l = read ++ ch "]" :: r.

(** The same document with a comma before the bracket that closes its
    array, in a fenced block between two pieces of prose. *)
Definition comma_in_array : text :=
  removelast (removelast polish_text) ++ [ch ","; ch "]"; ch "}"].

Definition fenced_reply : text :=
  lines ["Here is the `polished` story (see 2]):"; ""]
  ++ fence ++ ("json" ++ [10])
  ++ comma_in_array
  ++ [10] ++ fence
  ++ lines [""; "Tell me if {this} needs changes."].

(** The document, bare, behind prose that holds closers and backticks and
    before prose that holds openers. *)
Definition bare_reply : text :=
  "Done (1] and 2}) as `asked`: " ++ polish_text ++ " [sic] {to be continued".

(** A document with a string that holds a comma before a brace, and a
    document with a string that holds a fenced block. *)
Definition comma_document : json := JObject [field "note" (str "a,}")].

Definition block_document : json :=
  JObject [field "note" (str "use ```json``` here")].

(** The scenario of the specification: an endpoint that answers with one
    choice whose content is the analysis of "The Fox and the Crow". *)
Definition fox_and_crow : json :=
  JObject
    [ field "title" (str "The Fox and the Crow");
      field "characters"
        (JArray [JObject [field "name" (str "Fox");
                          field "description" (str "...")]]);
      field "scenes" (JArray []);
      field "props" (JArray []);
      field "animals_plants" (JArray []);
      field "others" (JArray []);
      field "plot_points"
        (JArray [JObject [field "description" (str "Fox flatters crow");
                          field "suggested_visual" (str "...")]]) ].

Definition mocked_endpoint : World :=
  with_fetch
    [ Returns
        {| res_status := 200;
           res_body :=
             JSON_stringify
               (JObject
                  [ field "choices"
                      (JArray
                         [ JObject
                             [ field "message"
                                 (JObject
                                    [ field "content"
                                        (JString (JSON_stringify fox_and_crow))
                                    ]) ] ]) ]) |} ]
    idle.

From Stdlib Require Import Permutation.

(** * The rest of the service

    [testModelConnection] and [generateAssetImage] of
    [services/geminiService.ts].  They call [generateContent] in two more
    ways and [generateImages]; the world is extended with the replies to
    these calls, and with one record of everything that was called. *)

(** A part of [response.candidates[0].content.parts]: its [text], and its
    [inlineData] with its [mimeType] and [data]. *)
Record InlineData : Type := {
  mimeType : option text;
  data : option text
}.

Record Part : Type := {
  part_text : option text;
  inlineData : option InlineData
}.

(** Every call to the outside, those of the operations above included.
    The client of the fallback is made with [process.env.API_KEY] as it is
    found, so its key may be [undefined]. *)
Inductive Event : Type :=
| Earlier (c : Call)
| CallGenerateContentPlain (key model contents : text)
| CallGenerateContentParts (key : option text) (model prompt : text)
    (safety : list SafetySetting)
| CallGenerateImages (key model prompt : text) (numberOfImages : N)
    (outputMimeType aspectRatio : text).

(** The world of the operations above, the replies of [generateContent] to
    the calls made here, as far as they are read
    ([response.candidates?.[0]?.content?.parts]), the replies of
    [generateImages] ([response.generatedImages?.[0]?.image?.imageBytes]),
    and the record of the calls. *)
Record Browser : Type := mkBrowser {
  world : World;
  parts_replies : list (Completion (option (list Part)));
  generateImages_replies : list (Completion (option text));
  events : list Event
}.

Definition IO (A : Type) : Type := Browser -> Outcome A * Browser.

Definition io_ret {A} (a : A) : IO A := fun b => (Resolved a, b).

Definition io_throw {A} (e : JsError) : IO A := fun b => (Rejected e, b).

Definition io_bind {A B} (m : IO A) (k : A -> IO B) : IO B :=
  fun b =>
    match m b with
    | (Resolved a, b') => k a b'
    | (Rejected e, b') => (Rejected e, b')
    | (Pending, b') => (Pending, b')
    end.

(** [try { m } catch (e) { handler e }] *)
Definition io_try_catch {A} (m : IO A) (handler : JsError -> IO A) : IO A :=
  fun b =>
    match m b with
    | (Rejected e, b') => handler e b'
    | r => r
    end.

Definition io_never {A} : IO A := fun b => (Pending, b).

(** A computation of the operations above, run in this world: what it calls
    is added to the record. *)
Definition lift {A} (m : Async A) : IO A :=
  fun b =>
    let (out, w') := m (world b) in
    (out,
     mkBrowser w' (parts_replies b) (generateImages_replies b)
       (events b ++ map Earlier (since (world b) w'))).

Definition note (e : Event) (b : Browser) : Browser :=
  mkBrowser (world b) (parts_replies b) (generateImages_replies b)
    (events b ++ [e]).

(** The next reply of [generateContent]. *)
Definition next_parts (b : Browser) : Outcome (option (list Part)) * Browser :=
  match parts_replies b with
  | [] => (Pending, b)
  | r :: rest =>
      (settle r,
       mkBrowser (world b) rest (generateImages_replies b) (events b))
  end.

(** [ai.models.generateContent({ model, contents })]; the response is not
    read. *)
Definition generateContent_plain (key model contents : text) : IO unit :=
  fun b =>
    match next_parts (note (CallGenerateContentPlain key model contents) b) with
    | (Resolved _, b') => (Resolved tt, b')
    | (Rejected e, b') => (Rejected e, b')
    | (Pending, b') => (Pending, b')
    end.

(** [ai.models.generateContent({ model, contents: { parts: [{ text }] },
    config: { safetySettings } })] *)
Definition generateContent_parts (key : option text) (model prompt : text)
  (safety : list SafetySetting) : IO (option (list Part)) :=
  fun b => next_parts (note (CallGenerateContentParts key model prompt safety) b).

(** [ai.models.generateImages({ model, prompt, config })] *)
Definition generateImages (key model prompt : text) (numberOfImages : N)
  (outputMimeType aspectRatio : text) : IO (option text) :=
  fun b =>
    let b := note (CallGenerateImages key model prompt numberOfImages
                     outputMimeType aspectRatio) b in
    match generateImages_replies b with
    | [] => (Pending, b)
    | r :: rest =>
        (settle r, mkBrowser (world b) (parts_replies b) rest (events b))
    end.

Declare Scope io_scope.
Delimit Scope io_scope with io.
Bind Scope io_scope with IO.
Notation "x <- m ;; k" := (io_bind m (fun x => k))
  (at level 61, m at next level, right associativity) : io_scope.
Notation "m ;; k" := (io_bind m (fun _ => k))
  (at level 61, right associativity) : io_scope.

(** ** Connection testing *)

Section Connection.
Local Open Scope io_scope.

(** [res.statusText], which comes with a response. *)
Variable statusText : Response -> text.

Definition testModelConnection (config : ModelConfig) : IO bool :=
  io_try_catch
    (if ProviderType_eqb (provider config) google then
       ai <- lift (getGoogleClient (apiKey config)) ;;
       (* Simple generation to test key *)
       generateContent_plain ai
         (or_default (textModel config) "gemini-2.5-flash")
         "Hello, are you there?" ;;
       io_ret true
     else
       let endpoint :=
         strip_trailing_slashes (baseUrl config) ++ "/chat/completions" in
       let headers :=
         (units "Content-Type", units "application/json")
         :: (if truthy (apiKey config)
             then [(units "Authorization", "Bearer " ++ apiKey config)]
             else []) in
       let body :=
         JObject
           [ field "model" (JString (textModel config));
             field "messages" (JArray [message_json "user" "Hello"]);
             field "max_tokens" (JNumber 5 0) ] in
       res <- lift (fetch {| url := endpoint; method := "POST";
                             headers := headers;
                             body := Some (JSON_stringify body) |}) ;;
       if negb (ok res) then io_throw (Error (statusText res))
       else io_ret true)
    (fun e =>
       lift (console_error_write
               [[units "Connection Test Failed"; toString e]]) ;;
       io_ret false).
End Connection.

(** ** Image generation logic *)

(** The first part that holds image data, as a data URI. *)
Fixpoint inline_image (parts : list Part) : option text :=
  match parts with
  | [] => None
  | part :: rest =>
      match inlineData part with
      | Some {| mimeType := mime; data := Some (c :: r) |} =>
          Some ("data:" ++ or_else mime "image/png" ++ ";base64," ++ c :: r)
      | _ => inline_image rest
      end
  end.

(** [parts.filter(p => p.text).map(p => p.text)] *)
Fixpoint texts (parts : list Part) : list text :=
  match parts with
  | [] => []
  | part :: rest =>
      match part_text part with
      | Some (c :: r) => (c :: r) :: texts rest
      | _ => texts rest
      end
  end.

(** [${e.message}] *)
Definition message_text (e : JsError) : text :=
  match message e with
  | Some m => m
  | None => "undefined"
  end.

(** Whether a value read off a JSON document is truthy. *)
Definition json_truthy (v : json) : bool :=
  match v with
  | JNull => false
  | JBool b => b
  | JNumber m _ => negb (m =? 0)%Z
  | JString s => truthy s
  | JArray _ | JObject _ => true
  end.

(** [${v}] for a value read off a JSON document. *)
Fixpoint json_text (v : json) : text :=
  match v with
  | JNull => "null"
  | JBool true => "true"
  | JBool false => "false"
  | JNumber m e => number_text m e
  | JString s => s
  | JArray vs =>
      join ","
        (map (fun x => match x with JNull => [] | _ => json_text x end) vs)
  | JObject _ => "[object Object]"
  end.

Module GenerateAssetImage.
Section Call.
Local Open Scope io_scope.
Variables (description context : text) (negativePrompt : option text)
          (config : ModelConfig).

(* Construct prompt *)
Definition promptText : text :=
  "High quality, cinematic, folklore style illustration of: " ++ description
  ++ ". Context: " ++ context ++ ". Detailed, 8k, masterpiece."
  ++ match negativePrompt with
     | Some n =>
         if truthy n && truthy (trim n)
         then " Ensure the image does not contain: " ++ n ++ "."
         else []
     | None => []
     end.

Definition modelName : text :=
  or_else (imageModel config) "gemini-2.5-flash-image".

(** The body of the [try] of the Google branch. *)
Definition generation (ai : text) : IO text :=
  if includes "imagen" (toLowerCase modelName) then
    (* Use generateImages for Imagen models *)
    b64 <- generateImages ai modelName promptText 1 "image/jpeg" "1:1" ;;
    match b64 with
    | Some (c :: r) => io_ret ("data:image/jpeg;base64," ++ c :: r)
    | _ => io_throw (Error "No image data returned from Imagen.")
    end
  else
    (* Use generateContent for Gemini models *)
    parts <- generateContent_parts (Some ai) modelName promptText
               SAFETY_SETTINGS ;;
    match parts with
    | Some parts =>
        match inline_image parts with
        | Some uri => io_ret uri
        | None =>
            (* Check if there is text refusal *)
            let textParts := join " " (texts parts) in
            if truthy textParts then
              io_throw (Error ("Model refused to generate image: "
                               ++ substring 0 100 textParts ++ "..."))
            else io_throw (Error "No image generated by Gemini (Response empty)")
        end
    | None => io_throw (Error "No image generated by Gemini (Response empty)")
    end.

(** [attempt(isRetry)] of the Google branch; it calls itself only when
    [isRetry] is not set. *)
Fixpoint attempt (fuel : nat) (isRetry : bool) : IO text :=
  match fuel with
  | O => io_never
  | S f =>
      ai <- lift (getGoogleClient (apiKey config)) ;;
      io_try_catch (generation ai)
        (fun e =>
           studio <- lift window_aistudio ;;
           if negb isRetry && isAuthError e && is_some studio then
             lift openSelectKey ;;
             attempt f true
           else
             lift (console_error_write
                     [[units "[ImageGen] Google Error:"; toString e]]) ;;
             io_throw (Error ("Image Generation Failed: " ++ message_text e)))
  end.

(** Whether the branch of OpenAI image generation (DALL-E) is taken. *)
Definition openai_images : bool :=
  ProviderType_eqb (provider config) openai
  || ((ProviderType_eqb (provider config) custom
       || ProviderType_eqb (provider config) qwen
       || ProviderType_eqb (provider config) volcengine)
      && match imageModel config with
         | Some m => includes "dall-e" m
         | None => false
         end).

Definition images_request : FetchRequest :=
  let endpoint :=
    strip_trailing_slashes (baseUrl config) ++ "/images/generations" in
  let headers :=
    [ (units "Content-Type", units "application/json");
      (units "Authorization", "Bearer " ++ apiKey config) ] in
  let body :=
    JObject
      [ field "model" (JString (or_else (imageModel config) "dall-e-3"));
        field "prompt" (JString promptText);
        field "n" (JNumber 1 0);
        field "size" (str "1024x1024");
        field "response_format" (str "b64_json") ] in
  {| url := endpoint; method := "POST"; headers := headers;
     body := Some (JSON_stringify body) |}.

(** [data.data?.[0]?.b64_json], which throws when [data] is [null]. *)
Definition b64_json (data : json) : Async (option json) :=
  match data with
  | JNull => throw (TypeError "Cannot read properties of null (reading 'data')")
  | _ => ret (chain (chain (prop "data" data) index0) (prop "b64_json"))
  end.

Definition openai : IO text :=
  res <- lift (fetch images_request) ;;
  if negb (ok res) then
    io_throw (Error ("OpenAI Image Gen failed: " ++ res_body res))
  else
    data <- lift (response_json res) ;;
    b64 <- lift (b64_json data) ;;
    match b64 with
    | Some v =>
        if json_truthy v then io_ret ("data:image/png;base64," ++ json_text v)
        else io_throw (Error "No image returned from OpenAI")
    | None => io_throw (Error "No image returned from OpenAI")
    end.

(** [attemptFallback(isRetry)] *)
Fixpoint attemptFallback (fuel : nat) (isRetry : bool) : IO text :=
  match fuel with
  | O => io_never
  | S f =>
      key <- lift process_env_API_KEY ;;
      io_try_catch
        (parts <- generateContent_parts key "gemini-2.5-flash-image"
                    promptText SAFETY_SETTINGS ;;
         match match parts with
               | Some parts => inline_image parts
               | None => None
               end with
         | Some uri => io_ret uri
         | None => io_throw (Error "Fallback produced no image")
         end)
        (fun e =>
           studio <- lift window_aistudio ;;
           if negb isRetry && isAuthError e && is_some studio then
             lift openSelectKey ;;
             attemptFallback f true
           else
             lift (console_error_write
                     [[units "Fallback generation failed:"; toString e]]) ;;
             io_throw e)
  end.

Definition run : IO text :=
  (* Google Image Gen *)
  if ProviderType_eqb (provider config) google then attempt 2 false
  (* OpenAI Image Gen (DALL-E) *)
  else if openai_images then openai
  else
    (* Fallback *)
    env <- lift process_env_API_KEY ;;
    if present env then attemptFallback 2 false
    else
      io_throw (Error "Selected provider does not support image generation and no fallback Google key available.").
End Call.
End GenerateAssetImage.

Definition generateAssetImage (description context : text)
  (negativePrompt : option text) (config : ModelConfig) : IO text :=
  GenerateAssetImage.run description context negativePrompt config.

(** * The callers

    The handlers of [App.tsx] and [components/VideoGenerator.tsx] that call
    the operations above, and the handlers of the asset grid and of the
    player.  The page holds the state the handlers read and set; a handler
    runs from its start to its end with the state it found, no other handler
    coming between. *)

Inductive AssetType : Type := CHARACTER | SCENE | PROP | ANIMAL_PLANT | OTHER.

Definition AssetType_eqb (a b : AssetType) : bool :=
  match a, b with
  | CHARACTER, CHARACTER | SCENE, SCENE | PROP, PROP
  | ANIMAL_PLANT, ANIMAL_PLANT | OTHER, OTHER => true
  | _, _ => false
  end.

Record StoryAsset : Type := {
  asset_id : text;
  asset_type : AssetType;
  asset_name : text;
  asset_description : text;
  imageUrl : option text;             (* Base64 or URL *)
  isGenerating : bool;
  asset_negativePrompt : option text
}.

(** ['idle' | 'generating' | 'completed' | 'failed'] *)
Inductive Status : Type := Idle | Generating | Completed | Failed.

Record PlotPoint : Type := {
  plot_id : text;
  plot_description : text;
  referenceAssetId : option text;     (* The ID of the image used as a start frame *)
  customImage : option text;          (* Base64 of uploaded image *)
  plot_aspectRatio : option AspectRatio;
  videoUrl : option text;
  plot_status : Status;
  plot_prompt : text;
  generatedAt : option N
}.

(** A [Partial<PlotPoint>] is the list of the properties it sets. *)
Inductive PlotUpdate : Type :=
| SetDescription (d : text)
| SetReferenceAssetId (i : text)
| SetCustomImage (i : text)
| SetAspectRatio (a : AspectRatio)
| SetVideoUrl (u : text)
| SetStatus (s : Status)
| SetPrompt (p : text)
| SetGeneratedAt (t : N).

Definition update_plot (p : PlotPoint) (u : PlotUpdate) : PlotPoint :=
  match u with
  | SetDescription d =>
      {| plot_id := plot_id p; plot_description := d;
         referenceAssetId := referenceAssetId p; customImage := customImage p;
         plot_aspectRatio := plot_aspectRatio p; videoUrl := videoUrl p;
         plot_status := plot_status p; plot_prompt := plot_prompt p;
         generatedAt := generatedAt p |}
  | SetReferenceAssetId i =>
      {| plot_id := plot_id p; plot_description := plot_description p;
         referenceAssetId := Some i; customImage := customImage p;
         plot_aspectRatio := plot_aspectRatio p; videoUrl := videoUrl p;
         plot_status := plot_status p; plot_prompt := plot_prompt p;
         generatedAt := generatedAt p |}
  | SetCustomImage i =>
      {| plot_id := plot_id p; plot_description := plot_description p;
         referenceAssetId := referenceAssetId p; customImage := Some i;
         plot_aspectRatio := plot_aspectRatio p; videoUrl := videoUrl p;
         plot_status := plot_status p; plot_prompt := plot_prompt p;
         generatedAt := generatedAt p |}
  | SetAspectRatio a =>
      {| plot_id := plot_id p; plot_description := plot_description p;
         referenceAssetId := referenceAssetId p; customImage := customImage p;
         plot_aspectRatio := Some a; videoUrl := videoUrl p;
         plot_status := plot_status p; plot_prompt := plot_prompt p;
         generatedAt := generatedAt p |}
  | SetVideoUrl u =>
      {| plot_id := plot_id p; plot_description := plot_description p;
         referenceAssetId := referenceAssetId p; customImage := customImage p;
         plot_aspectRatio := plot_aspectRatio p; videoUrl := Some u;
         plot_status := plot_status p; plot_prompt := plot_prompt p;
         generatedAt := generatedAt p |}
  | SetStatus s =>
      {| plot_id := plot_id p; plot_description := plot_description p;
         referenceAssetId := referenceAssetId p; customImage := customImage p;
         plot_aspectRatio := plot_aspectRatio p; videoUrl := videoUrl p;
         plot_status := s; plot_prompt := plot_prompt p;
         generatedAt := generatedAt p |}
  | SetPrompt t =>
      {| plot_id := plot_id p; plot_description := plot_description p;
         referenceAssetId := referenceAssetId p; customImage := customImage p;
         plot_aspectRatio := plot_aspectRatio p; videoUrl := videoUrl p;
         plot_status := plot_status p; plot_prompt := t;
         generatedAt := generatedAt p |}
  | SetGeneratedAt t =>
      {| plot_id := plot_id p; plot_description := plot_description p;
         referenceAssetId := referenceAssetId p; customImage := customImage p;
         plot_aspectRatio := plot_aspectRatio p; videoUrl := videoUrl p;
         plot_status := plot_status p; plot_prompt := plot_prompt p;
         generatedAt := Some t |}
  end.

(** [{ ...p, ...updates }] *)
Definition merge_plot (p : PlotPoint) (updates : list PlotUpdate) : PlotPoint :=
  fold_left update_plot updates p.

(** [{ ...a, isGenerating, imageUrl }]; [imageUrl] is left as it is when no
    new one is given. *)
Definition generated (a : StoryAsset) (generating : bool)
  (image : option text) : StoryAsset :=
  {| asset_id := asset_id a; asset_type := asset_type a;
     asset_name := asset_name a; asset_description := asset_description a;
     imageUrl := match image with Some u => Some u | None => imageUrl a end;
     isGenerating := generating;
     asset_negativePrompt := asset_negativePrompt a |}.

(** The page: the browser, the clock ([Date.now()] at its successive
    readings), the messages shown by [alert], and the state of [App]. *)
Record App : Type := mkApp {
  outside : Browser;
  clock : nat -> N;
  readings : nat;
  alerts : list text;
  story : text;
  assets : list StoryAsset;
  plotPoints : list PlotPoint;
  draggedAssetId : option text;
  currentPlayingIndex : option Z
}.

Definition UI (A : Type) : Type := App -> Outcome A * App.

Definition ui_ret {A} (a : A) : UI A := fun s => (Resolved a, s).

Definition ui_bind {A B} (m : UI A) (k : A -> UI B) : UI B :=
  fun s =>
    match m s with
    | (Resolved a, s') => k a s'
    | (Rejected e, s') => (Rejected e, s')
    | (Pending, s') => (Pending, s')
    end.

(** [try { m } catch (e) { handler e }] *)
Definition ui_try_catch {A} (m : UI A) (handler : JsError -> UI A) : UI A :=
  fun s =>
    match m s with
    | (Rejected e, s') => handler e s'
    | r => r
    end.

Declare Scope ui_scope.
Delimit Scope ui_scope with ui.
Bind Scope ui_scope with UI.
Notation "x <- m ;; k" := (ui_bind m (fun x => k))
  (at level 61, m at next level, right associativity) : ui_scope.
Notation "m ;; k" := (ui_bind m (fun _ => k))
  (at level 61, right associativity) : ui_scope.

(** A call of the service from a handler. *)
Definition call {A} (m : IO A) : UI A :=
  fun s =>
    let (out, b') := m (outside s) in
    (out,
     mkApp b' (clock s) (readings s) (alerts s) (story s) (assets s)
       (plotPoints s) (draggedAssetId s) (currentPlayingIndex s)).

(** [Date.now()] *)
Definition Date_now : UI N :=
  fun s =>
    (Resolved (clock s (readings s)),
     mkApp (outside s) (clock s) (S (readings s)) (alerts s) (story s)
       (assets s) (plotPoints s) (draggedAssetId s) (currentPlayingIndex s)).

(** [alert(message)] *)
Definition alert (message : text) : UI unit :=
  fun s =>
    (Resolved tt,
     mkApp (outside s) (clock s) (readings s) (alerts s ++ [message])
       (story s) (assets s) (plotPoints s) (draggedAssetId s)
       (currentPlayingIndex s)).

(** [console.error(error)] *)
Definition console_error_value (error : JsError) : UI unit :=
  call (lift (console_error_write [[toString error]])).

(** [setAssets(prev => f prev)], [setPlotPoints(prev => f prev)],
    [setDraggedAssetId], [setCurrentPlayingIndex] *)
Definition setAssets (f : list StoryAsset -> list StoryAsset) : UI unit :=
  fun s =>
    (Resolved tt,
     mkApp (outside s) (clock s) (readings s) (alerts s) (story s)
       (f (assets s)) (plotPoints s) (draggedAssetId s)
       (currentPlayingIndex s)).

Definition setPlotPoints (f : list PlotPoint -> list PlotPoint) : UI unit :=
  fun s =>
    (Resolved tt,
     mkApp (outside s) (clock s) (readings s) (alerts s) (story s)
       (assets s) (f (plotPoints s)) (draggedAssetId s)
       (currentPlayingIndex s)).

Definition setDraggedAssetId (id : option text) : UI unit :=
  fun s =>
    (Resolved tt,
     mkApp (outside s) (clock s) (readings s) (alerts s) (story s)
       (assets s) (plotPoints s) id (currentPlayingIndex s)).

Definition setCurrentPlayingIndex (i : option Z) : UI unit :=
  fun s =>
    (Resolved tt,
     mkApp (outside s) (clock s) (readings s) (alerts s) (story s)
       (assets s) (plotPoints s) (draggedAssetId s) i).

(** [l.findIndex(p)]: the first position, or [-1]. *)
Fixpoint findIndex {A} (p : A -> bool) (l : list A) : Z :=
  match l with
  | [] => (-1)%Z
  | x :: r =>
      if p x then 0%Z
      else match findIndex p r with
           | Z.neg _ => (-1)%Z
           | i => (i + 1)%Z
           end
  end.

(** [l.splice(i, 1)]: what is left, and what was taken out. *)
Fixpoint splice_out {A} (i : nat) (l : list A) : list A * list A :=
  match i, l with
  | _, [] => ([], [])
  | O, x :: r => (r, [x])
  | S j, x :: r => let (rest, out) := splice_out j r in (x :: rest, out)
  end.

(** [l.splice(i, 0, x)]: [x] put in at [i], or at the end when [l] is
    shorter. *)
Fixpoint splice_in {A} (i : nat) (x : A) (l : list A) : list A :=
  match i, l with
  | O, _ => x :: l
  | S j, y :: r => y :: splice_in j x r
  | S _, [] => [x]
  end.

Section Handlers.
Local Open Scope ui_scope.

(** What the handlers take from their surroundings: the model in use
    ([currentModelConfig]), and the messages of the language in use
    ([txt.failedImage], [txt.failedGenerate]). *)
Variables (currentModelConfig : ModelConfig)
          (failedImage failedGenerate : text).

Definition handleGenerateAsset (id : text) : UI unit :=
  fun s =>
    match find (fun a => text_eqb (asset_id a) id) (assets s) with
    | None => (Resolved tt, s)
    | Some asset =>
        (setAssets
           (map (fun a => if text_eqb (asset_id a) id
                          then generated a true None else a)) ;;
         ui_try_catch
           (imageUrl <- call (generateAssetImage
                                (asset_description asset)
                                (substring 0 200 (story s))
                                (asset_negativePrompt asset)
                                currentModelConfig) ;;
            setAssets
              (map (fun a => if text_eqb (asset_id a) id
                             then generated a false (Some imageUrl) else a)))
           (fun error =>
              console_error_value error ;;
              setAssets
                (map (fun a => if text_eqb (asset_id a) id
                               then generated a false None else a)) ;;
              alert (failedImage ++ ": " ++ asset_name asset ++ " ("
                     ++ message_text error ++ ")"))) s
    end.

Definition handleUpdatePlot (id : text) (updates : list PlotUpdate)
  : UI unit :=
  setPlotPoints
    (map (fun p => if text_eqb (plot_id p) id then merge_plot p updates
                   else p)).

(* Drag and Drop Handlers for Assets *)
Definition handleDrop (targetId : text) : UI unit :=
  fun s =>
    match draggedAssetId s with
    | Some (c :: r) =>
        let dragged := c :: r in
        if text_eqb dragged targetId then (Resolved tt, s)
        else
          let sourceIndex :=
            findIndex (fun a => text_eqb (asset_id a) dragged) (assets s) in
          let targetIndex :=
            findIndex (fun a => text_eqb (asset_id a) targetId) (assets s) in
          if (sourceIndex =? -1)%Z || (targetIndex =? -1)%Z
          then (Resolved tt, s)
          else
            match nth_error (assets s) (Z.to_nat sourceIndex),
                  nth_error (assets s) (Z.to_nat targetIndex) with
            | Some source, Some target =>
                (* Only allow reordering if they are the same type *)
                if negb (AssetType_eqb (asset_type source) (asset_type target))
                then (Resolved tt, s)
                else
                  let (newAssets, moved) :=
                    splice_out (Z.to_nat sourceIndex) (assets s) in
                  let newAssets :=
                    match moved with
                    | movedAsset :: _ =>
                        splice_in (Z.to_nat targetIndex) movedAsset newAssets
                    | [] => newAssets
                    end in
                  (setAssets (fun _ => newAssets) ;;
                   setDraggedAssetId None) s
            | _, _ => (Resolved tt, s)
            end
    | _ => (Resolved tt, s)
    end.

(** [plotPoints.filter(p => p.videoUrl)] *)
Definition validVideos (ps : list PlotPoint) : list PlotPoint :=
  filter (fun p => present (videoUrl p)) ps.

Definition handlePlayAll : UI unit :=
  fun s =>
    if (Z.of_nat (length (validVideos (plotPoints s))) =? 0)%Z
    then (Resolved tt, s)
    else setCurrentPlayingIndex (Some 0%Z) s.

Definition handleVideoEnded : UI unit :=
  fun s =>
    match currentPlayingIndex s with
    | None => (Resolved tt, s)
    | Some i =>
        if (i <? Z.of_nat (length (validVideos (plotPoints s))) - 1)%Z
        then setCurrentPlayingIndex (Some (i + 1)%Z) s
        else setCurrentPlayingIndex None s
    end.

(** ** [VideoGenerator]: one plot point, with the assets, the handler
    [onUpdate] and the language given by [App], and its own state
    [uploadMode]. *)

Inductive UploadMode : Type := FromAsset | FromUpload.

Section VideoGenerator.
Variables (plot : PlotPoint) (assets : list StoryAsset)
          (onUpdate : text -> list PlotUpdate -> UI unit)
          (uploadMode : UploadMode).

(** Determine which image source to use *)
Definition imageBase64 : option text :=
  match uploadMode with
  | FromAsset =>
      match referenceAssetId plot with
      | Some (c :: r) =>
          match find (fun a => text_eqb (asset_id a) (c :: r)) assets with
          | Some a => imageUrl a
          | None => None
          end
      | _ => None
      end
  | FromUpload =>
      match customImage plot with
      | Some (c :: r) => Some (c :: r)
      | _ => None
      end
  end.

Definition handleGenerate : UI unit :=
  onUpdate (plot_id plot) [SetStatus Generating] ;;
  ui_try_catch
    (videoUrl <- call (lift (generateVeoVideo (plot_prompt plot) imageBase64
                               match plot_aspectRatio plot with
                               | Some a => a
                               | None => Landscape
                               end
                               None)) ;;
     (* Save timestamp on completion *)
     now <- Date_now ;;
     onUpdate (plot_id plot)
       [SetStatus Completed; SetVideoUrl videoUrl; SetGeneratedAt now])
    (fun error =>
       console_error_value error ;;
       onUpdate (plot_id plot) [SetStatus Failed] ;;
       alert failedGenerate).
End VideoGenerator.
End Handlers.

(** ** [SettingsModal]: testing the connection of the model that is edited *)

(** ['none' | 'success' | 'error'] *)
Inductive TestResult : Type := TestNone | TestSuccess | TestError.

(** The state of the modal that the handler reads and sets; of the model
    that is edited, what [testModelConnection] reads. *)
Record Modal : Type := mkModal {
  modal_outside : Browser;
  draftModel : option ModelConfig;
  isTesting : bool;
  testResult : TestResult
}.

Section Settings.
Variable statusText : Response -> text.

Definition handleTestConnection (m : Modal) : Outcome unit * Modal :=
  match draftModel m with
  | None => (Resolved tt, m)
  | Some draft =>
      (* setIsTesting(true); setTestResult('none') *)
      match testModelConnection statusText draft (modal_outside m) with
      | (Resolved success, b') =>
          (* setIsTesting(false); setTestResult(success ? 'success' : 'error') *)
          (Resolved tt,
           mkModal b' (draftModel m) false
             (if success then TestSuccess else TestError))
      | (Rejected e, b') => (Rejected e, mkModal b' (draftModel m) true TestNone)
      | (Pending, b') => (Pending, mkModal b' (draftModel m) true TestNone)
      end
  end.
End Settings.

(** * Vocabulary of the further properties *)

(** How many calls of a kind a record holds. *)
Definition count (kind : Call -> bool) (calls : list Call) : nat :=
  length (filter kind calls).

(** Whatever the world, [m] adds to the record of calls, and what it adds
    holds at most [n] calls of the kind. *)
Definition within {A} (kind : Call -> bool) (n : nat) (m : Async A) : Prop :=
  forall w out w',
    m w = (out, w') ->
    exists calls, trace w' = trace w ++ calls /\ (count kind calls <= n)%nat.

Definition is_fetch (c : Call) : bool :=
  match c with CallFetch _ => true | _ => false end.

(** Every look at a video job comes right after a wait of five seconds, and
    there is no other wait. *)
Fixpoint paced (calls : list Call) : bool :=
  match calls with
  | [] => true
  | CallSetTimeout ms :: rest =>
      (ms =? 5000)
      && match rest with
         | CallGetVideosOperation _ _ :: rest' => paced rest'
         | _ => false
         end
  | CallGetVideosOperation _ _ :: _ => false
  | _ :: rest => paced rest
  end.

(** The calls of the polling loop that looks at the jobs [ops] in turn. *)
Definition looks (key : text) (ops : list Operation) : list Call :=
  flat_map (fun op => [CallSetTimeout 5000; CallGetVideosOperation key op]) ops.

Definition unfinished (op : Operation) : Prop := done op = false.

(** A world in which the strict request is refused for its schema and the
    fallback for its key, twice; the user can select a key. *)
Definition four_requests : World :=
  with_aistudio [Returns tt]
    (with_generateContent
       [ Throws (Error "500 Internal error: schema too complex");
         Throws (Error "Requested entity was not found.");
         Throws (Error "500 Internal error: schema too complex");
         Throws (Error "Requested entity was not found.") ] idle).

(** Whatever the world, what [m] adds to the record of calls satisfies
    [P]. *)
Definition obeys {A} (P : list Call -> Prop) (m : Async A) : Prop :=
  forall w out w',
    m w = (out, w') -> exists calls, trace w' = trace w ++ calls /\ P calls.

Definition well_paced (calls : list Call) : Prop := paced calls = true.

(** The download of a finished video. *)
Definition download (uri key : text) : FetchRequest :=
  {| url := uri ++ "&key=" ++ key; method := "GET"; headers := [];
     body := None |}.

(** A world whose video service finishes the job at the second look, and
    whose storage refuses the download. *)
Definition download_refused : World :=
  mkWorld (fun _ => Some (units "AIza-env")) None
    []
    [ Returns {| done := false; video_uri := None |} ]
    [ Returns {| done := false; video_uri := None |};
      Returns {| done := true;
                 video_uri := Some (units "https://video.example/1?alt=media") |} ]
    [ Returns {| res_status := 403; res_body := "{ error: forbidden }" |} ]
    []
    [ units "blob:1" ]
    0 [] [].

(** A world whose video service reports a finished job that holds no
    video. *)
Definition nothing_generated : World :=
  mkWorld (fun _ => Some (units "AIza-env"))
    (Some {| hasSelectedApiKey := true |})
    []
    [ Returns {| done := true; video_uri := None |} ]
    [] [] [Returns tt] [] 0 [] [].

(** A text that ends with a slash. *)
Definition ends_with_slash (s : text) : Prop :=
  exists front, s = front ++ [ch "/"].

(** The characters of the subtype of a data URI: [\w]. *)
Definition word (s : text) : Prop :=
  s <> [] /\ Forall (fun c => is_word_unit c = true) s.

(** A configuration of the primary provider that brings no key. *)
Definition google_without_key : ModelConfig :=
  {| provider := google; apiKey := ""; baseUrl := "";
     textModel := "gemini-2.5-flash"; imageModel := None; videoModel := None;
     inferenceConfig := None |}.

(** A world in which the user could select a key, and has none yet. *)
Definition no_key_yet : World :=
  with_aistudio [Returns tt]
    (with_generateContent [answer "{}"] idle).

(** ** Vocabulary of the connection test and of the image operation *)

(** A browser that has called nothing yet. *)
Definition browser (w : World)
  (parts : list (Completion (option (list Part))))
  (images : list (Completion (option text))) : Browser :=
  mkBrowser w parts images [].

(** The line [console.error] writes for a thrown value. *)
Definition complaint (label : string) (e : JsError) : ConsoleLine :=
  [units label; toString e].

(** The probe of [testModelConnection] on a compatible provider. *)
Definition probe (config : ModelConfig) : FetchRequest :=
  {| url := strip_trailing_slashes (baseUrl config) ++ "/chat/completions";
     method := "POST";
     headers :=
       (units "Content-Type", units "application/json")
       :: (if truthy (apiKey config)
           then [(units "Authorization", "Bearer " ++ apiKey config)]
           else []);
     body :=
       Some (JSON_stringify
               (JObject
                  [ field "model" (JString (textModel config));
                    field "messages" (JArray [message_json "user" "Hello"]);
                    field "max_tokens" (JNumber 5 0) ])) |}.

(** Whether a reply lets the probe through. *)
Definition passes {A} (good : A -> bool) (r : Completion A) : bool :=
  match r with
  | Returns a => good a
  | Throws _ => false
  end.

(** The status text of the common statuses. *)
Definition reason_phrase (r : Response) : text :=
  match res_status r with
  | 401 => "Unauthorized"
  | 404 => "Not Found"
  | 500 => "Internal Server Error"
  | _ => ""
  end.

(** A request for an image, a selection of a key, a request over HTTP. *)
Definition is_image_request (e : Event) : bool :=
  match e with
  | CallGenerateContentParts _ _ _ _ | CallGenerateImages _ _ _ _ _ _ => true
  | _ => false
  end.

Definition is_key_selection (e : Event) : bool :=
  match e with Earlier CallOpenSelectKey => true | _ => false end.

Definition is_http (e : Event) : bool :=
  match e with Earlier (CallFetch _) => true | _ => false end.

Definition tally (kind : Event -> bool) (evs : list Event) : nat :=
  length (filter kind evs).

(** Whatever the browser, [m] adds to the record of calls, and what it adds
    holds at most [n] calls of the kind. *)
Definition io_within {A} (kind : Event -> bool) (n : nat) (m : IO A) : Prop :=
  forall b out b',
    m b = (out, b') ->
    exists evs, events b' = events b ++ evs /\ (tally kind evs <= n)%nat.

(** The head of the prompt of an image. *)
Definition plain_prompt (description context : text) : text :=
  GenerateAssetImage.promptText description context None.

(** The error that the [catch] of the Google branch of [generateAssetImage]
    makes of [cause]: a new error, whose message is the message of [cause]
    behind a fixed head. *)
Definition wrapped_error (cause e : JsError) : Prop :=
  e = Error ("Image Generation Failed: " ++ message_text cause).

(** One attempt of the Google branch at [b] has a key, asks for the image,
    and the request throws [cause], leaving [b1]. *)
Definition image_request_throws (description context : text)
  (negativePrompt : option text) (config : ModelConfig)
  (b : Browser) (cause : JsError) (b1 : Browser) : Prop :=
  exists ai,
    getGoogleClient (apiKey config) (world b) = (Resolved ai, world b)
    /\ GenerateAssetImage.generation description context negativePrompt
         config ai b = (Rejected cause, b1).

(** A provider that has no image generation of its own. *)
Definition ollama_config : ModelConfig :=
  {| provider := ollama; apiKey := ""; baseUrl := "http://localhost:11434/v1";
     textModel := "llama3"; imageModel := Some (units "dall-e-3");
     videoModel := None; inferenceConfig := None |}.

(** What the fallback makes of the reply of the model. *)
Definition fallback_outcome (r : Completion (option (list Part)))
  : Outcome text :=
  match r with
  | Returns (Some parts) =>
      match inline_image parts with
      | Some uri => Resolved uri
      | None => Rejected (Error "Fallback produced no image")
      end
  | Returns None => Rejected (Error "Fallback produced no image")
  | Throws e => Rejected e
  end.

(** The error of a model that answers an image request with words. *)
Definition refused (parts : list Part) : JsError :=
  Error ("Model refused to generate image: "
         ++ substring 0 100 (join " " (texts parts)) ++ "...").

(** A browser with an ambient key. *)
Definition with_ambient_key (parts : list (Completion (option (list Part))))
  : Browser :=
  browser ambient_key parts [].

Definition picture : Part :=
  {| part_text := None;
     inlineData := Some {| mimeType := None;
                           data := Some (units "iVBORw0KGgo=") |} |}.

Definition words (s : string) : Part :=
  {| part_text := Some (units s); inlineData := None |}.

(** Configurations of the primary provider for the two kinds of image
    model. *)
Definition imagen_config : ModelConfig :=
  {| provider := google; apiKey := "AIza-test"; baseUrl := "";
     textModel := "gemini-2.5-flash";
     imageModel := Some (units "Imagen-4.0-generate-001");
     videoModel := None; inferenceConfig := None |}.

(** The reply of an image endpoint that holds one image. *)
Definition dalle_reply : Response :=
  {| res_status := 200;
     res_body :=
       JSON_stringify
         (JObject
            [ field "data"
                (JArray [JObject [field "b64_json" (str "iVBORw0KGgo=")]]) ])
  |}.

Definition dalle_config : ModelConfig :=
  {| provider := custom; apiKey := "";
     baseUrl := "https://images.example/v1/";
     textModel := "any"; imageModel := Some (units "my-dall-e-mirror");
     videoModel := None; inferenceConfig := None |}.

(** ** Vocabulary of the callers *)

(** What a plot point is given when the generation of its video settles,
    or while it does not. *)
Definition plot_after (outcome : Outcome text) (now : N) : list PlotUpdate :=
  match outcome with
  | Resolved url => [SetStatus Completed; SetVideoUrl url; SetGeneratedAt now]
  | Rejected _ => [SetStatus Failed]
  | Pending => [SetStatus Generating]
  end.

(** What an asset is given when the generation of its image settles, or
    while it does not. *)
Definition asset_after (outcome : Outcome text) (a : StoryAsset)
  : StoryAsset :=
  match outcome with
  | Resolved url => generated a false (Some url)
  | Rejected _ => generated a false None
  | Pending => generated a true None
  end.

(** The messages a handler shows when the operation fails. *)
Definition shown (outcome : Outcome text) (message : JsError -> text)
  : list text :=
  match outcome with
  | Rejected e => [message e]
  | _ => []
  end.

(** A handler that ran to its end, or waits for ever. *)
Definition never_throws {A} (outcome : Outcome A) : Prop :=
  match outcome with
  | Rejected _ => False
  | _ => True
  end.

(** [n] times [handleVideoEnded]. *)
Fixpoint ended (n : nat) (s : App) : App :=
  match n with
  | O => s
  | S k => snd (handleVideoEnded (ended k s))
  end.

(** A page with three assets and two plot points, one of which has a
    video. *)
Definition fox : StoryAsset :=
  {| asset_id := "a1"; asset_type := CHARACTER; asset_name := "Fox";
     asset_description := "A red fox"; imageUrl := None;
     isGenerating := false; asset_negativePrompt := None |}.

Definition crow : StoryAsset :=
  {| asset_id := "a2"; asset_type := CHARACTER; asset_name := "Crow";
     asset_description := "A black crow";
     imageUrl := Some (units "data:image/png;base64,iVBORw0KGgo=");
     isGenerating := false; asset_negativePrompt := None |}.

Definition cheese : StoryAsset :=
  {| asset_id := "a3"; asset_type := PROP; asset_name := "Cheese";
     asset_description := "A piece of cheese"; imageUrl := None;
     isGenerating := false; asset_negativePrompt := None |}.

Definition flattery : PlotPoint :=
  {| plot_id := "p1"; plot_description := "Fox flatters crow";
     referenceAssetId := Some (units "a2"); customImage := None;
     plot_aspectRatio := None;
     videoUrl := Some (units "blob:0"); plot_status := Completed;
     plot_prompt := "A fox flatters a crow"; generatedAt := Some 1 |}.

Definition theft : PlotPoint :=
  {| plot_id := "p2"; plot_description := "Fox takes the cheese";
     referenceAssetId := None; customImage := None;
     plot_aspectRatio := Some Portrait;
     videoUrl := None; plot_status := Idle;
     plot_prompt := "The fox runs off"; generatedAt := None |}.

Definition page (b : Browser) : App :=
  mkApp b (fun n => 1700000000000 + N.of_nat n) 0 []
    "A fox flatters a crow." [fox; crow; cheese] [flattery; theft]
    None None.

Definition dragging (id : string) (s : App) : App :=
  mkApp (outside s) (clock s) (readings s) (alerts s) (story s) (assets s)
    (plotPoints s) (Some (units id)) (currentPlayingIndex s).

(** A data URI with a payload in base 64. *)
Definition data_uri (u : text) : Prop :=
  exists mime payload, u = "data:" ++ mime ++ ";base64," ++ payload.

(** A computation that leaves [window.aistudio] as it is. *)
Definition steady {A} (m : Async A) : Prop :=
  forall w out w', m w = (out, w') -> aistudio w' = aistudio w.

(** A world without key selection in which the video model does not know
    the key it is asked with. *)
Definition video_key_unknown : World :=
  mkWorld (fun _ => None) None []
    [Throws (Error "Requested entity was not found.")] [] [] [] [] 0 [] [].

(** A browser without key selection in which the image model does not know
    the key it is asked with. *)
Definition image_key_unknown : Browser :=
  browser idle [Throws (Error "Requested entity was not found.")] [].


(** * Properties *)

(** ** Strings *)

Lemma startsWith_app p r : startsWith p (p ++ r) = true.
Proof.
  induction p as [|a p IH]; simpl; [reflexivity|].
  now rewrite N.eqb_refl, IH.
Qed.

Lemma startsWith_inv p l :
  startsWith p l = true -> exists r, l = p ++ r.
Proof.
  revert l; induction p as [|a p IH]; intros l H; simpl in *.
  - now exists l.
  - destruct l as [|b l]; [discriminate|].
    apply andb_true_iff in H as [Hab Hp].
    apply N.eqb_eq in Hab; subst b.
    destruct (IH _ Hp) as [r ->]. now exists r.
Qed.

Lemma indexOf_startsWith needle l :
  startsWith needle l = true -> indexOf needle l = 0%Z.
Proof. intros H. destruct l; simpl; now rewrite H. Qed.

Lemma indexOf_range needle l :
  (indexOf needle l = -1 \/ 0 <= indexOf needle l < Z.of_nat (S (length l)))%Z.
Proof.
  induction l as [|c l IH]; simpl.
  - destruct (startsWith needle []); lia.
  - destruct (startsWith needle (c :: l)); [lia|].
    destruct (Z.eqb_spec (indexOf needle l) (-1)); lia.
Qed.

Lemma includes_occurs needle l :
  includes needle l = true <-> occurs needle l.
Proof.
  unfold includes, occurs. split.
  - induction l as [|c l IH]; simpl.
    + destruct (startsWith needle []) eqn:E; [|discriminate].
      intros _. apply startsWith_inv in E as [r E]. now exists [], r.
    + destruct (startsWith needle (c :: l)) eqn:E.
      * intros _. apply startsWith_inv in E as [r E]. now exists [], r.
      * destruct (Z.eqb_spec (indexOf needle l) (-1)) as [Hm|Hm];
          [discriminate|].
        intros _. destruct IH as (pre & post & ->).
        { reflexivity. }
        now exists (c :: pre), post.
  - intros (pre & post & ->).
    apply negb_true_iff, Z.eqb_neq.
    induction pre as [|c pre IH]; simpl.
    + rewrite (indexOf_startsWith _ _ (startsWith_app needle post)).
      discriminate.
    + destruct (startsWith needle (c :: pre ++ needle ++ post));
        [discriminate|].
      destruct (Z.eqb_spec (indexOf needle (pre ++ needle ++ post)) (-1));
        [contradiction|].
      destruct (indexOf_range needle (pre ++ needle ++ post)); lia.
Qed.

Lemma toLowerCase_occurs needle l :
  occurs needle (toLowerCase l) <-> occurs_ignoring_case needle l.
Proof.
  unfold occurs, occurs_ignoring_case, toLowerCase. split.
  - intros (pre & post & H).
    apply map_eq_app in H as (l1 & l2 & -> & <- & H).
    apply map_eq_app in H as (l3 & l4 & -> & <- & <-).
    now exists l1, l3, l4.
  - intros (pre & mid & post & -> & <-).
    exists (map lower_unit pre), (map lower_unit post).
    now rewrite !map_app.
Qed.

(** ** The auth-class classifier *)

Lemma is_string_true v s : is_string v s = true <-> v = JsStr s.
Proof.
  unfold is_string, text_eqb. destruct v; try (split; discriminate).
  destruct (list_eq_dec N.eq_dec s0 s) as [->|Hne]; split; intros H;
    try reflexivity; try discriminate.
  injection H as ->. contradiction.
Qed.

Lemma is_number_true v n : is_number v n = true <-> v = JsNum n.
Proof.
  unfold is_number. destruct v; try (split; discriminate).
  rewrite Z.eqb_eq. split; [now intros -> | now intros [= ->]].
Qed.

(** C3, as stated, does not hold: a message that contains "not found"
    without the full phrase of the provider is not auth-class, and neither is
    an error whose [status] is the number 404. *)
Lemma isAuthError_not_found_refuted :
  occurs_ignoring_case "not found" (error_text (Error "File Not Found"))
  /\ isAuthError (Error "File Not Found") = false
  /\ isAuthError
       {| message := Some (units "Gone"); toString := "Error: Gone";
          status := JsNum 404; code := JsUndefined |} = false.
Proof.
  split; [|split; reflexivity].
  exists (units "File "), (units "Not Found"), []. split; reflexivity.
Qed.

(** C3, amended: [isAuthError e] holds exactly when the text of [e] contains,
    whatever the case of its letters, "requested entity was not found" or
    "404", or the [status] of [e] is the string "NOT_FOUND", or its [code] is
    the number 404; and it does not hold of an error whose message is
    "rate limit exceeded". *)
Theorem isAuthError_classifies (e : JsError) :
  (isAuthError e = true <->
     occurs_ignoring_case "requested entity was not found" (error_text e)
     \/ occurs_ignoring_case "404" (error_text e)
     \/ status e = JsStr "NOT_FOUND"
     \/ code e = JsNum 404)
  /\ isAuthError (Error "rate limit exceeded") = false.
Proof.
  split; [|reflexivity].
  unfold isAuthError. fold (error_text e).
  rewrite !orb_true_iff, !includes_occurs, !toLowerCase_occurs,
    is_string_true, is_number_true.
  tauto.
Qed.

(** ** The response extractor *)

Lemma safeJSONParse_candidate raw :
  safeJSONParse raw =
  match JSON_parse (candidate raw) with
  | Some v => ([], Returns v)
  | None =>
      match JSON_parse (drop_trailing_commas (candidate raw)) with
      | Some v => ([], Returns v)
      | None => malformed raw
      end
  end.
Proof. reflexivity. Qed.

(** C7, as stated, does not hold: the error thrown for an unparseable reply
    says nothing of the reply. *)
Lemma safeJSONParse_error_without_raw_text :
  JSON_parse (candidate refusal) = None
  /\ JSON_parse (drop_trailing_commas (candidate refusal)) = None
  /\ snd (safeJSONParse refusal) = Throws MalformedResponse
  /\ includes refusal (error_text MalformedResponse) = false
  /\ status MalformedResponse = JsUndefined
  /\ code MalformedResponse = JsUndefined.
Proof. repeat split; vm_compute; reflexivity. Qed.

(** C7, amended: when the strict parse and the repaired parse both fail,
    [safeJSONParse] throws an error whose message is fixed, the same for
    every input, and writes the raw input text to the error console. *)
Theorem safeJSONParse_malformed (raw : text) :
  JSON_parse (candidate raw) = None ->
  JSON_parse (drop_trailing_commas (candidate raw)) = None ->
  safeJSONParse raw
  = ([[units "Failed to parse JSON:"; raw]], Throws (Error malformed_message)).
Proof.
  intros H1 H2. rewrite safeJSONParse_candidate, H1, H2. reflexivity.
Qed.

Lemma safeJSONParse_malformed_witness :
  safeJSONParse refusal
  = ([[units "Failed to parse JSON:"; refusal]],
     Throws (Error malformed_message)).
Proof.
  apply (safeJSONParse_malformed refusal); vm_compute; reflexivity.
Defined.

(** The steps before the parse only take code units away. *)

Lemma trimStart_incl l : incl (trimStart l) l.
Proof.
  induction l as [|c l IH]; simpl; [apply incl_refl|].
  destruct (is_space c); [now apply incl_tl | apply incl_refl].
Qed.

Lemma trimEnd_incl l : incl (trimEnd l) l.
Proof.
  induction l as [|c l IH]; simpl; [apply incl_refl|].
  destruct (trimEnd l) as [|d t].
  - destruct (is_space c); [apply incl_nil_l|].
    intros x [->|[]]. now left.
  - intros x [->|Hx]; [now left | right; now apply IH].
Qed.

Lemma drop_trailing_commas_incl l : incl (drop_trailing_commas l) l.
Proof.
  induction l as [|c l IH]; simpl; [apply incl_refl|].
  destruct (_ && _).
  - now apply incl_tl.
  - intros x [->|Hx]; [now left | right; now apply IH].
Qed.

Lemma In_occurs (c : N) l : In c l <-> occurs [c] l.
Proof.
  split.
  - intros H. apply in_split in H as (pre & post & ->). now exists pre, post.
  - intros (pre & post & ->). apply in_or_app. right. now left.
Qed.

Lemma includes_false_In (c : N) l : includes [c] l = false <-> ~ In c l.
Proof.
  rewrite In_occurs, <- includes_occurs. now destruct (includes [c] l).
Qed.

(** What [JSON.parse] makes of a text is decided by its first code unit
    that is not white space. *)

Lemma parse_number_scalar l v r : parse_number l = Some (v, r) -> scalar v.
Proof.
  unfold parse_number, decimal. intros H.
  repeat match type of H with
         | context [let (_, _) := ?x in _] => destruct x
         | context [match ?x with _ => _ end] => destruct x
         | context [if ?x then _ else _] => destruct x
         end;
    try discriminate; injection H as <- _; exact I.
Qed.

Lemma scalar_dec v : scalar v \/ ~ scalar v.
Proof. destruct v; simpl; tauto. Qed.

(** C6, as stated, does not hold: a reply that is a bare number has no
    brace or bracket in it, and is extracted. *)
Lemma safeJSONParse_bare_number :
  includes "{" "42" = false
  /\ includes "[" "42" = false
  /\ safeJSONParse "42" = ([], Returns (JNumber 42 0)).
Proof. repeat split; vm_compute; reflexivity. Qed.

(** ** Calls and what they leave alone *)

Lemma frame_trans w1 w2 w3 : frame w1 w2 -> frame w2 w3 -> frame w1 w3.
Proof.
  unfold frame. intros (a1 & b1 & c1 & d1) (a2 & b2 & c2 & d2).
  repeat split; congruence.
Qed.

Lemma since_app w w' calls : trace w' = trace w ++ calls -> since w w' = calls.
Proof.
  unfold since. intros ->.
  rewrite skipn_app, skipn_all, Nat.sub_diag. reflexivity.
Qed.

Lemma safeJSONParse_async_shape raw w out w' :
  safeJSONParse_async raw w = (out, w') ->
  frame w w' /\ trace w' = trace w
  /\ generateContent_replies w' = generateContent_replies w.
Proof.
  unfold safeJSONParse_async.
  destruct (safeJSONParse raw) as [ls c].
  unfold bind, console_error_write, of_completion.
  intros [= <- <-]. repeat split.
Qed.

(** One request, and the extraction of its text. *)
Lemma ask_shape ai req msg w out w' :
  (response <- generateContent ai req ;;
   match response_text response with
   | Some (c :: r) => safeJSONParse_async (c :: r)
   | _ => throw (Error msg)
   end) w = (out, w') ->
  frame w w' /\ trace w' = trace w ++ [CallGenerateContent ai req].
Proof.
  unfold bind, generateContent.
  destruct (generateContent_replies (record _ w)) as [|r rest] eqn:E.
  - intros [= <- <-]. repeat split.
  - destruct r as [resp|e]; cbn [settle].
    + destruct (response_text resp) as [[|c t]|].
      * intros [= <- <-]. repeat split.
      * intros H. apply safeJSONParse_async_shape in H
          as ((a & b & c' & d') & Ht & _).
        cbn in *. repeat split; assumption.
      * intros [= <- <-]. repeat split.
    + intros [= <- <-]. repeat split.
Qed.

Lemma getGoogleClient_shape key w out w' :
  getGoogleClient key w = (out, w') ->
  w' = w
  /\ (forall ai, out = Resolved ai -> truthy ai = true)
  /\ out <> Pending.
Proof.
  unfold getGoogleClient, bind, process_env_API_KEY.
  destruct (if truthy key then Some key else env_API_KEY w (selections w))
    as [[|c r]|]; intros [= <- <-]; repeat split;
    try discriminate; now intros ai [= <-].
Qed.

(** ** Strict schema, then fallback *)

Lemma degrade_cases (s f : Async json) w :
  try_catch s (fun e => if isAuthError e then throw e else f) w
  = match s w with
    | (Rejected e, w1) => if isAuthError e then (Rejected e, w1) else f w1
    | r => r
    end.
Proof.
  unfold try_catch. destruct (s w) as [[v|e|] w1]; try reflexivity.
  now destruct (isAuthError e).
Qed.

Lemma strict_shape d storyText config lang ai w out w' :
  strict_of d storyText config lang ai w = (out, w') ->
  frame w w'
  /\ trace w' = trace w
                ++ [CallGenerateContent ai
                      (strict_request_of d storyText config lang)].
Proof. destruct d; apply ask_shape. Qed.

Lemma fallback_shape d storyText config lang ai w :
  protocol_of d storyText config lang ai w
  = match strict_of d storyText config lang ai w with
    | (Rejected e, w1) =>
        if isAuthError e then (Rejected e, w1)
        else
          match d with
          | Analysis => AnalyzeStoryGoogle.fallback storyText config lang ai w1
          | Polish => PolishStory.fallback storyText config lang ai w1
          end
    | r => r
    end
  /\ forall w1 out w',
       match d with
       | Analysis => AnalyzeStoryGoogle.fallback storyText config lang ai w1
       | Polish => PolishStory.fallback storyText config lang ai w1
       end = (out, w') ->
       frame w1 w'
       /\ trace w' = trace w1
                     ++ [CallGenerateContent ai
                           (fallback_request_of d storyText config lang)].
Proof.
  split.
  - destruct d; apply degrade_cases.
  - destruct d; intros w1 out w'; apply ask_shape.
Qed.



(** ** The retry layer *)

Lemma protocol_shape d storyText config lang ai w out w' :
  protocol_of d storyText config lang ai w = (out, w') ->
  frame w w'
  /\ trace w' = trace w ++ since w w'
  /\ attempt_requests d storyText config lang ai (since w w').
Proof.
  destruct (fallback_shape d storyText config lang ai w) as (Hp & Hf).
  rewrite Hp. clear Hp.
  destruct (strict_of d storyText config lang ai w) as [o w1] eqn:Hs.
  apply strict_shape in Hs as (Hfr & Ht).
  assert (Hstrict : (o, w1) = (out, w') ->
            frame w w' /\ trace w' = trace w ++ since w w'
            /\ attempt_requests d storyText config lang ai (since w w')).
  { intros [= <- <-]. rewrite (since_app _ _ _ Ht).
    repeat split; try apply Hfr; [exact Ht | now left]. }
  destruct o as [v|e|]; try exact Hstrict.
  destruct (isAuthError e); [exact Hstrict|].
  intros H. apply Hf in H as (Hfr' & Ht').
  assert (Hall : trace w' = trace w ++
            [ CallGenerateContent ai (strict_request_of d storyText config lang);
              CallGenerateContent ai (fallback_request_of d storyText config lang) ]).
  { rewrite Ht', Ht, <- app_assoc. reflexivity. }
  rewrite (since_app _ _ _ Hall).
  split; [exact (frame_trans _ _ _ Hfr Hfr')|]. split; [exact Hall | now right].
Qed.

Lemma openSelectKey_shape w out w' :
  openSelectKey w = (out, w') ->
  aistudio w' = aistudio w
  /\ trace w' = trace w ++ [CallOpenSelectKey].
Proof.
  unfold openSelectKey.
  destruct (openSelectKey_replies (record CallOpenSelectKey w)) as [|r rest];
    intros [= <- <-]; split; reflexivity.
Qed.

(** The second attempt is the last: it asks for no key. *)
Lemma retry_shape d storyText config lang w v w' :
  retry_of d storyText config lang w = (Resolved v, w') ->
  exists ai,
    getGoogleClient (apiKey config) w = (Resolved ai, w)
    /\ protocol_of d storyText config lang ai w = (Resolved v, w').
Proof.
  destruct d; cbn [retry_of protocol_of AnalyzeStoryGoogle.attempt
                   PolishStory.attempt]; unfold bind at 1;
    destruct (getGoogleClient (apiKey config) w) as [[ai|e|] w0] eqn:Hc;
    try discriminate;
    destruct (getGoogleClient_shape _ _ _ _ Hc) as (-> & _);
    unfold try_catch;
    match goal with
    | |- context [?p storyText config lang ai w] =>
        destruct (p storyText config lang ai w) as [[v'|e|] w1] eqn:Hp
    end;
    try discriminate; intros H;
    try (injection H as <- <-; exists ai; split; [reflexivity | exact Hp]);
    exfalso; revert H; unfold bind, window_aistudio, console_error_write, throw;
    cbn; discriminate.
Qed.

Lemma operation_google d storyText config lang :
  provider config = google ->
  operation_of d storyText config lang
  = match d with
    | Analysis => AnalyzeStoryGoogle.attempt storyText config lang 2 false
    | Polish => PolishStory.attempt storyText config lang 2 false
    end.
Proof.
  intros H. destruct d; cbn [operation_of];
    unfold analyzeStory, analyzeStoryGoogle, AnalyzeStoryGoogle.run,
      polishStory, PolishStory.run; now rewrite H.
Qed.

(** The first attempt, once the client is made. *)
Lemma first_attempt d storyText config lang ai w :
  provider config = google ->
  getGoogleClient (apiKey config) w = (Resolved ai, w) ->
  operation_of d storyText config lang w
  = match protocol_of d storyText config lang ai w with
    | (Rejected e, w1) =>
        if isAuthError e && is_some (aistudio w1) then
          match openSelectKey w1 with
          | (Resolved _, w2) => retry_of d storyText config lang w2
          | (Rejected e', w2) => (Rejected e', w2)
          | (Pending, w2) => (Pending, w2)
          end
        else (Rejected e, given_up d e w1)
    | r => r
    end.
Proof.
  intros Hg Hc. rewrite (operation_google d _ _ _ Hg).
  destruct d;
    cbn [AnalyzeStoryGoogle.attempt PolishStory.attempt protocol_of retry_of];
    unfold bind at 1; rewrite Hc; unfold try_catch at 1;
    match goal with
    | |- context [?p storyText config lang ai w] =>
        destruct (p storyText config lang ai w) as [[v|e|] w1]
    end; try reflexivity;
    unfold bind at 1; unfold window_aistudio at 1; cbn [negb andb];
    destruct (isAuthError e); cbn [andb]; try reflexivity;
    destruct (is_some (aistudio w1)); try reflexivity;
    unfold bind at 1; now destruct (openSelectKey w1) as [[[]|e'|] w2].
Qed.

Lemma attempt_requests_counts d storyText config lang ai calls :
  attempt_requests d storyText config lang ai calls ->
  reselections calls = 0%nat
  /\ (1 <= requests calls <= 2)%nat.
Proof. intros [-> | ->]; cbn; lia. Qed.

(** When the first attempt of [analyzeStory] or [polishStory] on the
    primary provider fails with an auth-class error and there is no
    [window.aistudio], the call rejects with that very error; no key
    selection is asked for and nothing more is called. *)
Lemma structured_call_gives_up
  (d : Document) (storyText : text) (config : ModelConfig) (lang : Language)
  (ai : text) (w w1 : World) (e : JsError) :
  provider config = google ->
  aistudio w = None ->
  getGoogleClient (apiKey config) w = (Resolved ai, w) ->
  protocol_of d storyText config lang ai w = (Rejected e, w1) ->
  isAuthError e = true ->
  let after := operation_of d storyText config lang w in
  fst after = Rejected e
  /\ trace (snd after) = trace w1
  /\ generateContent_replies (snd after) = generateContent_replies w1
  /\ reselections (since w (snd after)) = 0%nat.
Proof.
  intros Hg Hs Hc Hp He after. subst after.
  rewrite (first_attempt d _ _ _ ai w Hg Hc), Hp, He.
  destruct (protocol_shape _ _ _ _ _ _ _ _ Hp) as ((Ha & _) & Ht & Hr).
  rewrite Ha, Hs. cbn [is_some andb fst snd].
  assert (Hw : trace (given_up d e w1) = trace w1
               /\ generateContent_replies (given_up d e w1)
                  = generateContent_replies w1)
    by (destruct d; split; reflexivity).
  destruct Hw as (Hw1 & Hw2).
  repeat split; try assumption.
  unfold since. rewrite Hw1. exact (proj1 (attempt_requests_counts _ _ _ _ _ _ Hr)).
Qed.

(** C1, as stated, does not hold: the first attempt can fail with an
    auth-class error that its fallback request met, after the strict request
    failed for another reason.  The key is selected once, the second attempt
    succeeds, and the model was asked three times, not twice. *)
Lemma retry_after_fallback_asks_three_times :
  (exists w1,
     protocol_of Analysis "Once upon a time." google_config en "AIza-test"
       schema_then_key
     = (Rejected (Error "Requested entity was not found."), w1))
  /\ isAuthError (Error "Requested entity was not found.") = true
  /\ fst (analyzeStory "Once upon a time." google_config en schema_then_key)
     = Resolved (JObject [])
  /\ reselections
       (since schema_then_key
          (snd (analyzeStory "Once upon a time." google_config en
                  schema_then_key))) = 1%nat
  /\ requests
       (since schema_then_key
          (snd (analyzeStory "Once upon a time." google_config en
                  schema_then_key))) = 3%nat.
Proof.
  split; [eexists; vm_compute; reflexivity|].
  repeat split; vm_compute; reflexivity.
Qed.

(** The second attempt, whatever comes of it: the client is made anew and
    the protocol is run once; no key is asked for. *)
Lemma retry_cases d storyText config lang w :
  retry_of d storyText config lang w
  = match getGoogleClient (apiKey config) w with
    | (Resolved ai, _) =>
        match protocol_of d storyText config lang ai w with
        | (Rejected e, w1) => (Rejected e, given_up d e w1)
        | r => r
        end
    | (Rejected e, _) => (Rejected e, w)
    | (Pending, _) => (Pending, w)
    end.
Proof.
  destruct d; cbn [retry_of protocol_of AnalyzeStoryGoogle.attempt
                   PolishStory.attempt]; unfold bind at 1;
    destruct (getGoogleClient (apiKey config) w) as [[ai|e|] w0] eqn:Hc;
    destruct (getGoogleClient_shape _ _ _ _ Hc) as (-> & _);
    try reflexivity;
    unfold try_catch;
    match goal with
    | |- context [?p storyText config lang ai w] =>
        destruct (p storyText config lang ai w) as [[v|e|] w1]
    end; reflexivity.
Qed.

Lemma reselections_app a b :
  reselections (a ++ b) = (reselections a + reselections b)%nat.
Proof. unfold reselections. now rewrite filter_app, length_app. Qed.

Lemma requests_app a b :
  requests (a ++ b) = (requests a + requests b)%nat.
Proof. unfold requests. now rewrite filter_app, length_app. Qed.

Lemma given_up_trace d e w : trace (given_up d e w) = trace w.
Proof. now destruct d. Qed.

(** C1, amended: when the first attempt of [analyzeStory] or [polishStory]
    on the primary provider fails with an auth-class error and
    [window.aistudio] is there, the key selection is invoked exactly once,
    whatever follows.  If the selection fails or never settles, so does the
    call, and there is no second attempt.  If it resolves, the second
    attempt makes its client anew - and fails without a request if no key
    is left - and runs the whole protocol exactly once more, with no other
    key selection; the call ends as that run ends: it resolves with its
    result when it succeeds and rejects with its error when it fails.  Each
    run of the protocol asks the model once, or twice when its strict
    request fell back: between two and four requests in all, and exactly
    two when both runs ended with their strict request. *)
Theorem retry_once_after_reselection
  (d : Document) (storyText : text) (config : ModelConfig) (lang : Language)
  (ai : text) (studio : AIStudio) (w w1 : World) (e : JsError) :
  provider config = google ->
  aistudio w = Some studio ->
  getGoogleClient (apiKey config) w = (Resolved ai, w) ->
  protocol_of d storyText config lang ai w = (Rejected e, w1) ->
  isAuthError e = true ->
  let after := operation_of d storyText config lang w in
  reselections (since w (snd after)) = 1%nat
  /\ attempt_requests d storyText config lang ai (since w w1)
  /\ (forall e' w2,
        openSelectKey w1 = (Rejected e', w2) ->
        after = (Rejected e', w2)
        /\ since w w2 = since w w1 ++ [CallOpenSelectKey])
  /\ (forall w2,
        openSelectKey w1 = (Pending, w2) ->
        after = (Pending, w2)
        /\ since w w2 = since w w1 ++ [CallOpenSelectKey])
  /\ (forall w2,
        openSelectKey w1 = (Resolved tt, w2) ->
        (forall e0 w',
            getGoogleClient (apiKey config) w2 = (Rejected e0, w') ->
            e0 = Error "Google API Key is missing"
            /\ after = (Rejected e0, w2)
            /\ since w w2 = since w w1 ++ [CallOpenSelectKey])
        /\ (forall ai' out w3,
               getGoogleClient (apiKey config) w2 = (Resolved ai', w2) ->
               protocol_of d storyText config lang ai' w2 = (out, w3) ->
               fst after = out
               /\ snd after = match out with
                              | Rejected e2 => given_up d e2 w3
                              | _ => w3
                              end
               /\ since w (snd after)
                  = since w w1 ++ [CallOpenSelectKey] ++ since w2 w3
               /\ attempt_requests d storyText config lang ai' (since w2 w3)
               /\ (2 <= requests (since w (snd after)) <= 4)%nat
               /\ (strict_of d storyText config lang ai w = (Rejected e, w1) ->
                   strict_of d storyText config lang ai' w2 = (out, w3) ->
                   requests (since w (snd after)) = 2%nat))).
Proof.
  intros Hg Hs Hc Hp He after.
  destruct (protocol_shape _ _ _ _ _ _ _ _ Hp) as ((Ha & _) & Ht1 & Hr1).
  destruct (attempt_requests_counts _ _ _ _ _ _ Hr1) as (Hs1 & Hq1).
  assert (Hafter : after
                   = match openSelectKey w1 with
                     | (Resolved _, w2) => retry_of d storyText config lang w2
                     | (Rejected e', w2) => (Rejected e', w2)
                     | (Pending, w2) => (Pending, w2)
                     end).
  { subst after. rewrite (first_attempt d _ _ _ ai w Hg Hc), Hp, He, Ha, Hs.
    reflexivity. }
  clearbody after.
  assert (Hsel : forall out w2,
             openSelectKey w1 = (out, w2) ->
             since w w2 = since w w1 ++ [CallOpenSelectKey]).
  { intros out w2 Ho. destruct (openSelectKey_shape _ _ _ Ho) as (_ & Ht2).
    apply since_app. now rewrite Ht2, Ht1, <- app_assoc. }
  assert (Hone : reselections (since w w1 ++ [CallOpenSelectKey]) = 1%nat).
  { rewrite reselections_app, Hs1. reflexivity. }
  assert (Hretry : forall w2,
             openSelectKey w1 = (Resolved tt, w2) ->
             (forall e0 w',
                 getGoogleClient (apiKey config) w2 = (Rejected e0, w') ->
                 after = (Rejected e0, w2))
             /\ (forall ai' out w3,
                    getGoogleClient (apiKey config) w2 = (Resolved ai', w2) ->
                    protocol_of d storyText config lang ai' w2 = (out, w3) ->
                    fst after = out
                    /\ snd after = match out with
                                   | Rejected e2 => given_up d e2 w3
                                   | _ => w3
                                   end
                    /\ since w (snd after)
                       = since w w1 ++ [CallOpenSelectKey] ++ since w2 w3
                    /\ attempt_requests d storyText config lang ai'
                         (since w2 w3))).
  { intros w2 Ho. rewrite Ho, retry_cases in Hafter. split.
    - intros e0 w' Hc'. now rewrite Hc' in Hafter.
    - intros ai' out w3 Hc' Hp'. rewrite Hc', Hp' in Hafter.
      destruct (protocol_shape _ _ _ _ _ _ _ _ Hp') as (_ & Ht3 & Hr3).
      destruct (openSelectKey_shape _ _ _ Ho) as (_ & Ht2).
      assert (Hw : snd after = match out with
                               | Rejected e2 => given_up d e2 w3
                               | _ => w3
                               end)
        by (rewrite Hafter; now destruct out).
      split; [rewrite Hafter; now destruct out|].
      split; [exact Hw|]. split; [|exact Hr3].
      apply since_app.
      assert (Htr : trace (snd after) = trace w3)
        by (rewrite Hw; destruct out; try reflexivity; apply given_up_trace).
      rewrite Htr, Ht3, Ht2, Ht1, <- !app_assoc. reflexivity. }
  split.
  { destruct (openSelectKey w1) as [[[]|e'|] w2] eqn:Ho.
    - destruct (Hretry w2 eq_refl) as (Hnone & Hrun).
      destruct (getGoogleClient (apiKey config) w2) as [[ai'|e0|] w'] eqn:Hc'.
      + destruct (getGoogleClient_shape _ _ _ _ Hc') as (-> & _).
        destruct (protocol_of d storyText config lang ai' w2) as [out w3] eqn:Hp'.
        destruct (Hrun ai' out w3 eq_refl Hp') as (_ & _ & Hall & Hr3).
        rewrite Hall, !reselections_app, Hs1.
        now rewrite (proj1 (attempt_requests_counts _ _ _ _ _ _ Hr3)).
      + rewrite (Hnone e0 w' eq_refl). cbn [snd].
        now rewrite (Hsel _ _ eq_refl).
      + now destruct (getGoogleClient_shape _ _ _ _ Hc') as (_ & _ & Hn).
    - rewrite Hafter. cbn [snd]. now rewrite (Hsel _ _ eq_refl).
    - rewrite Hafter. cbn [snd]. now rewrite (Hsel _ _ eq_refl). }
  split; [exact Hr1|].
  split; [intros e' w2 Ho; rewrite Ho in Hafter; split;
          [exact Hafter | exact (Hsel _ _ Ho)]|].
  split; [intros w2 Ho; rewrite Ho in Hafter; split;
          [exact Hafter | exact (Hsel _ _ Ho)]|].
  intros w2 Ho. destruct (Hretry w2 Ho) as (Hnone & Hrun). split.
  - intros e0 w' Hc'.
    split; [|split; [exact (Hnone e0 w' Hc') | exact (Hsel _ _ Ho)]].
    revert Hc'. unfold getGoogleClient, bind, process_env_API_KEY.
    destruct (if truthy (apiKey config) then _ else _) as [[|c r]|];
      now intros [= <- _].
  - intros ai' out w3 Hc' Hp'.
    destruct (Hrun ai' out w3 Hc' Hp') as (Hout & Hw & Hall & Hr3).
    destruct (attempt_requests_counts _ _ _ _ _ _ Hr3) as (_ & Hq3).
    assert (Hreq : requests (since w (snd after))
                   = (requests (since w w1) + requests (since w2 w3))%nat).
    { rewrite Hall, !requests_app. cbn. lia. }
    repeat split; try assumption; try lia.
    intros Hstrict Hstrict'.
    apply strict_shape in Hstrict as (_ & Hx).
    apply strict_shape in Hstrict' as (_ & Hy).
    rewrite Hreq, (since_app _ _ _ Hx), (since_app _ _ _ Hy). reflexivity.
Qed.

Lemma retry_once_after_reselection_witness :
  reselections
    (since key_rotated
       (snd (operation_of Polish "Once upon a time." google_config zh
               key_rotated))) = 1%nat
  /\ fst (operation_of Polish "Once upon a time." google_config zh
            key_rotated)
     = Resolved (JObject [])
  /\ requests
       (since key_rotated
          (snd (operation_of Polish "Once upon a time." google_config zh
                  key_rotated))) = 2%nat.
Proof.
  unshelve refine (let H :=
            retry_once_after_reselection Polish "Once upon a time."
              google_config zh "AIza-test" {| hasSelectedApiKey := true |}
              key_rotated
              (snd (protocol_of Polish "Once upon a time." google_config zh
                      "AIza-test" key_rotated))
              (Error "Requested entity was not found.") _ _ _ _ _ in _);
    try (vm_compute; reflexivity).
  destruct H as (Honce & _ & _ & _ & Hrun).
  split; [exact Honce|].
  unshelve refine (let H2 :=
            proj2 (Hrun (snd (openSelectKey
                                (snd (protocol_of Polish "Once upon a time."
                                        google_config zh "AIza-test"
                                        key_rotated)))) _)
              "AIza-test" (Resolved (JObject []))
              (snd (operation_of Polish "Once upon a time." google_config zh
                      key_rotated)) _ _ in _);
    try (vm_compute; reflexivity).
  destruct H2 as (Hout & _ & _ & _ & _ & Htwo).
  split; [exact Hout|].
  apply Htwo; vm_compute; reflexivity.
Defined.

(** ** Runs of the model *)

(** What [JSON.stringify] writes of the two schemas, [JSON.parse] reads
    back. *)
Example schema_texts_parse :
  JSON_parse (JSON_stringify_indent 2 ANALYSIS_JSON_SCHEMA_OBJECT)
  = Some ANALYSIS_JSON_SCHEMA_OBJECT
  /\ JSON_parse (JSON_stringify ANALYSIS_JSON_SCHEMA_OBJECT)
     = Some ANALYSIS_JSON_SCHEMA_OBJECT
  /\ JSON_parse (JSON_stringify POLISH_JSON_SCHEMA_OBJECT)
     = Some POLISH_JSON_SCHEMA_OBJECT.
Proof. repeat split; vm_compute; reflexivity. Qed.

(** The scenario of the specification for an OpenAI-compatible provider. *)
Example analyzeStory_openai_scenario :
  fst (analyzeStory "A fox tricks a crow..." openai_config en mocked_endpoint)
  = Resolved fox_and_crow
  /\ prop "title" fox_and_crow = Some (str "The Fox and the Crow")
  /\ option_map (fun v => match v with JArray l => length l | _ => O end)
       (prop "plot_points" fox_and_crow) = Some 1%nat.
Proof. repeat split; vm_compute; reflexivity. Qed.

(** ** OpenAI-compatible providers: a status that is not a success *)

Lemma fetch_reply req w r rest :
  fetch_replies w = Returns r :: rest ->
  exists w', fetch req w = (Resolved r, w').
Proof.
  intros H. unfold fetch. cbn [record fetch_replies]. rewrite H.
  eexists. reflexivity.
Qed.

Lemma provider_not_google c :
  provider c <> google -> ProviderType_eqb (provider c) google = false.
Proof. destruct (provider c); intros H; try reflexivity. now elim H. Qed.

Lemma analyzeStory_request_failed storyText config lang w r rest :
  provider config <> google ->
  fetch_replies w = Returns r :: rest ->
  ok r = false ->
  fst (analyzeStory storyText config lang w)
  = Rejected (Error ("Model request failed: " ++ string_of_N (res_status r)
                     ++ " " ++ res_body r)).
Proof.
  intros Hp Hf Hok. unfold analyzeStory, analyzeStoryOpenAICompatible.
  rewrite (provider_not_google _ Hp). unfold bind at 1.
  match goal with
  | |- context [fetch ?req w] => destruct (fetch_reply req w r rest Hf) as [w' ->]
  end.
  rewrite Hok. reflexivity.
Qed.

Lemma polishStory_request_failed storyText config lang w r rest :
  provider config <> google ->
  fetch_replies w = Returns r :: rest ->
  ok r = false ->
  fst (polishStory storyText config lang w)
  = Rejected (Error ("Polish request failed: " ++ string_of_N (res_status r))).
Proof.
  intros Hp Hf Hok. unfold polishStory, PolishStory.run, PolishStory.compatible.
  rewrite (provider_not_google _ Hp). unfold bind at 1.
  match goal with
  | |- context [fetch ?req w] => destruct (fetch_reply req w r rest Hf) as [w' ->]
  end.
  rewrite Hok. reflexivity.
Qed.

(** C8 at a response with status 500 and body "upstream exploded":
    [analyzeStory] rejects with the status and the body, [polishStory] with
    the status alone. *)
Theorem polishStory_error_drops_body :
  fst (analyzeStory "Once upon a time." openai_config en server_error)
  = Rejected (Error "Model request failed: 500 upstream exploded")
  /\ fst (polishStory "Once upon a time." openai_config en server_error)
     = Rejected (Error "Polish request failed: 500")
  /\ includes "upstream exploded"
       (error_text (Error "Polish request failed: 500")) = false.
Proof.
  split; [|split].
  - now rewrite (analyzeStory_request_failed _ openai_config _ server_error
                   {| res_status := 500; res_body := "upstream exploded" |} []).
  - now rewrite (polishStory_request_failed _ openai_config _ server_error
                   {| res_status := 500; res_body := "upstream exploded" |} []).
  - reflexivity.
Qed.

(** ** The video operation *)

Lemma grows_ret {A} (a : A) : grows (ret a).
Proof. intros w out w' [= <- <-]. exists []. now rewrite app_nil_r. Qed.

Lemma grows_throw {A} e : grows (@throw A e).
Proof. intros w out w' [= <- <-]. exists []. now rewrite app_nil_r. Qed.

Lemma grows_never {A} : grows (@never A).
Proof. intros w out w' [= <- <-]. exists []. now rewrite app_nil_r. Qed.

Lemma grows_bind {A B} (m : Async A) (k : A -> Async B) :
  grows m -> (forall a, grows (k a)) -> grows (bind m k).
Proof.
  intros Hm Hk w out w'. unfold bind.
  destruct (m w) as [[a|e|] w1] eqn:E; destruct (Hm _ _ _ E) as [c1 H1].
  - intros H. destruct (Hk a _ _ _ H) as [c2 H2].
    exists (c1 ++ c2). now rewrite H2, H1, app_assoc.
  - intros [= <- <-]. now exists c1.
  - intros [= <- <-]. now exists c1.
Qed.

Lemma grows_try_catch {A} (m : Async A) (h : JsError -> Async A) :
  grows m -> (forall e, grows (h e)) -> grows (try_catch m h).
Proof.
  intros Hm Hh w out w'. unfold try_catch.
  destruct (m w) as [[a|e|] w1] eqn:E; destruct (Hm _ _ _ E) as [c1 H1].
  - intros [= <- <-]. now exists c1.
  - intros H. destruct (Hh e _ _ _ H) as [c2 H2].
    exists (c1 ++ c2). now rewrite H2, H1, app_assoc.
  - intros [= <- <-]. now exists c1.
Qed.

Lemma grows_process_env : grows process_env_API_KEY.
Proof. intros w out w' [= <- <-]. exists []. now rewrite app_nil_r. Qed.

Lemma grows_window_aistudio : grows window_aistudio.
Proof. intros w out w' [= <- <-]. exists []. now rewrite app_nil_r. Qed.

Lemma grows_generateVideos key p : grows (generateVideos key p).
Proof.
  intros w out w'. unfold generateVideos.
  destruct (generateVideos_replies _); intros [= <- <-]; now eexists.
Qed.

Lemma grows_getVideosOperation key op : grows (getVideosOperation key op).
Proof.
  intros w out w'. unfold getVideosOperation.
  destruct (getVideosOperation_replies _); intros [= <- <-]; now eexists.
Qed.

Lemma grows_fetch r : grows (fetch r).
Proof.
  intros w out w'. unfold fetch.
  destruct (fetch_replies _); intros [= <- <-]; now eexists.
Qed.

Lemma grows_openSelectKey : grows openSelectKey.
Proof.
  intros w out w'. unfold openSelectKey.
  destruct (openSelectKey_replies _); intros [= <- <-]; now eexists.
Qed.

Lemma grows_setTimeout ms : grows (setTimeout ms).
Proof. intros w out w' [= <- <-]. now eexists. Qed.

Lemma grows_createObjectURL b : grows (createObjectURL b).
Proof.
  intros w out w'. unfold createObjectURL.
  destruct (createObjectURL_replies _); intros [= <- <-]; now eexists.
Qed.

Lemma grows_poll fuel key op : grows (poll fuel key op).
Proof.
  revert op; induction fuel as [|f IH]; intros op; cbn [poll];
    destruct (done op); try apply grows_ret; try apply grows_never.
  apply grows_bind; [apply grows_setTimeout|]. intros _.
  apply grows_bind; [apply grows_getVideosOperation | exact IH].
Qed.

Lemma grows_poll_all key op : grows (poll_all key op).
Proof. intros w out w'. unfold poll_all. apply grows_poll. Qed.

Section VeoProofs.
Variables (prompt : text) (referenceImageBase64 : option text)
          (aspectRatio : AspectRatio) (config : option ModelConfig).

Local Abbreviation generation :=
  (GenerateVeoVideo.generation prompt referenceImageBase64 aspectRatio config).
Local Abbreviation attempt :=
  (GenerateVeoVideo.attempt prompt referenceImageBase64 aspectRatio config).
Local Abbreviation resolve_key := (GenerateVeoVideo.resolve_key config).

Lemma grows_generation_rest key operation :
  grows (operation <- poll_all key operation ;;
         match video_uri operation with
         | Some (c :: r) =>
             res <- fetch {| url := (c :: r) ++ "&key=" ++ key;
                             method := "GET"; headers := [];
                             body := None |} ;;
             createObjectURL (res_body res)
         | _ => throw (Error "Video generation failed or no URI returned.")
         end).
Proof.
  apply grows_bind; [apply grows_poll_all|]. intros op.
  destruct (video_uri op) as [[|c r]|]; try apply grows_throw.
  apply grows_bind; [apply grows_fetch|]. intros res.
  apply grows_createObjectURL.
Qed.

Lemma grows_generation key : grows (generation key).
Proof.
  apply grows_bind; [apply grows_generateVideos|]. intros op.
  apply grows_generation_rest.
Qed.

Lemma grows_resolve_key : grows resolve_key.
Proof.
  apply grows_bind; [apply grows_process_env|]. intros env.
  apply grows_bind; [apply grows_window_aistudio|]. intros studio.
  destruct (_ && _); [|apply grows_ret].
  apply grows_bind; [apply grows_openSelectKey|]. intros _.
  apply grows_process_env.
Qed.

Lemma grows_attempt fuel isRetry : grows (attempt fuel isRetry).
Proof.
  revert isRetry; induction fuel as [|f IH]; intros isRetry;
    [apply grows_never|].
  apply grows_bind; [apply grows_resolve_key|]. intros key.
  destruct key as [[|c r]|]; try apply grows_throw.
  apply grows_try_catch; [apply grows_generation|]. intros e.
  apply grows_bind; [apply grows_window_aistudio|]. intros studio.
  destruct (_ && _); [|apply grows_throw].
  apply grows_bind; [apply grows_openSelectKey|]. intros _. apply IH.
Qed.

(** Where the generation fails, there the attempt fails. *)
Lemma generation_fails key w e w1 :
  fails_in_submission prompt referenceImageBase64 aspectRatio config key w e w1
  \/ fails_in_polling prompt referenceImageBase64 aspectRatio config key w e w1
  \/ fails_in_download prompt referenceImageBase64 aspectRatio config key w e w1 ->
  generation key w = (Rejected e, w1).
Proof.
  unfold fails_in_submission, fails_in_polling, fails_in_download.
  unfold GenerateVeoVideo.generation.
  intros [H | [(op & wa & H & Hp) | (op & wa & fin & wb & c & r & H & Hp & Hu & Hf)]];
    unfold bind at 1; rewrite H; [reflexivity| |];
    unfold bind at 1; rewrite Hp; [reflexivity|].
  rewrite Hu. unfold bind. now rewrite Hf.
Qed.
End VeoProofs.

Lemma grows_since {A} (m : Async A) w out w' :
  grows m -> m w = (out, w') -> trace w' = trace w ++ since w w'.
Proof.
  intros Hm H. destruct (Hm _ _ _ H) as [calls Hc].
  now rewrite (since_app _ _ _ Hc).
Qed.

(** C9, as stated, does not hold: the job is accepted, the first look at it
    is refused with an auth-class error, and a key is asked for and the job
    is submitted a second time. *)
Lemma veo_retries_after_poll_failure :
  (exists w1,
     fails_in_polling "A fox tricks a crow" None Landscape None "AIza-env"
       poll_refused (Error "404 operation not known") w1)
  /\ isAuthError (Error "404 operation not known") = true
  /\ fst (generateVeoVideo "A fox tricks a crow" None Landscape None
            poll_refused) = Resolved (units "blob:1")
  /\ reselections
       (trace (snd (generateVeoVideo "A fox tricks a crow" None Landscape
                      None poll_refused))) = 1%nat
  /\ submissions
       (trace (snd (generateVeoVideo "A fox tricks a crow" None Landscape
                      None poll_refused))) = 2%nat.
Proof.
  split.
  - eexists. eexists. eexists. split; vm_compute; reflexivity.
  - repeat split; vm_compute; reflexivity.
Qed.

(** C9, amended: in [generateVeoVideo] the retry after an auth-class failure
    covers the whole of the first attempt once its key is settled: whether
    the failure is raised by the job submission, while polling or by the
    download of the result, and [window.aistudio] is there, the key
    selection is invoked and the attempt is run once more; a failure of that
    second attempt is not retried. *)
Theorem veo_retry_covers_every_phase
  (prompt : text) (referenceImageBase64 : option text)
  (aspectRatio : AspectRatio) (config : option ModelConfig)
  (key : text) (studio : AIStudio) (w w0 w1 : World) (e : JsError) :
  GenerateVeoVideo.resolve_key config w = (Resolved (Some key), w0) ->
  truthy key = true ->
  fails_in_submission prompt referenceImageBase64 aspectRatio config key w0 e w1
  \/ fails_in_polling prompt referenceImageBase64 aspectRatio config key w0 e w1
  \/ fails_in_download prompt referenceImageBase64 aspectRatio config key w0 e w1 ->
  isAuthError e = true ->
  aistudio w1 = Some studio ->
  let retry :=
    GenerateVeoVideo.attempt prompt referenceImageBase64 aspectRatio config
      1 true in
  let after :=
    generateVeoVideo prompt referenceImageBase64 aspectRatio config w in
  after = (openSelectKey ;; retry) w1
  /\ (exists calls,
        since w (snd after) = since w w1 ++ CallOpenSelectKey :: calls)
  /\ forall key' w2 w3 w4 e',
       GenerateVeoVideo.resolve_key config w2 = (Resolved (Some key'), w3) ->
       truthy key' = true ->
       GenerateVeoVideo.generation prompt referenceImageBase64 aspectRatio
         config key' w3 = (Rejected e', w4) ->
       retry w2 = (Rejected e', w4).
Proof.
  intros Hk Ht Hf He Hs retry after.
  apply generation_fails in Hf.
  assert (Hafter : after = (openSelectKey ;; retry) w1).
  { subst after retry.
    unfold generateVeoVideo, GenerateVeoVideo.run.
    cbn [GenerateVeoVideo.attempt]. unfold bind at 1. rewrite Hk.
    destruct key as [|c r]; [discriminate|].
    unfold try_catch at 1. rewrite Hf.
    unfold bind at 1. unfold window_aistudio at 1.
    rewrite He, Hs. reflexivity. }
  split; [exact Hafter|]. split.
  - rewrite Hafter. unfold bind.
    pose proof (grows_since _ _ _ _ (grows_resolve_key config) Hk) as H0.
    pose proof (grows_since _ _ _ _
                  (grows_generation prompt referenceImageBase64 aspectRatio
                     config key) Hf) as H1.
    assert (Hw1 : trace w1 = trace w ++ since w w0 ++ since w0 w1)
      by (now rewrite H1, H0, <- app_assoc).
    destruct (openSelectKey w1) as [[[]|e'|] w2] eqn:Ho;
      destruct (openSelectKey_shape _ _ _ Ho) as (_ & H2).
    + destruct (retry w2) as [out w3] eqn:Hr.
      destruct (grows_attempt prompt referenceImageBase64 aspectRatio config
                  1 true _ _ _ Hr) as [calls H3].
      exists calls. cbn [snd]. rewrite (since_app _ _ _ Hw1).
      apply since_app. rewrite H3, H2, Hw1, <- !app_assoc. reflexivity.
    + exists []. cbn [snd]. rewrite (since_app _ _ _ Hw1).
      apply since_app. rewrite H2, Hw1, <- !app_assoc. reflexivity.
    + exists []. cbn [snd]. rewrite (since_app _ _ _ Hw1).
      apply since_app. rewrite H2, Hw1, <- !app_assoc. reflexivity.
  - intros key' w2 w3 w4 e' Hk' Ht' Hg. subst retry.
    cbn [GenerateVeoVideo.attempt]. unfold bind at 1. rewrite Hk'.
    destruct key' as [|c r]; [discriminate|].
    unfold try_catch. rewrite Hg. reflexivity.
Qed.

Lemma veo_retry_covers_every_phase_witness :
  exists calls,
    since poll_refused
      (snd (generateVeoVideo "A fox tricks a crow" None Landscape None
              poll_refused))
    = [ CallGenerateVideos "AIza-env"
          (GenerateVeoVideo.submission "A fox tricks a crow" None Landscape
             None);
        CallSetTimeout 5000;
        CallGetVideosOperation "AIza-env"
          {| done := false; video_uri := None |} ]
      ++ CallOpenSelectKey :: calls.
Proof.
  refine (proj1 (proj2
    (veo_retry_covers_every_phase "A fox tricks a crow" None Landscape None
       "AIza-env" {| hasSelectedApiKey := true |} poll_refused poll_refused
       (snd (GenerateVeoVideo.generation "A fox tricks a crow" None Landscape
               None "AIza-env" poll_refused))
       (Error "404 operation not known") eq_refl eq_refl _ eq_refl eq_refl))).
  right. left. eexists. eexists. split; vm_compute; reflexivity.
Defined.

Section VeoKey.
Variables (prompt : text) (referenceImageBase64 : option text)
          (aspectRatio : AspectRatio) (config : option ModelConfig).

Local Abbreviation submission :=
  (GenerateVeoVideo.submission prompt referenceImageBase64 aspectRatio
     config).
Local Abbreviation attempt :=
  (GenerateVeoVideo.attempt prompt referenceImageBase64 aspectRatio config).
Local Abbreviation resolve_key := (GenerateVeoVideo.resolve_key config).

Lemma truthy_present k : truthy k = true -> present (Some k) = true.
Proof. now destruct k. Qed.

Lemma resolve_key_own k w :
  own_key config k -> resolve_key w = (Resolved (Some k), w).
Proof.
  intros (c & -> & Hp & <- & Ht).
  unfold GenerateVeoVideo.resolve_key, bind,
    process_env_API_KEY, window_aistudio.
  rewrite Hp, Ht. cbn [ProviderType_eqb andb].
  now rewrite (truthy_present _ Ht).
Qed.

Lemma resolve_key_ambient w :
  no_own_key config ->
  resolve_key w
  = if negb (present (env_API_KEY w (selections w))) && reselectable w
    then (openSelectKey ;; process_env_API_KEY) w
    else (Resolved (env_API_KEY w (selections w)), w).
Proof.
  intros Hn.
  unfold GenerateVeoVideo.resolve_key, bind at 1 2,
    process_env_API_KEY at 1, window_aistudio, reselectable.
  assert (Hkey : match config with
                 | Some c =>
                     if ProviderType_eqb (provider c) google
                        && truthy (apiKey c)
                     then Some (apiKey c)
                     else env_API_KEY w (selections w)
                 | None => env_API_KEY w (selections w)
                 end = env_API_KEY w (selections w)).
  { destruct config as [c|] eqn:Ec; [|reflexivity].
    destruct (ProviderType_eqb (provider c) google) eqn:Ep;
      [|reflexivity].
    destruct (truthy (apiKey c)) eqn:Et; [|reflexivity].
    exfalso. apply (Hn (apiKey c)). exists c.
    repeat split; try assumption. now destruct (provider c). }
  rewrite Hkey. now destruct (_ && _).
Qed.

Lemma grows_handler fuel isRetry e :
  grows (studio <- window_aistudio ;;
         if negb isRetry && isAuthError e && is_some studio
         then openSelectKey ;; attempt fuel true
         else throw e).
Proof.
  apply grows_bind; [apply grows_window_aistudio|]. intros studio.
  destruct (_ && _); [|apply grows_throw].
  apply grows_bind; [apply grows_openSelectKey|]. intros _.
  apply grows_attempt.
Qed.

(** With a key settled, the next call is the submission made with it. *)
Lemma attempt_submits fuel isRetry k w w0 :
  resolve_key w = (Resolved (Some k), w0) ->
  truthy k = true ->
  exists calls,
    trace (snd (attempt (S fuel) isRetry w))
    = trace w0 ++ CallGenerateVideos k submission :: calls.
Proof.
  intros Hk Ht. cbn [GenerateVeoVideo.attempt].
  unfold bind at 1. rewrite Hk.
  destruct k as [|c r]; [discriminate|].
  unfold try_catch, GenerateVeoVideo.generation, bind at 1.
  destruct (generateVideos (c :: r) submission w0) as [o wa] eqn:Hg.
  assert (Ha : trace wa = trace w0 ++ [CallGenerateVideos (c :: r) submission]).
  { revert Hg. unfold generateVideos.
    destruct (generateVideos_replies _); now intros [= <- <-]. }
  assert (Hend : forall (out : Outcome text) w',
             trace w' = trace wa ++ since wa w' ->
             exists calls,
               trace (snd (out, w'))
               = trace w0 ++ CallGenerateVideos (c :: r) submission :: calls).
  { intros out w' H. exists (since wa w'). cbn [snd].
    rewrite H, Ha, <- app_assoc. reflexivity. }
  destruct o as [op|e|].
  - match goal with
    | |- context [match ?m wa with _ => _ end] =>
        destruct (m wa) as [[v|e|] w1] eqn:Hr;
        pose proof (grows_since _ _ _ _
          (grows_generation_rest (c :: r) op) Hr) as H1
    end.
    + now apply Hend.
    + match goal with
      | |- context [snd (?h w1)] =>
          destruct (h w1) as [out w2] eqn:Hh;
          pose proof (grows_since _ _ _ _
            (grows_handler fuel isRetry e) Hh) as H2
      end.
      apply Hend.
      assert (Hx : trace w2 = trace wa ++ since wa w1 ++ since w1 w2)
        by (now rewrite H2, H1, <- app_assoc).
      now rewrite (since_app _ _ _ Hx).
    + now apply Hend.
  - match goal with
    | |- context [snd (?h wa)] =>
        destruct (h wa) as [out w2] eqn:Hh;
        pose proof (grows_since _ _ _ _
          (grows_handler fuel isRetry e) Hh) as H2
    end.
    now apply Hend.
  - apply Hend. unfold since. now rewrite skipn_all, app_nil_r.
Qed.
End VeoKey.

(** C10: [generateVeoVideo], in each of its attempts, submits the job with
    the key of the configuration when the configuration is there, names the
    primary provider and has a key that is not empty; otherwise, whatever
    key the configuration has, with the ambient key of the process; and it
    fails for want of a key only when the ambient key is missing too, after
    the key selection was asked for when it could be.  [generateVeoVideo] is
    the attempt with two levels of [fuel] and [isRetry] not set. *)
Theorem veo_credential
  (prompt : text) (referenceImageBase64 : option text)
  (aspectRatio : AspectRatio) (config : option ModelConfig)
  (fuel : nat) (isRetry : bool) (w : World) :
  let submission :=
    GenerateVeoVideo.submission prompt referenceImageBase64 aspectRatio
      config in
  let after :=
    GenerateVeoVideo.attempt prompt referenceImageBase64 aspectRatio config
      (S fuel) isRetry w in
  let env := env_API_KEY w (selections w) in
  (forall k, own_key config k ->
     exists calls,
       since w (snd after) = CallGenerateVideos k submission :: calls)
  /\ (no_own_key config ->
      (forall k, env = Some k -> truthy k = true ->
         exists calls,
           since w (snd after) = CallGenerateVideos k submission :: calls)
      /\ (present env = false -> reselectable w = false ->
          after = (Rejected missing_key, w))
      /\ (present env = false -> reselectable w = true ->
          forall w', openSelectKey w = (Resolved tt, w') ->
            let env' := env_API_KEY w' (selections w') in
            (forall k, env' = Some k -> truthy k = true ->
               exists calls,
                 since w (snd after)
                 = CallOpenSelectKey :: CallGenerateVideos k submission
                   :: calls)
            /\ (present env' = false -> after = (Rejected missing_key, w')))).
Proof.
  intros submission after env. split; [|intros Hn; split; [|split]].
  - intros k Hk. pose proof Hk as (c & Hc & Hp & Ha & Ht).
    destruct (attempt_submits prompt referenceImageBase64 aspectRatio config
                fuel isRetry k w w (resolve_key_own config k w Hk) Ht)
      as [calls Hc'].
    exists calls. now apply since_app.
  - intros k He Ht.
    assert (Hk : GenerateVeoVideo.resolve_key config w = (Resolved (Some k), w)).
    { rewrite (resolve_key_ambient config w Hn). fold env. rewrite He.
      now rewrite (truthy_present _ Ht). }
    destruct (attempt_submits prompt referenceImageBase64 aspectRatio config
                fuel isRetry k w w Hk Ht) as [calls Hc'].
    exists calls. now apply since_app.
  - intros He Hr. subst after. cbn [GenerateVeoVideo.attempt].
    unfold bind at 1.
    rewrite (resolve_key_ambient config w Hn). fold env.
    rewrite He, Hr. cbn [negb andb].
    now destruct env as [[|c r]|].
  - intros He Hr w' Ho env'.
    assert (Hk : GenerateVeoVideo.resolve_key config w = (Resolved env', w')).
    { rewrite (resolve_key_ambient config w Hn). fold env.
      rewrite He, Hr. cbn [negb andb]. unfold bind. now rewrite Ho. }
    destruct (openSelectKey_shape _ _ _ Ho) as (_ & Ht').
    split.
    + intros k Hk' Ht. rewrite Hk' in Hk.
      destruct (attempt_submits prompt referenceImageBase64 aspectRatio
                  config fuel isRetry k w w' Hk Ht) as [calls Hc].
      exists calls. apply since_app.
      fold after in Hc. rewrite Hc, Ht', <- app_assoc. reflexivity.
    + intros He'. subst after. cbn [GenerateVeoVideo.attempt].
      unfold bind at 1. rewrite Hk.
      now destruct env' as [[|c r]|].
Qed.

Lemma veo_credential_witness :
  (exists calls,
     since ambient_key
       (snd (generateVeoVideo "A fox tricks a crow" None Landscape
               openai_with_key ambient_key))
     = CallGenerateVideos "AIza-env"
         (GenerateVeoVideo.submission "A fox tricks a crow" None Landscape
            openai_with_key) :: calls)
  /\ (exists calls,
        since key_after_selection
          (snd (generateVeoVideo "A fox tricks a crow" None Portrait None
                  key_after_selection))
        = CallOpenSelectKey
          :: CallGenerateVideos "AIza-new"
               (GenerateVeoVideo.submission "A fox tricks a crow" None
                  Portrait None) :: calls).
Proof.
  split.
  - refine (proj1 (proj2
      (veo_credential "A fox tricks a crow" None Landscape openai_with_key
         1 false ambient_key) _) "AIza-env" eq_refl eq_refl).
    intros k (c & [= <-] & Hp & _). discriminate Hp.
  - refine (proj1 (proj2 (proj2 (proj2
      (veo_credential "A fox tricks a crow" None Portrait None
         1 false key_after_selection) _)) eq_refl eq_refl
      (snd (openSelectKey key_after_selection)) eq_refl)
      "AIza-new" eq_refl eq_refl).
    intros k (c & Hc & _). discriminate Hc.
Defined.

(** ** The extraction round trip *)

(** White space at the two ends. *)

Lemma trimStart_app p x t :
  is_space x = false -> trimStart (p ++ x :: t) = trimStart p ++ x :: t.
Proof.
  intros Hx. induction p as [|c p IH]; cbn [app trimStart].
  - now rewrite Hx.
  - destruct (is_space c); [exact IH | reflexivity].
Qed.

Lemma trimEnd_app a x q :
  is_space x = false -> trimEnd (a ++ x :: q) = a ++ x :: trimEnd q.
Proof.
  intros Hx.
  assert (Hb : trimEnd (x :: q) = x :: trimEnd q).
  { cbn [trimEnd]. destruct (trimEnd q); [now rewrite Hx | reflexivity]. }
  induction a as [|c a IH]; cbn [app]; [exact Hb|].
  cbn [trimEnd]. rewrite IH. now destruct a.
Qed.

(** Positions of the braces. *)

Lemma indexOf_unit c x l :
  indexOf [c] (x :: l)
  = if c =? x then 0%Z
    else if (indexOf [c] l =? -1)%Z then (-1)%Z else (indexOf [c] l + 1)%Z.
Proof. cbn [indexOf startsWith]. now rewrite andb_true_r. Qed.

Lemma indexOf_first c pre rest :
  ~ In c pre -> indexOf [c] (pre ++ c :: rest) = Z.of_nat (length pre).
Proof.
  induction pre as [|x pre IH]; intros Hn.
  - cbn [app]. rewrite indexOf_unit, N.eqb_refl. reflexivity.
  - cbn [app]. rewrite indexOf_unit.
    destruct (N.eqb_spec c x) as [->|_]; [exfalso; apply Hn; now left|].
    rewrite IH by (intros H; apply Hn; now right).
    destruct (Z.eqb_spec (Z.of_nat (length pre)) (-1)); [lia|].
    cbn [length]. lia.
Qed.

Lemma indexOf_beyond c pre x rest :
  ~ In c pre -> c <> x ->
  (indexOf [c] (pre ++ x :: rest) = -1
   \/ Z.of_nat (length pre) < indexOf [c] (pre ++ x :: rest))%Z.
Proof.
  intros Hn Hx. induction pre as [|y pre IH]; cbn [app].
  - rewrite indexOf_unit. destruct (N.eqb_spec c x); [contradiction|].
    destruct (indexOf_range [c] rest) as [->|H]; [now left|].
    destruct (Z.eqb_spec (indexOf [c] rest) (-1)); [now left|].
    right. cbn [length]. lia.
  - rewrite indexOf_unit.
    destruct (N.eqb_spec c y) as [->|_]; [exfalso; apply Hn; now left|].
    destruct IH as [->|H]; [intros H; apply Hn; now right | now left |].
    destruct (Z.eqb_spec (indexOf [c] (pre ++ x :: rest)) (-1)); [now left|].
    right. cbn [length]. lia.
Qed.

Lemma lastIndexOf_unit c x l :
  lastIndexOf [c] (x :: l)
  = if (lastIndexOf [c] l =? -1)%Z then (if c =? x then 0%Z else (-1)%Z)
    else (lastIndexOf [c] l + 1)%Z.
Proof. cbn [lastIndexOf startsWith]. now rewrite andb_true_r. Qed.

Lemma lastIndexOf_absent c l : ~ In c l -> lastIndexOf [c] l = (-1)%Z.
Proof.
  induction l as [|x l IH]; intros Hn; [reflexivity|].
  rewrite lastIndexOf_unit, IH by (intros H; apply Hn; now right).
  cbn. destruct (N.eqb_spec c x) as [->|_]; [exfalso; apply Hn; now left|].
  reflexivity.
Qed.

Lemma lastIndexOf_last c pre post :
  ~ In c post -> lastIndexOf [c] (pre ++ c :: post) = Z.of_nat (length pre).
Proof.
  intros Hn. induction pre as [|x pre IH]; cbn [app].
  - rewrite lastIndexOf_unit, (lastIndexOf_absent _ _ Hn), N.eqb_refl.
    reflexivity.
  - rewrite lastIndexOf_unit, IH.
    destruct (Z.eqb_spec (Z.of_nat (length pre)) (-1)); [lia|].
    cbn [length]. lia.
Qed.

Lemma substring_middle pre mid post :
  substring (Z.of_nat (length pre)) (Z.of_nat (length pre + length mid))
    (pre ++ mid ++ post) = mid.
Proof.
  unfold substring. rewrite !length_app.
  replace (Z.min (Z.max (Z.of_nat (length pre)) 0)
             (Z.of_nat (length pre + (length mid + length post))))
    with (Z.of_nat (length pre)) by lia.
  replace (Z.min (Z.max (Z.of_nat (length pre + length mid)) 0)
             (Z.of_nat (length pre + (length mid + length post))))
    with (Z.of_nat (length pre + length mid)) by lia.
  replace (Z.min (Z.of_nat (length pre)) (Z.of_nat (length pre + length mid)))
    with (Z.of_nat (length pre)) by lia.
  replace (Z.max (Z.of_nat (length pre)) (Z.of_nat (length pre + length mid)))
    with (Z.of_nat (length pre + length mid)) by lia.
  rewrite Nat2Z.id.
  replace (Z.to_nat (Z.of_nat (length pre + length mid) - Z.of_nat (length pre)))
    with (length mid) by lia.
  rewrite skipn_app, skipn_all, Nat.sub_diag. cbn [skipn app].
  rewrite firstn_app, firstn_all, Nat.sub_diag. cbn [firstn].
  now rewrite app_nil_r.
Qed.

Lemma candidate_cut raw :
  candidate raw
  = cut match match_fence (trim raw) with
        | Some group1 => trim group1
        | None => trim raw
        end.
Proof. reflexivity. Qed.

(** Fences. *)

Lemma includes_cons needle c l :
  includes needle (c :: l) = startsWith needle (c :: l) || includes needle l.
Proof.
  unfold includes. cbn [indexOf].
  destruct (startsWith needle (c :: l)); [reflexivity|].
  destruct (Z.eqb_spec (indexOf needle l) (-1)) as [H|H]; cbn [negb orb].
  - reflexivity.
  - destruct (indexOf_range needle l) as [?|?]; [contradiction|].
    apply negb_true_iff, Z.eqb_neq. lia.
Qed.

Lemma fence_units : fence = [backtick; backtick; backtick].
Proof. reflexivity. Qed.

Lemma strip_prefix_startsWith p l :
  startsWith p l = false -> strip_prefix p l = None.
Proof.
  revert l; induction p as [|a p IH]; intros [|b l] H; cbn in *;
    try discriminate; try reflexivity.
  destruct (a =? b); [now apply IH | reflexivity].
Qed.

Lemma strip_prefix_app p l : strip_prefix p (p ++ l) = Some l.
Proof.
  induction p as [|a p IH]; cbn; [reflexivity|]. now rewrite N.eqb_refl.
Qed.

Lemma closes_fence_unfold l :
  closes_fence l
  = startsWith fence l
    || match l with
       | c :: r => is_space c && closes_fence r
       | [] => false
       end.
Proof. now destruct l. Qed.

Lemma lazy_group_unfold l :
  lazy_group l
  = if closes_fence l then Some []
    else match l with
         | c :: r => option_map (cons c) (lazy_group r)
         | [] => None
         end.
Proof. now destruct l. Qed.

Lemma match_fence_unfold l :
  match_fence l
  = match match strip_prefix fence l with
          | Some r => after_open r
          | None => None
          end with
    | Some g => Some g
    | None => match l with
              | _ :: r => match_fence r
              | [] => None
              end
    end.
Proof. now destruct l. Qed.

Lemma trim_wrap p x mid y q :
  is_space x = false -> is_space y = false ->
  trim (p ++ x :: mid ++ y :: q) = trimStart p ++ x :: mid ++ y :: trimEnd q.
Proof.
  intros Hx Hy. unfold trim. rewrite (trimStart_app p x _ Hx).
  replace (trimStart p ++ x :: mid ++ y :: q)
    with ((trimStart p ++ x :: mid) ++ y :: q)
    by (now rewrite <- app_assoc).
  rewrite (trimEnd_app _ y q Hy). now rewrite <- app_assoc.
Qed.

(** A comma before the last brace. *)

Lemma drop_trailing_commas_length l :
  (length (drop_trailing_commas l) <= length l)%nat.
Proof.
  induction l as [|c l IH]; cbn [drop_trailing_commas length]; [lia|].
  destruct (_ && _); cbn [length]; lia.
Qed.

Lemma closer_ahead_before_comma a t t' :
  closer_ahead (a ++ ch "," :: t) = true -> closer_ahead (a ++ t') = true.
Proof.
  induction a as [|x a IH]; cbn [app closer_ahead].
  - discriminate.
  - destruct (_ || _); [reflexivity|].
    destruct (is_space x); [exact IH | discriminate].
Qed.

Lemma closer_ahead_spaces gap c rest :
  spaces gap -> (c = ch "}" \/ c = ch "]") ->
  closer_ahead (gap ++ c :: rest) = true.
Proof.
  intros Hg Hc. induction Hg as [|g gap Hs Hg IH]; cbn [app closer_ahead].
  - destruct Hc as [-> | ->]; reflexivity.
  - destruct (_ || _); [reflexivity|]. now rewrite Hs, IH.
Qed.

Lemma drop_trailing_commas_inserted front gap c rest :
  spaces gap -> (c = ch "}" \/ c = ch "]") ->
  drop_trailing_commas (front ++ gap ++ c :: rest)
  = front ++ gap ++ c :: rest ->
  drop_trailing_commas (front ++ ch "," :: gap ++ c :: rest)
  = front ++ gap ++ c :: rest.
Proof.
  intros Hg Hc. induction front as [|x front IH]; intros Hfix.
  - cbn [app drop_trailing_commas] in *.
    now rewrite N.eqb_refl, (closer_ahead_spaces _ _ _ Hg Hc).
  - cbn [app drop_trailing_commas] in *.
    destruct ((x =? ch ",") && closer_ahead (front ++ gap ++ c :: rest))
      eqn:E.
    + exfalso.
      pose proof (drop_trailing_commas_length (front ++ gap ++ c :: rest)) as L.
      rewrite Hfix in L. cbn [length] in L. lia.
    + injection Hfix as Hfix.
      destruct ((x =? ch ",")
                && closer_ahead (front ++ ch "," :: gap ++ c :: rest)) eqn:E'.
      * apply andb_true_iff in E' as [Ex E'].
        apply (closer_ahead_before_comma _ _ (gap ++ c :: rest)) in E'.
        now rewrite Ex, E' in E.
      * now rewrite IH.
Qed.

(** [JSON.parse] refuses a comma before the last brace. *)

Lemma last_solid_app a b :
  last_solid (a ++ b)
  = match last_solid b with
    | Some x => Some x
    | None => last_solid a
    end.
Proof.
  induction a as [|c a IH]; cbn [app last_solid].
  - now destruct (last_solid b).
  - rewrite IH. now destruct (last_solid b).
Qed.

Lemma last_solid_spaces ws : spaces ws -> last_solid ws = None.
Proof.
  induction 1 as [|c ws Hc Hw IH]; cbn [last_solid]; [reflexivity|].
  now rewrite IH, Hc.
Qed.

Lemma json_ws_space c : is_json_ws c = true -> is_space c = true.
Proof.
  unfold is_json_ws. rewrite !orb_true_iff, !N.eqb_eq.
  intros [[[-> | ->] | ->] | ->]; reflexivity.
Qed.

Lemma skip_ws_split l : exists ws, l = ws ++ skip_ws l /\ spaces ws.
Proof.
  induction l as [|c l (ws & IH & Hw)]; cbn [skip_ws].
  - exists []. split; [reflexivity | constructor].
  - destruct (is_json_ws c) eqn:E.
    + exists (c :: ws). split; [cbn [app]; now f_equal|].
      constructor; [now apply json_ws_space | exact Hw].
    + exists []. split; [reflexivity | constructor].
Qed.

Lemma ends_well_prefix p l r : ends_well l r -> ends_well (p ++ l) r.
Proof.
  intros (read & x & -> & Hs & Hc & Hb).
  exists (p ++ read), x. split; [now rewrite <- app_assoc|].
  split; [exact Hs|]. split; [exact Hc|].
  intros Hx. destruct (Hb Hx) as (y & Hy & Hn).
  exists y. split; [|exact Hn]. now rewrite last_solid_app, Hy.
Qed.

Lemma closes_object_prefix p l r : closes_object l r -> closes_object (p ++ l) r.
Proof.
  intros (read & y & -> & Hy & Hn).
  exists (p ++ read), y. split; [now rewrite <- app_assoc|].
  split; [|exact Hn]. now rewrite last_solid_app, Hy.
Qed.

Lemma closes_array_prefix p l r : closes_array l r -> closes_array (p ++ l) r.
Proof.
  intros (read & ->). exists (p ++ read). now rewrite <- app_assoc.
Qed.

Lemma ends_well_with x read r :
  is_space x = false -> x <> ch "," -> x <> ch "}" ->
  ends_well (read ++ x :: r) r.
Proof.
  intros Hs Hc Hb. exists read, x. repeat split; try assumption.
  intros E. contradiction.
Qed.

Lemma strip_prefix_split p l r : strip_prefix p l = Some r -> l = p ++ r.
Proof.
  revert l; induction p as [|a p IH]; intros l H; cbn in H.
  - now injection H as <-.
  - destruct l as [|b l]; [discriminate|].
    destruct (N.eqb_spec a b) as [->|_]; [|discriminate].
    cbn [app]. f_equal. now apply IH.
Qed.

Lemma parse_string_split_bounded n l s r :
  (length l <= n)%nat ->
  parse_string l = Some (s, r) -> exists read, l = read ++ quote :: r.
Proof.
  revert l s r. induction n as [|n IH]; intros l s r Hn H;
    (destruct l as [|c t]; [discriminate|]); cbn [length] in Hn; [lia|].
  cbn [parse_string] in H.
  destruct (N.eqb_spec c quote) as [->|_].
  { injection H as _ <-. now exists []. }
  destruct (c =? ch "\").
  - destruct t as [|e r1]; [discriminate|].
    destruct (e =? ch "u").
    + destruct r1 as [|h1 [|h2 [|h3 [|h4 r2]]]]; try discriminate.
      destruct (hex4 h1 h2 h3 h4); [|discriminate].
      destruct (parse_string r2) as [[s' rest]|] eqn:E; [|discriminate].
      injection H as _ <-.
      destruct (IH r2 _ _ ltac:(cbn [length] in Hn; lia) E) as [read ->].
      now exists (c :: e :: h1 :: h2 :: h3 :: h4 :: read).
    + destruct (simple_escape e); [|discriminate].
      destruct (parse_string r1) as [[s' rest]|] eqn:E; [|discriminate].
      injection H as _ <-.
      destruct (IH r1 _ _ ltac:(cbn [length] in Hn; lia) E) as [read ->].
      now exists (c :: e :: read).
  - destruct (c <? 32); [discriminate|].
    destruct (parse_string t) as [[s' rest]|] eqn:E; [|discriminate].
    injection H as _ <-.
    destruct (IH t _ _ ltac:(lia) E) as [read ->].
    now exists (c :: read).
Qed.

Lemma parse_string_split l s r :
  parse_string l = Some (s, r) -> exists read, l = read ++ quote :: r.
Proof. apply (parse_string_split_bounded (length l)). lia. Qed.

Lemma span_digits_split l :
  l = fst (span_digits l) ++ snd (span_digits l)
  /\ Forall (fun c => is_digit c = true) (fst (span_digits l)).
Proof.
  induction l as [|c l (IH & Hd)]; cbn [span_digits].
  - split; [reflexivity | constructor].
  - destruct (is_digit c) eqn:E.
    + destruct (span_digits l) as [ds rest]. cbn [fst snd] in *.
      split; [cbn [app]; congruence | now constructor].
    + split; [reflexivity | constructor].
Qed.

Lemma digit_solid x :
  is_digit x = true -> is_space x = false /\ x <> ch "," /\ x <> ch "}".
Proof.
  unfold is_digit. rewrite andb_true_iff, !N.leb_le. intros [H1 H2].
  change (ch ",") with 44. change (ch "}") with 125.
  split; [|split; lia].
  destruct (is_space x) eqn:E; [|reflexivity]. exfalso.
  unfold is_space in E.
  rewrite !orb_true_iff, !andb_true_iff, !N.eqb_eq, !N.leb_le in E. lia.
Qed.

(** Digits at the end of what was read. *)
Lemma ends_with_digits pre ds r :
  ds <> [] -> Forall (fun c => is_digit c = true) ds ->
  ends_well (pre ++ ds ++ r) r.
Proof.
  intros Hne Hd.
  destruct (exists_last Hne) as (front & x & ->).
  apply Forall_app in Hd as [_ Hx]. inversion Hx as [|? ? Hdx _]; subst.
  destruct (digit_solid _ Hdx) as (Hs & Hc & Hb).
  replace (pre ++ (front ++ [x]) ++ r) with ((pre ++ front) ++ x :: r)
    by (now rewrite <- !app_assoc).
  now apply ends_well_with.
Qed.

Lemma parse_number_ends_well l v r :
  parse_number l = Some (v, r) -> ends_well l r.
Proof.
  unfold parse_number.
  destruct (match l with
            | c :: r0 => if c =? ch "-" then (true, r0) else (false, l)
            | [] => (false, l)
            end) as [negative l0] eqn:Esign.
  assert (Hsign : exists pre, l = pre ++ l0).
  { destruct l as [|c t]; [injection Esign as _ <-; now exists []|].
    destruct (c =? ch "-"); injection Esign as _ <-;
      [now exists [c] | now exists []]. }
  destruct Hsign as [pre ->]. clear Esign.
  destruct (match l0 with
            | c :: r0 => if c =? 48 then ([c], r0) else span_digits l0
            | [] => ([], [])
            end) as [int l1] eqn:Eint.
  assert (Hint : l0 = int ++ l1 /\ Forall (fun c => is_digit c = true) int).
  { destruct l0 as [|c t]; [injection Eint as <- <-; split; [reflexivity|constructor]|].
    destruct (N.eqb_spec c 48) as [->|_].
    - injection Eint as <- <-. split; [reflexivity|]. now repeat constructor.
    - pose proof (span_digits_split (c :: t)) as H. now rewrite Eint in H. }
  destruct Hint as [-> Hint]. clear Eint.
  destruct int as [|i int]; [discriminate|].
  set (whole := i :: int) in *.
  destruct (match l1 with
            | [] => Some ([], l1)
            | c :: r0 =>
                if c =? ch "."
                then let (fs, l2) := span_digits r0 in
                     match fs with [] => None | _ :: _ => Some (fs, l2) end
                else Some ([], l1)
            end) as [[fs l2]|] eqn:Efrac; [|discriminate].
  assert (Hfrac : ends_well (pre ++ whole ++ l1) l2
                  /\ exists mid, pre ++ whole ++ l1 = mid ++ l2).
  { assert (Hplain : ends_well (pre ++ whole ++ l1) l1
                     /\ exists mid, pre ++ whole ++ l1 = mid ++ l1).
    { split; [apply ends_with_digits; [discriminate | exact Hint]|].
      exists (pre ++ whole). now rewrite <- app_assoc. }
    destruct l1 as [|c t]; [now injection Efrac as _ <-|].
    destruct (c =? ch "."); [|now injection Efrac as _ <-].
    pose proof (span_digits_split t) as [Ht Hd].
    destruct (span_digits t) as [ds rest]. cbn [fst snd] in *.
    destruct ds as [|d ds]; [discriminate|].
    injection Efrac as _ <-. subst t. split.
    - replace (pre ++ whole ++ c :: (d :: ds) ++ rest)
        with ((pre ++ whole ++ [c]) ++ (d :: ds) ++ rest)
        by (now rewrite <- !app_assoc).
      apply ends_with_digits; [discriminate | exact Hd].
    - exists (pre ++ whole ++ c :: d :: ds).
      now rewrite <- !app_assoc. }
  destruct Hfrac as [Hwell [mid Hmid]]. rewrite Hmid in *. clear Hmid Efrac.
  destruct l2 as [|c t]; [now intros [= _ <-]|].
  destruct ((c =? ch "e") || (c =? ch "E")); [|now intros [= _ <-]].
  destruct (match t with
            | [] => (false, t)
            | s :: r' =>
                if s =? ch "-" then (true, r')
                else if s =? ch "+" then (false, r') else (false, t)
            end) as [eneg l3] eqn:Eexp.
  assert (Hexp : exists epre, t = epre ++ l3).
  { destruct t as [|s r']; [injection Eexp as _ <-; now exists []|].
    destruct (s =? ch "-"); [injection Eexp as _ <-; now exists [s]|].
    destruct (s =? ch "+"); injection Eexp as _ <-;
      [now exists [s] | now exists []]. }
  destruct Hexp as [epre ->].
  pose proof (span_digits_split l3) as [Ht Hd].
  destruct (span_digits l3) as [es l4]. cbn [fst snd] in *.
  destruct es as [|d es]; [discriminate|].
  intros [= _ <-]. subst l3.
  replace (mid ++ c :: epre ++ (d :: es) ++ l4)
    with ((mid ++ c :: epre) ++ (d :: es) ++ l4)
    by (now rewrite <- !app_assoc).
  apply ends_with_digits; [discriminate | exact Hd].
Qed.

Lemma ends_well_closer read c r :
  c = ch "]" \/ c = quote \/ c = ch "e" \/ c = ch "l" ->
  ends_well (read ++ c :: r) r.
Proof.
  intros H. apply ends_well_with;
    destruct H as [-> | [-> | [-> | ->]]]; try reflexivity; discriminate.
Qed.

Lemma parse_ends_well n :
  (forall l v r, parse_value n l = Some (v, r) -> ends_well l r)
  /\ (forall acc l v r,
        parse_elements n acc l = Some (v, r) -> closes_array l r)
  /\ (forall acc l v r,
        parse_members n acc l = Some (v, r) -> closes_object l r).
Proof.
  induction n as [|f (IHv & IHe & IHm)]; [repeat split; discriminate|].
  split; [|split].
  - intros l v r. cbn [parse_value].
    destruct (skip_ws_split l) as (ws & Hl & Hws).
    destruct (skip_ws l) as [|c t]; [discriminate|].
    rewrite Hl. intros H. apply ends_well_prefix. clear Hl.
    destruct (N.eqb_spec c (ch "{")) as [->|_].
    { destruct (skip_ws_split t) as (ws1 & Ht & Hws1).
      destruct (skip_ws t) as [|c' r']; [discriminate|].
      rewrite Ht.
      destruct (N.eqb_spec c' (ch "}")) as [->|_].
      - injection H as _ <-.
        exists (ch "{" :: ws1), (ch "}").
        split; [reflexivity|]. split; [reflexivity|].
        split; [discriminate|]. intros _. exists (ch "{").
        split; [|discriminate].
        cbn [last_solid]. now rewrite (last_solid_spaces _ Hws1).
      - apply IHm in H.
        destruct (closes_object_prefix (ch "{" :: ws1) _ _ H)
          as (read & y & E & Hy & Hn).
        cbn [app] in E. rewrite E.
        exists read, (ch "}").
        split; [reflexivity|]. split; [reflexivity|].
        split; [discriminate|]. intros _. now exists y. }
    destruct (N.eqb_spec c (ch "[")) as [->|_].
    { destruct (skip_ws_split t) as (ws1 & Ht & Hws1).
      destruct (skip_ws t) as [|c' r']; [discriminate|].
      rewrite Ht.
      destruct (N.eqb_spec c' (ch "]")) as [->|_].
      - injection H as _ <-.
        apply (ends_well_closer (ch "[" :: ws1)). now left.
      - apply IHe in H.
        destruct (closes_array_prefix (ch "[" :: ws1) _ _ H) as (read & E).
        cbn [app] in E. rewrite E. apply ends_well_closer. now left. }
    destruct (c =? quote).
    { destruct (parse_string t) as [[s rest]|] eqn:E; [|discriminate].
      injection H as _ <-.
      destruct (parse_string_split _ _ _ E) as [read ->].
      apply (ends_well_closer (c :: read)). right. now left. }
    destruct (strip_prefix "true" (c :: t)) as [rest|] eqn:E1.
    { injection H as _ <-. rewrite (strip_prefix_split _ _ _ E1).
      apply (ends_well_closer (units "tru")). right. right. now left. }
    destruct (strip_prefix "false" (c :: t)) as [rest|] eqn:E2.
    { injection H as _ <-. rewrite (strip_prefix_split _ _ _ E2).
      apply (ends_well_closer (units "fals")). right. right. now left. }
    destruct (strip_prefix "null" (c :: t)) as [rest|] eqn:E3.
    { injection H as _ <-. rewrite (strip_prefix_split _ _ _ E3).
      apply (ends_well_closer (units "nul")). right. right. now right. }
    now apply parse_number_ends_well in H.
  - intros acc l v r. cbn [parse_elements].
    destruct (parse_value f l) as [[v' r1]|] eqn:E; [|discriminate].
    apply IHv in E. destruct E as (read & x & -> & _).
    destruct (skip_ws_split r1) as (ws & Hr & _).
    destruct (skip_ws r1) as [|c r']; [discriminate|].
    rewrite Hr.
    replace (read ++ x :: ws ++ c :: r')
      with ((read ++ x :: ws) ++ c :: r') by (now rewrite <- app_assoc).
    destruct (c =? ch ",").
    + intros H. apply IHe in H.
      apply (closes_array_prefix ((read ++ x :: ws) ++ [c])) in H.
      now rewrite <- app_assoc in H.
    + destruct (N.eqb_spec c (ch "]")) as [->|_]; [|discriminate].
      intros [= _ <-]. now exists (read ++ x :: ws).
  - intros acc l v r. cbn [parse_members].
    destruct (skip_ws_split l) as (ws & Hl & Hws).
    destruct (skip_ws l) as [|q r0]; [discriminate|].
    rewrite Hl. clear Hl.
    destruct (q =? quote); [|discriminate].
    destruct (parse_string r0) as [[k r1]|] eqn:Ek; [|discriminate].
    destruct (parse_string_split _ _ _ Ek) as [kread ->].
    destruct (skip_ws_split r1) as (ws1 & Hr1 & _).
    destruct (skip_ws r1) as [|c r2]; [discriminate|].
    rewrite Hr1. clear Hr1.
    destruct (c =? ch ":"); [|discriminate].
    destruct (parse_value f r2) as [[v' r3]|] eqn:Ev; [|discriminate].
    apply IHv in Ev. destruct Ev as (read & x & -> & Hs & Hc & _).
    destruct (skip_ws_split r3) as (ws3 & Hr3 & Hws3).
    destruct (skip_ws r3) as [|d r4]; [discriminate|].
    rewrite Hr3. clear Hr3.
    set (front := ws ++ q :: kread ++ quote :: ws1 ++ c :: read ++ x :: ws3).
    replace (ws ++ q :: (kread ++ quote :: ws1 ++ c :: read ++ x :: ws3 ++ d :: r4))
      with (front ++ d :: r4)
      by (subst front; repeat (rewrite <- ?app_assoc; cbn [app]); reflexivity).
    destruct (d =? ch ",").
    + intros H. apply IHm in H.
      apply (closes_object_prefix (front ++ [d])) in H.
      now rewrite <- app_assoc in H.
    + destruct (N.eqb_spec d (ch "}")) as [->|_]; [|discriminate].
      intros [= _ <-]. exists front, x. split; [reflexivity|].
      split; [|exact Hc]. subst front.
      replace (ws ++ q :: kread ++ quote :: ws1 ++ c :: read ++ x :: ws3)
        with ((ws ++ q :: kread ++ quote :: ws1 ++ c :: read) ++ x :: ws3)
        by (repeat (rewrite <- ?app_assoc; cbn [app]); reflexivity).
      rewrite last_solid_app. cbn [last_solid].
      now rewrite (last_solid_spaces _ Hws3), Hs.
Qed.

(** ** Fuel *)

Lemma skip_ws_length l : (length (skip_ws l) <= length l)%nat.
Proof.
  destruct (skip_ws_split l) as (ws & H & _).
  rewrite H at 2. rewrite length_app. lia.
Qed.

Lemma ends_well_length l r : ends_well l r -> (length r < length l)%nat.
Proof.
  intros (read & x & -> & _). rewrite length_app. cbn [length]. lia.
Qed.

Lemma parse_string_length l s r :
  parse_string l = Some (s, r) -> (length r < length l)%nat.
Proof.
  intros H. destruct (parse_string_split _ _ _ H) as [read ->].
  rewrite length_app. cbn [length]. lia.
Qed.

(** Fuel above twice the length of the input is not used up: more of it
    changes nothing. *)
Lemma parse_fuel n :
  (forall m l, (2 * length l < n)%nat -> (2 * length l < m)%nat ->
               parse_value n l = parse_value m l)
  /\ (forall m acc l,
        (2 * length l + 1 < n)%nat -> (2 * length l + 1 < m)%nat ->
        parse_elements n acc l = parse_elements m acc l)
  /\ (forall m acc l,
        (2 * length l + 1 < n)%nat -> (2 * length l + 1 < m)%nat ->
        parse_members n acc l = parse_members m acc l).
Proof.
  induction n as [|f (IHv & IHe & IHm)]; [repeat split; intros; lia|].
  split; [|split].
  - intros [|g] l Hn Hm; [lia|]. cbn [parse_value].
    pose proof (skip_ws_length l) as Hl.
    destruct (skip_ws l) as [|c t]; [reflexivity|]. cbn [length] in Hl.
    pose proof (skip_ws_length t) as Ht.
    destruct (c =? ch "{").
    { destruct (skip_ws t) as [|c' r']; [reflexivity|].
      destruct (c' =? ch "}"); [reflexivity|].
      apply IHm; cbn [length] in *; lia. }
    destruct (c =? ch "[").
    { destruct (skip_ws t) as [|c' r']; [reflexivity|].
      destruct (c' =? ch "]"); [reflexivity|].
      apply IHe; cbn [length] in *; lia. }
    reflexivity.
  - intros [|g] acc l Hn Hm; [lia|]. cbn [parse_elements].
    rewrite (IHv g l) by lia.
    destruct (parse_value g l) as [[v r]|] eqn:E; [|reflexivity].
    pose proof (ends_well_length _ _ (proj1 (parse_ends_well g) _ _ _ E)) as Hr.
    pose proof (skip_ws_length r) as Hs.
    destruct (skip_ws r) as [|c r']; [reflexivity|]. cbn [length] in Hs.
    destruct (c =? ch ","); [|reflexivity].
    apply IHe; lia.
  - intros [|g] acc l Hn Hm; [lia|]. cbn [parse_members].
    pose proof (skip_ws_length l) as Hl.
    destruct (skip_ws l) as [|q r0]; [reflexivity|]. cbn [length] in Hl.
    destruct (q =? quote); [|reflexivity].
    destruct (parse_string r0) as [[k r1]|] eqn:Ek; [|reflexivity].
    pose proof (parse_string_length _ _ _ Ek) as Hk.
    pose proof (skip_ws_length r1) as H1.
    destruct (skip_ws r1) as [|c r2]; [reflexivity|]. cbn [length] in H1.
    destruct (c =? ch ":"); [|reflexivity].
    rewrite (IHv g r2) by lia.
    destruct (parse_value g r2) as [[v r3]|] eqn:E; [|reflexivity].
    pose proof (ends_well_length _ _ (proj1 (parse_ends_well g) _ _ _ E)) as Hr.
    pose proof (skip_ws_length r3) as H3.
    destruct (skip_ws r3) as [|d r4]; [reflexivity|]. cbn [length] in H3.
    destruct (d =? ch ","); [|reflexivity].
    apply IHm; lia.
Qed.

Lemma parse_value_fuel n l :
  (2 * length l < n)%nat ->
  parse_value n l = parse_value (S (2 * length l)) l.
Proof. intros H. apply (proj1 (parse_fuel n)); lia. Qed.

(** Two levels of [attempt] are all there are. *)
Lemma analyze_attempt_fuel storyText config lang n w :
  AnalyzeStoryGoogle.attempt storyText config lang (S n) true w
  = AnalyzeStoryGoogle.attempt storyText config lang 1 true w
  /\ AnalyzeStoryGoogle.attempt storyText config lang (S (S n)) false w
     = AnalyzeStoryGoogle.attempt storyText config lang 2 false w.
Proof. split; reflexivity. Qed.

Lemma polish_attempt_fuel storyText config lang n w :
  PolishStory.attempt storyText config lang (S n) true w
  = PolishStory.attempt storyText config lang 1 true w
  /\ PolishStory.attempt storyText config lang (S (S n)) false w
     = PolishStory.attempt storyText config lang 2 false w.
Proof. split; reflexivity. Qed.

(** In the video operation the second attempt may still ask for a key that
    is missing, but it does not call itself. *)
Lemma veo_attempt_fuel prompt image aspectRatio config n w :
  GenerateVeoVideo.attempt prompt image aspectRatio config (S n) true w
  = GenerateVeoVideo.attempt prompt image aspectRatio config 1 true w
  /\ GenerateVeoVideo.attempt prompt image aspectRatio config (S (S n)) false w
     = GenerateVeoVideo.attempt prompt image aspectRatio config 2 false w.
Proof. split; reflexivity. Qed.

(** A turn of the polling loop takes a reply: fuel above the number of
    replies left is not used up. *)
Lemma poll_fuel n m ai operation w :
  (length (getVideosOperation_replies w) < n)%nat ->
  (length (getVideosOperation_replies w) < m)%nat ->
  poll n ai operation w = poll m ai operation w.
Proof.
  revert m operation w. induction n as [|f IH]; intros [|g] op w Hn Hm; try lia.
  cbn [poll]. destruct (done op); [reflexivity|].
  unfold bind at 1 3. unfold setTimeout.
  unfold bind, getVideosOperation. cbn [record getVideosOperation_replies].
  destruct (getVideosOperation_replies w) as [|r rest] eqn:E; [reflexivity|].
  destruct r as [op'|e]; cbn [settle]; [|reflexivity].
  apply IH; cbn [getVideosOperation_replies length] in *; lia.
Qed.

(** Checks of the vocabulary by computation. *)

(** ** Texts without a delimited span *)

Lemma occurs_refl (l : text) : occurs l l.
Proof. exists [], []. now rewrite app_nil_r. Qed.

Lemma occurs_trans (a b c : text) : occurs a b -> occurs b c -> occurs a c.
Proof.
  intros (p & q & ->) (p' & q' & ->). exists (p' ++ p), (q ++ q').
  now rewrite <- !app_assoc.
Qed.

Lemma occurs_tail (a : text) x l : occurs a l -> occurs a (x :: l).
Proof. intros (p & q & ->). now exists (x :: p), q. Qed.

Lemma trimStart_occurs l : occurs (trimStart l) l.
Proof.
  induction l as [|c l IH]; cbn [trimStart]; [apply occurs_refl|].
  destruct (is_space c); [now apply occurs_tail | apply occurs_refl].
Qed.

Lemma trimEnd_prefix l : exists q, l = trimEnd l ++ q.
Proof.
  induction l as [|c l [q IH]]; cbn [trimEnd]; [now exists []|].
  destruct (trimEnd l) as [|x t] eqn:E.
  - destruct (is_space c); [exists (c :: l) | exists l]; reflexivity.
  - exists q. cbn [app]. f_equal. exact IH.
Qed.

Lemma trim_occurs l : occurs (trim l) l.
Proof.
  unfold trim. apply occurs_trans with (trimStart l);
    [|apply trimStart_occurs].
  destruct (trimEnd_prefix (trimStart l)) as [q H].
  exists [], q. exact H.
Qed.

Lemma lazy_group_prefix l g : lazy_group l = Some g -> exists q, l = g ++ q.
Proof.
  revert g. induction l as [|c l IH]; intros g; rewrite lazy_group_unfold;
    destruct (closes_fence _).
  - intros [= <-]. now exists [].
  - discriminate.
  - intros [= <-]. now exists (c :: l).
  - destruct (lazy_group l) as [g'|]; [|discriminate].
    intros [= <-]. destruct (IH _ eq_refl) as [q ->]. now exists q.
Qed.

Lemma lazy_group_occurs l g : lazy_group l = Some g -> occurs g l.
Proof.
  intros H. destruct (lazy_group_prefix _ _ H) as [q ->]. now exists [], q.
Qed.

Lemma after_spaces_occurs l g : after_spaces l = Some g -> occurs g l.
Proof.
  revert g. induction l as [|c l IH]; intros g; cbn [after_spaces].
  - apply lazy_group_occurs.
  - destruct (is_space c); [|apply lazy_group_occurs].
    destruct (after_spaces l) as [g'|].
    + intros [= <-]. apply occurs_tail. now apply IH.
    + apply lazy_group_occurs.
Qed.

Lemma occurs_behind (a p l : text) : occurs a l -> occurs a (p ++ l).
Proof.
  intros (x & y & ->). exists (p ++ x), y. now rewrite <- app_assoc.
Qed.

Lemma after_open_occurs l g : after_open l = Some g -> occurs g l.
Proof.
  unfold after_open.
  destruct (strip_prefix "json" l) as [r|] eqn:E;
    [|apply after_spaces_occurs].
  destruct (after_spaces r) as [g'|] eqn:Er; [|apply after_spaces_occurs].
  intros [= <-]. apply strip_prefix_split in E. rewrite E.
  apply occurs_behind. now apply after_spaces_occurs.
Qed.

Lemma match_fence_occurs l g : match_fence l = Some g -> occurs g l.
Proof.
  revert g. induction l as [|c l IH]; intros g; rewrite match_fence_unfold.
  - cbn. discriminate.
  - destruct (strip_prefix fence (c :: l)) as [r|] eqn:E.
    + destruct (after_open r) as [g'|] eqn:Eo.
      * intros [= <-]. apply strip_prefix_split in E. rewrite E.
        apply occurs_behind. now apply after_open_occurs.
      * intros H. apply occurs_tail. now apply IH.
    + intros H. apply occurs_tail. now apply IH.
Qed.

Lemma unfenced_occurs raw : occurs (unfenced raw) raw.
Proof.
  unfold unfenced. destruct (match_fence (trim raw)) as [g|] eqn:E.
  - apply occurs_trans with g; [apply trim_occurs|].
    apply occurs_trans with (trim raw); [|apply trim_occurs].
    now apply match_fence_occurs.
  - apply trim_occurs.
Qed.

Lemma spans_occurs o c (a l : text) : occurs a l -> spans o c a -> spans o c l.
Proof.
  intros (p & q & ->) (x & y & z & ->).
  exists (p ++ x), y, (z ++ q). rewrite <- !app_assoc. cbn [app].
  now rewrite <- !app_assoc.
Qed.

Lemma no_span_occurs (a l : text) : occurs a l -> no_span l -> no_span a.
Proof.
  intros Ho [H1 H2]. split; intros H; [apply H1 | apply H2];
    exact (spans_occurs _ _ _ _ Ho H).
Qed.

Lemma indexOf_found c l :
  indexOf [c] l <> (-1)%Z ->
  exists pre rest,
    l = pre ++ c :: rest /\ indexOf [c] l = Z.of_nat (length pre).
Proof.
  induction l as [|x l IH]; [now cbn|].
  rewrite indexOf_unit. destruct (N.eqb_spec c x) as [->|_].
  - intros _. now exists [], l.
  - destruct (Z.eqb_spec (indexOf [c] l) (-1)) as [|Hn]; [contradiction|].
    intros _. destruct (IH Hn) as (pre & rest & -> & E).
    exists (x :: pre), rest. split; [reflexivity|].
    rewrite E. cbn [length]. lia.
Qed.

Lemma lastIndexOf_found c l :
  lastIndexOf [c] l <> (-1)%Z ->
  exists pre rest,
    l = pre ++ c :: rest /\ lastIndexOf [c] l = Z.of_nat (length pre).
Proof.
  induction l as [|x l IH]; [now cbn|].
  rewrite lastIndexOf_unit.
  destruct (Z.eqb_spec (lastIndexOf [c] l) (-1)) as [|Hn].
  - destruct (N.eqb_spec c x) as [->|_]; [|contradiction].
    intros _. now exists [], l.
  - intros _. destruct (IH Hn) as (pre & rest & -> & E).
    exists (x :: pre), rest. split; [reflexivity|].
    rewrite E. cbn [length]. lia.
Qed.

Lemma spans_between o c (l pre rest pre' rest' : text) :
  l = pre ++ o :: rest -> l = pre' ++ c :: rest' ->
  (length pre < length pre')%nat ->
  spans o c l.
Proof.
  revert l pre'. induction pre as [|x pre IH]; intros l pre' -> H Hlen.
  - destruct pre' as [|y pre']; [cbn in Hlen; lia|].
    injection H as <- ->. now exists [], pre', rest'.
  - destruct pre' as [|y pre']; [cbn in Hlen; lia|].
    cbn [app] in H. injection H as <- H.
    destruct (IH _ pre' eq_refl H ltac:(cbn in Hlen; lia)) as (a & b & r & E).
    cbn [app]. rewrite E. now exists (x :: a), b, r.
Qed.

Lemma found_span o c l :
  indexOf [o] l <> (-1)%Z -> lastIndexOf [c] l <> (-1)%Z ->
  (lastIndexOf [c] l > indexOf [o] l)%Z ->
  spans o c l.
Proof.
  intros Ho Hc Hlt.
  destruct (indexOf_found _ _ Ho) as (pre & rest & E & Ei).
  destruct (lastIndexOf_found _ _ Hc) as (pre' & rest' & E' & Ei').
  apply (spans_between o c l pre rest pre' rest' E E'). lia.
Qed.

(** Step 2 leaves a text without a delimited span as it is. *)
Lemma cut_no_span l : no_span l -> cut l = l.
Proof.
  intros [Hb Hk]. unfold cut.
  change (units "{") with [ch "{"]. change (units "[") with [ch "["].
  change (units "}") with [ch "}"]. change (units "]") with [ch "]"].
  destruct (negb (indexOf [ch "{"] l =? -1)%Z
            && ((indexOf [ch "["] l =? -1)%Z
                || (indexOf [ch "{"] l <? indexOf [ch "["] l)%Z));
    [|destruct (negb (indexOf [ch "["] l =? -1)%Z)]; cbn [fst snd];
    try reflexivity;
    match goal with
    | |- (if ?b then _ else _) = _ => destruct b eqn:E; [|reflexivity]
    end;
    exfalso;
    rewrite !andb_true_iff, !negb_true_iff, !Z.eqb_neq, Z.gtb_ltb, Z.ltb_lt
      in E;
    destruct E as [[H1 H2] H3];
    [apply Hb | apply Hk]; apply found_span; try assumption; lia.
Qed.

Lemma candidate_no_span raw : no_span raw -> candidate raw = unfenced raw.
Proof.
  intros H. rewrite candidate_cut. apply cut_no_span.
  exact (no_span_occurs _ _ (unfenced_occurs raw) H).
Qed.

(** What [parse_value] reads when the first code unit that is not white
    space is an opener holds that opener and, behind it, its closer. *)
Lemma parse_value_opened n l v r c t :
  parse_value n l = Some (v, r) -> skip_ws l = c :: t ->
  c = ch "{" \/ c = ch "[" ->
  spans (ch "{") (ch "}") l \/ spans (ch "[") (ch "]") l.
Proof.
  destruct n as [|f]; [discriminate|]. cbn [parse_value].
  destruct (skip_ws_split l) as (ws & Hl & _). intros H Hs. rewrite Hs in *.
  rewrite Hl. clear Hl Hs.
  destruct (skip_ws_split t) as (ws1 & Ht & _).
  intros [-> | ->]; [left; rewrite N.eqb_refl in H
                    | right; change (ch "[" =? ch "{") with false in H;
                      rewrite N.eqb_refl in H];
    (destruct (skip_ws t) as [|c' r']; [discriminate|]); rewrite Ht.
  - destruct (N.eqb_spec c' (ch "}")) as [->|_].
    + now exists ws, ws1, r'.
    + apply (proj2 (proj2 (parse_ends_well f))) in H.
      destruct H as (read & y & E & _). rewrite E.
      exists ws, (ws1 ++ read), r. now rewrite <- app_assoc.
  - destruct (N.eqb_spec c' (ch "]")) as [->|_].
    + now exists ws, ws1, r'.
    + apply (proj1 (proj2 (parse_ends_well f))) in H.
      destruct H as (read & E). rewrite E.
      exists ws, (ws1 ++ read), r. now rewrite <- app_assoc.
Qed.

Lemma parse_value_scalar n l v r c t :
  parse_value n l = Some (v, r) -> skip_ws l = c :: t ->
  c <> ch "{" -> c <> ch "[" -> scalar v.
Proof.
  destruct n as [|f]; [discriminate|]. cbn [parse_value].
  intros H Hs Hb Hk. rewrite Hs in H.
  destruct (N.eqb_spec c (ch "{")); [contradiction|].
  destruct (N.eqb_spec c (ch "[")); [contradiction|].
  destruct (c =? quote).
  - destruct (parse_string t) as [[s rest]|]; [|discriminate].
    injection H as <- _. exact I.
  - destruct (strip_prefix "true" (c :: t)); [injection H as <- _; exact I|].
    destruct (strip_prefix "false" (c :: t)); [injection H as <- _; exact I|].
    destruct (strip_prefix "null" (c :: t)); [injection H as <- _; exact I|].
    now apply parse_number_scalar in H.
Qed.

Lemma parse_value_some n l v r :
  parse_value n l = Some (v, r) -> exists c t, skip_ws l = c :: t.
Proof.
  destruct n as [|f]; [discriminate|]. cbn [parse_value].
  destruct (skip_ws l) as [|c t]; [discriminate|]. now exists c, t.
Qed.

Lemma JSON_parse_no_span l v : JSON_parse l = Some v -> no_span l -> scalar v.
Proof.
  unfold JSON_parse.
  destruct (parse_value _ l) as [[v' r]|] eqn:E; [|discriminate].
  destruct (skip_ws r); [|discriminate].
  intros [= <-] [Hb Hk].
  destruct (parse_value_some _ _ _ _ E) as (c & t & Hs).
  destruct (N.eqb_spec c (ch "{")) as [Hc|Hc];
    [|destruct (N.eqb_spec c (ch "[")) as [Hc'|Hc']];
    [| |exact (parse_value_scalar _ _ _ _ _ _ E Hs Hc Hc')];
    exfalso;
    (destruct (parse_value_opened _ _ _ _ _ _ E Hs) as [H | H];
     [tauto | now apply Hb | now apply Hk]).
Qed.

(** ** The comma repair and scalars *)

Lemma drop_trailing_commas_keep c r :
  c <> ch "," -> drop_trailing_commas (c :: r) = c :: drop_trailing_commas r.
Proof.
  intros Hc. cbn [drop_trailing_commas].
  destruct (N.eqb_spec c (ch ",")); [contradiction | reflexivity].
Qed.

Lemma space_not_comma c : is_space c = true -> c <> ch ",".
Proof. intros H ->. discriminate H. Qed.

Lemma closer_not_comma c : c = ch "}" \/ c = ch "]" -> c <> ch ",".
Proof. intros [-> | ->]; discriminate. Qed.

Lemma closer_ahead_cases c r :
  closer_ahead (c :: r) = true ->
  (c = ch "}" \/ c = ch "]") \/ (is_space c = true /\ closer_ahead r = true).
Proof.
  cbn [closer_ahead].
  destruct (N.eqb_spec c (ch "}")) as [->|_]; [now left; left|].
  destruct (N.eqb_spec c (ch "]")) as [->|_]; [now left; right|].
  cbn [orb]. rewrite andb_true_iff. now right.
Qed.

Lemma closer_ahead_In r :
  closer_ahead r = true -> In (ch "}") r \/ In (ch "]") r.
Proof.
  induction r as [|c r IH]; [discriminate|]. intros H.
  destruct (closer_ahead_cases _ _ H) as [[-> | ->] | [_ Hr]];
    [left; now left | right; now left|].
  destruct (IH Hr); [left | right]; now right.
Qed.

Lemma drop_trailing_commas_plain l :
  ~ In (ch "}") l -> ~ In (ch "]") l -> drop_trailing_commas l = l.
Proof.
  induction l as [|c l IH]; intros Hb Hk; [reflexivity|].
  cbn [drop_trailing_commas].
  destruct (closer_ahead l) eqn:E.
  - exfalso. destruct (closer_ahead_In _ E); [apply Hb | apply Hk]; now right.
  - rewrite andb_false_r. f_equal.
    apply IH; intros H; [apply Hb | apply Hk]; now right.
Qed.

Lemma drop_trailing_commas_In c l :
  c <> ch "," -> In c l -> In c (drop_trailing_commas l).
Proof.
  intros Hc. induction l as [|x l IH]; [easy|]. intros [-> | H].
  - rewrite (drop_trailing_commas_keep _ _ Hc). now left.
  - cbn [drop_trailing_commas].
    destruct (_ && _); [now apply IH | right; now apply IH].
Qed.

(** What stands at the head of a text behind a comma that was dropped. *)
Lemma closer_ahead_skip r :
  closer_ahead r = true ->
  exists x t,
    skip_ws (drop_trailing_commas r) = x :: t
    /\ (is_space x = true \/ x = ch "}" \/ x = ch "]").
Proof.
  induction r as [|c r IH]; [discriminate|]. intros H.
  destruct (closer_ahead_cases _ _ H) as [Hc | [Hs Hr]].
  - rewrite (drop_trailing_commas_keep _ _ (closer_not_comma _ Hc)).
    cbn [skip_ws].
    assert (Hw : is_json_ws c = false) by now destruct Hc as [-> | ->].
    rewrite Hw. eexists _, _. split; [reflexivity | now right].
  - rewrite (drop_trailing_commas_keep _ _ (space_not_comma _ Hs)).
    cbn [skip_ws]. destruct (is_json_ws c); [now apply IH|].
    eexists _, _. split; [reflexivity | now left].
Qed.

Lemma closer_ahead_head r :
  closer_ahead r = true ->
  exists x t,
    drop_trailing_commas r = x :: t
    /\ (is_space x = true \/ x = ch "}" \/ x = ch "]").
Proof.
  destruct r as [|c r]; [discriminate|]. intros H.
  destruct (closer_ahead_cases _ _ H) as [Hc | [Hs Hr]].
  - rewrite (drop_trailing_commas_keep _ _ (closer_not_comma _ Hc)).
    eexists _, _. split; [reflexivity | now right].
  - rewrite (drop_trailing_commas_keep _ _ (space_not_comma _ Hs)).
    eexists _, _. split; [reflexivity | now left].
Qed.

(** A code unit at the head of the repaired text that is neither white
    space nor a closer stood at the head of the text. *)
Lemma drop_trailing_commas_head l h t' :
  drop_trailing_commas l = h :: t' ->
  is_space h = false -> h <> ch "}" -> h <> ch "]" ->
  exists t, l = h :: t /\ drop_trailing_commas t = t'.
Proof.
  destruct l as [|c l]; [discriminate|]. cbn [drop_trailing_commas].
  destruct (_ && _) eqn:E.
  - apply andb_true_iff in E as [_ E].
    destruct (closer_ahead_head _ E) as (x & t & -> & Hx).
    intros [= -> ->] Hs Hb Hk. exfalso.
    destruct Hx as [Hx | [Hx | Hx]]; [congruence | contradiction..].
  - intros [= -> <-] _ _ _. now exists l.
Qed.

Lemma hex_value_plain h u :
  hex_value h = Some u ->
  is_space h = false /\ h <> ch "}" /\ h <> ch "]".
Proof.
  unfold hex_value, is_digit. intros H.
  assert (Hr : 48 <= h <= 57 \/ 97 <= h <= 102 \/ 65 <= h <= 70).
  { destruct (N.leb_spec 48 h), (N.leb_spec h 57); cbn [andb] in H;
      try (left; lia);
      destruct (N.leb_spec 97 h), (N.leb_spec h 102); cbn [andb] in H;
      try (right; left; lia);
      destruct (N.leb_spec 65 h), (N.leb_spec h 70); cbn [andb] in H;
      try (right; right; lia); discriminate. }
  change (ch "}") with 125. change (ch "]") with 93.
  split; [|split; lia].
  destruct (is_space h) eqn:E; [|reflexivity]. exfalso.
  unfold is_space in E.
  rewrite !orb_true_iff, !andb_true_iff, !N.eqb_eq, !N.leb_le in E. lia.
Qed.

Lemma simple_escape_plain e u :
  simple_escape e = Some u ->
  is_space e = false /\ e <> ch "}" /\ e <> ch "]".
Proof.
  unfold simple_escape.
  repeat match goal with
         | |- context [if ?x =? ?y then _ else _] =>
             destruct (N.eqb_spec x y) as [->|_];
             [intros _; repeat split; discriminate|]
         end.
  discriminate.
Qed.

(** A string literal that is read off the repaired text was a string
    literal before the repair: the commas that were dropped stood inside
    it. *)
Lemma parse_string_repaired n l s' r' :
  (length l <= n)%nat ->
  parse_string (drop_trailing_commas l) = Some (s', r') ->
  exists s r, parse_string l = Some (s, r) /\ drop_trailing_commas r = r'.
Proof.
  revert l s' r'. induction n as [|n IH]; intros l s' r' Hn;
    (destruct l as [|c t]; [discriminate|]); cbn [length] in Hn; [lia|].
  cbn [drop_trailing_commas].
  destruct (N.eqb_spec c (ch ",")) as [->|Hc]; cbn [andb].
  - destruct (closer_ahead t).
    + intros H. destruct (IH t _ _ ltac:(lia) H) as (s & r & E & Er).
      exists (ch "," :: s), r. cbn [parse_string]. rewrite E.
      split; [reflexivity | exact Er].
    + cbn [parse_string]. change (ch "," =? quote) with false.
      change (ch "," =? ch "\") with false. change (ch "," <? 32) with false.
      cbv iota.
      destruct (parse_string (drop_trailing_commas t)) as [[s0 r0]|] eqn:E;
        [|discriminate].
      intros [= <- <-]. destruct (IH t _ _ ltac:(lia) E) as (s & r & E' & Er).
      exists (ch "," :: s), r. now rewrite E'.
  - cbn [parse_string].
    destruct (N.eqb_spec c quote) as [->|_].
    { intros [= <- <-]. now exists [], t. }
    destruct (c =? ch "\").
    + destruct (drop_trailing_commas t) as [|e r1'] eqn:Et; [discriminate|].
      destruct (N.eqb_spec e (ch "u")) as [->|Hu].
      * destruct r1' as [|h1 [|h2 [|h3 [|h4 r2']]]]; try discriminate.
        destruct (hex4 h1 h2 h3 h4) as [u|] eqn:Eh; [|discriminate].
        destruct (parse_string r2') as [[s0 r0]|] eqn:E; [|discriminate].
        intros [= <- <-].
        assert (Hh : forall h, In h [h1; h2; h3; h4] ->
                               is_space h = false /\ h <> ch "}"
                               /\ h <> ch "]").
        { unfold hex4 in Eh.
          destruct (hex_value h1) eqn:E1; [|discriminate].
          destruct (hex_value h2) eqn:E2; [|discriminate].
          destruct (hex_value h3) eqn:E3; [|discriminate].
          destruct (hex_value h4) eqn:E4; [|discriminate].
          intros h [<- | [<- | [<- | [<- | []]]]];
            eapply hex_value_plain; eassumption. }
        destruct (drop_trailing_commas_head _ _ _ Et eq_refl
                    ltac:(discriminate) ltac:(discriminate))
          as (t1 & -> & Et1).
        destruct (Hh h1 ltac:(cbn; tauto)) as (A1 & B1 & C1).
        destruct (drop_trailing_commas_head _ _ _ Et1 A1 B1 C1)
          as (t2 & -> & Et2).
        destruct (Hh h2 ltac:(cbn; tauto)) as (A2 & B2 & C2).
        destruct (drop_trailing_commas_head _ _ _ Et2 A2 B2 C2)
          as (t3 & -> & Et3).
        destruct (Hh h3 ltac:(cbn; tauto)) as (A3 & B3 & C3).
        destruct (drop_trailing_commas_head _ _ _ Et3 A3 B3 C3)
          as (t4 & -> & Et4).
        destruct (Hh h4 ltac:(cbn; tauto)) as (A4 & B4 & C4).
        destruct (drop_trailing_commas_head _ _ _ Et4 A4 B4 C4)
          as (t5 & -> & Et5).
        subst r2'.
        destruct (IH t5 _ _ ltac:(cbn [length] in Hn; lia) E)
          as (s & r & E' & Er).
        exists (u :: s), r. cbn [N.eqb]. rewrite N.eqb_refl, Eh, E'.
        split; [reflexivity | exact Er].
      * destruct (simple_escape e) as [u|] eqn:Ee; [|discriminate].
        destruct (parse_string r1') as [[s0 r0]|] eqn:E; [|discriminate].
        intros [= <- <-].
        destruct (simple_escape_plain _ _ Ee) as (A & B & C).
        destruct (drop_trailing_commas_head _ _ _ Et A B C)
          as (t1 & -> & Et1).
        subst r1'.
        destruct (IH t1 _ _ ltac:(cbn [length] in Hn; lia) E)
          as (s & r & E' & Er).
        exists (u :: s), r.
        destruct (N.eqb_spec e (ch "u")); [contradiction|].
        rewrite Ee, E'. split; [reflexivity | exact Er].
    + destruct (c <? 32); [discriminate|].
      destruct (parse_string (drop_trailing_commas t)) as [[s0 r0]|] eqn:E;
        [|discriminate].
      intros [= <- <-]. destruct (IH t _ _ ltac:(lia) E) as (s & r & E' & Er).
      exists (c :: s), r. now rewrite E'.
Qed.

Lemma digits_number_units ds :
  Forall (fun c => is_digit c = true) ds ->
  Forall (fun c => number_unit c = true) ds.
Proof.
  apply Forall_impl. intros c H. unfold number_unit. now rewrite H.
Qed.

(** What [parse_number] reads is made of the code units of numbers. *)
Lemma parse_number_split l v r :
  parse_number l = Some (v, r) ->
  exists p,
    l = p ++ r /\ p <> [] /\ Forall (fun c => number_unit c = true) p.
Proof.
  unfold parse_number.
  destruct (match l with
            | c :: r0 => if c =? ch "-" then (true, r0) else (false, l)
            | [] => (false, l)
            end) as [negative l0] eqn:Esign.
  assert (Hsign : exists pre,
             l = pre ++ l0 /\ Forall (fun c => number_unit c = true) pre).
  { destruct l as [|c t];
      [injection Esign as _ <-; exists []; now split|].
    destruct (N.eqb_spec c (ch "-")) as [->|_]; injection Esign as _ <-;
      [exists [ch "-"] | exists []]; split; try reflexivity;
      now repeat constructor. }
  destruct Hsign as (pre & -> & Hpre). clear Esign.
  destruct (match l0 with
            | c :: r0 => if c =? 48 then ([c], r0) else span_digits l0
            | [] => ([], [])
            end) as [int l1] eqn:Eint.
  assert (Hint : l0 = int ++ l1 /\ Forall (fun c => is_digit c = true) int).
  { destruct l0 as [|c t];
      [injection Eint as <- <-; split; [reflexivity|constructor]|].
    destruct (N.eqb_spec c 48) as [->|_].
    - injection Eint as <- <-. split; [reflexivity|]. now repeat constructor.
    - pose proof (span_digits_split (c :: t)) as H. now rewrite Eint in H. }
  destruct Hint as [-> Hint]. clear Eint.
  destruct int as [|i int]; [discriminate|].
  apply digits_number_units in Hint.
  set (whole := i :: int) in *.
  destruct (match l1 with
            | [] => Some ([], l1)
            | c :: r0 =>
                if c =? ch "."
                then let (fs, l2) := span_digits r0 in
                     match fs with [] => None | _ :: _ => Some (fs, l2) end
                else Some ([], l1)
            end) as [[fs l2]|] eqn:Efrac; [|discriminate].
  assert (Hfrac : exists mid,
             l1 = mid ++ l2 /\ Forall (fun c => number_unit c = true) mid).
  { destruct l1 as [|c t];
      [injection Efrac as _ <-; exists []; now split|].
    destruct (N.eqb_spec c (ch ".")) as [->|_];
      [|injection Efrac as _ <-; exists []; now split].
    pose proof (span_digits_split t) as [Ht Hd].
    destruct (span_digits t) as [ds rest]. cbn [fst snd] in *.
    destruct ds as [|d ds]; [discriminate|].
    injection Efrac as _ <-. subst t.
    exists (ch "." :: d :: ds). split; [reflexivity|].
    constructor; [reflexivity | now apply digits_number_units]. }
  destruct Hfrac as (mid & -> & Hmid). clear Efrac.
  assert (Hdone : exists p,
             pre ++ whole ++ mid ++ l2 = p ++ l2 /\ p <> []
             /\ Forall (fun c => number_unit c = true) p).
  { exists (pre ++ whole ++ mid). split; [now rewrite <- !app_assoc|].
    split; [subst whole; now destruct pre|].
    apply Forall_app. split; [exact Hpre|].
    apply Forall_app. now split. }
  destruct l2 as [|c t]; [now intros [= _ <-]|].
  destruct ((c =? ch "e") || (c =? ch "E")) eqn:Ee; [|now intros [= _ <-]].
  destruct (match t with
            | [] => (false, t)
            | s :: r' =>
                if s =? ch "-" then (true, r')
                else if s =? ch "+" then (false, r') else (false, t)
            end) as [eneg l3] eqn:Eexp.
  assert (Hexp : exists epre,
             t = epre ++ l3 /\ Forall (fun c => number_unit c = true) epre).
  { destruct t as [|s r'];
      [injection Eexp as _ <-; exists []; now split|].
    destruct (N.eqb_spec s (ch "-")) as [->|_];
      [injection Eexp as _ <-; exists [ch "-"]; split;
       [reflexivity | now repeat constructor]|].
    destruct (N.eqb_spec s (ch "+")) as [->|_]; injection Eexp as _ <-;
      [exists [ch "+"] | exists []]; split; try reflexivity;
      now repeat constructor. }
  destruct Hexp as (epre & -> & Hepre).
  pose proof (span_digits_split l3) as [Ht Hd].
  destruct (span_digits l3) as [es l4]. cbn [fst snd] in *.
  destruct es as [|d es]; [discriminate|].
  intros [= _ <-]. subst l3.
  exists (pre ++ whole ++ mid ++ c :: epre ++ d :: es).
  split; [rewrite <- !app_assoc; cbn [app]; now rewrite <- !app_assoc|].
  split; [subst whole; now destruct pre|].
  apply Forall_app. split; [exact Hpre|].
  apply Forall_app. split; [exact Hint|].
  apply Forall_app. split; [exact Hmid|].
  constructor.
  { unfold number_unit. apply orb_true_iff in Ee as [E | E]; rewrite E;
      now rewrite ?orb_true_r. }
  apply Forall_app. split; [exact Hepre | now apply digits_number_units].
Qed.

Lemma number_unit_plain c :
  number_unit c = true ->
  is_space c = false /\ c <> ch "}" /\ c <> ch "]" /\ c <> ch ","
  /\ c <> quote.
Proof.
  unfold number_unit, is_digit.
  rewrite !orb_true_iff, andb_true_iff, !N.leb_le, !N.eqb_eq.
  intros H.
  assert (Hr : 48 <= c <= 57 \/ c = 45 \/ c = 43 \/ c = 46 \/ c = 101
               \/ c = 69) by (cbn in H; tauto).
  clear H. change (ch "}") with 125. change (ch "]") with 93.
  change (ch ",") with 44. change quote with 34.
  split; [|repeat split; lia].
  destruct (is_space c) eqn:E; [|reflexivity]. exfalso.
  unfold is_space in E.
  rewrite !orb_true_iff, !andb_true_iff, !N.eqb_eq, !N.leb_le in E. lia.
Qed.

Lemma skip_ws_nil r :
  skip_ws r = [] -> Forall (fun c => is_json_ws c = true) r.
Proof.
  induction r as [|c r IH]; [constructor|]. cbn [skip_ws].
  destruct (is_json_ws c) eqn:E; [|discriminate].
  intros H. constructor; [exact E | now apply IH].
Qed.

Lemma skip_ws_all r :
  Forall (fun c => is_json_ws c = true) r -> skip_ws r = [].
Proof.
  induction 1 as [|c r Hc _ IH]; [reflexivity|]. cbn [skip_ws].
  now rewrite Hc.
Qed.

Lemma json_ws_plain c :
  is_json_ws c = true -> c <> ch "}" /\ c <> ch "]" /\ c <> ch ",".
Proof. intros H. repeat split; intros ->; discriminate H. Qed.

Lemma space_plain c :
  is_space c = true -> c <> ch "}" /\ c <> ch "]" /\ c <> ch ","
                       /\ c <> quote.
Proof. intros H. repeat split; intros ->; discriminate H. Qed.

Lemma skip_ws_head l c t : skip_ws l = c :: t -> is_json_ws c = false.
Proof.
  induction l as [|x l IH]; [discriminate|]. cbn [skip_ws].
  destruct (is_json_ws x) eqn:E; [exact IH|]. now intros [= <- _].
Qed.

Lemma skip_ws_solid c t : is_json_ws c = false -> skip_ws (c :: t) = c :: t.
Proof. intros H. cbn [skip_ws]. now rewrite H. Qed.

Lemma skip_ws_split_json l :
  exists ws,
    l = ws ++ skip_ws l /\ Forall (fun c => is_json_ws c = true) ws.
Proof.
  induction l as [|c l (ws & IH & Hw)]; cbn [skip_ws].
  - exists []. split; [reflexivity | constructor].
  - destruct (is_json_ws c) eqn:E.
    + exists (c :: ws). split; [cbn [app]; now f_equal | now constructor].
    + exists []. split; [reflexivity | constructor].
Qed.

Lemma skip_ws_app ws m :
  Forall (fun c => is_json_ws c = true) ws -> skip_ws (ws ++ m) = skip_ws m.
Proof.
  induction 1 as [|c ws Hc _ IH]; [reflexivity|]. cbn [app skip_ws].
  now rewrite Hc.
Qed.

Lemma drop_trailing_commas_app_ws ws m :
  Forall (fun c => is_json_ws c = true) ws ->
  drop_trailing_commas (ws ++ m) = ws ++ drop_trailing_commas m.
Proof.
  induction 1 as [|c ws Hc _ IH]; [reflexivity|]. cbn [app].
  rewrite drop_trailing_commas_keep, IH; [reflexivity|].
  now apply json_ws_plain.
Qed.

(** What a scalar that is no string is read off: letters, or the code units
    of a number. *)
Lemma parse_value_plain n l v r c t :
  parse_value n l = Some (v, r) -> skip_ws l = c :: t ->
  c <> ch "{" -> c <> ch "[" -> c <> quote ->
  exists p,
    c :: t = p ++ r /\ p <> []
    /\ Forall (fun x => is_space x = false /\ x <> ch "}" /\ x <> ch "]"
                        /\ x <> ch "," /\ x <> quote) p.
Proof.
  destruct n as [|f]; [discriminate|]. cbn [parse_value].
  intros H Hs Hb Hk Hq. rewrite Hs in H.
  destruct (N.eqb_spec c (ch "{")); [contradiction|].
  destruct (N.eqb_spec c (ch "[")); [contradiction|].
  destruct (N.eqb_spec c quote); [contradiction|].
  destruct (strip_prefix "true" (c :: t)) as [rest|] eqn:E1.
  { injection H as _ <-. apply strip_prefix_split in E1. rewrite E1.
    exists (units "true"). split; [reflexivity|]. split; [discriminate|].
    repeat constructor; discriminate. }
  destruct (strip_prefix "false" (c :: t)) as [rest|] eqn:E2.
  { injection H as _ <-. apply strip_prefix_split in E2. rewrite E2.
    exists (units "false"). split; [reflexivity|]. split; [discriminate|].
    repeat constructor; discriminate. }
  destruct (strip_prefix "null" (c :: t)) as [rest|] eqn:E3.
  { injection H as _ <-. apply strip_prefix_split in E3. rewrite E3.
    exists (units "null"). split; [reflexivity|]. split; [discriminate|].
    repeat constructor; discriminate. }
  apply parse_number_split in H as (p & E & Hne & Hp).
  exists p. split; [exact E|]. split; [exact Hne|].
  revert Hp. apply Forall_impl. intros x Hx. now apply number_unit_plain.
Qed.

(** The first code unit of a value is neither white space, nor a closer,
    nor a comma. *)
Lemma parse_value_start n l v r :
  parse_value n l = Some (v, r) ->
  exists c t,
    skip_ws l = c :: t
    /\ is_space c = false /\ c <> ch "}" /\ c <> ch "]" /\ c <> ch ",".
Proof.
  intros H. destruct (parse_value_some _ _ _ _ H) as (c & t & Hs).
  exists c, t. split; [exact Hs|].
  destruct (N.eqb_spec c (ch "{")) as [->|Hb];
    [repeat split; discriminate|].
  destruct (N.eqb_spec c (ch "[")) as [->|Hk];
    [repeat split; discriminate|].
  destruct (N.eqb_spec c quote) as [->|Hq];
    [repeat split; discriminate|].
  destruct (parse_value_plain _ _ _ _ _ _ H Hs Hb Hk Hq)
    as (p & E & Hne & Hp).
  destruct p as [|x p]; [contradiction|]. injection E as <- _.
  inversion Hp as [|? ? (A & B & C & D & _) _]; subst. now repeat split.
Qed.

Lemma spans_repaired o c l :
  c <> ch "," ->
  spans o c (drop_trailing_commas l) -> spans o c l.
Proof.
  intros Hc. induction l as [|x l IH]; [easy|].
  assert (Hcons : spans o c l -> spans o c (x :: l)).
  { intros (a & b & r & ->). now exists (x :: a), b, r. }
  cbn [drop_trailing_commas]. destruct (_ && _); [now intros H; apply Hcons, IH|].
  intros (a & b & r & E). destruct a as [|y a].
  - injection E as <- E.
    assert (Hin : In c l).
    { apply (drop_trailing_commas_incl l). rewrite E.
      apply in_or_app. right. now left. }
    apply in_split in Hin as (b' & r' & ->). now exists [], b', r'.
  - injection E as <- E. apply Hcons, IH. now exists a, b, r.
Qed.

Lemma no_span_repaired l : no_span l -> no_span (drop_trailing_commas l).
Proof.
  intros [Hb Hk]. split; intros H; [apply Hb | apply Hk];
    revert H; apply spans_repaired; discriminate.
Qed.

Lemma plain_repaired l :
  ~ In (ch "}") (drop_trailing_commas l) ->
  ~ In (ch "]") (drop_trailing_commas l) ->
  drop_trailing_commas l = l.
Proof.
  intros Hb Hk. apply drop_trailing_commas_plain; intros H;
    [apply Hb | apply Hk]; revert H; apply drop_trailing_commas_In;
    discriminate.
Qed.

(** The comma repair does not make a text without a delimited span
    parse. *)
Lemma repair_no_rescue l v :
  no_span l -> JSON_parse (drop_trailing_commas l) = Some v ->
  JSON_parse l <> None.
Proof.
  intros Hn H. pose proof H as H0. unfold JSON_parse in H.
  destruct (parse_value _ (drop_trailing_commas l)) as [[v' r']|] eqn:E;
    [|discriminate].
  destruct (skip_ws r') eqn:Er; [|discriminate]. clear H.
  apply skip_ws_nil in Er.
  destruct (skip_ws_split_json l) as (ws & Hl & Hws).
  destruct (parse_value_start _ _ _ _ E) as (x & tx & Hx & Hsp & Hxb & Hxk & _).
  assert (Hd : drop_trailing_commas l
               = ws ++ drop_trailing_commas (skip_ws l))
    by (rewrite Hl at 1; now apply drop_trailing_commas_app_ws).
  rewrite Hd, (skip_ws_app _ _ Hws) in Hx.
  destruct (skip_ws l) as [|c0 t0] eqn:Hm; [discriminate Hx|].
  pose proof (skip_ws_head _ _ _ Hm) as Hc0.
  cbn [drop_trailing_commas] in Hx, Hd.
  destruct ((c0 =? ch ",") && closer_ahead t0) eqn:Edrop.
  { exfalso. apply andb_true_iff in Edrop as [_ Ea].
    destruct (closer_ahead_skip _ Ea) as (y & ty & Hy & Hcase).
    rewrite Hy in Hx. injection Hx as -> _.
    destruct Hcase as [? | [? | ?]]; [congruence | contradiction..]. }
  rewrite (skip_ws_solid _ _ Hc0) in Hx. injection Hx as <- <-.
  assert (Hs : skip_ws (drop_trailing_commas l)
               = c0 :: drop_trailing_commas t0)
    by (rewrite Hd, (skip_ws_app _ _ Hws); now apply skip_ws_solid).
  destruct (N.eqb_spec c0 (ch "{")) as [Hb|Hb];
    [|destruct (N.eqb_spec c0 (ch "[")) as [Hk|Hk]].
  1,2: exfalso; destruct (no_span_repaired _ Hn) as [H1 H2];
       destruct (parse_value_opened _ _ _ _ _ _ E Hs) as [H | H];
       [tauto | now apply H1 | now apply H2].
  destruct (N.eqb_spec c0 quote) as [->|Hq].
  - revert E. cbn [parse_value]. rewrite Hs. cbn.
    destruct (parse_string (drop_trailing_commas t0)) as [[s' rest']|] eqn:Ep;
      [|discriminate].
    intros [= _ ->].
    destruct (parse_string_repaired _ _ _ _ (le_n _) Ep) as (s & r & Es & Err).
    assert (Hr : drop_trailing_commas r = r).
    { apply plain_repaired; rewrite Err; intros Hin;
        rewrite Forall_forall in Er; now apply Er in Hin. }
    rewrite Hr in Err. subst r.
    unfold JSON_parse. cbn [parse_value]. rewrite Hm. cbn. rewrite Es.
    now rewrite (skip_ws_all _ Er).
  - destruct (parse_value_plain _ _ _ _ _ _ E Hs Hb Hk Hq)
      as (p & Ep & _ & Hp).
    assert (Hplain : forall y, In y (drop_trailing_commas l) ->
                               y <> ch "}" /\ y <> ch "]").
    { intros y. rewrite Hd, Ep. rewrite !in_app_iff.
      rewrite Forall_forall in Hws, Hp, Er.
      intros [Hy | [Hy | Hy]].
      - apply Hws, json_ws_plain in Hy. tauto.
      - apply Hp in Hy. tauto.
      - apply Er, json_ws_plain in Hy. tauto. }
    rewrite plain_repaired in H0; [congruence| |];
      intros Hin; apply Hplain in Hin; tauto.
Qed.

(** A text whose first opener stands behind its last closer of the same
    kind holds no span. *)
Lemma indexOf_le c pre rest :
  (0 <= indexOf [c] (pre ++ c :: rest) <= Z.of_nat (length pre))%Z.
Proof.
  induction pre as [|x pre IH]; cbn [app]; rewrite indexOf_unit.
  - rewrite N.eqb_refl. cbn [length]. lia.
  - destruct (c =? x); [cbn [length]; lia|].
    destruct (Z.eqb_spec (indexOf [c] (pre ++ c :: rest)) (-1));
      cbn [length]; lia.
Qed.

Lemma lastIndexOf_ge c pre rest :
  (Z.of_nat (length pre) <= lastIndexOf [c] (pre ++ c :: rest))%Z.
Proof.
  induction pre as [|x pre IH]; cbn [app]; rewrite lastIndexOf_unit.
  - destruct (Z.eqb_spec (lastIndexOf [c] rest) (-1)) as [|Hn].
    + rewrite N.eqb_refl. cbn [length]. lia.
    + destruct (lastIndexOf_found _ _ Hn) as (p & q & _ & E).
      cbn [length]. lia.
  - destruct (Z.eqb_spec (lastIndexOf [c] (pre ++ c :: rest)) (-1));
      cbn [length] in *; lia.
Qed.

Lemma spans_indices o c t :
  spans o c t -> (indexOf [o] t < lastIndexOf [c] t)%Z.
Proof.
  intros (a & b & r & ->).
  pose proof (indexOf_le o a (b ++ c :: r)) as H1.
  replace (a ++ o :: b ++ c :: r) with ((a ++ o :: b) ++ c :: r)
    by (now rewrite <- app_assoc).
  pose proof (lastIndexOf_ge c (a ++ o :: b) r) as H2.
  rewrite length_app in H2. cbn [length] in H2.
  replace ((a ++ o :: b) ++ c :: r) with (a ++ o :: b ++ c :: r) in *
    by (now rewrite <- app_assoc).
  lia.
Qed.

Lemma no_span_check t :
  (lastIndexOf "}" t <=? indexOf "{" t)%Z = true ->
  (lastIndexOf "]" t <=? indexOf "[" t)%Z = true ->
  no_span t.
Proof.
  rewrite !Z.leb_le. intros Hb Hk.
  split; intros H; apply spans_indices in H;
    [change [ch "{"] with (units "{") in H;
     change [ch "}"] with (units "}") in H
    |change [ch "["] with (units "[") in H;
     change [ch "]"] with (units "]") in H]; lia.
Qed.

(** C6, amended: on every input [safeJSONParse] either returns a value or
    throws its one error; and on a text that holds no span delimited by
    braces or by brackets - no brace opens before a brace closes, no bracket
    before a bracket closes - it throws that error unless the text it
    parses, which is the input trimmed or what the first fenced block of
    the input holds, is a JSON scalar, which it then returns. *)
Theorem safeJSONParse_fails_or_scalar (raw : text) :
  ((exists v, safeJSONParse raw = ([], Returns v))
   \/ safeJSONParse raw = malformed raw)
  /\ (no_span raw ->
      safeJSONParse raw
      = match JSON_parse (unfenced raw) with
        | Some v => ([], Returns v)
        | None => malformed raw
        end
      /\ (forall v, JSON_parse (unfenced raw) = Some v -> scalar v)).
Proof.
  split.
  - rewrite safeJSONParse_candidate.
    destruct (JSON_parse (candidate raw)) as [v|]; [left; now exists v|].
    destruct (JSON_parse (drop_trailing_commas (candidate raw))) as [v|];
      [left; now exists v | now right].
  - intros Hn.
    assert (Hu : no_span (unfenced raw))
      by exact (no_span_occurs _ _ (unfenced_occurs raw) Hn).
    split.
    + rewrite safeJSONParse_candidate, (candidate_no_span _ Hn).
      destruct (JSON_parse (unfenced raw)) as [v|] eqn:E1; [reflexivity|].
      destruct (JSON_parse (drop_trailing_commas (unfenced raw))) as [v|] eqn:E2;
        [|reflexivity].
      now elim (repair_no_rescue _ _ Hu E2).
    + intros v Hv. exact (JSON_parse_no_span _ _ Hv Hu).
Qed.

Lemma safeJSONParse_fails_or_scalar_witness :
  safeJSONParse refusal = malformed refusal
  /\ safeJSONParse "{ the story so far" = malformed "{ the story so far"
  /\ safeJSONParse "] not yet [" = malformed "] not yet ["
  /\ safeJSONParse " 42 " = ([], Returns (JNumber 42 0)).
Proof.
  split; [|split; [|split]].
  - refine (eq_trans
              (proj1 (proj2 (safeJSONParse_fails_or_scalar refusal) _)) _);
      [apply no_span_check|]; vm_compute; reflexivity.
  - refine (eq_trans
              (proj1 (proj2 (safeJSONParse_fails_or_scalar
                               "{ the story so far") _)) _);
      [apply no_span_check|]; vm_compute; reflexivity.
  - refine (eq_trans
              (proj1 (proj2 (safeJSONParse_fails_or_scalar
                               "] not yet [") _)) _);
      [apply no_span_check|]; vm_compute; reflexivity.
  - refine (eq_trans
              (proj1 (proj2 (safeJSONParse_fails_or_scalar " 42 ") _)) _);
      [apply no_span_check|]; vm_compute; reflexivity.
Defined.

(** ** A comma before a closer is no JSON *)

Lemma lex_app s a b : lex s (a ++ b) = lex (lex s a) b.
Proof. apply fold_left_app. Qed.

Lemma transparent_nil : transparent [].
Proof. split; [reflexivity | now intros k]. Qed.

Lemma transparent_app a b :
  transparent a -> transparent b -> transparent (a ++ b).
Proof.
  intros [La Da] [Lb Db]. split.
  - now rewrite lex_app, La.
  - intros k. now rewrite <- app_assoc, Da, Db.
Qed.

Lemma transparent_unit c : c <> quote -> c <> ch "," -> transparent [c].
Proof.
  intros Hq Hc.
  assert (Hs : lex_step Outside c = Outside).
  { cbn [lex_step]. now destruct (N.eqb_spec c quote). }
  split.
  - unfold lex. cbn [fold_left]. exact Hs.
  - intros k. cbn [app dangling]. rewrite Hs.
    now destruct (N.eqb_spec c (ch ",")).
Qed.

Lemma transparent_cons c l :
  c <> quote -> c <> ch "," -> transparent l -> transparent (c :: l).
Proof.
  intros Hq Hc Hl. change (c :: l) with ([c] ++ l).
  apply transparent_app; [now apply transparent_unit | exact Hl].
Qed.

Lemma transparent_plain p :
  Forall (fun c => c <> quote /\ c <> ch ",") p -> transparent p.
Proof.
  induction 1 as [|c p [Hq Hc] _ IH]; [apply transparent_nil|].
  now apply transparent_cons.
Qed.

Lemma transparent_spaces ws : spaces ws -> transparent ws.
Proof.
  intros H. apply transparent_plain. revert H. apply Forall_impl.
  intros c Hc. apply space_plain in Hc. tauto.
Qed.

Lemma transparent_comma l :
  begins l -> transparent l -> transparent (ch "," :: l).
Proof.
  intros Hb [Ll Dl]. split.
  - exact Ll.
  - intros k. cbn [app dangling lex_step].
    change (ch "," =? quote) with false. cbv iota.
    now rewrite N.eqb_refl, Hb, Dl.
Qed.

Lemma begins_app a b : begins a -> begins (a ++ b).
Proof. intros H k. now rewrite <- app_assoc. Qed.

Lemma begins_solid ws c t :
  spaces ws -> is_space c = false -> c <> ch "}" -> c <> ch "]" ->
  begins (ws ++ c :: t).
Proof.
  intros Hw Hs Hb Hk k. induction Hw as [|w ws Hsp _ IH];
    cbn [app closer_ahead].
  - destruct (N.eqb_spec c (ch "}")); [contradiction|].
    destruct (N.eqb_spec c (ch "]")); [contradiction|].
    now rewrite Hs.
  - destruct (space_plain _ Hsp) as (A & B & _).
    destruct (N.eqb_spec w (ch "}")); [contradiction|].
    destruct (N.eqb_spec w (ch "]")); [contradiction|].
    now rewrite Hsp.
Qed.

(** A string literal, behind its opening quote. *)
Lemma parse_string_lex n l s r :
  (length l <= n)%nat ->
  parse_string l = Some (s, r) ->
  exists read,
    l = read ++ r
    /\ lex Inside read = Outside
    /\ forall k, dangling Inside (read ++ k) = dangling Outside k.
Proof.
  revert l s r. induction n as [|n IH]; intros l s r Hn H;
    (destruct l as [|c t]; [discriminate|]); cbn [length] in Hn; [lia|].
  cbn [parse_string] in H.
  destruct (N.eqb_spec c quote) as [->|Hq].
  { injection H as _ <-. exists [quote]. repeat split. }
  destruct (N.eqb_spec c (ch "\")) as [->|Hb].
  - destruct t as [|e r1]; [discriminate|].
    assert (Hesc : forall read,
               lex Inside read = Outside ->
               (forall k, dangling Inside (read ++ k) = dangling Outside k) ->
               lex Inside (ch "\" :: e :: read) = Outside
               /\ forall k, dangling Inside ((ch "\" :: e :: read) ++ k)
                            = dangling Outside k).
    { intros read L Dg. split; [exact L|]. intros k. exact (Dg k). }
    destruct (e =? ch "u").
    + destruct r1 as [|h1 [|h2 [|h3 [|h4 r2]]]]; try discriminate.
      destruct (hex4 h1 h2 h3 h4) as [u|] eqn:Eh; [|discriminate].
      destruct (parse_string r2) as [[s' rest]|] eqn:E; [|discriminate].
      injection H as _ <-.
      destruct (IH r2 _ _ ltac:(cbn [length] in Hn; lia) E)
        as (read & -> & L & Dg).
      assert (Hh : forall h, In h [h1; h2; h3; h4] ->
                             lex_step Inside h = Inside).
      { unfold hex4 in Eh.
        destruct (hex_value h1) eqn:E1; [|discriminate].
        destruct (hex_value h2) eqn:E2; [|discriminate].
        destruct (hex_value h3) eqn:E3; [|discriminate].
        destruct (hex_value h4) eqn:E4; [|discriminate].
        assert (Hv : forall h u0, hex_value h = Some u0 ->
                                  lex_step Inside h = Inside).
        { intros h u0 Hu. cbn [lex_step].
          destruct (N.eqb_spec h quote) as [->|_]; [discriminate|].
          destruct (N.eqb_spec h (ch "\")) as [->|_]; [discriminate|].
          reflexivity. }
        intros h [<- | [<- | [<- | [<- | []]]]]; eapply Hv; eassumption. }
      exists (ch "\" :: e :: h1 :: h2 :: h3 :: h4 :: read).
      split; [reflexivity|].
      apply Hesc.
      * unfold lex. cbn [fold_left].
        rewrite !Hh by (cbn; tauto). exact L.
      * intros k. cbn [app dangling].
        rewrite !Hh by (cbn; tauto). cbn [orb]. exact (Dg k).
    + destruct (simple_escape e); [|discriminate].
      destruct (parse_string r1) as [[s' rest]|] eqn:E; [|discriminate].
      injection H as _ <-.
      destruct (IH r1 _ _ ltac:(cbn [length] in Hn; lia) E)
        as (read & -> & L & Dg).
      exists (ch "\" :: e :: read). split; [reflexivity|]. now apply Hesc.
  - destruct (c <? 32); [discriminate|].
    destruct (parse_string t) as [[s' rest]|] eqn:E; [|discriminate].
    injection H as _ <-.
    destruct (IH t _ _ ltac:(lia) E) as (read & -> & L & Dg).
    assert (Hs : lex_step Inside c = Inside).
    { cbn [lex_step]. destruct (N.eqb_spec c quote); [contradiction|].
      now destruct (N.eqb_spec c (ch "\")). }
    exists (c :: read). split; [reflexivity|]. split.
    + unfold lex. cbn [fold_left]. rewrite Hs. exact L.
    + intros k. cbn [app dangling]. rewrite Hs. exact (Dg k).
Qed.

Lemma transparent_string l s r :
  parse_string l = Some (s, r) ->
  exists read, l = read ++ r /\ transparent (quote :: read).
Proof.
  intros H. destruct (parse_string_lex _ _ _ _ (le_n _) H)
    as (read & -> & L & Dg).
  exists read. split; [reflexivity|]. split; [exact L|].
  intros k. exact (Dg k).
Qed.

Ltac reassoc :=
  repeat (progress (rewrite <- ?app_assoc; cbn [app])); reflexivity.

(** What the parser reads is transparent and begins with no closer. *)
Lemma parse_transparent n :
  (forall l v r,
      parse_value n l = Some (v, r) ->
      exists read, l = read ++ r /\ transparent read /\ begins read)
  /\ (forall acc l v r,
         parse_elements n acc l = Some (v, r) ->
         exists read, l = read ++ r /\ transparent read /\ begins read)
  /\ (forall acc l v r,
         parse_members n acc l = Some (v, r) ->
         exists read, l = read ++ r /\ transparent read /\ begins read).
Proof.
  induction n as [|f (IHv & IHe & IHm)]; [repeat split; discriminate|].
  split; [|split].
  - intros l v r H.
    destruct (parse_value_some _ _ _ _ H) as (c & t & Hs).
    destruct (skip_ws_split l) as (ws & Hl & Hws). rewrite Hs in Hl.
    assert (Hwrap : forall read,
               t = read ++ r -> transparent (c :: read) ->
               is_space c = false -> c <> ch "}" -> c <> ch "]" ->
               exists read', l = read' ++ r /\ transparent read'
                             /\ begins read').
    { intros read E Ht Hsp Hb Hk. exists (ws ++ c :: read).
      split; [rewrite Hl, E, <- app_assoc; reflexivity|].
      split; [apply transparent_app; [now apply transparent_spaces|exact Ht]|].
      now apply begins_solid. }
    destruct (N.eqb_spec c (ch "{")) as [->|Hb];
      [|destruct (N.eqb_spec c (ch "[")) as [->|Hk];
        [|destruct (N.eqb_spec c quote) as [->|Hq]]].
    + revert H. cbn [parse_value]. rewrite Hs. rewrite N.eqb_refl.
      destruct (skip_ws_split t) as (ws1 & Ht & Hws1).
      destruct (skip_ws t) as [|c' r']; [discriminate|].
      destruct (N.eqb_spec c' (ch "}")) as [->|_].
      * intros [= _ <-]. apply (Hwrap (ws1 ++ [ch "}"]));
          try discriminate; try reflexivity.
        -- rewrite Ht. now rewrite <- app_assoc.
        -- apply transparent_cons; try discriminate.
           apply transparent_app; [now apply transparent_spaces|].
           apply transparent_unit; discriminate.
      * intros H. apply IHm in H as (read & E & Htr & _).
        apply (Hwrap (ws1 ++ read));
          try discriminate; try reflexivity.
        -- rewrite Ht, E. now rewrite <- app_assoc.
        -- apply transparent_cons; try discriminate.
           apply transparent_app; [now apply transparent_spaces | exact Htr].
    + revert H. cbn [parse_value]. rewrite Hs.
      change (ch "[" =? ch "{") with false. rewrite N.eqb_refl. cbv iota.
      destruct (skip_ws_split t) as (ws1 & Ht & Hws1).
      destruct (skip_ws t) as [|c' r']; [discriminate|].
      destruct (N.eqb_spec c' (ch "]")) as [->|_].
      * intros [= _ <-]. apply (Hwrap (ws1 ++ [ch "]"]));
          try discriminate; try reflexivity.
        -- rewrite Ht. now rewrite <- app_assoc.
        -- apply transparent_cons; try discriminate.
           apply transparent_app; [now apply transparent_spaces|].
           apply transparent_unit; discriminate.
      * intros H. apply IHe in H as (read & E & Htr & _).
        apply (Hwrap (ws1 ++ read));
          try discriminate; try reflexivity.
        -- rewrite Ht, E. now rewrite <- app_assoc.
        -- apply transparent_cons; try discriminate.
           apply transparent_app; [now apply transparent_spaces | exact Htr].
    + revert H. cbn [parse_value]. rewrite Hs.
      change (quote =? ch "{") with false.
      change (quote =? ch "[") with false. rewrite N.eqb_refl. cbv iota.
      destruct (parse_string t) as [[s rest]|] eqn:E; [|discriminate].
      intros [= _ <-].
      destruct (transparent_string _ _ _ E) as (read & Et & Htr).
      apply (Hwrap read); try discriminate; try reflexivity;
        [exact Et | exact Htr].
    + destruct (parse_value_plain _ _ _ _ _ _ H Hs Hb Hk Hq)
        as (p & E & Hne & Hp).
      destruct p as [|x p]; [contradiction|].
      injection E as <- E.
      inversion Hp as [|? ? (A & B & C & _) _]; subst.
      apply (Hwrap p); try assumption; try reflexivity.
      apply transparent_plain. revert Hp. apply Forall_impl. tauto.
  - intros acc l v r. cbn [parse_elements].
    destruct (parse_value f l) as [[v1 r1]|] eqn:Ev; [|discriminate].
    destruct (IHv _ _ _ Ev) as (readv & -> & Htv & Hbv).
    destruct (skip_ws_split r1) as (ws & Hr1 & Hws).
    destruct (skip_ws r1) as [|c r']; [discriminate|]. rewrite Hr1.
    destruct (N.eqb_spec c (ch ",")) as [->|_].
    + intros H. apply IHe in H as (reade & -> & Hte & Hbe).
      exists (readv ++ ws ++ ch "," :: reade).
      split; [reassoc|].
      split; [|now apply begins_app].
      apply transparent_app; [exact Htv|].
      apply transparent_app; [now apply transparent_spaces|].
      now apply transparent_comma.
    + destruct (N.eqb_spec c (ch "]")) as [->|_]; [|discriminate].
      intros [= _ <-]. exists (readv ++ ws ++ [ch "]"]).
      split; [reassoc|].
      split; [|now apply begins_app].
      apply transparent_app; [exact Htv|].
      apply transparent_app; [now apply transparent_spaces|].
      apply transparent_unit; discriminate.
  - intros acc l v r. cbn [parse_members].
    destruct (skip_ws_split l) as (ws & Hl & Hws).
    destruct (skip_ws l) as [|q r0]; [discriminate|]. rewrite Hl. clear Hl.
    destruct (N.eqb_spec q quote) as [->|_]; [|discriminate].
    destruct (parse_string r0) as [[k r1]|] eqn:Es; [|discriminate].
    destruct (transparent_string _ _ _ Es) as (reads & -> & Hts).
    destruct (skip_ws_split r1) as (ws1 & Hr1 & Hws1).
    destruct (skip_ws r1) as [|c r2]; [discriminate|]. rewrite Hr1.
    destruct (N.eqb_spec c (ch ":")) as [->|_]; [|discriminate].
    destruct (parse_value f r2) as [[v1 r3]|] eqn:Ev; [|discriminate].
    destruct (IHv _ _ _ Ev) as (readv & -> & Htv & Hbv).
    destruct (skip_ws_split r3) as (ws3 & Hr3 & Hws3).
    destruct (skip_ws r3) as [|d r4]; [discriminate|]. rewrite Hr3.
    assert (Hhead : transparent (ws ++ (quote :: reads) ++ ws1
                                 ++ ch ":" :: readv ++ ws3)
                    /\ begins (ws ++ (quote :: reads) ++ ws1
                               ++ ch ":" :: readv ++ ws3)).
    { split.
      - apply transparent_app; [now apply transparent_spaces|].
        apply transparent_app; [exact Hts|].
        apply transparent_app; [now apply transparent_spaces|].
        apply transparent_cons; try discriminate.
        apply transparent_app; [exact Htv | now apply transparent_spaces].
      - cbn [app]. apply begins_solid; try assumption; try discriminate.
        reflexivity. }
    destruct Hhead as [Hth Hbh].
    destruct (N.eqb_spec d (ch ",")) as [->|_].
    + intros H. apply IHm in H as (readm & -> & Htm & Hbm).
      exists ((ws ++ (quote :: reads) ++ ws1 ++ ch ":" :: readv ++ ws3)
              ++ ch "," :: readm).
      split; [reassoc|].
      split; [|now apply begins_app].
      apply transparent_app; [exact Hth | now apply transparent_comma].
    + destruct (N.eqb_spec d (ch "}")) as [->|_]; [|discriminate].
      intros [= _ <-].
      exists ((ws ++ (quote :: reads) ++ ws1 ++ ch ":" :: readv ++ ws3)
              ++ [ch "}"]).
      split; [reassoc|].
      split; [|now apply begins_app].
      apply transparent_app; [exact Hth|].
      apply transparent_unit; discriminate.
Qed.

Lemma dangling_spaces r :
  Forall (fun c => is_json_ws c = true) r -> dangling Outside r = false.
Proof.
  intros H.
  assert (Ht : transparent r).
  { apply transparent_spaces. revert H. apply Forall_impl.
    intros c. apply json_ws_space. }
  pose proof (proj2 Ht []) as E. now rewrite app_nil_r in E.
Qed.

(** A text that [JSON.parse] accepts holds no dangling comma. *)
Lemma JSON_parse_no_dangling l v :
  JSON_parse l = Some v -> dangling Outside l = false.
Proof.
  unfold JSON_parse.
  destruct (parse_value _ l) as [[v' r]|] eqn:E; [|discriminate].
  destruct (skip_ws r) eqn:Er; [|discriminate]. intros _.
  destruct (proj1 (parse_transparent _) _ _ _ E) as (read & -> & [_ Hd] & _).
  rewrite Hd. now apply dangling_spaces, skip_ws_nil.
Qed.

Lemma dangling_inserted s front rest :
  lex s front = Outside -> closer_ahead rest = true ->
  dangling s (front ++ ch "," :: rest) = true.
Proof.
  revert s. induction front as [|x front IH]; intros s.
  - cbn. intros -> H. now rewrite H.
  - unfold lex. cbn [fold_left app dangling]. intros Hl Hr.
    rewrite (IH _ Hl Hr). apply orb_true_r.
Qed.

(** [JSON.parse] refuses a comma that stands, outside the string literals,
    before a closer. *)
Lemma JSON_parse_dangling front gap c rest :
  spaces gap -> c = ch "}" \/ c = ch "]" ->
  lex Outside front = Outside ->
  JSON_parse (front ++ ch "," :: gap ++ c :: rest) = None.
Proof.
  intros Hg Hc Hl.
  destruct (JSON_parse _) as [v|] eqn:E; [|reflexivity].
  apply JSON_parse_no_dangling in E.
  rewrite dangling_inserted in E; [discriminate | exact Hl|].
  now apply closer_ahead_spaces.
Qed.

(** ** The extraction round trip *)

(** The pattern of step 1 matches only a text that holds a fenced
    block. *)
Lemma closes_fence_occurs l : closes_fence l = true -> occurs fence l.
Proof.
  induction l as [|c l IH]; rewrite closes_fence_unfold.
  - rewrite orb_false_r. intros H. apply startsWith_inv in H as [r ->].
    now exists [], r.
  - intros H. apply orb_true_iff in H as [H | H].
    + apply startsWith_inv in H as [r ->]. now exists [], r.
    + apply andb_true_iff in H as [_ H]. now apply occurs_tail, IH.
Qed.

Lemma lazy_group_fence l g : lazy_group l = Some g -> occurs fence l.
Proof.
  revert g. induction l as [|c l IH]; intros g; rewrite lazy_group_unfold;
    destruct (closes_fence _) eqn:E;
    try (intros _; now apply closes_fence_occurs); [discriminate|].
  destruct (lazy_group l) as [g'|]; [|discriminate].
  intros _. apply occurs_tail. now apply (IH g').
Qed.

Lemma after_spaces_fence l g : after_spaces l = Some g -> occurs fence l.
Proof.
  revert g. induction l as [|c l IH]; intros g; cbn [after_spaces].
  - apply lazy_group_fence.
  - destruct (is_space c); [|apply lazy_group_fence].
    destruct (after_spaces l) as [g'|].
    + intros _. apply occurs_tail. now apply (IH g').
    + apply lazy_group_fence.
Qed.

Lemma after_open_fence l g : after_open l = Some g -> occurs fence l.
Proof.
  unfold after_open.
  destruct (strip_prefix "json" l) as [r|] eqn:E;
    [|apply after_spaces_fence].
  destruct (after_spaces r) as [g'|] eqn:Er; [|apply after_spaces_fence].
  intros _. apply strip_prefix_split in E. rewrite E.
  apply occurs_behind. now apply (after_spaces_fence r g').
Qed.

Lemma holds_block_tail x l : holds_block l -> holds_block (x :: l).
Proof. intros (a & b & c & ->). now exists (x :: a), b, c. Qed.

Lemma match_fence_block l g : match_fence l = Some g -> holds_block l.
Proof.
  revert g. induction l as [|c l IH]; intros g; rewrite match_fence_unfold.
  - cbn. discriminate.
  - destruct (strip_prefix fence (c :: l)) as [r|] eqn:E.
    + destruct (after_open r) as [g'|] eqn:Eo.
      * intros _. apply strip_prefix_split in E. rewrite E.
        apply after_open_fence in Eo as (p & q & ->). now exists [], p, q.
      * intros H. now apply holds_block_tail, (IH g).
    + intros H. now apply holds_block_tail, (IH g).
Qed.

Lemma holds_block_occurs (a l : text) :
  occurs a l -> holds_block a -> holds_block l.
Proof.
  intros (p & q & ->) (x & y & z & ->).
  exists (p ++ x), y, (z ++ q). now rewrite <- !app_assoc.
Qed.

Lemma match_fence_none l : ~ holds_block l -> match_fence l = None.
Proof.
  intros H. destruct (match_fence l) as [g|] eqn:E; [|reflexivity].
  now apply match_fence_block in E.
Qed.

(** The cut takes an object out of what stands around it. *)
Lemma cut_between pre doc post :
  ~ In (ch "{") pre -> ~ In (ch "[") pre -> ~ In (ch "}") post ->
  object_text doc ->
  cut (pre ++ doc ++ post) = doc.
Proof.
  intros Hpb Hpk Hpost [inside ->]. unfold cut.
  change (units "{") with [ch "{"]. change (units "[") with [ch "["].
  change (units "}") with [ch "}"]. change (units "]") with [ch "]"].
  set (cleaned := pre ++ (ch "{" :: inside ++ [ch "}"]) ++ post).
  assert (Hfirst : indexOf [ch "{"] cleaned = Z.of_nat (length pre)).
  { subst cleaned. cbn [app]. now apply indexOf_first. }
  assert (Hbracket : (indexOf [ch "["] cleaned = -1
                      \/ Z.of_nat (length pre) < indexOf [ch "["] cleaned)%Z).
  { subst cleaned. cbn [app]. apply indexOf_beyond; [assumption|discriminate]. }
  assert (Hlast : lastIndexOf [ch "}"] cleaned
                  = Z.of_nat (length pre + S (length inside))).
  { subst cleaned.
    replace (pre ++ (ch "{" :: inside ++ [ch "}"]) ++ post)
      with ((pre ++ ch "{" :: inside) ++ ch "}" :: post)
      by (cbn [app]; now rewrite <- !app_assoc).
    rewrite lastIndexOf_last by assumption.
    rewrite length_app. reflexivity. }
  rewrite Hfirst, Hlast.
  assert (Hchoice : negb (Z.of_nat (length pre) =? -1)%Z
                    && ((indexOf [ch "["] cleaned =? -1)%Z
                        || (Z.of_nat (length pre) <? indexOf [ch "["] cleaned)%Z)
                    = true).
  { apply andb_true_iff. split.
    - apply negb_true_iff, Z.eqb_neq. lia.
    - apply orb_true_iff. destruct Hbracket as [H|H];
        [left; now apply Z.eqb_eq | right; now apply Z.ltb_lt]. }
  rewrite Hchoice. cbn [fst snd].
  assert (Hgo : negb (Z.of_nat (length pre) =? -1)%Z
                && negb (Z.of_nat (length pre + S (length inside)) =? -1)%Z
                && (Z.of_nat (length pre + S (length inside))
                    >? Z.of_nat (length pre))%Z = true).
  { rewrite !andb_true_iff, !negb_true_iff, !Z.eqb_neq, Z.gtb_ltb, Z.ltb_lt.
    lia. }
  rewrite Hgo. subst cleaned.
  replace (Z.of_nat (length pre + S (length inside)) + 1)%Z
    with (Z.of_nat (length pre + length (ch "{" :: inside ++ [ch "}"])))
    by (cbn [length]; rewrite length_app; cbn [length]; lia).
  apply substring_middle.
Qed.

Lemma trim_around pre doc post :
  object_text doc ->
  trim (pre ++ doc ++ post) = trimStart pre ++ doc ++ trimEnd post.
Proof.
  intros [inside ->].
  pose proof (trim_wrap pre (ch "{") inside (ch "}") post eq_refl eq_refl)
    as H.
  cbn [app]. rewrite <- !app_assoc. cbn [app]. exact H.
Qed.

Lemma not_In_trimStart c l : ~ In c l -> ~ In c (trimStart l).
Proof. intros H Hin. now apply H, (trimStart_incl l). Qed.

Lemma not_In_trimEnd c l : ~ In c l -> ~ In c (trimEnd l).
Proof. intros H Hin. now apply H, (trimEnd_incl l). Qed.

(** Bare: the document between two texts. *)
Lemma candidate_bare doc before after :
  object_text doc ->
  ~ In (ch "{") before -> ~ In (ch "[") before -> ~ In (ch "}") after ->
  ~ holds_block (before ++ doc ++ after) ->
  candidate (before ++ doc ++ after) = doc.
Proof.
  intros Hdoc Hb Hk Ha Hn. rewrite candidate_cut.
  rewrite match_fence_none.
  - rewrite (trim_around _ _ _ Hdoc).
    apply cut_between; auto using not_In_trimStart, not_In_trimEnd.
  - intros H. apply Hn. revert H. apply holds_block_occurs, trim_occurs.
Qed.

(** The first fence of a text. *)
Lemma first_fence_step c (Y X : text) :
  indexOf fence (c :: Y ++ X) = Z.of_nat (S (length Y)) ->
  startsWith fence (c :: Y ++ X) = false
  /\ indexOf fence (Y ++ X) = Z.of_nat (length Y).
Proof.
  cbn [indexOf]. destruct (startsWith fence (c :: Y ++ X)); [lia|].
  destruct (Z.eqb_spec (indexOf fence (Y ++ X)) (-1)); [lia|].
  intros H. split; [reflexivity | lia].
Qed.

Lemma first_fence_drop (p Y X : text) :
  indexOf fence ((p ++ Y) ++ X) = Z.of_nat (length (p ++ Y)) ->
  indexOf fence (Y ++ X) = Z.of_nat (length Y).
Proof.
  induction p as [|c p IH]; [easy|]. cbn [app length]. intros H.
  rewrite <- app_assoc in H.
  replace (length (p ++ Y)) with (length (p ++ Y)) in H by reflexivity.
  assert (H' : indexOf fence (c :: (p ++ Y) ++ X)
               = Z.of_nat (S (length (p ++ Y))))
    by now rewrite <- app_assoc.
  apply first_fence_step in H' as [_ H']. now apply IH.
Qed.

Lemma startsWith_fence_longer (Y A A' : text) :
  startsWith fence (Y ++ fence ++ A) = startsWith fence (Y ++ fence ++ A').
Proof.
  rewrite fence_units. destruct Y as [|a [|b [|c Y]]]; reflexivity.
Qed.

Lemma first_fence_any (Y A A' : text) :
  indexOf fence (Y ++ fence ++ A) = Z.of_nat (length Y) ->
  indexOf fence (Y ++ fence ++ A') = Z.of_nat (length Y).
Proof.
  induction Y as [|c Y IH]; intros H.
  - cbn [app length]. apply indexOf_startsWith. apply startsWith_app.
  - cbn [app] in *. apply first_fence_step in H as [Hs Hi].
    cbn [indexOf]. change (c :: Y ++ fence ++ A') with ((c :: Y) ++ fence ++ A').
    rewrite (startsWith_fence_longer (c :: Y) A' A). cbn [app]. rewrite Hs.
    rewrite (IH Hi). destruct (Z.eqb_spec (Z.of_nat (length Y)) (-1)); [lia|].
    cbn [length]. lia.
Qed.

Lemma closes_fence_first (Y A : text) :
  indexOf fence (Y ++ fence ++ A) = Z.of_nat (length Y) ->
  closes_fence (Y ++ fence ++ A) = forallb is_space Y.
Proof.
  induction Y as [|c Y IH]; intros H; rewrite closes_fence_unfold.
  - cbn [app]. now rewrite startsWith_app.
  - cbn [app] in *. apply first_fence_step in H as [Hs Hi].
    rewrite Hs, (IH Hi). reflexivity.
Qed.

Lemma trimEnd_spaces l : forallb is_space l = true -> trimEnd l = [].
Proof.
  induction l as [|c l IH]; [reflexivity|]. cbn [forallb trimEnd].
  intros H. apply andb_true_iff in H as [Hc Hl]. now rewrite (IH Hl), Hc.
Qed.

Lemma trimEnd_nil l : trimEnd l = [] -> forallb is_space l = true.
Proof.
  induction l as [|c l IH]; [reflexivity|]. cbn [forallb trimEnd].
  destruct (trimEnd l); [|discriminate].
  destruct (is_space c); [|discriminate]. intros _. now apply IH.
Qed.

Lemma lazy_group_first (Y A : text) :
  indexOf fence (Y ++ fence ++ A) = Z.of_nat (length Y) ->
  lazy_group (Y ++ fence ++ A) = Some (trimEnd Y).
Proof.
  induction Y as [|c Y IH]; intros H; rewrite lazy_group_unfold,
    (closes_fence_first _ _ H).
  - reflexivity.
  - destruct (forallb is_space (c :: Y)) eqn:E.
    + now rewrite (trimEnd_spaces _ E).
    + cbn [app] in *. apply first_fence_step in H as [_ Hi].
      rewrite (IH Hi). cbn [option_map trimEnd]. f_equal.
      destruct (trimEnd Y) eqn:Et; [|reflexivity].
      apply trimEnd_nil in Et. cbn [forallb] in E. rewrite Et in E.
      rewrite andb_true_r in E. now rewrite E.
Qed.

Lemma after_spaces_first sp x (Y A : text) :
  spaces sp -> is_space x = false ->
  indexOf fence ((sp ++ x :: Y) ++ fence ++ A)
  = Z.of_nat (length (sp ++ x :: Y)) ->
  after_spaces ((sp ++ x :: Y) ++ fence ++ A) = Some (trimEnd (x :: Y)).
Proof.
  intros Hsp Hx. induction Hsp as [|c sp Hc _ IH]; intros H.
  - cbn [app] in *. cbn [after_spaces]. rewrite Hx.
    exact (lazy_group_first (x :: Y) A H).
  - cbn [app length] in *. rewrite <- app_assoc in H.
    assert (H' : indexOf fence (c :: (sp ++ x :: Y) ++ fence ++ A)
                 = Z.of_nat (S (length (sp ++ x :: Y))))
      by now rewrite <- app_assoc.
    apply first_fence_step in H' as [_ H'].
    cbn [after_spaces]. rewrite Hc, (IH H'). reflexivity.
Qed.

Lemma trimStart_split l : exists sp, l = sp ++ trimStart l /\ spaces sp.
Proof.
  induction l as [|c l (sp & IH & Hs)]; cbn [trimStart].
  - exists []. split; [reflexivity | constructor].
  - destruct (is_space c) eqn:E.
    + exists (c :: sp). split; [cbn [app]; now f_equal | now constructor].
    + exists []. split; [reflexivity | constructor].
Qed.

Lemma trimStart_head l x t : trimStart l = x :: t -> is_space x = false.
Proof.
  induction l as [|c l IH]; [discriminate|]. cbn [trimStart].
  destruct (is_space c) eqn:E; [exact IH|]. now intros [= <- _].
Qed.

Lemma after_spaces_around (label doc trailer A : text) :
  object_text doc ->
  indexOf fence ((label ++ doc ++ trailer) ++ fence ++ A)
  = Z.of_nat (length (label ++ doc ++ trailer)) ->
  after_spaces ((label ++ doc ++ trailer) ++ fence ++ A)
  = Some (trim (label ++ doc ++ trailer)).
Proof.
  intros Hdoc H. set (Y := label ++ doc ++ trailer) in *.
  destruct (trimStart_split Y) as (sp & E & Hsp).
  destruct (trimStart Y) as [|x Y2] eqn:Et.
  - exfalso. subst Y. destruct Hdoc as [inside ->].
    cbn [app] in Et. rewrite trimStart_app in Et by reflexivity.
    now destruct (trimStart label).
  - unfold trim. rewrite Et. rewrite E in *.
    apply after_spaces_first; try assumption.
    exact (trimStart_head _ _ _ Et).
Qed.

Lemma strip_prefix_label p (label doc X r : text) :
  object_text doc -> ~ In (ch "{") p ->
  strip_prefix p (label ++ doc ++ X) = Some r ->
  exists label', label = p ++ label' /\ r = label' ++ doc ++ X.
Proof.
  intros [inside ->]. revert label.
  induction p as [|a p IH]; intros label Hp; cbn [strip_prefix].
  - intros [= <-]. now exists label.
  - destruct label as [|b label]; cbn [app].
    + destruct (N.eqb_spec a (ch "{")) as [->|_]; [|discriminate].
      exfalso. apply Hp. now left.
    + destruct (N.eqb_spec a b) as [->|_]; [|discriminate].
      intros H. destruct (IH label ltac:(intros Hin; apply Hp; now right) H)
        as (label' & -> & ->).
      now exists label'.
Qed.

Lemma after_open_around (label doc trailer A : text) :
  object_text doc -> ~ In (ch "{") label -> ~ In (ch "[") label ->
  indexOf fence ((label ++ doc ++ trailer) ++ fence ++ A)
  = Z.of_nat (length (label ++ doc ++ trailer)) ->
  exists label',
    ~ In (ch "{") label' /\ ~ In (ch "[") label'
    /\ after_open ((label ++ doc ++ trailer) ++ fence ++ A)
       = Some (trim (label' ++ doc ++ trailer)).
Proof.
  intros Hdoc Hb Hk H. unfold after_open.
  destruct (strip_prefix "json" _) as [r|] eqn:E.
  - rewrite <- !app_assoc in E.
    apply strip_prefix_label in E as (label' & -> & ->);
      [|exact Hdoc|cbn; intuition discriminate].
    assert (Hb' : ~ In (ch "{") label')
      by (intros Hin; apply Hb, in_or_app; now right).
    assert (Hk' : ~ In (ch "[") label')
      by (intros Hin; apply Hk, in_or_app; now right).
    exists label'. split; [exact Hb'|]. split; [exact Hk'|].
    assert (H' : indexOf fence ((label' ++ doc ++ trailer) ++ fence ++ A)
                 = Z.of_nat (length (label' ++ doc ++ trailer))).
    { apply (first_fence_drop (units "json")).
      now rewrite <- !app_assoc in *. }
    pose proof (after_spaces_around _ _ _ _ Hdoc H') as Ha.
    rewrite <- !app_assoc in Ha. now rewrite Ha.
  - exists label. split; [exact Hb|]. split; [exact Hk|].
    now apply after_spaces_around.
Qed.

Lemma match_fence_first (B X g : text) :
  after_open X = Some g ->
  indexOf fence (B ++ fence ++ X) = Z.of_nat (length B) ->
  match_fence (B ++ fence ++ X) = Some g.
Proof.
  intros Hg. induction B as [|c B IH]; intros H; rewrite match_fence_unfold.
  - cbn [app]. now rewrite strip_prefix_app, Hg.
  - cbn [app] in *. apply first_fence_step in H as [Hs Hi].
    now rewrite (strip_prefix_startsWith _ _ Hs), (IH Hi).
Qed.

Lemma trim_fenced (before inside after : text) :
  trim (before ++ fence ++ inside ++ fence ++ after)
  = trimStart before ++ fence ++ inside ++ fence ++ trimEnd after.
Proof.
  rewrite fence_units.
  pose proof (trim_wrap before backtick
                ([backtick; backtick] ++ inside ++ [backtick; backtick])
                backtick after eq_refl eq_refl) as H.
  cbn [app] in *. rewrite <- !app_assoc in H. cbn [app] in H. exact H.
Qed.

(** Fenced: the document in the first fenced block. *)
Lemma candidate_fenced doc before label trailer after :
  object_text doc ->
  indexOf fence (before ++ fence ++ (label ++ doc ++ trailer)
                 ++ fence ++ after)
  = Z.of_nat (length before) ->
  indexOf fence ((label ++ doc ++ trailer) ++ fence ++ after)
  = Z.of_nat (length (label ++ doc ++ trailer)) ->
  ~ In (ch "{") label -> ~ In (ch "[") label -> ~ In (ch "}") trailer ->
  candidate (before ++ fence ++ (label ++ doc ++ trailer) ++ fence ++ after)
  = doc.
Proof.
  intros Hdoc Hopen Hclose Hb Hk Ht. rewrite candidate_cut, trim_fenced.
  apply (first_fence_any _ _ (trimEnd after)) in Hclose.
  destruct (after_open_around _ _ _ _ Hdoc Hb Hk Hclose)
    as (label' & Hb' & Hk' & Ho).
  assert (Hopen' : indexOf fence
                     (trimStart before ++ fence
                      ++ (label ++ doc ++ trailer) ++ fence ++ trimEnd after)
                   = Z.of_nat (length (trimStart before))).
  { apply (first_fence_any _ _ ((label ++ doc ++ trailer)
                                ++ fence ++ trimEnd after)) in Hopen.
    destruct (trimStart_split before) as (sp & E & _).
    apply (first_fence_drop sp). rewrite <- E. exact Hopen. }
  rewrite (match_fence_first _ _ _ Ho Hopen').
  rewrite (trim_around _ _ _ Hdoc), (trim_around _ _ _ Hdoc).
  apply cut_between; auto using not_In_trimStart, not_In_trimEnd.
Qed.

(** C4, as stated, does not hold: prose with a bracket in it, before the
    document, moves the cut, and the reply is refused. *)
Lemma bracket_in_prose_breaks_extraction :
  JSON_parse polish_text = Some polish_document
  /\ reply_with_citation
     = "As noted in [1], the result is: " ++ polish_text ++ []
  /\ snd (safeJSONParse reply_with_citation) = Throws MalformedResponse.
Proof. repeat split; vm_compute; reflexivity. Qed.

(** What the amended C4 asks of the text around the document cannot be
    left out.  Behind a bare document, a closing brace moves the end of the
    cut; a bare document with a string that holds a fenced block is not
    read, the block is.  Of a fenced document: an opener in the label moves
    the start of the cut and a closing brace behind the document moves its
    end; a fence in the prose before the block opens a block of its own;
    and a fence in a string of the document closes the block too early.  A
    comma put in before a closer inside a string literal is part of the
    string; and the comma repair also takes a comma out of a string that
    holds one before a closer. *)
Example extraction_limits :
  snd (safeJSONParse (polish_text ++ " (end})")) = Throws MalformedResponse
  /\ JSON_parse (JSON_stringify block_document) = Some block_document
  /\ snd (safeJSONParse (JSON_stringify block_document))
     = Throws MalformedResponse
  /\ snd (safeJSONParse (fence ++ "[json]" ++ [10] ++ polish_text ++ [10]
                         ++ fence))
     = Throws MalformedResponse
  /\ snd (safeJSONParse (fence ++ "json" ++ [10] ++ polish_text ++ " (end})"
                         ++ [10] ++ fence))
     = Throws MalformedResponse
  /\ snd (safeJSONParse ("Between ``` and " ++ fence ++ "json" ++ [10]
                         ++ polish_text ++ [10] ++ fence))
     = Throws MalformedResponse
  /\ snd (safeJSONParse (fence ++ "json" ++ [10]
                         ++ JSON_stringify block_document ++ [10] ++ fence))
     = Throws MalformedResponse
  /\ JSON_parse (JSON_stringify comma_document) = Some comma_document
  /\ lex Outside (units "{" ++ [quote] ++ "note" ++ [quote] ++ ":"
                  ++ [quote] ++ "a") = Inside
  /\ snd (safeJSONParse ("{" ++ [quote] ++ "note" ++ [quote] ++ ":"
                         ++ [quote] ++ "a" ++ ",,}" ++ [quote] ++ "}"))
     = Returns (JObject [field "note" (str "a,,}")])
  /\ snd (safeJSONParse (removelast (JSON_stringify comma_document)
                         ++ ",}"))
     = Returns (JObject [field "note" (str "a}")]).
Proof. repeat split; vm_compute; reflexivity. Qed.

Lemma trailing_comma_object s doc :
  object_text s -> trailing_comma s doc -> object_text doc.
Proof.
  intros [inside Hs] (front & gap & c & rest & Hg & Hc & _ & Hs' & ->).
  destruct front as [|x front].
  - exfalso. cbn [app] in Hs'. rewrite Hs in Hs'.
    destruct Hg as [|g gap Hgs Hg].
    + injection Hs' as <- _. destruct Hc; discriminate.
    + injection Hs' as <- _. discriminate Hgs.
  - rewrite Hs in Hs'. injection Hs' as <- Hi.
    assert (Hlast : exists inside',
               front ++ ch "," :: gap ++ c :: rest = inside' ++ [ch "}"]).
    { destruct rest as [|y rest] using rev_ind.
      - replace (front ++ gap ++ [c]) with ((front ++ gap) ++ [c]) in Hi
          by (now rewrite <- app_assoc).
        apply app_inj_tail in Hi as [_ <-].
        exists (front ++ ch "," :: gap).
        rewrite <- app_assoc. reflexivity.
      - replace (front ++ gap ++ c :: rest ++ [y])
          with ((front ++ gap ++ c :: rest) ++ [y]) in Hi
          by reassoc.
        apply app_inj_tail in Hi as [_ <-].
        exists (front ++ ch "," :: gap ++ c :: rest). reassoc. }
    destruct Hlast as [inside' E]. exists inside'. cbn [app]. now rewrite E.
Qed.

Lemma candidate_wrapped doc raw :
  object_text doc -> wrapped doc raw -> candidate raw = doc.
Proof.
  intros Hdoc [(before & after & -> & Hb & Hk & Ha & Hn)
              | (before & label & trailer & after
                 & -> & Hopen & Hclose & Hb & Hk & Ht)].
  - now apply candidate_bare.
  - now apply candidate_fenced.
Qed.

(** C4, amended: let [s] be the text of a JSON object, opening with a brace
    and ending with one, that [JSON.parse] reads as [D].  [safeJSONParse]
    returns [D] from [s], and from [s] with a comma put in before any brace
    or bracket that closes an object or an array of [s] when no other comma
    of [s] stands before a closer, however the text is wrapped: bare, in a
    reply without a fenced block, behind any text that holds no opener and
    before any text that holds no closing brace; or in the first fenced
    block of the reply, behind a label that holds no opener and before a
    text that holds no closing brace, whatever stands around the block. *)
Theorem extraction_round_trip (D : json) (s doc raw : text) :
  JSON_parse s = Some D ->
  object_text s ->
  doc = s \/ (trailing_comma s doc /\ drop_trailing_commas s = s) ->
  wrapped doc raw ->
  safeJSONParse raw = ([], Returns D).
Proof.
  intros Hparse Hobj Hdoc Hwrap.
  rewrite safeJSONParse_candidate.
  destruct Hdoc as [-> | [Hcomma Hfix]].
  - now rewrite (candidate_wrapped _ _ Hobj Hwrap), Hparse.
  - rewrite (candidate_wrapped doc raw
               (trailing_comma_object _ _ Hobj Hcomma) Hwrap).
    destruct Hcomma as (front & gap & c & rest & Hg & Hc & Hl & -> & ->).
    rewrite (JSON_parse_dangling front gap c rest Hg Hc Hl).
    now rewrite (drop_trailing_commas_inserted _ _ _ _ Hg Hc Hfix), Hparse.
Qed.

Lemma extraction_round_trip_witness :
  safeJSONParse fenced_reply = ([], Returns polish_document)
  /\ safeJSONParse bare_reply = ([], Returns polish_document).
Proof.
  split.
  - apply (extraction_round_trip polish_document polish_text comma_in_array
             fenced_reply).
    + vm_compute. reflexivity.
    + exists (removelast (tl polish_text)). vm_compute. reflexivity.
    + right. split; [|vm_compute; reflexivity].
      exists (removelast (removelast polish_text)), [], (ch "]"), [ch "}"].
      split; [constructor|]. split; [now right|].
      repeat split; vm_compute; reflexivity.
    + right.
      exists (lines ["Here is the `polished` story (see 2]):"; ""]),
        ("json" ++ [10]), [10],
        (lines [""; "Tell me if {this} needs changes."]).
      split; [vm_compute; reflexivity|].
      split; [vm_compute; reflexivity|].
      split; [vm_compute; reflexivity|].
      repeat split; apply (proj1 (includes_false_In _ _));
        vm_compute; reflexivity.
  - apply (extraction_round_trip polish_document polish_text polish_text
             bare_reply).
    + vm_compute. reflexivity.
    + exists (removelast (tl polish_text)). vm_compute. reflexivity.
    + now left.
    + left.
      exists (units "Done (1] and 2}) as `asked`: "),
        (units " [sic] {to be continued").
      split; [reflexivity|].
      split; [apply (proj1 (includes_false_In _ _)); vm_compute; reflexivity|].
      split; [apply (proj1 (includes_false_In _ _)); vm_compute; reflexivity|].
      split; [apply (proj1 (includes_false_In _ _)); vm_compute; reflexivity|].
      intros (a & b & c & E).
      assert (Ho : occurs fence bare_reply) by (exists a, (b ++ fence ++ c); exact E).
      apply includes_occurs in Ho. vm_compute in Ho. discriminate.
Defined.

(** * Further properties *)

(** ** Bounds on the calls *)

Lemma count_app kind a b : count kind (a ++ b) = (count kind a + count kind b)%nat.
Proof. unfold count. now rewrite filter_app, length_app. Qed.

Lemma within_le {A} kind n n' (m : Async A) :
  within kind n m -> (n <= n')%nat -> within kind n' m.
Proof.
  intros H Hle w out w' E. destruct (H _ _ _ E) as (calls & Ht & Hc).
  exists calls. split; [exact Ht | lia].
Qed.

Lemma within_silent {A} kind (m : Async A) :
  (forall w out w', m w = (out, w') -> trace w' = trace w) ->
  within kind 0 m.
Proof.
  intros H w out w' E. exists []. rewrite app_nil_r. split; [eauto | cbn; lia].
Qed.

Lemma within_bind {A B} kind n k (m : Async A) (f : A -> Async B) :
  within kind n m -> (forall a, within kind k (f a)) ->
  within kind (n + k) (bind m f).
Proof.
  intros Hm Hf w out w'. unfold bind.
  destruct (m w) as [[a|e|] w1] eqn:E; destruct (Hm _ _ _ E) as (c1 & T1 & C1).
  - intros E2. destruct (Hf a _ _ _ E2) as (c2 & T2 & C2).
    exists (c1 ++ c2). rewrite T2, T1, app_assoc, count_app. split; [reflexivity | lia].
  - intros [= <- <-]. exists c1. split; [exact T1 | lia].
  - intros [= <- <-]. exists c1. split; [exact T1 | lia].
Qed.

Lemma within_try_catch {A} kind n k (m : Async A) (h : JsError -> Async A) :
  within kind n m -> (forall e, within kind k (h e)) ->
  within kind (n + k) (try_catch m h).
Proof.
  intros Hm Hh w out w'. unfold try_catch.
  destruct (m w) as [[a|e|] w1] eqn:E; destruct (Hm _ _ _ E) as (c1 & T1 & C1).
  - intros [= <- <-]. exists c1. split; [exact T1 | lia].
  - intros E2. destruct (Hh e _ _ _ E2) as (c2 & T2 & C2).
    exists (c1 ++ c2). rewrite T2, T1, app_assoc, count_app. split; [reflexivity | lia].
  - intros [= <- <-]. exists c1. split; [exact T1 | lia].
Qed.

Lemma within_call {A} kind (c : Call) (m : Async A) :
  (forall w out w', m w = (out, w') -> trace w' = trace w ++ [c]) ->
  within kind (if kind c then 1 else 0) m.
Proof.
  intros H w out w' E. exists [c]. split; [eauto|].
  unfold count. cbn. destruct (kind c); cbn; lia.
Qed.

Lemma generateContent_trace key p w out w' :
  generateContent key p w = (out, w') ->
  trace w' = trace w ++ [CallGenerateContent key p].
Proof.
  unfold generateContent.
  destruct (generateContent_replies _); now intros [= <- <-].
Qed.

Lemma generateVideos_trace key p w out w' :
  generateVideos key p w = (out, w') ->
  trace w' = trace w ++ [CallGenerateVideos key p].
Proof.
  unfold generateVideos.
  destruct (generateVideos_replies _); now intros [= <- <-].
Qed.

Lemma getVideosOperation_trace key op w out w' :
  getVideosOperation key op w = (out, w') ->
  trace w' = trace w ++ [CallGetVideosOperation key op].
Proof.
  unfold getVideosOperation.
  destruct (getVideosOperation_replies _); now intros [= <- <-].
Qed.

Lemma fetch_trace r w out w' :
  fetch r w = (out, w') -> trace w' = trace w ++ [CallFetch r].
Proof.
  unfold fetch. destruct (fetch_replies _); now intros [= <- <-].
Qed.

Lemma createObjectURL_trace b w out w' :
  createObjectURL b w = (out, w') ->
  trace w' = trace w ++ [CallCreateObjectURL b].
Proof.
  unfold createObjectURL.
  destruct (createObjectURL_replies _); now intros [= <- <-].
Qed.

Lemma within_getGoogleClient kind key : within kind 0 (getGoogleClient key).
Proof.
  apply within_silent. intros w out w' E.
  now destruct (getGoogleClient_shape _ _ _ _ E) as (-> & _).
Qed.

Lemma within_ret {A} kind (a : A) : within kind 0 (ret a).
Proof. apply within_silent. now intros w out w' [= <- <-]. Qed.

Lemma within_throw {A} kind e : within kind 0 (@throw A e).
Proof. apply within_silent. now intros w out w' [= <- <-]. Qed.

Lemma within_never {A} kind : within kind 0 (@never A).
Proof. apply within_silent. now intros w out w' [= <- <-]. Qed.

Lemma within_console kind ls : within kind 0 (console_error_write ls).
Proof. apply within_silent. now intros w out w' [= <- <-]. Qed.

Lemma within_window_aistudio kind : within kind 0 window_aistudio.
Proof. apply within_silent. now intros w out w' [= <- <-]. Qed.

Lemma within_process_env kind : within kind 0 process_env_API_KEY.
Proof. apply within_silent. now intros w out w' [= <- <-]. Qed.

Lemma within_openSelectKey kind :
  within kind (if kind CallOpenSelectKey then 1 else 0) openSelectKey.
Proof.
  apply within_call. intros w out w' E. now apply openSelectKey_shape in E.
Qed.

Lemma within_fetch kind r :
  within kind (if kind (CallFetch r) then 1 else 0) (fetch r).
Proof. apply within_call, fetch_trace. Qed.

(** One request and the extraction of its text. *)
Lemma within_ask kind ai req msg :
  within kind (if kind (CallGenerateContent ai req) then 1 else 0)
    (response <- generateContent ai req ;;
     match response_text response with
     | Some (c :: r) => safeJSONParse_async (c :: r)
     | _ => throw (Error msg)
     end).
Proof.
  apply within_call. intros w out w' E. now apply ask_shape in E.
Qed.

Lemma within_if {A} kind n k (c : bool) (a b : Async A) :
  within kind n a -> within kind k b ->
  within kind (Nat.max n k) (if c then a else b).
Proof.
  intros Ha Hb. destruct c; eapply within_le; eauto; lia.
Qed.

(** The requests of one run of the protocol: the strict one, and the
    fallback. *)
Lemma within_protocol kind d storyText config lang ai :
  within kind
    ((if kind (CallGenerateContent ai (strict_request_of d storyText config lang))
      then 1 else 0)
     + (if kind (CallGenerateContent ai (fallback_request_of d storyText config lang))
        then 1 else 0))
    (protocol_of d storyText config lang ai).
Proof.
  destruct d; (apply within_try_catch; [apply within_ask|]); intros e;
    (destruct (isAuthError e);
     [eapply within_le; [apply within_throw | lia] | apply within_ask]).
Qed.

Lemma within_protocol_kinds d storyText config lang ai :
  within is_request 2 (protocol_of d storyText config lang ai)
  /\ within is_reselection 0 (protocol_of d storyText config lang ai)
  /\ within is_fetch 0 (protocol_of d storyText config lang ai).
Proof.
  repeat split; eapply within_le; try apply within_protocol; cbn; lia.
Qed.

Lemma within_retry kind n d storyText config lang :
  (forall ai, within kind n (protocol_of d storyText config lang ai)) ->
  within kind n (retry_of d storyText config lang).
Proof.
  intros Hp.
  destruct d; cbn [retry_of AnalyzeStoryGoogle.attempt PolishStory.attempt];
    (eapply within_le;
     [ apply within_bind; [apply within_getGoogleClient|]; intros ai;
       apply within_try_catch; [apply (Hp ai)|]; intros e;
       apply within_bind; [apply within_window_aistudio|]; intros studio;
       cbn [negb andb];
       first [ apply within_throw
             | apply within_bind; [apply within_console|]; intros _;
               apply within_throw ]
     | lia ]).
Qed.

Lemma within_operation_google kind n d storyText config lang :
  provider config = google ->
  (forall ai, within kind n (protocol_of d storyText config lang ai)) ->
  within kind (n + ((if kind CallOpenSelectKey then 1 else 0) + n))
    (operation_of d storyText config lang).
Proof.
  intros Hg Hp. rewrite (operation_google _ _ _ _ Hg).
  pose proof (within_retry kind n d storyText config lang Hp) as Hr.
  destruct d; cbn [retry_of] in Hr;
    cbn [AnalyzeStoryGoogle.attempt PolishStory.attempt] in *;
    (eapply within_le;
     [ apply within_bind; [apply within_getGoogleClient|]; intros ai;
       apply within_try_catch; [apply (Hp ai)|]; intros e;
       apply within_bind; [apply within_window_aistudio|]; intros studio;
       apply within_if;
       [ apply within_bind; [apply within_openSelectKey|]; intros _; exact Hr
       | first [ apply within_throw
               | apply within_bind; [apply within_console|]; intros _;
                 apply within_throw ] ]
     | lia ]).
Qed.

(** X1: On the primary provider, [analyzeStory] and [polishStory] ask the
    model at most four times and the user for a key at most once, whatever the
    replies, and never call [fetch]. *)
Theorem google_operation_bounded
  (d : Document) (storyText : text) (config : ModelConfig) (lang : Language)
  (w : World) :
  provider config = google ->
  exists calls,
    trace (snd (operation_of d storyText config lang w)) = trace w ++ calls
    /\ (requests calls <= 4)%nat
    /\ (reselections calls <= 1)%nat
    /\ count is_fetch calls = 0%nat.
Proof.
  intros Hg.
  destruct (operation_of d storyText config lang w) as [out w'] eqn:E.
  cbn [snd].
  destruct (within_operation_google is_request 2 d storyText config lang Hg
              (fun ai => proj1 (within_protocol_kinds d _ _ _ ai)) _ _ _ E)
    as (c1 & T1 & C1).
  destruct (within_operation_google is_reselection 0 d storyText config lang Hg
              (fun ai => proj1 (proj2 (within_protocol_kinds d _ _ _ ai))) _ _ _ E)
    as (c2 & T2 & C2).
  destruct (within_operation_google is_fetch 0 d storyText config lang Hg
              (fun ai => proj2 (proj2 (within_protocol_kinds d _ _ _ ai))) _ _ _ E)
    as (c3 & T3 & C3).
  assert (c2 = c1) as -> by (rewrite T1 in T2; now apply app_inv_head in T2).
  assert (c3 = c1) as -> by (rewrite T1 in T3; now apply app_inv_head in T3).
  exists c1. cbn in C1, C2, C3. unfold requests, reselections.
  unfold count in *. repeat split; try assumption; lia.
Qed.

Lemma google_operation_bounded_witness :
  exists calls,
    trace (snd (operation_of Analysis "A fox flatters a crow." google_config
                  en four_requests))
    = trace four_requests ++ calls
    /\ (requests calls <= 4)%nat
    /\ (reselections calls <= 1)%nat
    /\ count is_fetch calls = 0%nat.
Proof.
  exact (google_operation_bounded Analysis "A fox flatters a crow."
           google_config en four_requests eq_refl).
Defined.

(** The bound of four requests is reached. *)
Example four_requests_made :
  requests (trace (snd (operation_of Analysis "A fox flatters a crow."
                          google_config en four_requests))) = 4%nat.
Proof. vm_compute. reflexivity. Qed.

(** ** The video operation *)

Lemma within_generateVideos kind key p :
  within kind (if kind (CallGenerateVideos key p) then 1 else 0)
    (generateVideos key p).
Proof. apply within_call, generateVideos_trace. Qed.

Lemma within_createObjectURL kind b :
  within kind (if kind (CallCreateObjectURL b) then 1 else 0)
    (createObjectURL b).
Proof. apply within_call, createObjectURL_trace. Qed.

Lemma within_poll kind fuel key op :
  (forall ms, kind (CallSetTimeout ms) = false) ->
  (forall k o, kind (CallGetVideosOperation k o) = false) ->
  within kind 0 (poll fuel key op).
Proof.
  intros Ht Hg. revert op; induction fuel as [|f IH]; intros op; cbn [poll];
    destruct (done op); try apply within_ret; try apply within_never.
  eapply within_le; [|apply Nat.le_refl].
  change 0%nat with (0 + (0 + 0))%nat.
  apply within_bind.
  { eapply within_le; [apply within_call|].
    - intros w out w' [= <- <-]. reflexivity.
    - rewrite Ht. lia. }
  intros _. apply within_bind; [|exact IH].
  eapply within_le; [apply within_call, getVideosOperation_trace|].
  rewrite Hg. lia.
Qed.

Lemma within_poll_all kind key op :
  (forall ms, kind (CallSetTimeout ms) = false) ->
  (forall k o, kind (CallGetVideosOperation k o) = false) ->
  within kind 0 (poll_all key op).
Proof. intros Ht Hg w out w'. unfold poll_all. now apply within_poll. Qed.

Section VeoBounds.
Variables (prompt : text) (referenceImageBase64 : option text)
          (aspectRatio : AspectRatio) (config : option ModelConfig).
Variable kind : Call -> bool.
Hypothesis kind_timer : forall ms, kind (CallSetTimeout ms) = false.
Hypothesis kind_poll : forall k o, kind (CallGetVideosOperation k o) = false.

Local Abbreviation generation :=
  (GenerateVeoVideo.generation prompt referenceImageBase64 aspectRatio config).
Local Abbreviation attempt :=
  (GenerateVeoVideo.attempt prompt referenceImageBase64 aspectRatio config).
Local Abbreviation resolve_key := (GenerateVeoVideo.resolve_key config).

Variables submit load make select : nat.
Hypothesis kind_submit :
  forall k p, ((if kind (CallGenerateVideos k p) then 1 else 0) <= submit)%nat.
Hypothesis kind_load :
  forall r, ((if kind (CallFetch r) then 1 else 0) <= load)%nat.
Hypothesis kind_make :
  forall b, ((if kind (CallCreateObjectURL b) then 1 else 0) <= make)%nat.
Hypothesis kind_select :
  ((if kind CallOpenSelectKey then 1 else 0) <= select)%nat.

Lemma within_generation key :
  within kind (submit + (load + make)) (generation key).
Proof.
  unfold GenerateVeoVideo.generation.
  apply within_bind.
  { eapply within_le; [apply within_generateVideos | apply kind_submit]. }
  intros op.
  eapply within_le; [apply within_bind; [now apply within_poll_all|] | ].
  - intros fin. destruct (video_uri fin) as [[|c r]|].
    + eapply within_le; [apply within_throw | apply Nat.le_0_l].
    + apply within_bind.
      * eapply within_le; [apply within_fetch | apply kind_load].
      * intros res. eapply within_le;
          [apply within_createObjectURL | apply kind_make].
    + eapply within_le; [apply within_throw | apply Nat.le_0_l].
  - lia.
Qed.

Lemma within_resolve_key : within kind select resolve_key.
Proof.
  unfold GenerateVeoVideo.resolve_key.
  eapply within_le.
  - apply within_bind; [apply within_process_env|]. intros env.
    apply within_bind; [apply within_window_aistudio|]. intros studio.
    apply within_if.
    + apply within_bind; [|intros _; apply within_process_env].
      eapply within_le; [apply within_openSelectKey | apply kind_select].
    + apply within_ret.
  - lia.
Qed.

Lemma within_last_attempt :
  within kind (select + (submit + (load + make))) (attempt 1 true).
Proof.
  cbn [GenerateVeoVideo.attempt].
  apply (within_bind kind select (submit + (load + make)));
    [apply within_resolve_key|]. intros key.
  destruct key as [[|c r]|];
    try (eapply within_le; [apply within_throw | lia]).
  eapply within_le.
  - apply within_try_catch; [apply within_generation|]. intros e.
    apply within_bind; [apply within_window_aistudio|]. intros studio.
    cbn [negb andb]. apply within_throw.
  - lia.
Qed.

Lemma within_attempt :
  within kind
    (select + (submit + (load + make))
     + (select + (select + (submit + (load + make)))))
    (attempt 2 false).
Proof.
  cbn [GenerateVeoVideo.attempt].
  eapply within_le; [apply (within_bind kind select
    (submit + (load + make) + (select + (select + (submit + (load + make))))));
    [apply within_resolve_key|] | lia]. intros key.
  destruct key as [[|c r]|];
    try (eapply within_le; [apply within_throw | lia]).
  eapply within_le.
  - apply within_try_catch; [apply within_generation|]. intros e.
    apply within_bind; [apply within_window_aistudio|]. intros studio.
    apply within_if.
    + apply within_bind; [|intros _; apply within_last_attempt].
      eapply within_le; [apply within_openSelectKey | apply kind_select].
    + apply within_throw.
  - lia.
Qed.
End VeoBounds.

(** X2: Whatever the services reply, [generateVeoVideo] submits at most two
    jobs, asks the user for a key at most three times, downloads at most twice
    and never asks a text model. *)
Theorem generateVeoVideo_bounded
  (prompt : text) (referenceImageBase64 : option text)
  (aspectRatio : AspectRatio) (config : option ModelConfig) (w : World) :
  exists calls,
    trace (snd (generateVeoVideo prompt referenceImageBase64 aspectRatio
                  config w))
    = trace w ++ calls
    /\ (submissions calls <= 2)%nat
    /\ (reselections calls <= 3)%nat
    /\ (count is_fetch calls <= 2)%nat
    /\ requests calls = 0%nat.
Proof.
  unfold generateVeoVideo, GenerateVeoVideo.run.
  destruct (GenerateVeoVideo.attempt prompt referenceImageBase64 aspectRatio
              config 2 false w) as [out w'] eqn:E.
  cbn [snd].
  destruct (within_attempt prompt referenceImageBase64 aspectRatio config
              is_submission (fun _ => eq_refl) (fun _ _ => eq_refl) 1 0 0 0
              (fun _ _ => Nat.le_refl _) (fun _ => Nat.le_refl _)
              (fun _ => Nat.le_refl _) (Nat.le_refl _) _ _ _ E)
    as (c1 & T1 & C1).
  destruct (within_attempt prompt referenceImageBase64 aspectRatio config
              is_reselection (fun _ => eq_refl) (fun _ _ => eq_refl) 0 0 0 1
              (fun _ _ => Nat.le_refl _) (fun _ => Nat.le_refl _)
              (fun _ => Nat.le_refl _) (Nat.le_refl _) _ _ _ E)
    as (c2 & T2 & C2).
  destruct (within_attempt prompt referenceImageBase64 aspectRatio config
              is_fetch (fun _ => eq_refl) (fun _ _ => eq_refl) 0 1 0 0
              (fun _ _ => Nat.le_refl _) (fun _ => Nat.le_refl _)
              (fun _ => Nat.le_refl _) (Nat.le_refl _) _ _ _ E)
    as (c3 & T3 & C3).
  destruct (within_attempt prompt referenceImageBase64 aspectRatio config
              is_request (fun _ => eq_refl) (fun _ _ => eq_refl) 0 0 0 0
              (fun _ _ => Nat.le_refl _) (fun _ => Nat.le_refl _)
              (fun _ => Nat.le_refl _) (Nat.le_refl _) _ _ _ E)
    as (c4 & T4 & C4).
  assert (c2 = c1) as -> by (rewrite T1 in T2; now apply app_inv_head in T2).
  assert (c3 = c1) as -> by (rewrite T1 in T3; now apply app_inv_head in T3).
  assert (c4 = c1) as -> by (rewrite T1 in T4; now apply app_inv_head in T4).
  exists c1. unfold submissions, reselections, requests, count in *.
  cbn in C1, C2, C3, C4. repeat split; try assumption; lia.
Qed.

(** ** The pace of the polling loop *)

Section Obeys.
Variable P : list Call -> Prop.
Hypothesis P_nil : P [].
Hypothesis P_app : forall a b, P a -> P b -> P (a ++ b).

Lemma obeys_silent {A} (m : Async A) :
  (forall w out w', m w = (out, w') -> trace w' = trace w) -> obeys P m.
Proof.
  intros H w out w' E. exists []. rewrite app_nil_r. split; [eauto | exact P_nil].
Qed.

Lemma obeys_call {A} (c : Call) (m : Async A) :
  (forall w out w', m w = (out, w') -> trace w' = trace w ++ [c]) ->
  P [c] -> obeys P m.
Proof. intros H Hc w out w' E. exists [c]. split; eauto. Qed.

Lemma obeys_bind {A B} (m : Async A) (f : A -> Async B) :
  obeys P m -> (forall a, obeys P (f a)) -> obeys P (bind m f).
Proof.
  intros Hm Hf w out w'. unfold bind.
  destruct (m w) as [[a|e|] w1] eqn:E; destruct (Hm _ _ _ E) as (c1 & T1 & C1).
  - intros E2. destruct (Hf a _ _ _ E2) as (c2 & T2 & C2).
    exists (c1 ++ c2). rewrite T2, T1, app_assoc. split; [reflexivity | auto].
  - intros [= <- <-]. exists c1. split; assumption.
  - intros [= <- <-]. exists c1. split; assumption.
Qed.

Lemma obeys_try_catch {A} (m : Async A) (h : JsError -> Async A) :
  obeys P m -> (forall e, obeys P (h e)) -> obeys P (try_catch m h).
Proof.
  intros Hm Hh w out w'. unfold try_catch.
  destruct (m w) as [[a|e|] w1] eqn:E; destruct (Hm _ _ _ E) as (c1 & T1 & C1).
  - intros [= <- <-]. exists c1. split; assumption.
  - intros E2. destruct (Hh e _ _ _ E2) as (c2 & T2 & C2).
    exists (c1 ++ c2). rewrite T2, T1, app_assoc. split; [reflexivity | auto].
  - intros [= <- <-]. exists c1. split; assumption.
Qed.
End Obeys.

Lemma paced_app_bounded n a b :
  (length a <= n)%nat ->
  paced a = true -> paced b = true -> paced (a ++ b) = true.
Proof.
  revert a. induction n as [|n IH]; intros a Hn Ha Hb.
  - destruct a; [exact Hb | cbn in Hn; lia].
  - destruct a as [|c a]; [exact Hb|].
    cbn [length] in Hn.
    destruct c; cbn [paced app] in *; try (apply IH; [lia | assumption..]).
    + discriminate.
    + apply andb_true_iff in Ha as [Hms Ha]. rewrite Hms. cbn [andb].
      destruct a as [|c' a]; [discriminate|].
      destruct c'; try discriminate. cbn [app].
      apply IH; [cbn [length] in Hn; lia | assumption..].
Qed.

Lemma paced_app a b :
  paced a = true -> paced b = true -> paced (a ++ b) = true.
Proof. apply (paced_app_bounded (length a)), Nat.le_refl. Qed.

Lemma paced_looks key ops : paced (looks key ops) = true.
Proof. induction ops as [|op ops IH]; [reflexivity | exact IH]. Qed.

Lemma obeys_paced_bind {A B} (m : Async A) (f : A -> Async B) :
  obeys well_paced m -> (forall a, obeys well_paced (f a)) -> obeys well_paced (bind m f).
Proof. apply obeys_bind, paced_app. Qed.

Lemma obeys_paced_try_catch {A} (m : Async A) (h : JsError -> Async A) :
  obeys well_paced m -> (forall e, obeys well_paced (h e)) ->
  obeys well_paced (try_catch m h).
Proof. apply obeys_try_catch, paced_app. Qed.

Lemma obeys_paced_silent {A} (m : Async A) :
  (forall w out w', m w = (out, w') -> trace w' = trace w) ->
  obeys well_paced m.
Proof. now apply obeys_silent. Qed.

(** The loop waits, looks, and starts again. *)
Lemma poll_looks fuel key op w out w' :
  poll fuel key op w = (out, w') ->
  exists ops, trace w' = trace w ++ looks key ops.
Proof.
  revert op w; induction fuel as [|f IH]; intros op w; cbn [poll];
    destruct (done op);
    try (intros [= <- <-]; exists []; cbn; now rewrite app_nil_r).
  unfold bind at 1. unfold setTimeout at 1. unfold bind at 1.
  destruct (getVideosOperation key op (record (CallSetTimeout 5000) w))
    as [[op'|e|] w1] eqn:E; apply getVideosOperation_trace in E;
    cbn [record trace] in E.
  - intros H. apply IH in H as (ops & Ht). exists (op :: ops).
    rewrite Ht, E, <- !app_assoc. reflexivity.
  - intros [= <- <-]. exists [op]. rewrite E, <- app_assoc. reflexivity.
  - intros [= <- <-]. exists [op]. rewrite E, <- app_assoc. reflexivity.
Qed.

Lemma obeys_paced_poll_all key op : obeys well_paced (poll_all key op).
Proof.
  intros w out w' E. unfold poll_all in E.
  apply poll_looks in E as (ops & Ht).
  exists (looks key ops). split; [exact Ht | apply paced_looks].
Qed.

Lemma obeys_paced_openSelectKey : obeys well_paced openSelectKey.
Proof.
  apply (obeys_call _ CallOpenSelectKey); [|reflexivity].
  intros w out w' E. now apply openSelectKey_shape in E.
Qed.

Lemma obeys_paced_attempt prompt referenceImageBase64 aspectRatio config
  fuel isRetry :
  obeys well_paced
    (GenerateVeoVideo.attempt prompt referenceImageBase64 aspectRatio config
       fuel isRetry).
Proof.
  revert isRetry; induction fuel as [|f IH]; intros isRetry;
    cbn [GenerateVeoVideo.attempt].
  { apply obeys_paced_silent. now intros w out w' [= <- <-]. }
  apply obeys_paced_bind.
  { unfold GenerateVeoVideo.resolve_key.
    apply obeys_paced_bind;
      [apply obeys_paced_silent; now intros w out w' [= <- <-]|].
    intros env. apply obeys_paced_bind;
      [apply obeys_paced_silent; now intros w out w' [= <- <-]|].
    intros studio. destruct (_ && _);
      [|apply obeys_paced_silent; now intros w out w' [= <- <-]].
    apply obeys_paced_bind; [apply obeys_paced_openSelectKey|]. intros _.
    apply obeys_paced_silent; now intros w out w' [= <- <-]. }
  intros key. destruct key as [[|c r]|];
    try (apply obeys_paced_silent; now intros w out w' [= <- <-]).
  apply obeys_paced_try_catch.
  - unfold GenerateVeoVideo.generation. apply obeys_paced_bind.
    { eapply obeys_call; [apply generateVideos_trace | reflexivity]. }
    intros op. apply obeys_paced_bind; [apply obeys_paced_poll_all|].
    intros fin. destruct (video_uri fin) as [[|c' r']|];
      try (apply obeys_paced_silent; now intros w out w' [= <- <-]).
    apply obeys_paced_bind.
    { eapply obeys_call; [apply fetch_trace | reflexivity]. }
    intros res. eapply obeys_call; [apply createObjectURL_trace | reflexivity].
  - intros e. apply obeys_paced_bind;
      [apply obeys_paced_silent; now intros w out w' [= <- <-]|].
    intros studio. destruct (_ && _);
      [|apply obeys_paced_silent; now intros w out w' [= <- <-]].
    apply obeys_paced_bind; [apply obeys_paced_openSelectKey|]. intros _.
    apply IH.
Qed.

(** X3: Whatever the services reply, every look [generateVeoVideo] takes at a
    job comes right after a wait of five seconds, and it waits at no other
    time. *)
Theorem generateVeoVideo_paced
  (prompt : text) (referenceImageBase64 : option text)
  (aspectRatio : AspectRatio) (config : option ModelConfig) (w : World) :
  exists calls,
    trace (snd (generateVeoVideo prompt referenceImageBase64 aspectRatio
                  config w))
    = trace w ++ calls
    /\ paced calls = true.
Proof.
  unfold generateVeoVideo, GenerateVeoVideo.run.
  destruct (GenerateVeoVideo.attempt prompt referenceImageBase64 aspectRatio
              config 2 false w) as [out w'] eqn:E.
  exact (obeys_paced_attempt _ _ _ _ _ _ _ _ _ E).
Qed.

(** X4: The loop looks at the job until a look reports it done, and gives that
    report; each look is handed the report of the look before. *)
Theorem poll_until_done
  (key : text) (operation finished : Operation) (pending : list Operation)
  (rest : list (Completion Operation)) (w : World) :
  unfinished operation ->
  Forall unfinished pending ->
  done finished = true ->
  getVideosOperation_replies w
  = map Returns pending ++ Returns finished :: rest ->
  exists w',
    poll_all key operation w = (Resolved finished, w')
    /\ trace w' = trace w ++ looks key (operation :: pending)
    /\ getVideosOperation_replies w' = rest.
Proof.
  unfold poll_all, unfinished. intros Hop Hpend Hfin Hr.
  assert (Hgen : forall fuel,
            (length pending < fuel)%nat ->
            exists w',
              poll fuel key operation w = (Resolved finished, w')
              /\ trace w' = trace w ++ looks key (operation :: pending)
              /\ getVideosOperation_replies w' = rest).
  { clear - Hop Hpend Hfin Hr.
    revert operation w Hop Hr.
    induction Hpend as [|op pending Hd Hpend IH];
      intros operation w Hop Hr [|fuel] Hlt; cbn [length] in Hlt; try lia;
      cbn [poll]; rewrite Hop; unfold bind at 1; unfold setTimeout at 1;
      unfold bind at 1; unfold getVideosOperation;
      cbn [record getVideosOperation_replies trace]; rewrite Hr;
      cbn [map app settle].
    - destruct fuel; cbn [poll]; rewrite Hfin; unfold ret;
        (eexists; split; [reflexivity|]); cbn [trace getVideosOperation_replies];
        rewrite <- app_assoc; split; reflexivity.
    - match goal with
      | |- context [poll fuel key op ?w1] =>
          destruct (IH op w1 Hd eq_refl fuel ltac:(lia)) as (w' & E & T & R)
      end.
      exists w'. rewrite E. split; [reflexivity|].
      rewrite T. cbn [trace looks flat_map]. rewrite <- !app_assoc.
      split; [reflexivity | exact R]. }
  apply Hgen. rewrite Hr, length_app, length_map. cbn [length]. lia.
Qed.

Lemma poll_until_done_witness :
  exists w',
    poll_all "AIza-env" {| done := false; video_uri := None |}
      download_refused
    = (Resolved {| done := true;
                   video_uri := Some (units "https://video.example/1?alt=media") |},
       w')
    /\ trace w'
       = trace download_refused
         ++ looks "AIza-env"
              [ {| done := false; video_uri := None |};
                {| done := false; video_uri := None |} ]
    /\ getVideosOperation_replies w' = [].
Proof.
  refine (poll_until_done "AIza-env" {| done := false; video_uri := None |}
            {| done := true;
               video_uri := Some (units "https://video.example/1?alt=media") |}
            [ {| done := false; video_uri := None |} ] [] download_refused
            eq_refl _ eq_refl eq_refl).
  repeat constructor.
Defined.

Section VeoOutcome.
Variables (prompt : text) (referenceImageBase64 : option text)
          (aspectRatio : AspectRatio) (config : option ModelConfig).

Local Abbreviation submission :=
  (GenerateVeoVideo.submission prompt referenceImageBase64 aspectRatio
     config).

Lemma veo_first_attempt key w w0 :
  GenerateVeoVideo.resolve_key config w = (Resolved (Some key), w0) ->
  truthy key = true ->
  generateVeoVideo prompt referenceImageBase64 aspectRatio config w
  = try_catch
      (GenerateVeoVideo.generation prompt referenceImageBase64 aspectRatio
         config key)
      (fun e =>
         studio <- window_aistudio ;;
         if negb false && isAuthError e && is_some studio then
           openSelectKey ;;
           GenerateVeoVideo.attempt prompt referenceImageBase64 aspectRatio
             config 1 true
         else throw e) w0.
Proof.
  intros Hk Ht. unfold generateVeoVideo, GenerateVeoVideo.run.
  cbn [GenerateVeoVideo.attempt]. unfold bind at 1. rewrite Hk.
  destruct key as [|c r]; [discriminate | reflexivity].
Qed.

(** X5: Once a finished job names a video, [generateVeoVideo] fetches its
    address with the key appended and gives the object URL made of the body of
    the response, whatever the status of that response is. *)
Theorem veo_download_unchecked
  (key uri : text) (w w0 w1 w2 : World) (operation finished : Operation)
  (res : Response) (rest : list (Completion Response)) (u : text)
  (urls : list text) :
  GenerateVeoVideo.resolve_key config w = (Resolved (Some key), w0) ->
  truthy key = true ->
  generateVideos key submission w0 = (Resolved operation, w1) ->
  poll_all key operation w1 = (Resolved finished, w2) ->
  video_uri finished = Some uri ->
  truthy uri = true ->
  fetch_replies w2 = Returns res :: rest ->
  createObjectURL_replies w2 = u :: urls ->
  exists w',
    generateVeoVideo prompt referenceImageBase64 aspectRatio config w
    = (Resolved u, w')
    /\ trace w'
       = trace w2
         ++ [CallFetch (download uri key); CallCreateObjectURL (res_body res)].
Proof.
  intros Hk Ht Hs Hp Hu Hut Hf Hc.
  rewrite (veo_first_attempt key w w0 Hk Ht).
  unfold try_catch, GenerateVeoVideo.generation.
  unfold bind at 1. rewrite Hs. unfold bind at 1. rewrite Hp. rewrite Hu.
  destruct uri as [|c r]; [discriminate|].
  unfold bind, fetch. cbn [record fetch_replies]. rewrite Hf. cbn [settle].
  unfold createObjectURL. cbn [record createObjectURL_replies]. rewrite Hc.
  eexists. split; [reflexivity|].
  cbn [trace]. unfold record. cbn [trace]. rewrite <- app_assoc. reflexivity.
Qed.

(** X6: A finished job that names no video makes [generateVeoVideo] fail with
    its own error: nothing is downloaded, and no other key is asked for. *)
Theorem veo_without_video
  (key : text) (w w0 w1 w2 : World) (operation finished : Operation) :
  GenerateVeoVideo.resolve_key config w = (Resolved (Some key), w0) ->
  truthy key = true ->
  generateVideos key submission w0 = (Resolved operation, w1) ->
  poll_all key operation w1 = (Resolved finished, w2) ->
  present (video_uri finished) = false ->
  generateVeoVideo prompt referenceImageBase64 aspectRatio config w
  = (Rejected (Error "Video generation failed or no URI returned."), w2).
Proof.
  intros Hk Ht Hs Hp Hu.
  rewrite (veo_first_attempt key w w0 Hk Ht).
  unfold try_catch, GenerateVeoVideo.generation.
  unfold bind at 1. rewrite Hs. unfold bind at 1. rewrite Hp.
  assert (Hno : isAuthError
                  (Error "Video generation failed or no URI returned.")
                = false) by (vm_compute; reflexivity).
  destruct (video_uri finished) as [[|c r]|]; try discriminate;
    unfold throw at 1; unfold bind, window_aistudio; cbn [negb andb];
    rewrite Hno; reflexivity.
Qed.
End VeoOutcome.

Lemma veo_download_unchecked_witness :
  exists w',
    generateVeoVideo "A fox tricks a crow" None Landscape None
      download_refused
    = (Resolved (units "blob:1"), w')
    /\ trace w'
       = trace (snd (poll_all "AIza-env" {| done := false; video_uri := None |}
                       (snd (generateVideos "AIza-env"
                               (GenerateVeoVideo.submission
                                  "A fox tricks a crow" None Landscape None)
                               download_refused))))
         ++ [ CallFetch (download "https://video.example/1?alt=media" "AIza-env");
              CallCreateObjectURL "{ error: forbidden }" ].
Proof.
  refine (veo_download_unchecked "A fox tricks a crow" None Landscape None
            "AIza-env" "https://video.example/1?alt=media"
            download_refused download_refused _ _
            {| done := false; video_uri := None |}
            {| done := true;
               video_uri := Some (units "https://video.example/1?alt=media") |}
            {| res_status := 403; res_body := "{ error: forbidden }" |} []
            "blob:1" [] _ _ _ _ _ _ _ _); vm_compute; reflexivity.
Defined.

Lemma veo_without_video_witness :
  generateVeoVideo "A fox tricks a crow" None Landscape None nothing_generated
  = (Rejected (Error "Video generation failed or no URI returned."),
     snd (generateVideos "AIza-env"
            (GenerateVeoVideo.submission "A fox tricks a crow" None Landscape
               None)
            nothing_generated)).
Proof.
  refine (veo_without_video "A fox tricks a crow" None Landscape None
            "AIza-env" nothing_generated nothing_generated _ _
            {| done := true; video_uri := None |}
            {| done := true; video_uri := None |} _ _ _ _ _);
    vm_compute; reflexivity.
Defined.

(** ** The structured operations *)

(** X7: On the primary provider, with no key in the configuration and none in
    the environment, [analyzeStory] and [polishStory] fail with the error of
    [getGoogleClient] and leave the world as it is: the model is not asked,
    the user is not asked for a key, and no [console.error] line is written.
    (The world keeps the lines of [console.error] only, so the line that each
    operation writes with [console.log] on entry is outside it.) *)
Theorem google_without_key_fails_at_once
  (d : Document) (storyText : text) (config : ModelConfig) (lang : Language)
  (w : World) :
  provider config = google ->
  truthy (apiKey config) = false ->
  present (env_API_KEY w (selections w)) = false ->
  operation_of d storyText config lang w
  = (Rejected (Error "Google API Key is missing"), w).
Proof.
  intros Hg Hk He. rewrite (operation_google _ _ _ _ Hg).
  destruct d; cbn [AnalyzeStoryGoogle.attempt PolishStory.attempt];
    unfold bind at 1; unfold getGoogleClient, bind, process_env_API_KEY;
    rewrite Hk; now destruct (env_API_KEY w (selections w)) as [[|c r]|].
Qed.

Lemma google_without_key_fails_at_once_witness :
  operation_of Analysis "A fox flatters a crow." google_without_key zh
    no_key_yet
  = (Rejected (Error "Google API Key is missing"), no_key_yet).
Proof.
  exact (google_without_key_fails_at_once Analysis "A fox flatters a crow."
           google_without_key zh no_key_yet eq_refl eq_refl eq_refl).
Defined.

(** What follows the request of a compatible provider calls nothing. *)
Lemma reading_is_silent (failed empty : JsError) (response : Response)
  w out w' :
  (if negb (ok response) then throw failed
   else
     data <- response_json response ;;
     content <- choice_content data ;;
     match content with
     | Some (c :: r) => safeJSONParse_async (c :: r)
     | _ => throw empty
     end) w = (out, w') ->
  trace w' = trace w /\ selections w' = selections w.
Proof.
  destruct (negb (ok response)); [now intros [= <- <-]|].
  unfold bind at 1. unfold response_json.
  destruct (JSON_parse (res_body response)) as [data|];
    [|now intros [= <- <-]].
  unfold ret at 1. unfold bind at 1.
  assert (Hc : forall o w1, choice_content data w = (o, w1) -> w1 = w).
  { unfold choice_content. intros o w1.
    destruct data; try (now intros [= <- <-]);
      destruct (chain _ _) as [[]|]; now intros [= <- <-]. }
  destruct (choice_content data w) as [[content|e|] w1] eqn:E;
    pose proof (Hc _ _ eq_refl); subst w1; try (now intros [= <- <-]).
  destruct content as [[|c r]|]; try (now intros [= <- <-]).
  intros H. apply safeJSONParse_async_shape in H as ((_ & _ & Hs & _) & Ht & _).
  split; assumption.
Qed.

Lemma fetch_selections r w out w' :
  fetch r w = (out, w') -> selections w' = selections w.
Proof.
  unfold fetch. destruct (fetch_replies _); intros H; injection H as _ <-;
    reflexivity.
Qed.

Lemma fetch_then_silent {A} (req : FetchRequest) (rest : Response -> Async A)
  (w : World) :
  (forall response w1 out w',
     rest response w1 = (out, w') ->
     trace w' = trace w1 /\ selections w' = selections w1) ->
  trace (snd (bind (fetch req) rest w)) = trace w ++ [CallFetch req]
  /\ selections (snd (bind (fetch req) rest w)) = selections w.
Proof.
  intros Hrest. unfold bind.
  destruct (fetch req w) as [[response|e|] w1] eqn:E;
    pose proof (fetch_trace _ _ _ _ E) as Ht;
    pose proof (fetch_selections _ _ _ _ E) as Hs;
    cbn [snd]; try (split; assumption).
  destruct (rest response w1) as [out w'] eqn:E2.
  apply Hrest in E2 as (Ht2 & Hs2). cbn [snd]. split; congruence.
Qed.

(** X8: On every other provider, [analyzeStory] and [polishStory] make one
    call and no more, whatever the reply: a request to the chat endpoint of
    the configuration whose user message is the story as it was given. They
    ask for no key. *)
Theorem compatible_asks_once
  (d : Document) (storyText : text) (config : ModelConfig) (lang : Language)
  (w : World) :
  provider config <> google ->
  exists instructions,
    trace (snd (operation_of d storyText config lang w))
    = trace w
      ++ [CallFetch
            (chat_request config
               [ message_json "system" instructions;
                 message_json "user" storyText ])]
    /\ selections (snd (operation_of d storyText config lang w))
       = selections w.
Proof.
  intros Hg. apply provider_not_google in Hg.
  destruct d; cbn [operation_of];
    unfold analyzeStory, polishStory, PolishStory.run; rewrite Hg;
    unfold analyzeStoryOpenAICompatible, PolishStory.compatible;
    eexists; apply fetch_then_silent; intros response w1 out w';
    apply reading_is_silent.
Qed.

Lemma compatible_asks_once_witness :
  exists instructions,
    trace (snd (operation_of Polish "A fox flatters a crow." openai_config en
                  server_error))
    = trace server_error
      ++ [CallFetch
            (chat_request openai_config
               [ message_json "system" instructions;
                 message_json "user" "A fox flatters a crow." ])]
    /\ selections (snd (operation_of Polish "A fox flatters a crow."
                          openai_config en server_error))
       = selections server_error.
Proof.
  refine (compatible_asks_once Polish "A fox flatters a crow." openai_config
            en server_error _).
  discriminate.
Defined.

(** ** Addresses and data URIs *)

Lemma strip_trailing_slashes_slashes n :
  strip_trailing_slashes (repeat (ch "/") n) = [].
Proof.
  induction n as [|n IH]; [reflexivity|].
  cbn [repeat strip_trailing_slashes]. rewrite IH. now rewrite N.eqb_refl.
Qed.

Lemma strip_trailing_slashes_app s n :
  strip_trailing_slashes (s ++ repeat (ch "/") n) = strip_trailing_slashes s.
Proof.
  induction s as [|c r IH]; [apply strip_trailing_slashes_slashes|].
  cbn [app strip_trailing_slashes]. now rewrite IH.
Qed.

Lemma strip_trailing_slashes_split s :
  exists n, s = strip_trailing_slashes s ++ repeat (ch "/") n.
Proof.
  induction s as [|c r (n & IH)]; [now exists 0%nat|].
  cbn [strip_trailing_slashes].
  destruct (strip_trailing_slashes r) as [|x t] eqn:E.
  - destruct (N.eqb_spec c (ch "/")) as [->|_].
    + exists (S n). cbn [app repeat]. now rewrite IH at 1.
    + exists n. cbn [app]. now rewrite IH at 1.
  - exists n. cbn [app]. now rewrite IH at 1.
Qed.

Lemma strip_trailing_slashes_end s :
  ~ ends_with_slash (strip_trailing_slashes s).
Proof.
  induction s as [|c r IH]; intros (front & H).
  - now destruct front.
  - cbn [strip_trailing_slashes] in H.
    destruct (strip_trailing_slashes r) as [|x t] eqn:E.
    + destruct (N.eqb_spec c (ch "/")) as [->|Hc].
      * now destruct front.
      * destruct front as [|a [|b front]]; try discriminate.
        injection H as ->. now elim Hc.
    + apply IH. destruct front as [|a front]; [discriminate|].
      injection H as _ H. now exists front.
Qed.

(** X9: [strip_trailing_slashes] takes the slashes off the end of an address
    and nothing else: what is left does not end with a slash, and an address
    gives the same result however many slashes are added at its end. *)
Theorem strip_trailing_slashes_exact (s : text) :
  (exists n, s = strip_trailing_slashes s ++ repeat (ch "/") n)
  /\ ~ ends_with_slash (strip_trailing_slashes s)
  /\ forall n,
       strip_trailing_slashes (s ++ repeat (ch "/") n)
       = strip_trailing_slashes s.
Proof.
  split; [apply strip_trailing_slashes_split|].
  split; [apply strip_trailing_slashes_end|].
  intros n. apply strip_trailing_slashes_app.
Qed.

Lemma after_subtype_word seen subtype payload :
  Forall (fun c => is_word_unit c = true) subtype ->
  (seen = true \/ subtype <> []) ->
  after_subtype seen (subtype ++ ";base64," ++ payload) = Some payload.
Proof.
  intros Hw. revert seen. induction Hw as [|c r Hc Hr IH]; intros seen Hs.
  - destruct Hs as [-> | H]; [|now elim H].
    cbn [app]. change (units ";base64," ++ payload)
      with (ch ";" :: (units "base64," ++ payload)).
    cbn [after_subtype].
    replace (is_word_unit (ch ";")) with false by (vm_compute; reflexivity).
    apply (strip_prefix_app ";base64," payload).
  - cbn [app after_subtype]. rewrite Hc. apply IH. now left.
Qed.

Lemma strip_data_uri_word subtype payload :
  word subtype ->
  strip_data_uri ("data:image/" ++ subtype ++ ";base64," ++ payload)
  = payload.
Proof.
  intros (Hne & Hw). unfold strip_data_uri.
  rewrite (strip_prefix_app "data:image/").
  rewrite (after_subtype_word false subtype payload Hw); [reflexivity|].
  now right.
Qed.

(** X10: [strip_data_uri] takes the head [data:image/<subtype>;base64,] off a
    data URI and leaves the payload; a text that does not start with
    [data:image/] is left as it is. *)
Theorem strip_data_uri_payload (subtype payload s : text) :
  (word subtype ->
   strip_data_uri ("data:image/" ++ subtype ++ ";base64," ++ payload)
   = payload)
  /\ (startsWith "data:image/" s = false -> strip_data_uri s = s).
Proof.
  split.
  - apply strip_data_uri_word.
  - intros H. unfold strip_data_uri.
    now rewrite (strip_prefix_startsWith _ _ H).
Qed.

Lemma strip_data_uri_payload_witness :
  strip_data_uri ("data:image/" ++ "jpeg" ++ ";base64," ++ "/9j/4AAQSkZJRg==")
  = units "/9j/4AAQSkZJRg=="
  /\ strip_data_uri "/9j/4AAQSkZJRg==" = units "/9j/4AAQSkZJRg==".
Proof.
  split.
  - refine (proj1 (strip_data_uri_payload "jpeg" "/9j/4AAQSkZJRg==" []) _).
    split; [discriminate | repeat constructor].
  - exact (proj2 (strip_data_uri_payload [] [] "/9j/4AAQSkZJRg==") eq_refl).
Defined.

(** X11: A reference image given as a data URI reaches the video model as its
    bare payload, and is declared as [image/png] whatever its subtype. *)
Theorem veo_reference_image (prompt subtype payload : text)
  (aspectRatio : AspectRatio) (config : option ModelConfig) :
  word subtype ->
  gv_image
    (GenerateVeoVideo.submission prompt
       (Some ("data:image/" ++ subtype ++ ";base64," ++ payload))
       aspectRatio config)
  = Some (payload, units "image/png").
Proof.
  intros Hw. unfold GenerateVeoVideo.submission. cbn [gv_image].
  rewrite <- (strip_data_uri_word subtype payload Hw) at 2.
  reflexivity.
Qed.

Lemma veo_reference_image_witness :
  gv_image
    (GenerateVeoVideo.submission "A fox tricks a crow"
       (Some ("data:image/" ++ "jpeg" ++ ";base64," ++ "/9j/4AAQ"))
       Landscape None)
  = Some (units "/9j/4AAQ", units "image/png").
Proof.
  refine (veo_reference_image "A fox tricks a crow" "jpeg" "/9j/4AAQ"
            Landscape None _).
  split; [discriminate | repeat constructor].
Defined.

(** ** The connection test *)

Lemma since_refl w : since w w = [].
Proof. unfold since. apply skipn_all. Qed.

Lemma lift_shape {A} (m : Async A) b out b' :
  lift m b = (out, b') ->
  m (world b) = (out, world b')
  /\ parts_replies b' = parts_replies b
  /\ generateImages_replies b' = generateImages_replies b
  /\ events b' = events b ++ map Earlier (since (world b) (world b')).
Proof.
  unfold lift. destruct (m (world b)) as [o w'].
  intros [= <- <-]. repeat split.
Qed.

(** A computation that leaves the world alone leaves the browser alone. *)
Lemma lift_silent {A} (m : Async A) b out w' :
  m (world b) = (out, w') -> w' = world b -> lift m b = (out, b).
Proof.
  intros E ->. unfold lift. rewrite E, since_refl. cbn [map].
  rewrite app_nil_r. now destruct b.
Qed.

Lemma lift_console ls b :
  lift (console_error_write ls) b
  = (Resolved tt,
     mkBrowser (snd (console_error_write ls (world b))) (parts_replies b)
       (generateImages_replies b) (events b)).
Proof.
  unfold lift, console_error_write. cbn [snd].
  unfold since. cbn [trace]. rewrite skipn_all. cbn [map].
  now rewrite app_nil_r.
Qed.

Lemma lift_fetch req b :
  lift (fetch req) b
  = (fst (fetch req (world b)),
     mkBrowser (snd (fetch req (world b))) (parts_replies b)
       (generateImages_replies b) (events b ++ [Earlier (CallFetch req)])).
Proof.
  unfold lift. destruct (fetch req (world b)) as [out w'] eqn:E.
  apply fetch_trace in E. rewrite (since_app _ _ _ E). reflexivity.
Qed.

Lemma lift_openSelectKey b :
  lift openSelectKey b
  = (fst (openSelectKey (world b)),
     mkBrowser (snd (openSelectKey (world b))) (parts_replies b)
       (generateImages_replies b) (events b ++ [Earlier CallOpenSelectKey])).
Proof.
  unfold lift. destruct (openSelectKey (world b)) as [out w'] eqn:E.
  apply openSelectKey_shape in E as (_ & E). rewrite (since_app _ _ _ E).
  reflexivity.
Qed.

Lemma lift_getGoogleClient key b :
  lift (getGoogleClient key) b = (fst (getGoogleClient key (world b)), b).
Proof.
  destruct (getGoogleClient key (world b)) as [out w'] eqn:E.
  pose proof (getGoogleClient_shape _ _ _ _ E) as (-> & _).
  now apply (lift_silent _ _ _ (world b)).
Qed.

Lemma lift_window_aistudio b :
  lift window_aistudio b = (Resolved (aistudio (world b)), b).
Proof. now apply (lift_silent _ _ _ (world b)). Qed.

Lemma lift_process_env b :
  lift process_env_API_KEY b
  = (Resolved (env_API_KEY (world b) (selections (world b))), b).
Proof. now apply (lift_silent _ _ _ (world b)). Qed.

Section ConnectionProofs.
Variable statusText : Response -> text.
Local Abbreviation test := (testModelConnection statusText).

(** What the [catch] of the test does. *)
Lemma test_caught e b :
  (io_bind
     (lift (console_error_write
              [[units "Connection Test Failed"; toString e]]))
     (fun _ => io_ret false)) b
  = (Resolved false,
     mkBrowser
       (snd (console_error_write [complaint "Connection Test Failed" e]
               (world b)))
       (parts_replies b) (generateImages_replies b) (events b)).
Proof. unfold io_bind. now rewrite lift_console. Qed.

Local Ltac caught e :=
  rewrite test_caught; intros [= <- <-]; cbn [fst snd world];
  unfold console_error_write; cbn [snd console_error]; exists e; reflexivity.

Lemma test_outcomes (config : ModelConfig) (b : Browser) :
  match fst (test config b) with
  | Resolved true =>
      console_error (world (snd (test config b))) = console_error (world b)
  | Resolved false =>
      exists e,
        console_error (world (snd (test config b)))
        = console_error (world b) ++ [complaint "Connection Test Failed" e]
  | Rejected _ => False
  | Pending => True
  end.
Proof.
  destruct (test config b) as [out b'] eqn:E. cbn [fst snd].
  revert E. unfold testModelConnection, io_try_catch.
  destruct (ProviderType_eqb (provider config) google).
  - unfold io_bind at 1. rewrite lift_getGoogleClient.
    destruct (fst (getGoogleClient (apiKey config) (world b))) as [ai|e|];
      [| caught e | now intros [= <- <-]].
    unfold io_bind at 1, generateContent_plain, next_parts.
    cbn [note parts_replies world generateImages_replies events].
    destruct (parts_replies b) as [|[parts|e] rest]; cbn [settle];
      [now intros [= <- <-] | now intros [= <- <-] | caught e].
  - cbv zeta. unfold io_bind at 1. rewrite lift_fetch.
    unfold fetch. cbn [record fetch_replies].
    destruct (fetch_replies (world b)) as [|[res|e] rest]; cbn [fst snd settle];
      [now intros [= <- <-] | | caught e].
    destruct (negb (ok res)).
    + unfold io_throw at 1. caught (Error (statusText res)).
    + now intros [= <- <-].
Qed.

(** X12: [testModelConnection] never rejects: what is thrown while the probe
    is made is caught, written to the console in one line, and answered with
    [false]; [true] is answered without a line. *)
Theorem testModelConnection_never_rejects (config : ModelConfig)
  (b : Browser) :
  match fst (test config b) with
  | Resolved true =>
      console_error (world (snd (test config b))) = console_error (world b)
  | Resolved false =>
      exists e,
        console_error (world (snd (test config b)))
        = console_error (world b) ++ [complaint "Connection Test Failed" e]
  | Rejected _ => False
  | Pending => True
  end.
Proof. apply test_outcomes. Qed.

(** X13: [handleTestConnection] has no [catch] and needs none: it never
    throws, and when it ends with a model to test, the modal is no longer
    marked as testing and shows a success or an error. *)
Theorem handleTestConnection_settles (m : Modal) :
  match fst (handleTestConnection statusText m) with
  | Resolved _ =>
      (draftModel m = None /\ snd (handleTestConnection statusText m) = m)
      \/ (isTesting (snd (handleTestConnection statusText m)) = false
          /\ testResult (snd (handleTestConnection statusText m)) <> TestNone)
  | Rejected _ => False
  | Pending => isTesting (snd (handleTestConnection statusText m)) = true
  end.
Proof.
  unfold handleTestConnection.
  destruct (draftModel m) as [draft|]; [|now left].
  pose proof (test_outcomes draft (modal_outside m)) as H.
  destruct (test draft (modal_outside m)) as [[[]|e|] b']; cbn [fst snd] in *;
    try (right; split; [reflexivity | discriminate]);
    [contradiction | reflexivity].
Qed.

(** X14: On a compatible provider the test makes one call, the probe of the
    chat endpoint, and answers [true] exactly when the reply is a response
    whose status is a success. *)
Theorem testModelConnection_compatible (config : ModelConfig) (b : Browser)
  (r : Completion Response) (rest : list (Completion Response)) :
  provider config <> google ->
  fetch_replies (world b) = r :: rest ->
  fst (test config b) = Resolved (passes ok r)
  /\ events (snd (test config b))
     = events b ++ [Earlier (CallFetch (probe config))].
Proof.
  intros Hg Hr. apply provider_not_google in Hg.
  destruct (test config b) as [out b'] eqn:E. cbn [fst snd].
  revert E. unfold testModelConnection, io_try_catch. rewrite Hg.
  cbv zeta. fold (probe config).
  unfold io_bind at 1. rewrite lift_fetch.
  unfold fetch. cbn [record fetch_replies]. rewrite Hr.
  destruct r as [res|e]; cbn [fst snd settle passes].
  - destruct (ok res); cbn [negb].
    + now intros [= <- <-].
    + unfold io_throw at 1. rewrite test_caught. now intros [= <- <-].
  - rewrite test_caught. now intros [= <- <-].
Qed.

(** X15: On the primary provider the test asks the model of the configuration,
    or [gemini-2.5-flash] when it names none, one question with the key
    [getGoogleClient] settles on, and answers [true] exactly when the model
    replies. *)
Theorem testModelConnection_google (config : ModelConfig) (b : Browser)
  (key : text) (r : Completion (option (list Part)))
  (rest : list (Completion (option (list Part)))) :
  provider config = google ->
  getGoogleClient (apiKey config) (world b) = (Resolved key, world b) ->
  parts_replies b = r :: rest ->
  fst (test config b) = Resolved (passes (fun _ => true) r)
  /\ events (snd (test config b))
     = events b
       ++ [CallGenerateContentPlain key
             (or_default (textModel config) "gemini-2.5-flash")
             "Hello, are you there?"].
Proof.
  intros Hg Hk Hr.
  destruct (test config b) as [out b'] eqn:E. cbn [fst snd].
  revert E. unfold testModelConnection, io_try_catch. rewrite Hg.
  cbn [ProviderType_eqb].
  unfold io_bind at 1. rewrite lift_getGoogleClient, Hk. cbn [fst].
  unfold io_bind at 1, generateContent_plain, next_parts.
  cbn [note parts_replies world generateImages_replies events]. rewrite Hr.
  destruct r as [parts|e]; cbn [settle passes].
  - now intros [= <- <-].
  - rewrite test_caught. now intros [= <- <-].
Qed.

(** X16: On the primary provider, with no key in the configuration and none in
    the environment, the test answers [false] and calls nothing. *)
Theorem testModelConnection_without_key (config : ModelConfig) (b : Browser) :
  provider config = google ->
  truthy (apiKey config) = false ->
  present (env_API_KEY (world b) (selections (world b))) = false ->
  fst (test config b) = Resolved false
  /\ events (snd (test config b)) = events b
  /\ console_error (world (snd (test config b)))
     = console_error (world b)
       ++ [complaint "Connection Test Failed"
             (Error "Google API Key is missing")].
Proof.
  intros Hg Hk He.
  destruct (test config b) as [out b'] eqn:E. cbn [fst snd].
  revert E. unfold testModelConnection, io_try_catch. rewrite Hg.
  cbn [ProviderType_eqb].
  unfold io_bind at 1. rewrite lift_getGoogleClient.
  unfold getGoogleClient, bind, process_env_API_KEY. rewrite Hk.
  destruct (env_API_KEY (world b) (selections (world b))) as [[|c t]|];
    try discriminate; cbn [fst throw]; rewrite test_caught;
    now intros [= <- <-].
Qed.
End ConnectionProofs.

Lemma testModelConnection_compatible_witness :
  fst (testModelConnection reason_phrase openai_config
         (browser (with_fetch
                     [Returns {| res_status := 401; res_body := "{}" |}] idle)
            [] []))
  = Resolved false
  /\ events (snd (testModelConnection reason_phrase openai_config
                    (browser (with_fetch
                                [Returns {| res_status := 401;
                                            res_body := "{}" |}] idle)
                       [] [])))
     = [] ++ [Earlier (CallFetch (probe openai_config))].
Proof.
  refine (testModelConnection_compatible reason_phrase openai_config
            (browser (with_fetch
                        [Returns {| res_status := 401; res_body := "{}" |}]
                        idle) [] [])
            (Returns {| res_status := 401; res_body := "{}" |}) [] _ eq_refl).
  discriminate.
Defined.

Lemma testModelConnection_google_witness :
  fst (testModelConnection reason_phrase google_config
         (browser idle [Throws (Error "API key not valid")] []))
  = Resolved false
  /\ events (snd (testModelConnection reason_phrase google_config
                    (browser idle [Throws (Error "API key not valid")] [])))
     = [] ++ [CallGenerateContentPlain "AIza-test" "gemini-2.5-flash"
                "Hello, are you there?"].
Proof.
  exact (testModelConnection_google reason_phrase google_config
           (browser idle [Throws (Error "API key not valid")] [])
           "AIza-test" (Throws (Error "API key not valid")) []
           eq_refl eq_refl eq_refl).
Defined.

Lemma testModelConnection_without_key_witness :
  fst (testModelConnection reason_phrase google_without_key
         (browser no_key_yet [Returns None] []))
  = Resolved false
  /\ events (snd (testModelConnection reason_phrase google_without_key
                    (browser no_key_yet [Returns None] [])))
     = []
  /\ console_error
       (world (snd (testModelConnection reason_phrase google_without_key
                      (browser no_key_yet [Returns None] []))))
     = [] ++ [complaint "Connection Test Failed"
                (Error "Google API Key is missing")].
Proof.
  exact (testModelConnection_without_key reason_phrase google_without_key
           (browser no_key_yet [Returns None] []) eq_refl eq_refl eq_refl).
Defined.

(** ** The prompt of an image *)

Lemma trimStart_blank n : forallb is_space n = true -> trimStart n = [].
Proof.
  induction n as [|c r IH]; [reflexivity|]. cbn [forallb trimStart].
  intros H. apply andb_true_iff in H as [-> H]. now apply IH.
Qed.

Lemma trim_solid n : forallb is_space n = false -> truthy (trim n) = true.
Proof.
  unfold trim. induction n as [|c r IH]; [discriminate|].
  cbn [forallb trimStart]. destruct (is_space c) eqn:Hc; cbn [andb].
  - exact IH.
  - intros _. cbn [trimEnd]. rewrite Hc. now destruct (trimEnd r).
Qed.

Lemma spaces_forallb n : spaces n <-> forallb is_space n = true.
Proof.
  unfold spaces. rewrite forallb_forall, Forall_forall. reflexivity.
Qed.

(** X17: A negative prompt that is empty or all white space leaves the prompt
    as it is without one; any other is written into the prompt as it was
    given, white space at its ends included. *)
Theorem promptText_negative (description context n : text) :
  (spaces n ->
   GenerateAssetImage.promptText description context (Some n)
   = plain_prompt description context)
  /\ (~ spaces n ->
      GenerateAssetImage.promptText description context (Some n)
      = plain_prompt description context
        ++ " Ensure the image does not contain: " ++ n ++ ".").
Proof.
  unfold plain_prompt, GenerateAssetImage.promptText.
  rewrite !app_nil_r. split; intros H.
  - apply spaces_forallb in H. unfold trim. rewrite (trimStart_blank _ H).
    cbn [trimEnd truthy]. now rewrite andb_false_r, app_nil_r.
  - destruct (forallb is_space n) eqn:E; [now apply spaces_forallb in E|].
    rewrite (trim_solid _ E). destruct n as [|c r]; [discriminate|].
    cbn [truthy andb]. now rewrite <- !app_assoc.
Qed.

Lemma promptText_negative_witness :
  GenerateAssetImage.promptText "A red fox" "A fable" (Some (units "  "))
  = plain_prompt "A red fox" "A fable"
  /\ GenerateAssetImage.promptText "A red fox" "A fable"
       (Some (units " text, watermark"))
     = plain_prompt "A red fox" "A fable"
       ++ " Ensure the image does not contain: " ++ " text, watermark" ++ ".".
Proof.
  split.
  - refine (proj1 (promptText_negative "A red fox" "A fable" "  ") _).
    repeat constructor.
  - refine (proj2 (promptText_negative "A red fox" "A fable"
                     " text, watermark") _).
    intros H. apply spaces_forallb in H. discriminate H.
Defined.

(** ** Bounds on the calls of the image operation *)

Lemma tally_app kind a b :
  tally kind (a ++ b) = (tally kind a + tally kind b)%nat.
Proof. unfold tally. now rewrite filter_app, length_app. Qed.

Lemma io_within_le {A} kind n n' (m : IO A) :
  io_within kind n m -> (n <= n')%nat -> io_within kind n' m.
Proof.
  intros H Hle b out b' E. destruct (H _ _ _ E) as (evs & Ht & Hc).
  exists evs. split; [exact Ht | lia].
Qed.

Lemma io_within_silent {A} kind (m : IO A) :
  (forall b out b', m b = (out, b') -> events b' = events b) ->
  io_within kind 0 m.
Proof.
  intros H b out b' E. exists []. rewrite app_nil_r.
  split; [eauto | cbn; lia].
Qed.

Lemma io_within_event {A} kind (e : Event) (m : IO A) :
  (forall b out b', m b = (out, b') -> events b' = events b ++ [e]) ->
  io_within kind (if kind e then 1 else 0) m.
Proof.
  intros H b out b' E. exists [e]. split; [eauto|].
  unfold tally. cbn. destruct (kind e); cbn; lia.
Qed.

Lemma io_within_bind {A B} kind n k (m : IO A) (f : A -> IO B) :
  io_within kind n m -> (forall a, io_within kind k (f a)) ->
  io_within kind (n + k) (io_bind m f).
Proof.
  intros Hm Hf b out b'. unfold io_bind.
  destruct (m b) as [[a|e|] b1] eqn:E; destruct (Hm _ _ _ E) as (c1 & T1 & C1).
  - intros E2. destruct (Hf a _ _ _ E2) as (c2 & T2 & C2).
    exists (c1 ++ c2). rewrite T2, T1, app_assoc, tally_app.
    split; [reflexivity | lia].
  - intros [= <- <-]. exists c1. split; [exact T1 | lia].
  - intros [= <- <-]. exists c1. split; [exact T1 | lia].
Qed.

Lemma io_within_try_catch {A} kind n k (m : IO A) (h : JsError -> IO A) :
  io_within kind n m -> (forall e, io_within kind k (h e)) ->
  io_within kind (n + k) (io_try_catch m h).
Proof.
  intros Hm Hh b out b'. unfold io_try_catch.
  destruct (m b) as [[a|e|] b1] eqn:E; destruct (Hm _ _ _ E) as (c1 & T1 & C1).
  - intros [= <- <-]. exists c1. split; [exact T1 | lia].
  - intros E2. destruct (Hh e _ _ _ E2) as (c2 & T2 & C2).
    exists (c1 ++ c2). rewrite T2, T1, app_assoc, tally_app.
    split; [reflexivity | lia].
  - intros [= <- <-]. exists c1. split; [exact T1 | lia].
Qed.

Lemma io_within_if {A} kind n k (c : bool) (a b : IO A) :
  io_within kind n a -> io_within kind k b ->
  io_within kind (Nat.max n k) (if c then a else b).
Proof.
  intros Ha Hb. destruct c; eapply io_within_le; eauto; lia.
Qed.

Lemma io_within_ret {A} kind (a : A) : io_within kind 0 (io_ret a).
Proof. apply io_within_silent. now intros b out b' [= <- <-]. Qed.

Lemma io_within_throw {A} kind e : io_within kind 0 (@io_throw A e).
Proof. apply io_within_silent. now intros b out b' [= <- <-]. Qed.

Lemma io_within_lift_silent {A} kind (m : Async A) :
  (forall w out w', m w = (out, w') -> trace w' = trace w) ->
  io_within kind 0 (lift m).
Proof.
  intros H. apply io_within_silent. intros b out b' E.
  apply lift_shape in E as (E & _ & _ & ->).
  apply H in E. unfold since. rewrite E, skipn_all. apply app_nil_r.
Qed.

Lemma io_within_getGoogleClient kind key :
  io_within kind 0 (lift (getGoogleClient key)).
Proof.
  apply io_within_lift_silent. intros w out w' E.
  now destruct (getGoogleClient_shape _ _ _ _ E) as (-> & _).
Qed.

Lemma io_within_console kind ls :
  io_within kind 0 (lift (console_error_write ls)).
Proof. apply io_within_lift_silent. now intros w out w' [= <- <-]. Qed.

Lemma io_within_window_aistudio kind :
  io_within kind 0 (lift window_aistudio).
Proof. apply io_within_lift_silent. now intros w out w' [= <- <-]. Qed.

Lemma io_within_process_env kind :
  io_within kind 0 (lift process_env_API_KEY).
Proof. apply io_within_lift_silent. now intros w out w' [= <- <-]. Qed.

Lemma io_within_openSelectKey kind :
  io_within kind (if kind (Earlier CallOpenSelectKey) then 1 else 0)
    (lift openSelectKey).
Proof.
  apply io_within_event. intros b out b'. rewrite lift_openSelectKey.
  now intros [= <- <-].
Qed.

Lemma io_within_fetch kind req :
  io_within kind (if kind (Earlier (CallFetch req)) then 1 else 0)
    (lift (fetch req)).
Proof.
  apply io_within_event. intros b out b'. rewrite lift_fetch.
  now intros [= <- <-].
Qed.

Lemma generateContent_parts_events key model prompt safety b out b' :
  generateContent_parts key model prompt safety b = (out, b') ->
  events b' = events b ++ [CallGenerateContentParts key model prompt safety]
  /\ world b' = world b.
Proof.
  unfold generateContent_parts, next_parts.
  cbn [note parts_replies world generateImages_replies events].
  destruct (parts_replies b); intros H; injection H as _ <-; now split.
Qed.

Lemma generateImages_events key model prompt n mime ratio b out b' :
  generateImages key model prompt n mime ratio b = (out, b') ->
  events b' = events b ++ [CallGenerateImages key model prompt n mime ratio]
  /\ world b' = world b.
Proof.
  unfold generateImages.
  cbn [note parts_replies world generateImages_replies events].
  destruct (generateImages_replies b); intros H; injection H as _ <-;
    now split.
Qed.

Section ImageBounds.
Variables (description context : text) (negativePrompt : option text)
          (config : ModelConfig).
Variable kind : Event -> bool.
Variables ask select post : nat.
Hypothesis kind_parts :
  forall k m p s,
    ((if kind (CallGenerateContentParts k m p s) then 1 else 0) <= ask)%nat.
Hypothesis kind_images :
  forall k m p n o a,
    ((if kind (CallGenerateImages k m p n o a) then 1 else 0) <= ask)%nat.
Hypothesis kind_select :
  ((if kind (Earlier CallOpenSelectKey) then 1 else 0) <= select)%nat.
Hypothesis kind_post :
  forall r, ((if kind (Earlier (CallFetch r)) then 1 else 0) <= post)%nat.

Local Abbreviation generation :=
  (GenerateAssetImage.generation description context negativePrompt config).
Local Abbreviation attempt :=
  (GenerateAssetImage.attempt description context negativePrompt config).
Local Abbreviation attemptFallback :=
  (GenerateAssetImage.attemptFallback description context negativePrompt).

Lemma io_within_generation ai : io_within kind ask (generation ai).
Proof.
  unfold GenerateAssetImage.generation.
  destruct (includes _ _).
  - eapply io_within_le; [apply io_within_bind|].
    + eapply io_within_le; [|apply kind_images].
      apply io_within_event. intros b out b' E.
      apply generateImages_events in E as [E _]; exact E.
    + intros b64. destruct b64 as [[|c r]|];
        first [apply io_within_ret | apply io_within_throw].
    + lia.
  - eapply io_within_le; [apply io_within_bind|].
    + eapply io_within_le; [|apply kind_parts].
      apply io_within_event. intros b out b' E.
      apply generateContent_parts_events in E as [E _]; exact E.
    + intros parts. destruct parts as [parts|]; [|apply io_within_throw].
      destruct (inline_image parts); [apply io_within_ret|].
      destruct (truthy _); apply io_within_throw.
    + lia.
Qed.

Lemma io_within_attempt_last : io_within kind ask (attempt 1 true).
Proof.
  cbn [GenerateAssetImage.attempt].
  eapply io_within_le; [apply io_within_bind;
                        [apply io_within_getGoogleClient|] | ].
  - intros ai. apply io_within_try_catch; [apply io_within_generation|].
    intros e. apply io_within_bind; [apply io_within_window_aistudio|].
    intros studio. cbn [negb andb].
    apply io_within_bind; [apply io_within_console|]. intros _.
    apply io_within_throw.
  - lia.
Qed.

Lemma io_within_attempt :
  io_within kind (ask + (select + ask)) (attempt 2 false).
Proof.
  cbn [GenerateAssetImage.attempt].
  eapply io_within_le; [apply io_within_bind;
                        [apply io_within_getGoogleClient|] | ].
  - intros ai. apply io_within_try_catch; [apply io_within_generation|].
    intros e. apply io_within_bind; [apply io_within_window_aistudio|].
    intros studio. apply io_within_if.
    + apply io_within_bind; [|intros _; apply io_within_attempt_last].
      eapply io_within_le; [apply io_within_openSelectKey | apply kind_select].
    + apply io_within_bind; [apply io_within_console|]. intros _.
      apply io_within_throw.
  - lia.
Qed.

Lemma io_within_fallback_request key :
  io_within kind ask
    (io_bind
       (generateContent_parts key "gemini-2.5-flash-image"
          (GenerateAssetImage.promptText description context negativePrompt)
          SAFETY_SETTINGS)
       (fun parts =>
          match match parts with
                | Some parts => inline_image parts
                | None => None
                end with
          | Some uri => io_ret uri
          | None => io_throw (Error "Fallback produced no image")
          end)).
Proof.
  eapply io_within_le; [apply io_within_bind|].
  - eapply io_within_le; [|apply kind_parts].
    apply io_within_event. intros b out b' E.
    apply generateContent_parts_events in E as [E _]; exact E.
  - intros parts. destruct (match parts with Some _ => _ | None => _ end);
      first [apply io_within_ret | apply io_within_throw].
  - lia.
Qed.

Lemma io_within_attemptFallback_last :
  io_within kind ask (attemptFallback 1 true).
Proof.
  cbn [GenerateAssetImage.attemptFallback].
  eapply io_within_le; [apply io_within_bind;
                        [apply io_within_process_env|] | ].
  - intros key. apply io_within_try_catch;
      [apply io_within_fallback_request|].
    intros e. apply io_within_bind; [apply io_within_window_aistudio|].
    intros studio. cbn [negb andb].
    apply io_within_bind; [apply io_within_console|]. intros _.
    apply io_within_throw.
  - lia.
Qed.

Lemma io_within_attemptFallback :
  io_within kind (ask + (select + ask)) (attemptFallback 2 false).
Proof.
  cbn [GenerateAssetImage.attemptFallback].
  eapply io_within_le; [apply io_within_bind;
                        [apply io_within_process_env|] | ].
  - intros key. apply io_within_try_catch;
      [apply io_within_fallback_request|].
    intros e. apply io_within_bind; [apply io_within_window_aistudio|].
    intros studio. apply io_within_if.
    + apply io_within_bind; [|intros _; apply io_within_attemptFallback_last].
      eapply io_within_le; [apply io_within_openSelectKey | apply kind_select].
    + apply io_within_bind; [apply io_within_console|]. intros _.
      apply io_within_throw.
  - lia.
Qed.

Lemma io_within_openai :
  io_within kind post
    (GenerateAssetImage.openai description context negativePrompt config).
Proof.
  unfold GenerateAssetImage.openai.
  eapply io_within_le; [apply io_within_bind|].
  - eapply io_within_le; [apply io_within_fetch | apply kind_post].
  - intros res. destruct (negb (ok res)); [apply io_within_throw|].
    eapply io_within_le; [apply io_within_bind|].
    + apply io_within_lift_silent. intros w out w'.
      unfold response_json. destruct (JSON_parse _); now intros [= <- <-].
    + intros data. apply io_within_bind.
      * apply io_within_lift_silent. intros w out w'.
        unfold GenerateAssetImage.b64_json.
        destruct data; now intros [= <- <-].
      * intros b64. destruct b64 as [v|]; [|apply io_within_throw].
        destruct (json_truthy v);
          first [apply io_within_ret | apply io_within_throw].
    + apply Nat.le_refl.
  - lia.
Qed.

Lemma io_within_generateAssetImage :
  io_within kind (Nat.max (ask + (select + ask)) post)
    (generateAssetImage description context negativePrompt config).
Proof.
  unfold generateAssetImage, GenerateAssetImage.run.
  destruct (ProviderType_eqb (provider config) google).
  { eapply io_within_le; [apply io_within_attempt | lia]. }
  destruct (GenerateAssetImage.openai_images config).
  { eapply io_within_le; [apply io_within_openai | lia]. }
  eapply io_within_le; [apply io_within_bind;
                        [apply io_within_process_env|] | ].
  - intros env. apply io_within_if;
      [apply io_within_attemptFallback | apply io_within_throw].
  - lia.
Qed.
End ImageBounds.

(** X18: Whatever the services reply, [generateAssetImage] asks a model for
    the image at most twice and the user for a key at most once, and makes at
    most one request over HTTP. *)
Theorem generateAssetImage_bounded
  (description context : text) (negativePrompt : option text)
  (config : ModelConfig) (b : Browser) :
  exists evs,
    events (snd (generateAssetImage description context negativePrompt
                   config b))
    = events b ++ evs
    /\ (tally is_image_request evs <= 2)%nat
    /\ (tally is_key_selection evs <= 1)%nat
    /\ (tally is_http evs <= 1)%nat.
Proof.
  destruct (generateAssetImage description context negativePrompt config b)
    as [out b'] eqn:E. cbn [snd].
  destruct (io_within_generateAssetImage description context negativePrompt
              config is_image_request 1 0 0
              (fun _ _ _ _ => Nat.le_refl _)
              (fun _ _ _ _ _ _ => Nat.le_refl _) (Nat.le_refl _)
              (fun _ => Nat.le_refl _) _ _ _ E) as (c1 & T1 & C1).
  destruct (io_within_generateAssetImage description context negativePrompt
              config is_key_selection 0 1 0
              (fun _ _ _ _ => Nat.le_refl _)
              (fun _ _ _ _ _ _ => Nat.le_refl _) (Nat.le_refl _)
              (fun _ => Nat.le_refl _) _ _ _ E) as (c2 & T2 & C2).
  destruct (io_within_generateAssetImage description context negativePrompt
              config is_http 0 0 1
              (fun _ _ _ _ => Nat.le_refl _)
              (fun _ _ _ _ _ _ => Nat.le_refl _) (Nat.le_refl _)
              (fun _ => Nat.le_refl _) _ _ _ E) as (c3 & T3 & C3).
  assert (c2 = c1) as -> by (rewrite T1 in T2; now apply app_inv_head in T2).
  assert (c3 = c1) as -> by (rewrite T1 in T3; now apply app_inv_head in T3).
  exists c1. cbn in C1, C2, C3. repeat split; assumption.
Qed.

(** ** The branches of the image operation *)

Section ImagePaths.
Variables (description context : text) (negativePrompt : option text)
          (config : ModelConfig).

Local Abbreviation generate :=
  (generateAssetImage description context negativePrompt config).
Local Abbreviation promptText :=
  (GenerateAssetImage.promptText description context negativePrompt).
Local Abbreviation modelName := (GenerateAssetImage.modelName config).
Local Abbreviation generation :=
  (GenerateAssetImage.generation description context negativePrompt config).

(** X19: A provider without image generation of its own and no ambient key:
    [generateAssetImage] fails at once and calls nothing. *)
Theorem generateAssetImage_unsupported (b : Browser) :
  provider config <> google ->
  GenerateAssetImage.openai_images config = false ->
  present (env_API_KEY (world b) (selections (world b))) = false ->
  generate b
  = (Rejected (Error "Selected provider does not support image generation and no fallback Google key available."),
     b).
Proof.
  intros Hg Ho He. apply provider_not_google in Hg.
  unfold generateAssetImage, GenerateAssetImage.run. rewrite Hg, Ho.
  unfold io_bind. rewrite lift_process_env, He. reflexivity.
Qed.

(** What the [catch] of the fallback does when it does not try again. *)
Lemma fallback_gives_up (isRetry : bool) e b :
  negb isRetry && isAuthError e && is_some (aistudio (world b)) = false ->
  exists b',
    io_bind (lift window_aistudio)
      (fun studio =>
         if negb isRetry && isAuthError e && is_some studio then
           io_bind (lift openSelectKey)
             (fun _ => GenerateAssetImage.attemptFallback description
                         context negativePrompt 1 true)
         else
           io_bind
             (lift (console_error_write
                      [[units "Fallback generation failed:"; toString e]]))
             (fun _ => io_throw e)) b
    = (Rejected e, b')
    /\ events b' = events b.
Proof.
  intros H. unfold io_bind at 1. rewrite lift_window_aistudio, H.
  unfold io_bind. rewrite lift_console. eexists. split; reflexivity.
Qed.

(** X20: A provider without image generation of its own, with an ambient key:
    [generateAssetImage] asks [gemini-2.5-flash-image] with the ambient key -
    the key, the model and the address of the configuration are not used -
    and, unless it tries again with another key, gives the image of the reply,
    or fails with the error of the model as it was thrown. *)
Theorem generateAssetImage_fallback (b : Browser) (key : text)
  (r : Completion (option (list Part)))
  (rest : list (Completion (option (list Part)))) :
  provider config <> google ->
  GenerateAssetImage.openai_images config = false ->
  env_API_KEY (world b) (selections (world b)) = Some key ->
  truthy key = true ->
  parts_replies b = r :: rest ->
  (forall e, r = Throws e ->
             isAuthError e && is_some (aistudio (world b)) = false) ->
  fst (generate b) = fallback_outcome r
  /\ events (snd (generate b))
     = events b
       ++ [CallGenerateContentParts (Some key) "gemini-2.5-flash-image"
             promptText SAFETY_SETTINGS].
Proof.
  intros Hg Ho He Hk Hr Hno. apply provider_not_google in Hg.
  destruct (generate b) as [out b'] eqn:E. cbn [fst snd]. revert E.
  unfold generateAssetImage, GenerateAssetImage.run. rewrite Hg, Ho.
  unfold io_bind at 1. rewrite lift_process_env, He.
  rewrite (truthy_present _ Hk).
  cbn [GenerateAssetImage.attemptFallback].
  unfold io_bind at 1. rewrite lift_process_env, He.
  unfold io_try_catch. unfold io_bind at 1.
  unfold generateContent_parts, next_parts.
  cbn [note parts_replies world generateImages_replies events]. rewrite Hr.
  set (b1 := mkBrowser _ _ _ _).
  destruct r as [[parts|]|e]; cbn [settle fallback_outcome].
  - destruct (inline_image parts) as [uri|].
    + now intros [= <- <-].
    + unfold io_throw at 1. intros E.
      destruct (fallback_gives_up false (Error "Fallback produced no image")
                  b1 eq_refl) as (b2 & E2 & He').
      pose proof (eq_trans (eq_sym E) E2) as E3. injection E3 as -> ->.
      now split.
  - unfold io_throw at 1. intros E.
    destruct (fallback_gives_up false (Error "Fallback produced no image")
                b1 eq_refl) as (b2 & E2 & He').
    pose proof (eq_trans (eq_sym E) E2) as E3. injection E3 as -> ->.
    now split.
  - intros E.
    destruct (fallback_gives_up false e b1 (Hno e eq_refl))
      as (b2 & E2 & He').
    pose proof (eq_trans (eq_sym E) E2) as E3. injection E3 as -> ->.
    now split.
Qed.
End ImagePaths.

Section GoogleImages.
Variables (description context : text) (negativePrompt : option text)
          (config : ModelConfig).

Local Abbreviation generate :=
  (generateAssetImage description context negativePrompt config).
Local Abbreviation promptText :=
  (GenerateAssetImage.promptText description context negativePrompt).
Local Abbreviation modelName := (GenerateAssetImage.modelName config).
Local Abbreviation generation :=
  (GenerateAssetImage.generation description context negativePrompt config).
Local Abbreviation attempt :=
  (GenerateAssetImage.attempt description context negativePrompt config).
Local Abbreviation throws :=
  (image_request_throws description context negativePrompt config).

(** Asking for the image leaves the world of the other operations alone. *)
Lemma generation_world ai b out b' :
  generation ai b = (out, b') -> world b' = world b.
Proof.
  unfold GenerateAssetImage.generation.
  destruct (includes _ _); unfold io_bind.
  - destruct (generateImages _ _ _ _ _ _ b) as [[b64|e|] b1] eqn:E;
      apply generateImages_events in E as (_ & E);
      [|now intros [= <- <-]..].
    destruct b64 as [[|c r]|]; now intros [= <- <-].
  - destruct (generateContent_parts _ _ _ _ b) as [[parts|e|] b1] eqn:E;
      apply generateContent_parts_events in E as (_ & E);
      [|now intros [= <- <-]..].
    destruct parts as [parts|]; [|now intros [= <- <-]].
    destruct (inline_image parts); [now intros [= <- <-]|].
    destruct (truthy _); now intros [= <- <-].
Qed.

Lemma getGoogleClient_rejects key w e w' :
  getGoogleClient key w = (Rejected e, w') ->
  e = Error "Google API Key is missing".
Proof.
  unfold getGoogleClient, bind, process_env_API_KEY.
  destruct (if truthy key then _ else _) as [[|c r]|];
    now intros [= <- <-].
Qed.

Lemma openSelectKey_rejects w e w' :
  openSelectKey w = (Rejected e, w') ->
  In (Throws e) (openSelectKey_replies w).
Proof.
  unfold openSelectKey. cbn [record openSelectKey_replies].
  destruct (openSelectKey_replies w) as [|[[]|e'] rest]; try discriminate.
  cbn [settle]. intros [= <- <-]. now left.
Qed.

(** What the [catch] of the Google branch does when it does not try
    again. *)
Lemma wrapped_gives_up e b :
  io_bind
    (lift (console_error_write
             [[units "[ImageGen] Google Error:"; toString e]]))
    (fun _ =>
       @io_throw text (Error ("Image Generation Failed: " ++ message_text e)))
    b
  = (Rejected (Error ("Image Generation Failed: " ++ message_text e)),
     mkBrowser
       (snd (console_error_write
               [[units "[ImageGen] Google Error:"; toString e]] (world b)))
       (parts_replies b) (generateImages_replies b) (events b)).
Proof. unfold io_bind. now rewrite lift_console. Qed.

Lemma getGoogleClient_resolves key w ai w' :
  getGoogleClient key w = (Resolved ai, w') ->
  getGoogleClient key w = (Resolved ai, w).
Proof.
  intros H. pose proof (getGoogleClient_shape _ _ _ _ H) as (-> & _).
  exact H.
Qed.

Lemma attempt_last_rejects b e b' :
  attempt 1 true b = (Rejected e, b') ->
  (exists cause b1, throws b cause b1 /\ wrapped_error cause e)
  \/ e = Error "Google API Key is missing".
Proof.
  cbn [GenerateAssetImage.attempt]. unfold io_bind at 1.
  rewrite lift_getGoogleClient.
  destruct (getGoogleClient (apiKey config) (world b)) as [[ai|e0|] w1] eqn:Ek;
    cbn [fst]; [| |discriminate].
  - unfold io_try_catch.
    destruct (generation ai b) as [[uri|e0|] b1] eqn:Eg; try discriminate.
    unfold io_bind at 1. rewrite lift_window_aistudio. cbn [negb andb].
    rewrite wrapped_gives_up. intros [= <- <-]. left.
    exists e0, b1. split; [|reflexivity].
    exists ai. split; [exact (getGoogleClient_resolves _ _ _ _ Ek) | exact Eg].
  - intros [= <- <-]. right. now apply getGoogleClient_rejects in Ek.
Qed.

(** X21: On the primary provider, an error of [generateAssetImage] is a new
    error whose message is [Image Generation Failed: ] followed by the message
    of what the image request threw - in the only attempt, or, when that was
    an error of the key and a key could be selected, in the second attempt,
    made after the selection - unless the key is missing or the selection of a
    key fails, whose errors pass as they are. *)
Theorem generateAssetImage_wraps_errors (b b' : Browser) (e : JsError) :
  provider config = google ->
  generate b = (Rejected e, b') ->
  (exists cause b1,
      throws b cause b1
      /\ (((isAuthError cause && is_some (aistudio (world b))) = false
           /\ wrapped_error cause e)
          \/ ((isAuthError cause && is_some (aistudio (world b))) = true
              /\ exists b2 cause2 b3,
                  lift openSelectKey b1 = (Resolved tt, b2)
                  /\ throws b2 cause2 b3
                  /\ wrapped_error cause2 e)))
  \/ e = Error "Google API Key is missing"
  \/ In (Throws e) (openSelectKey_replies (world b)).
Proof.
  intros Hg. unfold generateAssetImage, GenerateAssetImage.run. rewrite Hg.
  cbn [ProviderType_eqb].
  assert (Hunfold : attempt 2 false
    = io_bind (lift (getGoogleClient (apiKey config)))
        (fun ai =>
           io_try_catch (generation ai)
             (fun e =>
                io_bind (lift window_aistudio)
                  (fun studio =>
                     if negb false && isAuthError e && is_some studio then
                       io_bind (lift openSelectKey)
                         (fun _ => attempt 1 true)
                     else
                       io_bind
                         (lift (console_error_write
                                  [[units "[ImageGen] Google Error:";
                                    toString e]]))
                         (fun _ =>
                            io_throw (Error ("Image Generation Failed: "
                                             ++ message_text e)))))))
    by reflexivity.
  rewrite Hunfold. clear Hunfold.
  unfold io_bind at 1. rewrite lift_getGoogleClient.
  destruct (getGoogleClient (apiKey config) (world b)) as [[ai|e0|] w1] eqn:Ek;
    cbn [fst]; [| |discriminate].
  - unfold io_try_catch.
    destruct (generation ai b) as [[uri|e0|] b1] eqn:Eg; try discriminate.
    pose proof (generation_world _ _ _ _ Eg) as Hw.
    assert (Hthrows : throws b e0 b1).
    { exists ai. split;
        [exact (getGoogleClient_resolves _ _ _ _ Ek) | exact Eg]. }
    unfold io_bind at 1. rewrite lift_window_aistudio.
    rewrite Hw. cbn [negb andb].
    destruct (isAuthError e0 && is_some (aistudio (world b))) eqn:Ea.
    + unfold io_bind at 1.
      destruct (lift openSelectKey b1) as [[[]|e1|] b2] eqn:Es;
        [| |discriminate].
      * intros H. apply attempt_last_rejects in H as [(c2 & b3 & H2 & Hwrap) | H].
        -- left. exists e0, b1. split; [exact Hthrows|]. right.
           split; [exact Ea|]. now exists b2, c2, b3.
        -- right. now left.
      * intros [= <- <-]. right. right. rewrite <- Hw.
        apply lift_shape in Es as (Es & _).
        now apply openSelectKey_rejects in Es.
    + rewrite wrapped_gives_up. intros [= <- <-]. left.
      exists e0, b1. split; [exact Hthrows|]. left.
      split; [exact Ea | reflexivity].
  - intros [= <- <-]. right. left. now apply getGoogleClient_rejects in Ek.
Qed.

Lemma texts_solid parts : Forall (fun t => truthy t = true) (texts parts).
Proof.
  induction parts as [|p parts IH]; [constructor|]. cbn [texts].
  destruct (part_text p) as [[|c r]|]; try exact IH. now constructor.
Qed.

Lemma join_solid sep ts :
  Forall (fun t => truthy t = true) ts -> ts <> [] ->
  truthy (join sep ts) = true.
Proof.
  intros H Hne. destruct H as [|t ts Ht Hts]; [now elim Hne|].
  destruct t as [|c r]; [discriminate|]. cbn [join]. now destruct ts.
Qed.

(** X22: On the primary provider, a Gemini image model that answers with words
    and no image makes [generateAssetImage] fail with the first hundred code
    units of the words, behind [Model refused to generate image: ] and the
    head of the branch - as long as the words are not taken for an auth-class
    error while a key can be selected. *)
Theorem generateAssetImage_refusal (b : Browser) (key : text)
  (parts : list Part) (rest : list (Completion (option (list Part)))) :
  provider config = google ->
  getGoogleClient (apiKey config) (world b) = (Resolved key, world b) ->
  includes "imagen" (toLowerCase modelName) = false ->
  parts_replies b = Returns (Some parts) :: rest ->
  inline_image parts = None ->
  texts parts <> [] ->
  isAuthError (refused parts) && is_some (aistudio (world b)) = false ->
  fst (generate b)
  = Rejected
      (Error ("Image Generation Failed: Model refused to generate image: "
              ++ substring 0 100 (join " " (texts parts)) ++ "..."))
  /\ events (snd (generate b))
     = events b
       ++ [CallGenerateContentParts (Some key) modelName promptText
             SAFETY_SETTINGS].
Proof.
  intros Hg Hk Hm Hr Hi Ht Hno.
  destruct (generate b) as [out b'] eqn:E. cbn [fst snd]. revert E.
  unfold generateAssetImage, GenerateAssetImage.run. rewrite Hg.
  cbn [ProviderType_eqb].
  change (attempt 2 false b = (out, b') ->
          out = Rejected
            (Error ("Image Generation Failed: Model refused to generate image: "
                    ++ substring 0 100 (join " " (texts parts)) ++ "..."))
          /\ events b'
             = events b
               ++ [CallGenerateContentParts (Some key) modelName promptText
                     SAFETY_SETTINGS]).
  assert (Hgen : generation key b
                 = (Rejected (refused parts),
                    mkBrowser (world b) rest (generateImages_replies b)
                      (events b
                       ++ [CallGenerateContentParts (Some key) modelName
                             promptText SAFETY_SETTINGS]))).
  { unfold GenerateAssetImage.generation. rewrite Hm.
    unfold io_bind, generateContent_parts, next_parts.
    cbn [note parts_replies world generateImages_replies events].
    rewrite Hr. cbn [settle]. rewrite Hi.
    now rewrite (join_solid _ _ (texts_solid parts) Ht). }
  cbn [GenerateAssetImage.attempt]. unfold io_bind at 1.
  rewrite lift_getGoogleClient, Hk. cbn [fst].
  unfold io_try_catch. rewrite Hgen.
  unfold io_bind at 1. rewrite lift_window_aistudio.
  cbn [world negb andb]. rewrite Hno.
  rewrite wrapped_gives_up. intros [= <- <-]. split; reflexivity.
Qed.

(** X23: On the primary provider, a model whose name holds [imagen], in any
    case, is asked through [generateImages] for one square JPEG, and the bytes
    it gives come back as a data URI of type [image/jpeg]. *)
Theorem generateAssetImage_imagen (b : Browser) (key b64 : text)
  (rest : list (Completion (option text))) :
  provider config = google ->
  getGoogleClient (apiKey config) (world b) = (Resolved key, world b) ->
  occurs_ignoring_case "imagen" modelName ->
  generateImages_replies b = Returns (Some b64) :: rest ->
  truthy b64 = true ->
  fst (generate b) = Resolved ("data:image/jpeg;base64," ++ b64)
  /\ events (snd (generate b))
     = events b
       ++ [CallGenerateImages key modelName promptText 1 "image/jpeg" "1:1"].
Proof.
  intros Hg Hk Hm Hr Ht.
  apply toLowerCase_occurs, includes_occurs in Hm.
  destruct (generate b) as [out b'] eqn:E. cbn [fst snd]. revert E.
  unfold generateAssetImage, GenerateAssetImage.run. rewrite Hg.
  cbn [ProviderType_eqb GenerateAssetImage.attempt]. unfold io_bind at 1.
  rewrite lift_getGoogleClient, Hk. cbn [fst].
  unfold io_try_catch, GenerateAssetImage.generation. rewrite Hm.
  unfold io_bind at 1, generateImages.
  cbn [note parts_replies world generateImages_replies events].
  rewrite Hr. cbn [settle]. destruct b64 as [|c r]; [discriminate|].
  now intros [= <- <-].
Qed.
End GoogleImages.

Section OpenAIImages.
Variables (description context : text) (negativePrompt : option text)
          (config : ModelConfig).

Local Abbreviation generate :=
  (generateAssetImage description context negativePrompt config).
Local Abbreviation images_request :=
  (GenerateAssetImage.images_request description context negativePrompt
     config).

Lemma openai_rest_events res b out b' :
  (if negb (ok res) then
     io_throw (Error ("OpenAI Image Gen failed: " ++ res_body res))
   else
     io_bind (lift (response_json res))
       (fun data =>
          io_bind (lift (GenerateAssetImage.b64_json data))
            (fun b64 =>
               match b64 with
               | Some v =>
                   if json_truthy v
                   then io_ret ("data:image/png;base64," ++ json_text v)
                   else io_throw (Error "No image returned from OpenAI")
               | None => io_throw (Error "No image returned from OpenAI")
               end))) b = (out, b') ->
  events b' = events b.
Proof.
  destruct (negb (ok res)); [now intros [= <- <-]|].
  unfold io_bind at 1.
  assert (Hj : lift (response_json res) b
               = (fst (response_json res (world b)), b)).
  { apply (lift_silent _ _ _ (world b)).
    - unfold response_json. now destruct (JSON_parse _).
    - reflexivity. }
  rewrite Hj. unfold response_json.
  destruct (JSON_parse (res_body res)) as [data|]; cbn [fst ret throw];
    [|now intros [= <- <-]].
  unfold io_bind at 1.
  assert (Hb : lift (GenerateAssetImage.b64_json data) b
               = (fst (GenerateAssetImage.b64_json data (world b)), b)).
  { apply (lift_silent _ _ _ (world b)).
    - unfold GenerateAssetImage.b64_json. now destruct data.
    - reflexivity. }
  rewrite Hb. unfold GenerateAssetImage.b64_json.
  destruct data; cbn [fst ret throw]; try (now intros [= <- <-]);
    destruct (chain _ _) as [v|]; try (now intros [= <- <-]);
    destruct (json_truthy v); now intros [= <- <-].
Qed.

(** X24: With an image endpoint of the OpenAI kind, [generateAssetImage] makes
    one call and no more, whatever the reply: the request to
    [/images/generations]. A status that is not a success fails with the body
    of the response; a first entry with a [b64_json] text comes back as a data
    URI of type [image/png]. *)
Theorem generateAssetImage_openai (b : Browser) :
  provider config <> google ->
  GenerateAssetImage.openai_images config = true ->
  events (snd (generate b))
  = events b ++ [Earlier (CallFetch images_request)]
  /\ (forall res rest,
        fetch_replies (world b) = Returns res :: rest ->
        ok res = false ->
        fst (generate b)
        = Rejected (Error ("OpenAI Image Gen failed: " ++ res_body res)))
  /\ (forall res rest data s,
        fetch_replies (world b) = Returns res :: rest ->
        ok res = true ->
        JSON_parse (res_body res) = Some data ->
        chain (chain (prop "data" data) index0) (prop "b64_json")
        = Some (JString s) ->
        truthy s = true ->
        fst (generate b) = Resolved ("data:image/png;base64," ++ s)).
Proof.
  intros Hg Ho. apply provider_not_google in Hg.
  unfold generateAssetImage, GenerateAssetImage.run. rewrite Hg, Ho.
  unfold GenerateAssetImage.openai.
  split; [|split].
  - unfold io_bind at 1. rewrite lift_fetch.
    destruct (fst (fetch images_request (world b))) as [res|e|];
      try reflexivity.
    match goal with
    | |- events (snd (?m ?b1)) = _ => destruct (m b1) as [out b'] eqn:E
    end.
    apply openai_rest_events in E. cbn [snd]. rewrite E. reflexivity.
  - intros res rest Hr Hok. unfold io_bind at 1. rewrite lift_fetch.
    unfold fetch. cbn [record fetch_replies]. rewrite Hr. cbn [fst settle].
    rewrite Hok. reflexivity.
  - intros res rest data s Hr Hok Hp Hc Hs.
    unfold io_bind at 1. rewrite lift_fetch.
    unfold fetch. cbn [record fetch_replies]. rewrite Hr. cbn [fst snd settle].
    rewrite Hok. cbn [negb].
    unfold io_bind at 1, lift at 1, response_json. rewrite Hp.
    cbn [ret world]. unfold io_bind at 1, lift at 1.
    unfold GenerateAssetImage.b64_json.
    assert (Hd : data <> JNull) by (intros ->; discriminate Hc).
    destruct data; try (now elim Hd); rewrite Hc; cbn [ret json_truthy];
      rewrite Hs; reflexivity.
Qed.
End OpenAIImages.

Lemma generateAssetImage_unsupported_witness :
  generateAssetImage "A red fox" "A fable" None ollama_config
    (browser idle [Returns (Some [picture])] [])
  = (Rejected (Error "Selected provider does not support image generation and no fallback Google key available."),
     browser idle [Returns (Some [picture])] []).
Proof.
  refine (generateAssetImage_unsupported "A red fox" "A fable" None
            ollama_config (browser idle [Returns (Some [picture])] [])
            _ eq_refl eq_refl).
  discriminate.
Defined.

Lemma generateAssetImage_fallback_witness :
  fst (generateAssetImage "A red fox" "A fable" None ollama_config
         (with_ambient_key [Throws (Error "429 quota exceeded")]))
  = Rejected (Error "429 quota exceeded")
  /\ events (snd (generateAssetImage "A red fox" "A fable" None ollama_config
                    (with_ambient_key [Throws (Error "429 quota exceeded")])))
     = [] ++ [CallGenerateContentParts (Some (units "AIza-env"))
                "gemini-2.5-flash-image"
                (plain_prompt "A red fox" "A fable") SAFETY_SETTINGS].
Proof.
  refine (generateAssetImage_fallback "A red fox" "A fable" None ollama_config
            (with_ambient_key [Throws (Error "429 quota exceeded")])
            "AIza-env" (Throws (Error "429 quota exceeded")) []
            _ eq_refl eq_refl eq_refl eq_refl _).
  - discriminate.
  - intros e [= <-]. vm_compute. reflexivity.
Defined.

Lemma generateAssetImage_wraps_errors_witness :
  let b := browser idle [Throws (Error "429 quota exceeded")] [] in
  let e := Error "Image Generation Failed: 429 quota exceeded" in
  (exists cause b1,
      image_request_throws "A red fox" "A fable" None google_config
        b cause b1
      /\ (((isAuthError cause && is_some (aistudio (world b))) = false
           /\ wrapped_error cause e)
          \/ ((isAuthError cause && is_some (aistudio (world b))) = true
              /\ exists b2 cause2 b3,
                  lift openSelectKey b1 = (Resolved tt, b2)
                  /\ image_request_throws "A red fox" "A fable" None
                       google_config b2 cause2 b3
                  /\ wrapped_error cause2 e)))
  \/ e = Error "Google API Key is missing"
  \/ In (Throws e) (openSelectKey_replies (world b)).
Proof.
  refine (generateAssetImage_wraps_errors "A red fox" "A fable" None
            google_config
            (browser idle [Throws (Error "429 quota exceeded")] [])
            (snd (generateAssetImage "A red fox" "A fable" None google_config
                    (browser idle [Throws (Error "429 quota exceeded")] [])))
            (Error "Image Generation Failed: 429 quota exceeded")
            eq_refl _).
  vm_compute. reflexivity.
Defined.

Lemma generateAssetImage_refusal_witness :
  fst (generateAssetImage "A red fox" "A fable" None google_config
         (browser idle
            [Returns (Some [words "I cannot draw"; words "that."])] []))
  = Rejected
      (Error ("Image Generation Failed: Model refused to generate image: "
              ++ substring 0 100
                   (join " " (texts [words "I cannot draw"; words "that."]))
              ++ "..."))
  /\ events (snd (generateAssetImage "A red fox" "A fable" None google_config
                    (browser idle
                       [Returns (Some [words "I cannot draw"; words "that."])]
                       [])))
     = [] ++ [CallGenerateContentParts (Some (units "AIza-test"))
                (GenerateAssetImage.modelName google_config)
                (plain_prompt "A red fox" "A fable") SAFETY_SETTINGS].
Proof.
  refine (generateAssetImage_refusal "A red fox" "A fable" None google_config
            (browser idle
               [Returns (Some [words "I cannot draw"; words "that."])] [])
            "AIza-test" [words "I cannot draw"; words "that."] []
            eq_refl eq_refl _ eq_refl eq_refl _ _).
  - vm_compute. reflexivity.
  - discriminate.
  - vm_compute. reflexivity.
Defined.

Lemma generateAssetImage_imagen_witness :
  fst (generateAssetImage "A red fox" "A fable" None imagen_config
         (browser idle [] [Returns (Some (units "/9j/4AAQ"))]))
  = Resolved ("data:image/jpeg;base64," ++ "/9j/4AAQ")
  /\ events (snd (generateAssetImage "A red fox" "A fable" None imagen_config
                    (browser idle [] [Returns (Some (units "/9j/4AAQ"))])))
     = [] ++ [CallGenerateImages "AIza-test"
                (GenerateAssetImage.modelName imagen_config)
                (plain_prompt "A red fox" "A fable") 1 "image/jpeg" "1:1"].
Proof.
  refine (generateAssetImage_imagen "A red fox" "A fable" None imagen_config
            (browser idle [] [Returns (Some (units "/9j/4AAQ"))])
            "AIza-test" "/9j/4AAQ" [] eq_refl eq_refl _ eq_refl eq_refl).
  exists [], (units "Imagen"), (units "-4.0-generate-001").
  split; vm_compute; reflexivity.
Defined.

Lemma generateAssetImage_openai_witness :
  events (snd (generateAssetImage "A red fox" "A fable" None dalle_config
                 (browser (with_fetch [Returns dalle_reply] ambient_key)
                    [Returns (Some [picture])] [])))
  = [] ++ [Earlier (CallFetch
                      (GenerateAssetImage.images_request "A red fox" "A fable"
                         None dalle_config))]
  /\ fst (generateAssetImage "A red fox" "A fable" None dalle_config
            (browser (with_fetch [Returns dalle_reply] ambient_key)
               [Returns (Some [picture])] []))
     = Resolved ("data:image/png;base64," ++ "iVBORw0KGgo=").
Proof.
  destruct (generateAssetImage_openai "A red fox" "A fable" None
              dalle_config
              (browser (with_fetch [Returns dalle_reply] ambient_key)
                 [Returns (Some [picture])] []))
    as (H1 & _ & H3); [discriminate | reflexivity |].
  split; [exact H1|].
  apply (H3 dalle_reply []
           (JObject
              [ field "data"
                  (JArray [JObject [field "b64_json" (str "iVBORw0KGgo=")]]) ])
           "iVBORw0KGgo="); vm_compute; reflexivity.
Defined.

(** ** The callers *)

Lemma update_plot_id p u : plot_id (update_plot p u) = plot_id p.
Proof. now destruct u. Qed.

Lemma merge_plot_id p us : plot_id (merge_plot p us) = plot_id p.
Proof.
  unfold merge_plot. revert p. induction us as [|u us IH]; intros p;
    [reflexivity|].
  cbn [fold_left]. now rewrite IH, update_plot_id.
Qed.

Section VideoGeneratorProofs.
Variables (failedGenerate : text) (plot : PlotPoint)
          (library : list StoryAsset) (uploadMode : UploadMode).

Local Abbreviation handle :=
  (handleGenerate failedGenerate plot library handleUpdatePlot uploadMode).
Local Abbreviation generation :=
  (generateVeoVideo (plot_prompt plot) (imageBase64 plot library uploadMode)
     match plot_aspectRatio plot with
     | Some a => a
     | None => Landscape
     end None).

(** X25: [handleGenerate], with the [onUpdate] that [App] gives it, never
    throws. When the video is generated, the plot points of that id are
    completed, with the address of the video and the time; when the generation
    fails, they are marked failed, keep the video and the time they had, and
    one fixed message is shown, which does not hold the error; while the
    generation does not settle they stay marked as generating. The other plot
    points are left alone. *)
Theorem handleGenerate_settles (s : App) :
  let outcome := fst (generation (world (outside s))) in
  never_throws (fst (handle s))
  /\ plotPoints (snd (handle s))
     = map (fun p =>
              if text_eqb (plot_id p) (plot_id plot)
              then merge_plot p (plot_after outcome (clock s (readings s)))
              else p)
         (plotPoints s)
  /\ alerts (snd (handle s))
     = alerts s ++ shown outcome (fun _ => failedGenerate).
Proof.
  cbv zeta.
  unfold handleGenerate, ui_bind, ui_try_catch, handleUpdatePlot,
    setPlotPoints, Date_now, console_error_value, alert, call, lift.
  cbn [outside clock readings alerts story plotPoints draggedAssetId
       currentPlayingIndex assets world].
  destruct (generation (world (outside s))) as [[url|e|] w'];
    cbn [fst snd plot_after shown outside clock readings alerts story
         plotPoints draggedAssetId currentPlayingIndex assets
         world never_throws console_error_write].
  - split; [exact I|]. split; [|now rewrite app_nil_r].
    rewrite map_map. apply map_ext. intros p.
    destruct (text_eqb (plot_id p) (plot_id plot)) eqn:E;
      [rewrite merge_plot_id, E; now destruct p | now rewrite E].
  - split; [exact I|]. split; [|reflexivity].
    rewrite map_map. apply map_ext. intros p.
    destruct (text_eqb (plot_id p) (plot_id plot)) eqn:E;
      [rewrite merge_plot_id, E; now destruct p | now rewrite E].
  - split; [exact I|]. split; [reflexivity | now rewrite app_nil_r].
Qed.
End VideoGeneratorProofs.

Section AssetProofs.
Variables (currentModelConfig : ModelConfig) (failedImage : text).

Local Abbreviation handle :=
  (handleGenerateAsset currentModelConfig failedImage).

(** X26: [handleGenerateAsset] does nothing for an id that no asset has.
    Otherwise it asks for an image of the first asset of that id, with the
    first two hundred code units of the story as context, and never throws:
    when the image comes, the assets of that id get it and are no longer
    marked as generating; when the operation fails, they keep the image they
    had, are no longer marked, and a message with the name of the asset and
    the message of the error is shown; while the operation does not settle
    they stay marked. The other assets are left alone. *)
Theorem handleGenerateAsset_settles (id : text) (s : App) :
  match find (fun a => text_eqb (asset_id a) id) (assets s) with
  | None => handle id s = (Resolved tt, s)
  | Some asset =>
      let outcome :=
        fst (generateAssetImage (asset_description asset)
               (substring 0 200 (story s)) (asset_negativePrompt asset)
               currentModelConfig (outside s)) in
      never_throws (fst (handle id s))
      /\ assets (snd (handle id s))
         = map (fun a => if text_eqb (asset_id a) id
                         then asset_after outcome a else a)
             (assets s)
      /\ alerts (snd (handle id s))
         = alerts s
           ++ shown outcome
                (fun e => failedImage ++ ": " ++ asset_name asset ++ " ("
                          ++ message_text e ++ ")")
  end.
Proof.
  unfold handleGenerateAsset.
  destruct (find (fun a => text_eqb (asset_id a) id) (assets s))
    as [asset|]; [|reflexivity].
  cbv zeta.
  unfold ui_bind, ui_try_catch, setAssets, console_error_value, alert, call,
    lift.
  cbn [outside clock readings alerts story plotPoints draggedAssetId
       currentPlayingIndex assets world].
  destruct (generateAssetImage _ _ _ _ (outside s)) as [[url|e|] b'];
    cbn [fst snd asset_after shown outside clock readings alerts story
         plotPoints draggedAssetId currentPlayingIndex assets
         world never_throws console_error_write].
  - split; [exact I|]. split; [|now rewrite app_nil_r].
    rewrite map_map. apply map_ext. intros a.
    destruct (text_eqb (asset_id a) id) eqn:E; cbn [generated asset_id];
      rewrite E; reflexivity.
  - split; [exact I|]. split; [|reflexivity].
    rewrite map_map. apply map_ext. intros a.
    destruct (text_eqb (asset_id a) id) eqn:E; cbn [generated asset_id];
      rewrite E; [|reflexivity].
    now destruct a as [? ? ? ? [u|] ? ?].
  - split; [exact I|]. split; [reflexivity | now rewrite app_nil_r].
Qed.
End AssetProofs.

(** ** The asset grid *)

Lemma splice_out_permutation {A} i (l : list A) :
  Permutation l (snd (splice_out i l) ++ fst (splice_out i l)).
Proof.
  revert i; induction l as [|x l IH]; intros [|i]; cbn [splice_out];
    try reflexivity.
  specialize (IH i). destruct (splice_out i l) as [rest out].
  cbn [fst snd] in *. rewrite IH. apply Permutation_middle.
Qed.

Lemma splice_in_permutation {A} i (x : A) l :
  Permutation (x :: l) (splice_in i x l).
Proof.
  revert l; induction i as [|i IH]; intros [|y l]; cbn [splice_in];
    try reflexivity.
  rewrite perm_swap. now apply perm_skip.
Qed.

Lemma splice_out_found {A} i (l : list A) x :
  nth_error l i = Some x -> snd (splice_out i l) = [x].
Proof.
  revert i; induction l as [|y l IH]; intros [|i]; cbn; try discriminate.
  - now intros [= ->].
  - intros H. specialize (IH i H). now destruct (splice_out i l).
Qed.

Lemma splice_out_length {A} i (l : list A) x :
  nth_error l i = Some x -> S (length (fst (splice_out i l))) = length l.
Proof.
  revert i; induction l as [|y l IH]; intros [|i]; cbn; try discriminate.
  - reflexivity.
  - intros H. specialize (IH i H). destruct (splice_out i l). cbn in *. lia.
Qed.

Lemma splice_in_lands {A} i (x : A) l :
  (i <= length l)%nat ->
  nth_error (splice_in i x l) i = Some x
  /\ splice_out i (splice_in i x l) = (l, [x]).
Proof.
  revert l; induction i as [|i IH]; intros [|y l] Hl; cbn in Hl |- *;
    try (split; reflexivity); try lia.
  destruct (IH l ltac:(lia)) as (Hn & Ho). rewrite Ho. now split.
Qed.

(** X27: [handleDrop] never throws, and whatever is dragged and wherever it is
    dropped, the assets after it are the assets before it in some order: none
    is lost and none is doubled. *)
Theorem handleDrop_permutes (targetId : text) (s : App) :
  fst (handleDrop targetId s) = Resolved tt
  /\ Permutation (assets s) (assets (snd (handleDrop targetId s))).
Proof.
  unfold handleDrop.
  destruct (draggedAssetId s) as [[|c r]|]; try (split; reflexivity).
  cbv zeta. destruct (text_eqb _ _); [split; reflexivity|].
  destruct (_ || _); [split; reflexivity|].
  set (i := Z.to_nat (findIndex _ _)). set (j := Z.to_nat (findIndex _ _)).
  destruct (nth_error (assets s) i) as [source|] eqn:Ei;
    [|split; reflexivity].
  destruct (nth_error (assets s) j) as [target|]; [|split; reflexivity].
  destruct (negb _); [split; reflexivity|].
  pose proof (splice_out_permutation i (assets s)) as Hp.
  rewrite (splice_out_found _ _ _ Ei) in Hp.
  destruct (splice_out i (assets s)) as [rest out] eqn:Eo.
  pose proof (splice_out_found _ _ _ Ei) as Hout. rewrite Eo in Hout.
  cbn [fst snd] in *. subst out.
  unfold ui_bind, setAssets, setDraggedAssetId. cbn [fst snd assets].
  split; [reflexivity|].
  rewrite Hp. apply splice_in_permutation.
Qed.

(** X28: When an asset is dragged onto another asset of the same type,
    [handleDrop] puts it where the other was, leaves the order of all the
    others as it was, and ends the drag. *)
Theorem handleDrop_lands (targetId dragged : text) (s : App) (i j : nat)
  (source target : StoryAsset) :
  draggedAssetId s = Some dragged ->
  truthy dragged = true ->
  dragged <> targetId ->
  findIndex (fun a => text_eqb (asset_id a) dragged) (assets s) = Z.of_nat i ->
  findIndex (fun a => text_eqb (asset_id a) targetId) (assets s)
  = Z.of_nat j ->
  nth_error (assets s) i = Some source ->
  nth_error (assets s) j = Some target ->
  asset_type source = asset_type target ->
  nth_error (assets (snd (handleDrop targetId s))) j = Some source
  /\ fst (splice_out j (assets (snd (handleDrop targetId s))))
     = fst (splice_out i (assets s))
  /\ draggedAssetId (snd (handleDrop targetId s)) = None.
Proof.
  intros Hd Ht Hne Hi Hj Hs Htg Hty. unfold handleDrop. rewrite Hd.
  destruct dragged as [|c r]; [discriminate|]. cbv zeta.
  assert (Heq : text_eqb (c :: r) targetId = false).
  { unfold text_eqb. now destruct (list_eq_dec N.eq_dec (c :: r) targetId). }
  rewrite Heq, Hi, Hj.
  replace ((Z.of_nat i =? -1)%Z || (Z.of_nat j =? -1)%Z) with false
    by (symmetry; apply orb_false_iff; split; apply Z.eqb_neq; lia).
  rewrite !Nat2Z.id, Hs, Htg, Hty.
  replace (AssetType_eqb (asset_type target) (asset_type target)) with true
    by now destruct (asset_type target).
  cbn [negb].
  pose proof (splice_out_found _ _ _ Hs) as Hout.
  pose proof (splice_out_length _ _ _ Hs) as Hlen.
  destruct (splice_out i (assets s)) as [rest out].
  cbn [fst snd] in *. subst out.
  unfold ui_bind, setAssets, setDraggedAssetId.
  cbn [fst snd assets draggedAssetId].
  assert (Hjl : (j <= length rest)%nat).
  { assert (j < length (assets s))%nat
      by (apply nth_error_Some; congruence). lia. }
  destruct (splice_in_lands j source rest Hjl) as (Hn & Ho).
  rewrite Ho. now repeat split.
Qed.

Lemma handleDrop_lands_witness :
  nth_error (assets (snd (handleDrop "a1" (dragging "a2" (page (browser idle [] [])))))) 0
  = Some crow
  /\ fst (splice_out 0
            (assets (snd (handleDrop "a1"
                            (dragging "a2" (page (browser idle [] [])))))))
     = fst (splice_out 1 (assets (dragging "a2" (page (browser idle [] [])))))
  /\ draggedAssetId (snd (handleDrop "a1"
                            (dragging "a2" (page (browser idle [] [])))))
     = None.
Proof.
  refine (handleDrop_lands "a1" "a2"
            (dragging "a2" (page (browser idle [] []))) 1 0 crow fox
            eq_refl eq_refl _ eq_refl eq_refl eq_refl eq_refl eq_refl).
  discriminate.
Defined.

(** ** The player *)

Lemma handleVideoEnded_plotPoints s :
  plotPoints (snd (handleVideoEnded s)) = plotPoints s.
Proof.
  unfold handleVideoEnded. destruct (currentPlayingIndex s); [|reflexivity].
  now destruct (_ <? _)%Z.
Qed.

Lemma ended_plotPoints k s : plotPoints (ended k s) = plotPoints s.
Proof.
  induction k as [|k IH]; [reflexivity|]. cbn [ended].
  now rewrite handleVideoEnded_plotPoints.
Qed.

Lemma ended_index k s :
  currentPlayingIndex s = Some 0%Z ->
  (k < length (validVideos (plotPoints s)))%nat ->
  currentPlayingIndex (ended k s) = Some (Z.of_nat k).
Proof.
  intros H0. induction k as [|k IH]; intros Hk; [exact H0|].
  cbn [ended]. unfold handleVideoEnded.
  rewrite IH by lia. rewrite ended_plotPoints.
  replace (Z.of_nat k <? Z.of_nat (length (validVideos (plotPoints s))) - 1)%Z
    with true by (symmetry; apply Z.ltb_lt; lia).
  cbn [setCurrentPlayingIndex snd currentPlayingIndex]. f_equal. lia.
Qed.

(** X29: After [handlePlayAll], the player shows the videos that exist one
    after the other: the [k]-th end of a video leaves it at the video of index
    [k] while there is one, and the end of the last video stops it. *)
Theorem player_plays_through (s : App) (k : nat) :
  let n := length (validVideos (plotPoints s)) in
  let playing := snd (handlePlayAll s) in
  (k < n)%nat ->
  currentPlayingIndex (ended k playing) = Some (Z.of_nat k)
  /\ currentPlayingIndex (ended n playing) = None.
Proof.
  cbv zeta. intros Hk. unfold handlePlayAll.
  replace (Z.of_nat (length (validVideos (plotPoints s))) =? 0)%Z with false
    by (symmetry; apply Z.eqb_neq; lia).
  set (playing := snd (setCurrentPlayingIndex (Some 0%Z) s)).
  assert (Hp : plotPoints playing = plotPoints s) by reflexivity.
  assert (H0 : currentPlayingIndex playing = Some 0%Z) by reflexivity.
  split.
  - apply ended_index; [exact H0 | now rewrite Hp].
  - destruct (length (validVideos (plotPoints s))) as [|m] eqn:En; [lia|].
    cbn [ended]. unfold handleVideoEnded.
    rewrite (ended_index m playing H0) by (rewrite Hp, En; lia).
    rewrite ended_plotPoints, Hp, En.
    replace (Z.of_nat m <? Z.of_nat (S m) - 1)%Z with false
      by (symmetry; apply Z.ltb_ge; lia).
    reflexivity.
Qed.

Lemma player_plays_through_witness :
  currentPlayingIndex
    (ended 0 (snd (handlePlayAll (page (browser idle [] [])))))
  = Some 0%Z
  /\ currentPlayingIndex
       (ended 1 (snd (handlePlayAll (page (browser idle [] [])))))
     = None.
Proof.
  refine (player_plays_through (page (browser idle [] [])) 0 _).
  vm_compute. reflexivity.
Defined.

(** ** What the image operation gives *)

Lemma inline_image_data_uri parts u :
  inline_image parts = Some u -> data_uri u.
Proof.
  induction parts as [|p parts IH]; [discriminate|]. cbn [inline_image].
  destruct (inlineData p) as [[mime [[|c r]|]]|]; try exact IH.
  intros [= <-]. now exists (or_else mime "image/png"), (c :: r).
Qed.

Section ImageResults.
Variables (description context : text) (negativePrompt : option text)
          (config : ModelConfig).

Local Abbreviation generation :=
  (GenerateAssetImage.generation description context negativePrompt config).
Local Abbreviation attempt :=
  (GenerateAssetImage.attempt description context negativePrompt config).
Local Abbreviation attemptFallback :=
  (GenerateAssetImage.attemptFallback description context negativePrompt).

Lemma generation_resolves ai b u b' :
  generation ai b = (Resolved u, b') -> data_uri u.
Proof.
  unfold GenerateAssetImage.generation.
  destruct (includes _ _); unfold io_bind.
  - destruct (generateImages _ _ _ _ _ _ b) as [[b64|e|] b1];
      try discriminate.
    destruct b64 as [[|c r]|]; try discriminate.
    intros [= <- <-]. now exists (units "image/jpeg"), (c :: r).
  - destruct (generateContent_parts _ _ _ _ b) as [[parts|e|] b1];
      try discriminate.
    destruct parts as [parts|]; try discriminate.
    destruct (inline_image parts) as [uri|] eqn:E.
    + intros [= <- <-]. now apply inline_image_data_uri in E.
    + destruct (truthy _); discriminate.
Qed.

Lemma attempt_resolves fuel isRetry b u b' :
  attempt fuel isRetry b = (Resolved u, b') -> data_uri u.
Proof.
  revert isRetry b. induction fuel as [|f IH]; intros isRetry b;
    [discriminate|].
  cbn [GenerateAssetImage.attempt]. unfold io_bind at 1.
  destruct (lift (getGoogleClient (apiKey config)) b) as [[ai|e|] b0];
    try discriminate.
  unfold io_try_catch.
  destruct (generation ai b0) as [[uri|e|] b1] eqn:Eg; try discriminate.
  - intros [= <- <-]. now apply generation_resolves in Eg.
  - unfold io_bind at 1.
    destruct (lift window_aistudio b1) as [[studio|e'|] b2]; try discriminate.
    destruct (_ && _).
    + unfold io_bind at 1.
      destruct (lift openSelectKey b2) as [[[]|e'|] b3]; try discriminate.
      apply IH.
    + unfold io_bind.
      destruct (lift (console_error_write _) b2) as [[[]|e'|] b3];
        discriminate.
Qed.

Lemma attemptFallback_resolves fuel isRetry b u b' :
  attemptFallback fuel isRetry b = (Resolved u, b') -> data_uri u.
Proof.
  revert isRetry b. induction fuel as [|f IH]; intros isRetry b;
    [discriminate|].
  cbn [GenerateAssetImage.attemptFallback]. unfold io_bind at 1.
  destruct (lift process_env_API_KEY b) as [[key|e|] b0]; try discriminate.
  unfold io_try_catch. unfold io_bind at 1.
  destruct (generateContent_parts _ _ _ _ b0) as [[parts|e|] b1].
  - destruct (match parts with Some _ => _ | None => _ end) as [uri|] eqn:E.
    + intros [= <- <-]. destruct parts as [parts|]; [|discriminate].
      now apply inline_image_data_uri in E.
    + unfold io_throw at 1. unfold io_bind at 1.
      destruct (lift window_aistudio b1) as [[studio|e'|] b2];
        try discriminate.
      destruct (_ && _).
      * unfold io_bind at 1.
        destruct (lift openSelectKey b2) as [[[]|e'|] b3]; try discriminate.
        apply IH.
      * unfold io_bind.
        destruct (lift (console_error_write _) b2) as [[[]|e'|] b3];
          discriminate.
  - unfold io_bind at 1.
    destruct (lift window_aistudio b1) as [[studio|e'|] b2]; try discriminate.
    destruct (_ && _).
    + unfold io_bind at 1.
      destruct (lift openSelectKey b2) as [[[]|e'|] b3]; try discriminate.
      apply IH.
    + unfold io_bind.
      destruct (lift (console_error_write _) b2) as [[[]|e'|] b3];
        discriminate.
  - discriminate.
Qed.

(** X30: Whatever the provider and whatever the replies, an image that
    [generateAssetImage] gives is a data URI with a payload in base 64. *)
Theorem generateAssetImage_gives_data_uri (b b' : Browser) (u : text) :
  generateAssetImage description context negativePrompt config b
  = (Resolved u, b') ->
  data_uri u.
Proof.
  unfold generateAssetImage, GenerateAssetImage.run.
  destruct (ProviderType_eqb (provider config) google);
    [apply attempt_resolves|].
  destruct (GenerateAssetImage.openai_images config).
  - unfold GenerateAssetImage.openai, io_bind.
    destruct (lift (fetch _) b) as [[res|e|] b0]; try discriminate.
    destruct (negb (ok res)); [discriminate|].
    destruct (lift (response_json res) b0) as [[data|e|] b1];
      try discriminate.
    destruct (lift (GenerateAssetImage.b64_json data) b1) as [[b64|e|] b2];
      try discriminate.
    destruct b64 as [v|]; [|discriminate].
    destruct (json_truthy v); [|discriminate].
    intros [= <- <-]. now exists (units "image/png"), (json_text v).
  - unfold io_bind.
    destruct (lift process_env_API_KEY b) as [[env|e|] b0]; try discriminate.
    destruct (present env); [apply attemptFallback_resolves | discriminate].
Qed.
End ImageResults.

Lemma generateAssetImage_gives_data_uri_witness :
  data_uri ("data:image/png;base64," ++ "iVBORw0KGgo=").
Proof.
  refine (generateAssetImage_gives_data_uri "A red fox" "A fable" None
            ollama_config (with_ambient_key [Returns (Some [picture])])
            (snd (generateAssetImage "A red fox" "A fable" None ollama_config
                    (with_ambient_key [Returns (Some [picture])])))
            _ _).
  vm_compute. reflexivity.
Defined.

(** ** Without key selection, no second attempt *)

Lemma steady_bind {A B} (m : Async A) (k : A -> Async B) :
  steady m -> (forall a, steady (k a)) -> steady (bind m k).
Proof.
  intros Hm Hk w out w'. unfold bind.
  destruct (m w) as [[a|e|] w1] eqn:E; pose proof (Hm _ _ _ E) as H1.
  - intros H. rewrite (Hk _ _ _ _ H). exact H1.
  - now intros [= <- <-].
  - now intros [= <- <-].
Qed.

Lemma steady_ret {A} (a : A) : steady (ret a).
Proof. now intros w out w' [= <- <-]. Qed.

Lemma steady_throw {A} e : steady (@throw A e).
Proof. now intros w out w' [= <- <-]. Qed.

Lemma steady_never {A} : steady (@never A).
Proof. now intros w out w' [= <- <-]. Qed.

Lemma steady_generateVideos key p : steady (generateVideos key p).
Proof.
  intros w out w'. unfold generateVideos.
  destruct (generateVideos_replies _); now intros [= <- <-].
Qed.

Lemma steady_getVideosOperation key op : steady (getVideosOperation key op).
Proof.
  intros w out w'. unfold getVideosOperation.
  destruct (getVideosOperation_replies _); now intros [= <- <-].
Qed.

Lemma steady_fetch r : steady (fetch r).
Proof.
  intros w out w'. unfold fetch.
  destruct (fetch_replies _); now intros [= <- <-].
Qed.

Lemma steady_createObjectURL blob : steady (createObjectURL blob).
Proof.
  intros w out w'. unfold createObjectURL.
  destruct (createObjectURL_replies _); now intros [= <- <-].
Qed.

Lemma steady_setTimeout ms : steady (setTimeout ms).
Proof. now intros w out w' [= <- <-]. Qed.

Lemma steady_poll fuel key op : steady (poll fuel key op).
Proof.
  revert op. induction fuel as [|f IH]; intros op; cbn [poll];
    destruct (done op); try apply steady_ret; [apply steady_never|].
  apply steady_bind; [apply steady_setTimeout|]. intros _.
  apply steady_bind; [apply steady_getVideosOperation|]. intros op'.
  apply IH.
Qed.

Lemma steady_poll_all key op : steady (poll_all key op).
Proof. intros w out w'. unfold poll_all. apply steady_poll. Qed.

Lemma steady_video_generation prompt image aspectRatio config key :
  steady (GenerateVeoVideo.generation prompt image aspectRatio config key).
Proof.
  apply steady_bind; [apply steady_generateVideos|]. intros op.
  apply steady_bind; [apply steady_poll_all|]. intros op'.
  destruct (video_uri op') as [[|c r]|]; try apply steady_throw.
  apply steady_bind; [apply steady_fetch|]. intros res.
  apply steady_createObjectURL.
Qed.

(** The video operation: what its [try] throws, the call throws. *)
Lemma video_call_gives_up prompt image aspectRatio config key w w1 e :
  aistudio w = None ->
  GenerateVeoVideo.resolve_key config w = (Resolved (Some key), w) ->
  truthy key = true ->
  GenerateVeoVideo.generation prompt image aspectRatio config key w
  = (Rejected e, w1) ->
  generateVeoVideo prompt image aspectRatio config w = (Rejected e, w1).
Proof.
  intros Hno Hk Ht Hgen.
  pose proof (steady_video_generation _ _ _ _ _ _ _ _ Hgen) as Hs.
  unfold generateVeoVideo, GenerateVeoVideo.run.
  cbn [GenerateVeoVideo.attempt]. unfold bind at 1. rewrite Hk.
  destruct key as [|c r]; [discriminate|].
  unfold try_catch. rewrite Hgen.
  unfold bind, window_aistudio. rewrite Hs, Hno.
  cbn [is_some]. now rewrite andb_false_r.
Qed.

(** The error that the Google branch of [generateAssetImage] makes of what
    its [try] threw is never that error itself. *)
Lemma wrapped_differs e :
  Error ("Image Generation Failed: " ++ message_text e) <> e.
Proof.
  intros H. apply (f_equal message) in H. unfold message_text in H.
  cbn [Error message] in H.
  destruct (message e) as [m|]; [|discriminate].
  injection H as H. apply (f_equal (@length N)) in H.
  cbn in H. lia.
Qed.

(** The image operation on the primary provider: what its [try] threw is
    written to the console and a new error is thrown. *)
Lemma image_call_wraps description context negativePrompt config ai b b1 e :
  provider config = google ->
  aistudio (world b) = None ->
  getGoogleClient (apiKey config) (world b) = (Resolved ai, world b) ->
  GenerateAssetImage.generation description context negativePrompt config
    ai b = (Rejected e, b1) ->
  generateAssetImage description context negativePrompt config b
  = (Rejected (Error ("Image Generation Failed: " ++ message_text e)),
     mkBrowser
       (snd (console_error_write
               [[units "[ImageGen] Google Error:"; toString e]] (world b1)))
       (parts_replies b1) (generateImages_replies b1) (events b1)).
Proof.
  intros Hg Hno Hk Hgen.
  assert (Hno1 : aistudio (world b1) = None)
    by now rewrite (generation_world _ _ _ _ _ _ _ _ Hgen).
  unfold generateAssetImage, GenerateAssetImage.run. rewrite Hg.
  cbn [ProviderType_eqb GenerateAssetImage.attempt].
  unfold io_bind at 1. rewrite lift_getGoogleClient, Hk. cbn [fst].
  unfold io_try_catch. rewrite Hgen.
  unfold io_bind at 1. rewrite lift_window_aistudio, Hno1.
  cbn [is_some]. rewrite andb_false_r.
  apply wrapped_gives_up.
Qed.

(** The image operation that falls back to the primary provider: what the
    model throws, the call throws, after a line on the console. *)
Lemma fallback_call_gives_up description context negativePrompt config key
  b e rest :
  provider config <> google ->
  GenerateAssetImage.openai_images config = false ->
  env_API_KEY (world b) (selections (world b)) = Some key ->
  truthy key = true ->
  aistudio (world b) = None ->
  parts_replies b = Throws e :: rest ->
  generateAssetImage description context negativePrompt config b
  = (Rejected e,
     mkBrowser
       (snd (console_error_write
               [[units "Fallback generation failed:"; toString e]] (world b)))
       rest (generateImages_replies b)
       (events b
        ++ [CallGenerateContentParts (Some key) "gemini-2.5-flash-image"
              (GenerateAssetImage.promptText description context
                 negativePrompt)
              SAFETY_SETTINGS])).
Proof.
  intros Hg Ho He Hk Hno Hr. apply provider_not_google in Hg.
  unfold generateAssetImage, GenerateAssetImage.run. rewrite Hg, Ho.
  unfold io_bind at 1. rewrite lift_process_env, He.
  rewrite (truthy_present _ Hk).
  cbn [GenerateAssetImage.attemptFallback].
  unfold io_bind at 1. rewrite lift_process_env, He.
  unfold io_try_catch. unfold io_bind at 1.
  unfold generateContent_parts, next_parts.
  cbn [note parts_replies world generateImages_replies events]. rewrite Hr.
  cbn [settle].
  unfold io_bind at 1. rewrite lift_window_aistudio.
  cbn [world]. rewrite Hno. cbn [is_some]. rewrite andb_false_r.
  unfold io_bind. rewrite lift_console. reflexivity.
Qed.

(** C5, as stated, does not hold for the image operation: on the primary
    provider, without [window.aistudio], the model does not know the key
    and throws an auth-class error; the call asks once and rejects, but with
    a new error made of the message, not with the error that was thrown. *)
Lemma image_auth_error_is_rewrapped :
  provider google_config = google
  /\ aistudio (world image_key_unknown) = None
  /\ fst (GenerateAssetImage.generation "A red fox" "A fable" None
            google_config "AIza-test" image_key_unknown)
     = Rejected (Error "Requested entity was not found.")
  /\ isAuthError (Error "Requested entity was not found.") = true
  /\ fst (generateAssetImage "A red fox" "A fable" None google_config
            image_key_unknown)
     = Rejected (Error "Image Generation Failed: Requested entity was not found.")
  /\ fst (generateAssetImage "A red fox" "A fable" None google_config
            image_key_unknown)
     <> Rejected (Error "Requested entity was not found.").
Proof.
  repeat split; try (vm_compute; reflexivity).
  vm_compute. discriminate.
Qed.

(** C5, amended: when the first attempt of a generation call on the primary
    provider fails with an auth-class error and there is no
    [window.aistudio], no key selection is asked for and nothing more is
    asked of the model.  [analyzeStory] and [polishStory] on the primary
    provider, [generateVeoVideo], and [generateAssetImage] when it falls
    back to the primary provider, reject with that very error.
    [generateAssetImage] on the primary provider rejects with another
    error, whose message is [Image Generation Failed: ] followed by the
    message of the error thrown. *)
Theorem no_retry_without_capability :
  (forall (d : Document) (storyText : text) (config : ModelConfig)
          (lang : Language) (ai : text) (w w1 : World) (e : JsError),
      provider config = google ->
      aistudio w = None ->
      getGoogleClient (apiKey config) w = (Resolved ai, w) ->
      protocol_of d storyText config lang ai w = (Rejected e, w1) ->
      isAuthError e = true ->
      let after := operation_of d storyText config lang w in
      fst after = Rejected e
      /\ trace (snd after) = trace w1
      /\ generateContent_replies (snd after) = generateContent_replies w1
      /\ reselections (since w (snd after)) = 0%nat)
  /\ (forall (prompt : text) (referenceImageBase64 : option text)
             (aspectRatio : AspectRatio) (config : option ModelConfig)
             (key : text) (w w1 : World) (e : JsError),
         aistudio w = None ->
         GenerateVeoVideo.resolve_key config w = (Resolved (Some key), w) ->
         truthy key = true ->
         GenerateVeoVideo.generation prompt referenceImageBase64 aspectRatio
           config key w = (Rejected e, w1) ->
         isAuthError e = true ->
         generateVeoVideo prompt referenceImageBase64 aspectRatio config w
         = (Rejected e, w1))
  /\ (forall (description context : text) (negativePrompt : option text)
             (config : ModelConfig) (key : text) (b : Browser)
             (e : JsError) (rest : list (Completion (option (list Part)))),
         provider config <> google ->
         GenerateAssetImage.openai_images config = false ->
         env_API_KEY (world b) (selections (world b)) = Some key ->
         truthy key = true ->
         aistudio (world b) = None ->
         parts_replies b = Throws e :: rest ->
         isAuthError e = true ->
         let after :=
           generateAssetImage description context negativePrompt config b in
         fst after = Rejected e
         /\ events (snd after)
            = events b
              ++ [CallGenerateContentParts (Some key) "gemini-2.5-flash-image"
                    (GenerateAssetImage.promptText description context
                       negativePrompt)
                    SAFETY_SETTINGS]
         /\ parts_replies (snd after) = rest
         /\ generateImages_replies (snd after) = generateImages_replies b)
  /\ (forall (description context : text) (negativePrompt : option text)
             (config : ModelConfig) (ai : text) (b b1 : Browser)
             (e : JsError),
         provider config = google ->
         aistudio (world b) = None ->
         getGoogleClient (apiKey config) (world b) = (Resolved ai, world b) ->
         GenerateAssetImage.generation description context negativePrompt
           config ai b = (Rejected e, b1) ->
         isAuthError e = true ->
         let after :=
           generateAssetImage description context negativePrompt config b in
         fst after
         = Rejected (Error ("Image Generation Failed: " ++ message_text e))
         /\ fst after <> Rejected e
         /\ events (snd after) = events b1
         /\ parts_replies (snd after) = parts_replies b1
         /\ generateImages_replies (snd after) = generateImages_replies b1
         /\ trace (world (snd after)) = trace (world b1)).
Proof.
  split; [|split; [|split]].
  - intros d storyText config lang ai w w1 e.
    apply structured_call_gives_up.
  - intros prompt image aspectRatio config key w w1 e Hno Hk Ht Hgen _.
    now apply video_call_gives_up with (key := key).
  - intros description context negativePrompt config key b e rest
      Hg Ho He Hk Hno Hr _ after. subst after.
    rewrite (fallback_call_gives_up _ _ _ _ _ _ _ _ Hg Ho He Hk Hno Hr).
    repeat split.
  - intros description context negativePrompt config ai b b1 e
      Hg Hno Hk Hgen _ after. subst after.
    rewrite (image_call_wraps _ _ _ _ _ _ _ _ Hg Hno Hk Hgen).
    cbn [fst snd events parts_replies generateImages_replies world].
    repeat split.
    intros [= H]. exact (wrapped_differs e H).
Qed.

Lemma no_retry_without_capability_witness :
  fst (operation_of Analysis "Once upon a time." google_config en key_unknown)
  = Rejected (Error "Requested entity was not found.")
  /\ fst (operation_of Polish "Once upon a time." google_config en key_unknown)
     = Rejected (Error "Requested entity was not found.")
  /\ fst (generateVeoVideo "A fox tricks a crow" None Landscape
            (Some google_config) video_key_unknown)
     = Rejected (Error "Requested entity was not found.")
  /\ fst (generateAssetImage "A red fox" "A fable" None ollama_config
            (with_ambient_key
               [Throws (Error "Requested entity was not found.")]))
     = Rejected (Error "Requested entity was not found.")
  /\ fst (generateAssetImage "A red fox" "A fable" None google_config
            image_key_unknown)
     = Rejected
         (Error ("Image Generation Failed: "
                 ++ message_text (Error "Requested entity was not found."))).
Proof.
  split; [|split; [|split; [|split]]].
  - refine (proj1
      (proj1 no_retry_without_capability Analysis "Once upon a time."
         google_config en "AIza-test" key_unknown
         (snd (protocol_of Analysis "Once upon a time." google_config en
                 "AIza-test" key_unknown))
         (Error "Requested entity was not found.") _ _ _ _ _));
      vm_compute; reflexivity.
  - refine (proj1
      (proj1 no_retry_without_capability Polish "Once upon a time."
         google_config en "AIza-test" key_unknown
         (snd (protocol_of Polish "Once upon a time." google_config en
                 "AIza-test" key_unknown))
         (Error "Requested entity was not found.") _ _ _ _ _));
      vm_compute; reflexivity.
  - refine (f_equal fst
      (proj1 (proj2 no_retry_without_capability) "A fox tricks a crow" None
         Landscape (Some google_config) "AIza-test" video_key_unknown
         (snd (generateVeoVideo "A fox tricks a crow" None Landscape
                 (Some google_config) video_key_unknown))
         (Error "Requested entity was not found.") _ _ _ _ _));
      vm_compute; reflexivity.
  - refine (proj1
      (proj1 (proj2 (proj2 no_retry_without_capability)) "A red fox"
         "A fable" None ollama_config "AIza-env"
         (with_ambient_key [Throws (Error "Requested entity was not found.")])
         (Error "Requested entity was not found.") [] _ _ _ _ _ _ _));
      try discriminate; vm_compute; reflexivity.
  - refine (proj1
      (proj2 (proj2 (proj2 no_retry_without_capability)) "A red fox"
         "A fable" None google_config "AIza-test" image_key_unknown
         (snd (GenerateAssetImage.generation "A red fox" "A fable" None
                 google_config "AIza-test" image_key_unknown))
         (Error "Requested entity was not found.") _ _ _ _ _));
      vm_compute; reflexivity.
Defined.
